(* ===== verification/_CoqProject ===== *)
-Q . S2P
Prelude.v
JsValue.v
AddressResolver.v
ConfigMutator.v
Settled.v
Heap.v
HeapRefine.v
HeapMutator.v
World.v
Registration.v
HeapRegistration.v
HttpService.v
Process.v
Fleet.v
FleetSafety.v
FleetOrder.v
FleetTurns.v
