(* ===== verification/Prelude.v ===== *)
(** * Verification of the self-registering Express dashboard service

    The program ([src/index.js]) is a small Node.js service.  At start-up
    it (1) picks the address it is reachable at, (2) edits the Prometheus
    scrape configuration [prometheus.yml] next to the script so that the
    job named [prometheus] lists that address, (3) asks the Prometheus
    server to reload, and (4) starts an Express server whose every request
    is counted and timed.  Steps (1)-(3) are the core: they run once, as
    side effects of loading the module, before [app.listen].

    ** Files, in dependency order

    - [Prelude] (this file): the [result] type of JavaScript completions
      (a value or a thrown exception) with its bind notation in
      [js_scope]; ordered association lists ([assoc_get], [assoc_set]),
      which carry a JavaScript object's own properties in key order; the
      monadic search [findM], the shape of [Array.prototype.find] with a
      callback that may throw; runs of a state machine given as a
      relation ([star]) or as a partial function ([exec]); the hint
      databases [js] and the tactics [inv_result] and [case_result].
    - [JsValue]: the values [js-yaml] hands to the program ([value]:
      undefined, null, booleans, numbers, strings, arrays, plain objects)
      and the JavaScript operators the program applies to them: ToBoolean
      ([truthy]), property read ([get_prop], which throws [TypeError] on
      null and undefined), property write ([set_prop], silently ignored on
      primitives because the script is sloppy-mode CommonJS),
      [Array.isArray], [===], [includes], [push].  The predicate [loaded]
      says what a parsed document looks like (no undefined, unique keys,
      no extra properties on arrays).
    - [AddressResolver]: [getExternalIPv4] (index.js 93-103), the [PORT]
      default (line 90) and [targetAddress] (line 107).
    - [ConfigMutator]: the part of [updatePrometheusYML] that works on the
      parsed document (index.js 122-145), as [registerTarget]: the schema
      guard, the search for the job, the initialisation of
      [static_configs] and [targets], and the append-if-absent.  Its
      outcome type [mutation] keeps the ways the code leaves this part:
      an early [return] after an error message or the edited document;
      an uncaught [TypeError] is the [Throw] of the completion.
    - [Settled]: the reading of the specification: the documents on
      which the edit takes no repair branch ([settled]), the target
      set of the job and the insertion into it ([listed]), and the
      family of documents that differ in the target set only
      ([with_targets], [descends]).  These are the words in which
      theorems are stated, not translations of lines of the program.
    - [Heap]: the same values as JavaScript has them in memory: a
      [heap] maps locations to arrays and objects whose properties are
      primitives or references ([hval]), and the operators of [JsValue]
      work on references and change objects where they are
      ([hget_prop], [hset_prop], [hpush], ..., [alloc] for a literal).
      [repr h v t ls] says that the value [v] reads as the tree [t] in
      the heap [h], visiting the locations [ls]; [unfold] computes the
      reading and [store] makes the objects of a tree.
    - [HeapRefine]: what relates a run on the store to a run on the
      tree: outcomes that agree ([sim]), the writes a run may make
      ([edit]), and for each operator of [Heap] that it does on a value
      without sharing what its counterpart of [JsValue] does on the
      tree.
    - [HeapMutator]: lines 122-145 as the code runs them, on references
      ([registerTargetH]), the theorem that this refines
      [registerTarget] on a document without sharing, and what the
      run does in a store with sharing.
    - [World]: what the script can touch: the file system (a
      [gmap] from paths to contents, with the set of paths that refuse
      writes), the console (a list of lines), the HTTP requests handed to
      the network, the listening socket.  [fs.writeFileSync] is given
      as a whole ([writeFileSync]) and as the two system calls it makes
      ([openSync_w], which empties the file, and [writeSync]).
      [Yaml] is the interface of
      the [js-yaml] library ([load], [dump]) as a type class with the
      laws the proofs use; [RefCodec] is an instance, so that the
      theorems proved against the interface have a model and the
      examples run.
    - [Registration]: the whole of [updatePrometheusYML] (index.js
      113-162) as a function from worlds to completions, with the
      relation [registered] that lists its outcomes; the module body
      [main] (lines 90, 105-111, 164, 234-236); and what the event loop
      does afterwards (the two callbacks of lines 155-160 and the
      callback of [app.listen]) as the step relation [step], with its
      function [deliver].
    - [HeapRegistration]: [updatePrometheusYML] with the document in
      a store ([updatePrometheusYMLH]): the parser's objects, the edit
      in place, the document printed from the root.
    - [HttpService]: the metrics registry ([total_req],
      [http_express_req_res_time], lines 184-194), the [response-time]
      observer (lines 196-205) and the three routes (lines 207-232) as
      the step relation [serving], with its function [serve], over
      requests that are pending or answered.
    - [Process]: the event loop of [Registration] and the service of
      [HttpService] as one machine ([system], [moves], [advance]),
      started by the module body ([boot]); its callbacks run in any
      order.
    - [Fleet]: several instances of the program on one configuration
      file.  The module body is cut at its accesses to the file ([pc],
      [advance_member]); a [fleet] is the files and the instances; a
      [move] is a step of one instance or the restart of one;
      [schedule] and [fleet_run] are the sequences of moves, [drive]
      and [serial] the schedules in which an instance is left to
      itself.
    - [FleetSafety]: the invariant of the file under every schedule
      ([fleet_ok]) and the schedules that break what the invariant
      does not cover ([overlap], [torn]).
    - [FleetOrder]: the steps of different instances that can be
      exchanged ([local], [writes], [independent]), and the fleets
      that differ only in what an instance remembers of the files
      ([fleet_equiv], with the moves as morphisms).
    - [FleetTurns]: the schedules the specification assumes, in which
      at most one instance at a time is between its read and its
      write ([busy], [exclusive], [in_turn], [in_turns]), and their
      invariants ([turns_ok], [in_order]).

    ** How the model corresponds to the code

    JavaScript objects are mutable and shared.  The document model of
    [ConfigMutator] is a tree: a job is edited by computing the new job
    and writing it back at the index where [find] found it.  [Heap] and
    [HeapMutator] model the same lines with objects in a store, and
    [HeapMutator.registerTargetH_refines] shows that the tree model is
    exact for documents in which no object is reachable twice
    ([NoDup] of the locations a reading visits), which is what
    [yaml.load] returns for a text without aliases ([store]); the
    whole of [updatePrometheusYML] run on such objects does to every
    world what the tree model does
    ([HeapRegistration.updatePrometheusYMLH_agrees]).  The theorems of
    [ConfigMutator] and [Registration] are about such documents.  A
    YAML alias ([*name]) makes two places of the document the same
    object.  The parser of the model makes no such objects, but
    [registerTargetH] runs on every store, and
    [HeapMutator.alias_registers_both] shows what it does whenever
    the job has a target set: it pushes onto one array, which
    everyone who shares it sees.

    Some definitions translate no line of the program: they are the
    predicates, measures and scenarios in which the theorems are
    stated ([AddressResolver.first_external], the definitions of
    [Settled], [Fleet.rank], [Fleet.holds], [FleetSafety.overlap],
    [FleetOrder.independent], [FleetTurns.busy] and the like, and
    the invariants).  Each says in its comment what it stands for.

    The source does not say in which order the callbacks of the event
    loop run, and the model leaves it open: the callback of
    [app.listen], the reply to the reload request and the requests of
    the service are taken in any order ([Registration.step],
    [Process.moves]).  The order of Node.js is one of these, so what
    is proved of every history holds of the histories Node.js runs.
    What the source does decide is in the model: the call of line 164
    comes before [app.listen] (line 234), so no request is taken
    before registration has returned, or after it has thrown.
    The module body between the two (lines 166-232: the logger, the
    metrics, the routes) is taken to return without an exception, and
    [app.listen] to open the socket.

    Inside one process [updatePrometheusYML] runs without
    interruption: Node.js runs a synchronous function to its end.
    Between processes nothing is atomic but a system call.  [Fleet]
    takes the module body from one access to the file to the next:
    the read of line 116, the opening of line 148 (which empties the
    file) and the writing of line 148 are steps of their own, and what
    the code does between them, which no other process can see, is
    part of the step before.  [Fleet.fleet_of_one] shows that the
    steps of one instance, taken together, are [Registration.main],
    and [FleetOrder.independent_steps_commute] that the steps which
    are not accesses to the file can be taken at any time between the
    steps of the others: only the order of the accesses matters.
    A restart ([Restart]) is a process ended at any place and started
    again: its socket is closed, the files stay as they are.

    Exceptions are values: every operation that can throw returns a
    [result].  A [try]/[catch] is a [match] on the result; an exception
    that no [catch] encloses is the result of the whole function, and at
    the top level it ends the process before [app.listen].

    Numbers are integers or NaN ([JsValue.number]).  The program never
    computes with the document's numbers; it only tests them for
    truthiness and compares [length] with 0, for which a fraction
    or an infinity behaves as any non-zero integer.

    The counter of requests is a natural number and times are integers
    of nanoseconds.  JavaScript counts in doubles, which are exact up
    to 2^53: a counter that is incremented once a request does not
    reach that bound, so no wrap-around is modelled.  The sum of a
    label set ([HttpService.series_sum]) is the exact sum of the times;
    [prom-client] adds doubles of milliseconds, whose sum is rounded
    and can depend on the order of the additions in its last digits.

    No loop of the program needs fuel: each is a [for ... of] over an
    array or a library search over an array, and is a structural
    [Fixpoint] on a list.  The one function with fuel is [Heap.unfold],
    which follows references: its fuel bounds the depth of the objects
    read.  The number of locations a reading visits is always enough
    ([Heap.unfold_terminates]); only a reference cycle, which a parser
    never builds from a text without aliases, exhausts every bound
    ([Heap.unfold_cycle]).  [updatePrometheusYMLH] reads with the
    number of objects of the store as fuel, which is enough for a
    document without sharing ([HeapRegistration.repr_size]).
    An instance of [Fleet] has seven steps at most ([rank]); [drive]
    and [finish] take seven as fuel, which [Fleet.finish_rank] shows
    to be enough, and a fleet of [n] instances takes at most [7 * n]
    steps ([Fleet.fleet_terminates]).

    ** What the theorems show

    - [AddressResolver]: [getExternalIPv4] returns the first address, in
      enumeration order, that is IPv4 and not internal; it returns
      [127.0.0.1] exactly when there is none; it agrees with the
      reference definition "head of the filtered concatenation".
    - [ConfigMutator]: on every branch, what [registerTarget] does:
      which documents make it return early, which make it throw, and
      what the edited document is.  Registering is idempotent; it keeps
      the document [loaded]; it leaves every other job, and every other
      key of the document, of the job and of the target group, as it was;
      the target list gains exactly the new address, at the end, when it
      was absent, and is unchanged when it was present.
    - [Settled]: on a settled document [registerTarget] is the
      insertion of the specification into the target set, and gives a
      settled document; insertions commute up to the order of the
      addresses ([all_listed] is [Proper] for permutations).
    - [Heap], [HeapRefine], [HeapMutator]: a value of the store has at
      most one reading, which [unfold] finds; [store] followed by
      [unfold] is the identity on trees; each operator on references
      does what the operator on trees does, as long as the value has no
      sharing, and a write to a property amounts to replacing a child
      of the tree ([focus]).  The code of lines 122-145 on references
      refines [registerTarget]: the same early returns, the same
      [TypeError], the same answer to "was the address added", and a
      root that reads as the edited document; it writes to no object
      outside the document.  In every store, sharing included, a run
      on a job that has a target set takes no repair branch, pushes
      the address onto the one array unless it is there, and changes
      no other object: a job that shares the array has the address
      too ([alias_registers_both]; [alias_heap_reads] compares the
      run with the edit of the tree on an example).
    - [Registration]: [updatePrometheusYML] returns in exactly the ways
      [registered] lists.  What it writes is read back as the edited
      document; a second run on the world the first left prints the same
      text and reports the address as present; a missing or malformed
      file and a missing job change no file and send nothing; no other
      file is ever touched; the reload request is sent once, exactly
      when a job was edited, also when the write failed.  When the
      first group of the job is itself a list, the run reports success
      and the file holds the document as it was.  [main] reaches
      [app.listen] exactly when the edit does not throw; an empty
      document makes it throw.  The event loop afterwards writes no
      file, sends nothing, and handles one reply at most.
    - [HttpService]: along every run the counter equals the number of
      responses written and of observations; no request is answered
      twice and none is lost; a pending request on [/slow] blocks no
      other; the exposition served by [/metrics] does not count the
      request that asks for it; the labels of an observation are the
      method, the URL as received and the status code; what the
      registry exposes does not
      depend on the order in which the event loop took its turns
      (registries are compared up to the order of their observations,
      [registry_equiv], and the views of the histogram are [Proper]
      for it).
    - [Process]: a history of the program is a run of the event loop
      of registration and a run of the service; it is empty when the
      module body threw; requests and replies can be taken in any
      order, with the same final state; the configuration file is never written while
      the service runs; and the address written into the file carries
      the port the socket is opened on ([advertised_is_served], which
      joins the resolver, the edit and [app.listen]).
    - [Fleet]: one instance alone is [main]; every schedule ends;
      instances that start one after the other are all registered, in
      whatever order.
    - [FleetSafety]: under every schedule, restarts included, the file
      is empty or holds the document it held at the start with
      addresses of the fleet added at the end of the target set.  That
      is all that holds: an instance that reads before another writes
      and writes after it removes the other's address
      ([lost_update]); an instance that reads between the opening and
      the writing of another goes down with the [TypeError] of line
      122 ([torn_read]); an instance ended between the two leaves a
      file on which no instance starts again
      ([torn_file_stops_all]).  Otherwise a restart brings the
      address of the instance into the file ([restart_recovers]),
      the file has the address of an instance at the moment the
      instance prints that it updated the file ([writer_is_listed]),
      and however often the instances are started the target set
      has one entry an instance at most beside those it started with
      ([fleet_bounded]).
    - [FleetOrder]: two steps of different instances lead to the same
      fleet in either order when one of them is local or when neither
      writes; a move takes equivalent fleets to equivalent fleets.
    - [FleetTurns]: one writer at a time is all the program needs.
      When the instances take turns at the file, with any order of
      the other steps and with restarts, no instance goes down and
      the address of every instance that is past its write is in the
      file ([turns_register]); a turn can always be taken, and when
      all instances are at their end they are all [Up] and all
      listed ([turns_complete]).  Without restarts such a schedule
      is serializable: it leaves the document that the instances
      leave when they run one after the other in the order of their
      writes ([turns_serializable], with [in_order] as invariant).
      The schedule of [lost_update] does not take turns
      ([racing_not_in_turns]).

    ** Examples and their sizes

    The theorems with hypotheses are applied to concrete inputs: the
    documents [doc1] to [doc7] of [ConfigMutator], the worlds [disk],
    [protected_disk] and [empty_disk] of [Registration] with the
    reference codec, the runs [scenario] and [interleaved] of
    [HttpService], the stores [heap3] (the objects of [doc3], 12
    locations) and [alias_heap] (7 locations, one of them shared) of
    [HeapMutator] and [Heap], the history [busy_start] of
    [Process] (five turns, and [late_start], the same turns in
    another order), and the fleet [pair] of [Fleet] (two
    instances on the file of [doc3]) with the schedules [shaken],
    [racing] (fourteen steps), [filling] and [cut_short] of
    [FleetSafety] and [by_turns] (fourteen steps) of [FleetTurns].
    They evaluate by [vm_compute] in well under a second each.

    ** Not modelled, and why

    - The text format of YAML, anchors and aliases included.
      [js-yaml] is a library the program only calls; it is represented
      by the interface [Yaml], on trees.  Sharing between objects is
      modelled in [Heap], but the interface returns trees: a world in
      which [yaml.load] returns shared objects is not modelled.
    - [winston], [winston-loki], [prom-client]'s default metrics and
      text exposition: libraries the program only calls.  Of Express,
      the model has the matching of a [GET] request against the three
      paths (without regard to case, one trailing slash allowed) and
      the 404 answer; other methods and middleware internals are left
      out.  [./util] ([doSomeHeavyTask]) is not part of the sources
      given; how it settles is an input of the model.
    - The lines 1-77 of [index.js], a commented-out earlier version.
    - Writes and reads that are cut in the middle of the text: the
      opening and the writing of [fs.writeFileSync] are two steps, but
      the writing of the text and the reading of a file are one step
      each, as they are for a file of this size.
    - The collector.  What Prometheus does with the file when the
      reload request arrives is outside the program; the model has
      the request and its reply.
    - A failure of [app.listen] itself (the port being taken), an
      exception of lines 166-232 (the construction of the logger, of
      the metrics and of the routes), and a task of [/slow] that is
      rejected with something that has no [message].
    - The order in which Node.js runs the callbacks: every order is
      a history of the model.
    - The order of the keys of a JavaScript object.  An object of the
      model is an association list in the order of insertion; a
      JavaScript object lists the keys that are array indices first,
      in ascending order.  The law [dump_load] of [Yaml] is assumed of
      every [loaded] value, also of association lists that are the
      keys of no JavaScript object; the program adds the keys
      [static_configs] and [targets] only, which are no indices.  The instances of a fleet are taken to have a socket
      each: they run with different ports, or on machines that share
      the directory.
    - Inherited properties of [Object.prototype] and [Array.prototype].
      None of the property names the program reads ([scrape_configs],
      [job_name], [static_configs], [targets], [length], [0]) is
      inherited by a plain object. *)

From stdpp Require Import base option list.

Declare Scope js_scope.
Delimit Scope js_scope with js.

(** ** Completions: a value or a thrown exception *)

Inductive result (E A : Type) : Type :=
| Ok (a : A)
| Throw (e : E).

Arguments Ok {E A} a.
Arguments Throw {E A} e.

Definition result_bind {E A B} (f : A → result E B) (r : result E A) : result E B :=
  match r with
  | Ok a => f a
  | Throw e => Throw e
  end.

Definition result_map {E A B} (f : A → B) (r : result E A) : result E B :=
  match r with
  | Ok a => Ok (f a)
  | Throw e => Throw e
  end.

Definition is_ok {E A} (r : result E A) : bool :=
  match r with
  | Ok _ => true
  | Throw _ => false
  end.

Notation "'let*' x ':=' c 'in' k" := (result_bind (fun x => k) c)
  (at level 10, x name, c at level 100, k at level 200) : js_scope.

Open Scope js_scope.

#[export] Instance result_eq_dec {E A} `{EqDecision E, EqDecision A} :
  EqDecision (result E A).
Proof. solve_decision. Defined.

(** ** Ordered association lists: the own properties of an object *)

Section assoc.
Context {K V : Type} `{EqDecision K}.
Implicit Types (k : K) (v : V) (l : list (K * V)).

Fixpoint assoc_get k l : option V :=
  match l with
  | [] => None
  | (k', v') :: l' => if decide (k = k') then Some v' else assoc_get k l'
  end.

(** Writing an existing key keeps its place; a new key goes last. *)
Fixpoint assoc_set k v l : list (K * V) :=
  match l with
  | [] => [(k, v)]
  | (k', v') :: l' =>
      if decide (k = k') then (k, v) :: l' else (k', v') :: assoc_set k v l'
  end.

Definition keys l : list K := l.*1.

(** The place of the first occurrence of a key among the keys. *)
Fixpoint key_index k (ks : list K) : option nat :=
  match ks with
  | [] => None
  | k' :: ks' => if decide (k = k') then Some 0 else S <$> key_index k ks'
  end.

End assoc.

(** ** Search with a callback that may throw *)

Section findM.
Context {E A : Type}.
Implicit Types (p : A → result E bool) (l : list A).

(** [findM p l] is the index and the value of the first element on which
    [p] answers [true]; it throws what [p] throws on an earlier element. *)
Fixpoint findM p l : result E (option (nat * A)) :=
  match l with
  | [] => Ok None
  | x :: l' =>
      let* b := p x in
      if b : bool then Ok (Some (0, x))
      else result_map (fmap (prod_map S id)) (findM p l')
  end.

End findM.

(** ** Runs of a state machine *)

(** [star step s es s']: the machine goes from [s] to [s'] by the
    events [es], first event first. *)
Section star.
Context {S E : Type}.
Variable step : S → E → S → Prop.

Inductive star : S → list E → S → Prop :=
| star_nil s : star s [] s
| star_snoc s es s' e s'' : star s es s' → step s' e s'' → star s (es ++ [e]) s''.

End star.

(** The same for a machine given as a partial function. *)
Section exec.
Context {S E : Type}.
Variable f : E → S → option S.

Fixpoint exec (es : list E) (s : S) : option S :=
  match es with
  | [] => Some s
  | e :: es' =>
      match f e s with
      | Some s' => exec es' s'
      | None => None
      end
  end.

End exec.

(** ** Tactics and hint databases *)

Create HintDb js discriminated.
Create Rewrite HintDb js.

(** [case_result r] splits on a completion and names the two cases. *)
Ltac case_result r :=
  let a := fresh "a" in
  let e := fresh "e" in
  let Hr := fresh "Hr" in
  destruct r as [a | e] eqn:Hr; simpl in *.

(** [inv_result] opens binds in hypotheses whose outcome is known. *)
Ltac inv_result :=
  repeat match goal with
  | H : result_bind _ ?r = _ |- _ =>
      let a := fresh "a" in
      let e := fresh "e" in
      let Hr := fresh "Hr" in
      destruct r as [a | e] eqn:Hr; simpl in H; try discriminate H
  | H : result_map _ ?r = _ |- _ =>
      let a := fresh "a" in
      let e := fresh "e" in
      let Hr := fresh "Hr" in
      destruct r as [a | e] eqn:Hr; simpl in H; try discriminate H
  | H : Ok _ = Ok _ |- _ => injection H as H; try subst
  | H : Throw _ = Throw _ |- _ => injection H as H; try subst
  | H : Ok _ = Throw _ |- _ => discriminate H
  | H : Throw _ = Ok _ |- _ => discriminate H
  end.

(** ** Lemmas on completions *)

Section result_lemmas.
Context {E A B : Type}.
Implicit Types (f : A → result E B) (r : result E A).

Lemma result_bind_Ok f r b :
  result_bind f r = Ok b ↔ ∃ a, r = Ok a ∧ f a = Ok b.
Proof.
  destruct r as [a|e]; simpl; split; [eauto | by intros (? & [= <-] & ?) | done |].
  by intros (? & ? & _).
Qed.

Lemma result_bind_Throw f r e :
  result_bind f r = Throw e ↔ r = Throw e ∨ ∃ a, r = Ok a ∧ f a = Throw e.
Proof.
  destruct r as [a|e']; simpl; split.
  - intros Hf. right. by exists a.
  - by intros [?|(? & [= <-] & ?)].
  - intros [= ->]. by left.
  - by intros [[= ->]|(? & ? & _)].
Qed.

Lemma result_map_Ok (g : A → B) r b :
  result_map g r = Ok b ↔ ∃ a, r = Ok a ∧ g a = b.
Proof.
  destruct r as [a|e]; simpl; split; [intros [= <-]; eauto | | done |].
  - by intros (? & [= <-] & <-).
  - by intros (? & ? & _).
Qed.

Lemma result_map_Throw (g : A → B) r e :
  result_map g r = Throw e ↔ r = Throw e.
Proof. destruct r; simpl; split; intros [=]; by subst. Qed.

End result_lemmas.

(** ** Lemmas on lists *)

Section list_lemmas.
Context {A : Type} (P : A → Prop) `{∀ x, Decision (P x)}.

Lemma filter_nil_Forall (l : list A) : filter P l = [] ↔ Forall (λ x, ¬ P x) l.
Proof.
  induction l as [|x l IH]; [by split|].
  rewrite filter_cons, Forall_cons. case_decide; [|by rewrite IH; intuition].
  split; [done | by intros [? _]].
Qed.

Lemma filter_Forall_id (l : list A) : Forall P l → filter P l = l.
Proof.
  induction 1 as [|x l Hx _ IH]; [done|].
  by rewrite filter_cons, decide_True, IH.
Qed.

Lemma head_filter_Some (l : list A) x :
  head (filter P l) = Some x ↔
  ∃ pre post, l = pre ++ x :: post ∧ Forall (λ y, ¬ P y) pre ∧ P x.
Proof.
  induction l as [|y l IH]; simpl.
  - split; [done | intros (pre & post & Hl & _)]. by destruct pre.
  - rewrite filter_cons. case_decide as Hy; simpl.
    + split.
      * intros [= ->]. exists [], l. by repeat split.
      * intros ([|z pre] & post & Hl & Hpre & Hx); simplify_eq/=; [done|].
        apply Forall_cons in Hpre as [? _]. done.
    + rewrite IH. split.
      * intros (pre & post & -> & Hpre & Hx). exists (y :: pre), post.
        repeat split; [by constructor | done].
      * intros ([|z pre] & post & Hl & Hpre & Hx); simplify_eq/=; [done|].
        apply Forall_cons in Hpre as [_ Hpre]. eauto.
Qed.

End list_lemmas.

(** ** Lemmas on association lists *)

Section assoc_lemmas.
Context {K V : Type} `{EqDecision K}.
Implicit Types (k : K) (v : V) (l : list (K * V)).

Lemma assoc_get_set_eq k v l : assoc_get k (assoc_set k v l) = Some v.
Proof.
  induction l as [|[k' v'] l IH]; simpl; repeat case_decide; simpl;
    repeat case_decide; congruence.
Qed.

Lemma assoc_get_set_ne k k' v l :
  k ≠ k' → assoc_get k' (assoc_set k v l) = assoc_get k' l.
Proof.
  intros Hne. induction l as [|[k'' v'] l IH]; simpl; repeat case_decide; simpl;
    repeat case_decide; congruence.
Qed.

Lemma assoc_get_set k k' v l :
  assoc_get k' (assoc_set k v l) = if decide (k = k') then Some v else assoc_get k' l.
Proof.
  case_decide; [subst; apply assoc_get_set_eq | by apply assoc_get_set_ne].
Qed.

Lemma assoc_get_None k l : assoc_get k l = None ↔ k ∉ keys l.
Proof.
  unfold keys. induction l as [|[k' v'] l IH]; simpl.
  - split; [intros _; apply not_elem_of_nil | done].
  - rewrite not_elem_of_cons. case_decide; naive_solver.
Qed.

Lemma assoc_get_Some_elem k v l : assoc_get k l = Some v → (k, v) ∈ l.
Proof.
  induction l as [|[k' v'] l IH]; simpl; [done|].
  case_decide; [intros [= ->]; subst; left | right; auto].
Qed.

Lemma assoc_set_id k v l : assoc_get k l = Some v → assoc_set k v l = l.
Proof.
  induction l as [|[k' v'] l IH]; simpl; [done|].
  case_decide; [intros [= ->]; by subst | intros; f_equal; auto].
Qed.

Lemma assoc_set_set k v v' l : assoc_set k v (assoc_set k v' l) = assoc_set k v l.
Proof.
  induction l as [|[k' w] l IH]; simpl; repeat case_decide; simpl;
    repeat case_decide; congruence.
Qed.

(** The key order of an object after a write. *)
Lemma keys_assoc_set k v l :
  keys (assoc_set k v l) = if assoc_get k l is Some _ then keys l else keys l ++ [k].
Proof.
  unfold keys. induction l as [|[k' v'] l IH]; csimpl; [done|].
  case_decide; csimpl; [by subst|]. rewrite IH. by destruct (assoc_get k l).
Qed.

Lemma NoDup_keys_assoc_set k v l : NoDup (keys l) → NoDup (keys (assoc_set k v l)).
Proof.
  intros Hnd. rewrite keys_assoc_set.
  destruct (assoc_get k l) eqn:Hget; [done|].
  apply NoDup_app. split_and!; [done | | apply NoDup_singleton].
  intros x Hx ->%list_elem_of_singleton. by apply assoc_get_None in Hget.
Qed.

(** Taking the entries of a key out of a list without repeated keys
    takes out one key. *)
Lemma assoc_get_app k l l' :
  assoc_get k (l ++ l') =
  match assoc_get k l with
  | Some v => Some v
  | None => assoc_get k l'
  end.
Proof.
  induction l as [|[k' v'] l IH]; simpl; [done|]. by case_decide.
Qed.

Lemma assoc_get_filter_ne k k' l :
  assoc_get k' (filter (λ p, p.1 ≠ k) l) = if decide (k' = k) then None else assoc_get k' l.
Proof.
  induction l as [|[k1 v1] l IH]; simpl; [by case_decide|].
  rewrite filter_cons. simpl. repeat (case_decide; simpl; subst); try done; congruence.
Qed.

(** With keys that occur once, a lookup is membership, and does not
    depend on the order of the entries. *)
Lemma assoc_get_Some_NoDup k v l :
  NoDup (keys l) → assoc_get k l = Some v ↔ (k, v) ∈ l.
Proof.
  intros Hnd. split; [apply assoc_get_Some_elem|].
  unfold keys in Hnd. induction l as [|[k' v'] l IH]; simpl; [by intros ?%elem_of_nil|].
  apply NoDup_cons in Hnd as [Hk' Hnd].
  intros [[= -> ->]|Hin]%elem_of_cons; [by rewrite decide_True|].
  rewrite decide_False; [by apply IH|]. intros ->. apply Hk', list_elem_of_fmap.
  by exists (k', v).
Qed.

Lemma assoc_get_Permutation k l l' :
  NoDup (keys l) → l ≡ₚ l' → assoc_get k l = assoc_get k l'.
Proof.
  intros Hnd Hp. assert (NoDup (keys l')) as Hnd' by (unfold keys in *; by rewrite <- Hp).
  destruct (assoc_get k l) as [v|] eqn:Hl, (assoc_get k l') as [v'|] eqn:Hl'; [| | |done].
  - apply assoc_get_Some_NoDup in Hl; [|done]. rewrite Hp in Hl.
    apply assoc_get_Some_NoDup in Hl; [|done]. congruence.
  - apply assoc_get_Some_NoDup in Hl; [|done]. apply assoc_get_None in Hl'.
    destruct Hl'. unfold keys. apply list_elem_of_fmap. exists (k, v). by rewrite <- Hp.
  - apply assoc_get_Some_NoDup in Hl'; [|done]. apply assoc_get_None in Hl.
    destruct Hl. unfold keys. apply list_elem_of_fmap. exists (k, v'). by rewrite Hp.
Qed.

Lemma keys_filter_ne k v l :
  NoDup (keys l) → assoc_get k l = Some v →
  keys l ≡ₚ k :: keys (filter (λ p, p.1 ≠ k) l).
Proof.
  unfold keys. induction l as [|[k' v'] l IH]; simpl; [done|].
  intros [Hk' Hnd]%NoDup_cons. rewrite filter_cons. simpl. case_decide as Hk.
  - subst k'. intros _. rewrite decide_False by naive_solver. f_equiv.
    rewrite filter_Forall_id; [done|]. apply Forall_forall.
    intros [k1 v1] Hin Heq. simpl in Heq. subst k1.
    apply Hk', list_elem_of_fmap. by exists (k, v1).
  - intros Hget. rewrite decide_True by done. simpl. rewrite (IH Hnd Hget).
    apply Permutation_swap.
Qed.

(** Reading and writing by key are reading and writing at the place
    of the key. *)
Lemma assoc_get_key_index k l :
  assoc_get k l = key_index k (keys l) ≫= λ i, l.*2 !! i.
Proof.
  unfold keys. induction l as [|[k' v'] l IH]; csimpl; [done|].
  case_decide; [done|]. rewrite IH. by destruct (key_index k l.*1).
Qed.

Lemma assoc_set_key_index k v l :
  keys (assoc_set k v l) = from_option (λ _, keys l) (keys l ++ [k]) (key_index k (keys l)) ∧
  (assoc_set k v l).*2 =
    from_option (λ i, <[i := v]> l.*2) (l.*2 ++ [v]) (key_index k (keys l)).
Proof.
  unfold keys. induction l as [|[k' v'] l [IH1 IH2]]; csimpl; [done|].
  case_decide; csimpl; [by subst|]. rewrite IH1, IH2.
  by destruct (key_index k l.*1).
Qed.

Lemma key_index_lt k (ks : list K) i : key_index k ks = Some i → i < length ks.
Proof.
  revert i. induction ks as [|k' ks IH]; simpl; intros i; [done|].
  case_decide; [intros [= <-]; lia|]. intros (j & Hj & ->)%fmap_Some.
  specialize (IH j Hj). lia.
Qed.

End assoc_lemmas.

#[export] Hint Rewrite @assoc_get_set_eq : js.
#[export] Hint Rewrite @assoc_set_set : js.
#[export] Hint Resolve NoDup_keys_assoc_set : js.

(** ** Lemmas on [findM] *)

Section findM_lemmas.
Context {E A : Type}.
Implicit Types (p : A → result E bool) (l : list A).

Lemma findM_None p l :
  findM p l = Ok None ↔ Forall (λ x, p x = Ok false) l.
Proof.
  induction l as [|x l IH]; simpl; [by split|].
  rewrite Forall_cons, <- IH. destruct (p x) as [[|]|]; simpl; [naive_solver| |naive_solver].
  destruct (findM p l) as [[[]|]|]; simpl; naive_solver.
Qed.

(** What was found is in the list, satisfies [p], and nothing before it
    does. *)
Lemma findM_Some p l i x :
  findM p l = Ok (Some (i, x)) ↔
  l !! i = Some x ∧ p x = Ok true ∧ Forall (λ y, p y = Ok false) (take i l).
Proof.
  revert i. induction l as [|y l IH]; intros i; simpl.
  - split; [done | by intros [? _]].
  - destruct (p y) as [[|]|] eqn:Hy; simpl.
    + split.
      * intros [= <- <-]. by rewrite take_0.
      * destruct i as [|i]; simpl; [naive_solver|].
        intros (_ & _ & Hall). apply Forall_cons in Hall as [? _]. congruence.
    + rewrite result_map_Ok. split.
      * intros ([[j z]|] & Hfind & Hmap); simplify_eq/=.
        apply IH in Hfind as (? & ? & ?). split_and!; [done..|by constructor].
      * destruct i as [|i]; simpl; [intros ([= ->] & ? & _); congruence|].
        intros (Hl & Hx & Hall). apply Forall_cons in Hall as [_ Hall].
        exists (Some (i, x)). split; [|done]. apply IH. done.
    + split; [done|]. destruct i as [|i]; simpl; [intros ([= ->] & ? & _); congruence|].
      intros (_ & _ & Hall). apply Forall_cons in Hall as [? _]. congruence.
Qed.

(** The search throws exactly when the callback throws on an element
    that no match precedes. *)
Lemma findM_Throw p l e :
  findM p l = Throw e ↔
  ∃ i x, l !! i = Some x ∧ p x = Throw e ∧ Forall (λ y, p y = Ok false) (take i l).
Proof.
  induction l as [|y l IH]; simpl.
  - split; [done | by intros (? & ? & ? & _)].
  - destruct (p y) as [[|]|] eqn:Hy; simpl.
    + split; [done|]. intros ([|i] & x & Hl & Hx & Hall); simplify_eq/=; [congruence|].
      apply Forall_cons in Hall as [? _]. congruence.
    + rewrite result_map_Throw, IH. split.
      * intros (i & x & ? & ? & ?). exists (S i), x. split_and!; [done..|by constructor].
      * intros ([|i] & x & Hl & Hx & Hall); simplify_eq/=; [congruence|].
        apply Forall_cons in Hall as [_ Hall]. eauto.
    + split.
      * intros [= <-]. exists 0, y. by rewrite take_0.
      * intros ([|i] & x & Hl & Hx & Hall); simplify_eq/=; [congruence|].
        apply Forall_cons in Hall as [? _]. congruence.
Qed.

(** Overwriting the element that was found by one that also satisfies
    the callback finds the new element, at the same index. *)
Lemma findM_insert p l i x y :
  findM p l = Ok (Some (i, x)) → p y = Ok true →
  findM p (<[i := y]> l) = Ok (Some (i, y)).
Proof.
  intros (Hl & _ & Hall)%findM_Some Hy. apply findM_Some. split_and!; [|done|].
  - apply list_lookup_insert_eq. by eapply lookup_lt_Some.
  - by rewrite take_insert_ge.
Qed.

Lemma findM_Some_lookup p l i x : findM p l = Ok (Some (i, x)) → l !! i = Some x.
Proof. by intros (? & _)%findM_Some. Qed.

Lemma findM_Some_holds p l i x : findM p l = Ok (Some (i, x)) → p x = Ok true.
Proof. by intros (_ & ? & _)%findM_Some. Qed.

End findM_lemmas.

#[export] Hint Resolve findM_Some_lookup findM_Some_holds : js.

(** ** Lemmas on runs *)

Section star_lemmas.
Context {S E : Type}.
Variable step : S → E → S → Prop.

Lemma star_one s e s' : step s e s' → star step s [e] s'.
Proof. intros Hstep. apply (star_snoc step s [] s); [constructor|done]. Qed.

Lemma star_app s es s' es' s'' :
  star step s es s' → star step s' es' s'' → star step s (es ++ es') s''.
Proof.
  intros Hs. induction 1 as [|s1 es1 s2 e s3 _ IH Hstep].
  - by rewrite app_nil_r.
  - rewrite app_assoc. eapply star_snoc; [by apply IH|done].
Qed.

Lemma star_cons s e s' es s'' :
  step s e s' → star step s' es s'' → star step s (e :: es) s''.
Proof. intros Hstep%star_one. apply (star_app s [e]). done. Qed.

Lemma star_nil_inv s s' : star step s [] s' → s = s'.
Proof. inversion 1 as [|? es ? ? ? _ _ Heq]; [done|by destruct es]. Qed.

Lemma star_cons_inv s e es s'' :
  star step s (e :: es) s'' → ∃ s', step s e s' ∧ star step s' es s''.
Proof.
  intros Hs. remember (e :: es) as l eqn:Hl. revert e es Hl.
  induction Hs as [|s es1 s2 e1 s3 Hs IH Hstep]; intros e es Hl; [done|].
  destruct es1 as [|e' es1]; simpl in Hl; injection Hl as -> <-.
  - apply star_nil_inv in Hs as ->. exists s3. split; [done|constructor].
  - destruct (IH e es1 eq_refl) as (s' & Hstep' & Hs').
    exists s'. split; [done|by econstructor].
Qed.

(** A property that every step keeps holds all along a run. *)
Lemma star_invariant (P : S → Prop) s es s' :
  (∀ s1 e s2, P s1 → step s1 e s2 → P s2) → star step s es s' → P s → P s'.
Proof. intros Hkeep. induction 1; eauto. Qed.

(** A machine given as a relation and as a function have the same runs. *)
Lemma exec_star (f : E → S → option S) es s s' :
  (∀ s1 e s2, step s1 e s2 ↔ f e s1 = Some s2) →
  exec f es s = Some s' ↔ star step s es s'.
Proof.
  intros Hf. revert s. induction es as [|e es IH]; simpl; intros s.
  - split; [intros [= <-]; constructor|]. inversion 1; [done|by destruct es].
  - split.
    + destruct (f e s) as [s1|] eqn:He; [|done]. intros Hrun%IH.
      by apply (star_cons s e s1); [apply Hf|].
    + intros (s1 & ->%Hf & Hrun%IH)%star_cons_inv. done.
Qed.

End star_lemmas.

(** A run in two parts. *)
Lemma exec_app {S E : Type} (f : E → S → option S) es es' s :
  exec f (es ++ es') s = exec f es s ≫= exec f es'.
Proof.
  revert s. induction es as [|e es IH]; intros s; [done|]. simpl.
  destruct (f e s); [apply IH|done].
Qed.

(** ** Lemmas on sums over a list *)

Section sums.
Context {A : Type} (g : A → nat).

(** Replacing one element changes the sum by the difference. *)
Lemma sum_list_fmap_insert l n x x' :
  l !! n = Some x → sum_list (g <$> <[n := x']> l) + g x = sum_list (g <$> l) + g x'.
Proof.
  revert n. induction l as [|y l IH]; intros [|n]; csimpl; try done.
  - intros [= ->]. lia.
  - intros Hl. specialize (IH n Hl). lia.
Qed.

Lemma sum_list_fmap_lookup l n x : l !! n = Some x → g x ≤ sum_list (g <$> l).
Proof.
  revert n. induction l as [|y l IH]; intros [|n]; csimpl; try done.
  - intros [= ->]. lia.
  - intros Hl%IH. lia.
Qed.

(** Two elements at different places both count. *)
Lemma sum_list_fmap_two l n n' x x' :
  n ≠ n' → l !! n = Some x → l !! n' = Some x' → g x + g x' ≤ sum_list (g <$> l).
Proof.
  revert n n'. induction l as [|y l IH]; intros [|n] [|n'] Hn; csimpl; try done.
  - intros [= ->] Hl%sum_list_fmap_lookup. lia.
  - intros Hl%sum_list_fmap_lookup [= ->]. lia.
  - intros Hl Hl'. assert (n ≠ n') as Hne by congruence. specialize (IH n n' Hne Hl Hl'). lia.
Qed.

(** A sum that is not zero has a summand that is not zero. *)
Lemma sum_list_fmap_pos l : 0 < sum_list (g <$> l) → ∃ n x, l !! n = Some x ∧ 0 < g x.
Proof.
  induction l as [|y l IH]; csimpl; [lia|]. intros Hs.
  destruct (decide (0 < g y)) as [Hy|Hy]; [by exists 0, y|].
  destruct IH as (n & x & Hl & Hx); [lia|]. by exists (S n), x.
Qed.

End sums.

(** A property of the elements of a list after one of them is
    replaced, from another property before. *)
Lemma Forall_insert_others {A} (P Q : A → Prop) l n x' :
  Forall P l → (∀ n' x, n' ≠ n → l !! n' = Some x → P x → Q x) → Q x' →
  Forall Q (<[n := x']> l).
Proof.
  intros Hall Hother Hx'. apply Forall_lookup. intros n' x.
  destruct (decide (n' = n)) as [->|Hne].
  - intros Hl. pose proof (lookup_lt_Some _ _ _ Hl) as Hlt. rewrite length_insert in Hlt.
    rewrite list_lookup_insert_eq in Hl by done. by injection Hl as <-.
  - rewrite list_lookup_insert_ne by done. intros Hl.
    exact (Hother n' x Hne Hl (Forall_lookup_1 _ _ _ _ Hall Hl)).
Qed.
