(* ===== verification/JsValue.v ===== *)
(** * JsValue: the JavaScript values of a parsed document and the
    operators [index.js] applies to them

    [value] is what [yaml.load] returns and what [updatePrometheusYML]
    inspects and edits (index.js 116-145).  Each operator below is the
    JavaScript operator of the same name, restricted to these values:
    ToBoolean ([truthy], the [!] of lines 122-136), property read
    ([get_prop], the [.] and [[0]] of lines 122-140), assignment to a
    property ([set_prop], lines 133 and 137), [Array.isArray],
    [===] against a string or a number literal, and the array methods
    [includes] and [push] (lines 140-141).

    An array carries its elements and, separately, the named properties
    a script may have attached to it ([extra]); a parsed document has
    none, but line 137 attaches one when the first target group is
    itself a list. *)

From stdpp Require Import base strings pretty numbers option list.
From S2P Require Import Prelude.

Local Open Scope string_scope.
Local Open Scope nat_scope.
Local Open Scope list_scope.

(** ** Data *)

(** Numbers, as far as the program can tell them apart. *)
Inductive number : Type :=
| NaN
| Int (z : Z).

#[warnings="-register-all"]
Inductive value : Type :=
| VUndefined
| VNull
| VBool (b : bool)
| VNumber (n : number)
| VString (s : string)
| VArray (elems : list value) (extra : list (string * value))
| VObject (props : list (string * value)).

(** The two ways a property access fails on [null] and [undefined], and
    the call of something that is not a function. *)
Inductive access : Type :=
| Reading
| Setting
| Calling.

Inductive exn : Type :=
| TypeError (how : access) (base : value) (key : string)
| SystemError (code : string)
| YAMLException (reason : string)
| Unmodelled (what : string).

Abbreviation js A := (result exn A).

#[export] Instance number_eq_dec : EqDecision number.
Proof. solve_decision. Defined.

#[export] Instance access_eq_dec : EqDecision access.
Proof. solve_decision. Defined.

Lemma value_eq_dec : ∀ v1 v2 : value, Decision (v1 = v2).
Proof.
  fix IH 1. intros v1 v2.
  pose proof (@list_eq_dec _ IH) as IHl.
  pose proof (@list_eq_dec _ (@prod_eq_dec string _ value IH)) as IHp.
  unfold Decision. decide equality; try apply (decide (_ = _)).
Defined.

#[export] Instance value_eq_decision : EqDecision value := value_eq_dec.

#[export] Instance exn_eq_dec : EqDecision exn.
Proof. solve_decision. Defined.

(** ** Operators *)

(** ToBoolean: [undefined], [null], [false], [0], [NaN] and the empty
    string are falsy; every object is truthy, the empty array too. *)
Definition truthy (v : value) : bool :=
  match v with
  | VUndefined | VNull => false
  | VBool b => b
  | VNumber NaN => false
  | VNumber (Int z) => negb (bool_decide (z = 0%Z))
  | VString s => negb (bool_decide (s = ""))
  | VArray _ _ | VObject _ => true
  end.

Definition nullish (v : value) : bool :=
  match v with
  | VUndefined | VNull => true
  | _ => false
  end.

Definition digit (a : Ascii.ascii) : option nat :=
  let n := Ascii.nat_of_ascii a in
  if bool_decide (48 ≤ n ≤ 57) then Some (n - 48) else None.

Fixpoint parse_digits (acc : nat) (s : string) : option nat :=
  match s with
  | EmptyString => Some acc
  | String a s' => d ← digit a; parse_digits (10 * acc + d) s'
  end.

(** A property name is an array index when it is the decimal numeral of
    a natural number, with no sign and no leading zero. *)
Definition array_index (k : string) : option nat :=
  match k with
  | EmptyString => None
  | _ => n ← parse_digits 0 k; if decide (pretty n = k) then Some n else None
  end.

(** [v.k] and [v[k]].  Own properties only. *)
Definition get_prop (v : value) (k : string) : js value :=
  match v with
  | VUndefined | VNull => Throw (TypeError Reading v k)
  | VBool _ | VNumber _ => Ok VUndefined
  | VString s =>
      if decide (k = "length") then Ok (VNumber (Int (Z.of_nat (String.length s))))
      else match array_index k with
           | Some i =>
               Ok (match String.get i s with
                   | Some a => VString (String a EmptyString)
                   | None => VUndefined
                   end)
           | None => Ok VUndefined
           end
  | VArray elems extra =>
      if decide (k = "length") then Ok (VNumber (Int (Z.of_nat (length elems))))
      else match array_index k with
           | Some i => Ok (default VUndefined (elems !! i))
           | None => Ok (default VUndefined (assoc_get k extra))
           end
  | VObject props => Ok (default VUndefined (assoc_get k props))
  end.

(** [v.k = x], as a function from the old [v] to the new one.  The
    script is not in strict mode, so an assignment to a property of a
    boolean, a number or a string is silently dropped.  A write past the
    end of an array fills the gap with [undefined].  Writes to the
    [length] of an array are outside the model. *)
Definition set_prop (v : value) (k : string) (x : value) : js value :=
  match v with
  | VUndefined | VNull => Throw (TypeError Setting v k)
  | VBool _ | VNumber _ | VString _ => Ok v
  | VArray elems extra =>
      if decide (k = "length") then Throw (Unmodelled "write to Array length")
      else match array_index k with
           | Some i =>
               Ok (VArray (<[i := x]> (elems ++ replicate (S i - length elems) VUndefined)) extra)
           | None => Ok (VArray elems (assoc_set k x extra))
           end
  | VObject props => Ok (VObject (assoc_set k x props))
  end.

(** [Array.isArray(v)] *)
Definition isArray (v : value) : bool :=
  match v with
  | VArray _ _ => true
  | _ => false
  end.

(** Arrays and objects: the values that have children. *)
Definition container (v : value) : bool :=
  match v with
  | VArray _ _ | VObject _ => true
  | _ => false
  end.

(** [v === "s"] *)
Definition strict_eq_string (v : value) (s : string) : bool :=
  match v with
  | VString s' => bool_decide (s' = s)
  | _ => false
  end.

(** [v === n] for an integer literal [n] *)
Definition strict_eq_int (v : value) (n : Z) : bool :=
  match v with
  | VNumber (Int z) => bool_decide (z = n)
  | _ => false
  end.

(** Is [s1] a substring of [s2]? *)
Definition substring_of (s1 s2 : string) : bool :=
  match String.index 0 s1 s2 with
  | Some _ => true
  | None => bool_decide (s1 = "")
  end.

(** [v.includes(s)]: the array method compares with SameValueZero, which
    on a string argument is [===]; a string has a method of the same
    name that searches for a substring; nothing else has one. *)
Definition includes (v : value) (s : string) : js bool :=
  match v with
  | VUndefined | VNull => Throw (TypeError Reading v "includes")
  | VArray elems _ => Ok (existsb (λ x, strict_eq_string x s) elems)
  | VString s' => Ok (substring_of s s')
  | _ => Throw (TypeError Calling v "includes")
  end.

(** [v.push(s)], as a function from the old [v] to the new one. *)
Definition push (v : value) (s : string) : js value :=
  match v with
  | VUndefined | VNull => Throw (TypeError Reading v "push")
  | VArray elems extra => Ok (VArray (elems ++ [VString s]) extra)
  | _ => Throw (TypeError Calling v "push")
  end.

(** ** Places in a document *)

(** The own child of a container under a property name: an element of
    an array, a named property of an array, a property of an object. *)
Definition child (v : value) (k : string) : option value :=
  match v with
  | VArray elems extra =>
      if decide (k = "length") then None
      else match array_index k with
           | Some i => elems !! i
           | None => assoc_get k extra
           end
  | VObject props => assoc_get k props
  | _ => None
  end.

(** [with_prop v k x] is [v] with its child [k] replaced by [x].  The
    program never does this as such: it edits the child in place, through
    a reference it took earlier ([jobConfig], [staticConfig]).  In a
    document without sharing, the edit is seen from the parent as this
    replacement. *)
Definition with_prop (v : value) (k : string) (x : value) : value :=
  match v with
  | VArray elems extra =>
      if decide (k = "length") then v
      else match array_index k with
           | Some i => VArray (<[i := x]> elems) extra
           | None => VArray elems (assoc_set k x extra)
           end
  | VObject props => VObject (assoc_set k x props)
  | _ => v
  end.

(** Reading along a path of property names, as a chain of [.] would,
    with [undefined] where the chain would throw. *)
Fixpoint get_path (v : value) (p : list string) : value :=
  match p with
  | [] => v
  | k :: p' =>
      match get_prop v k with
      | Ok x => get_path x p'
      | Throw _ => VUndefined
      end
  end.

(** [replace_path v p x] is [v] with what lies at the end of the path
    [p] replaced by [x]: the view, from the root, of an in-place edit
    made through a reference to an inner object. *)
Fixpoint replace_path (v : value) (p : list string) (x : value) : value :=
  match p with
  | [] => x
  | k :: p' => with_prop v k (replace_path (default VUndefined (child v k)) p' x)
  end.

(** Can the child [k] of [v] be replaced (or added)? *)
Definition settable (v : value) (k : string) : bool :=
  match v with
  | VObject _ => true
  | VArray elems _ =>
      negb (bool_decide (k = "length")) &&
      match array_index k with
      | Some i => bool_decide (i < length elems)
      | None => true
      end
  | _ => false
  end.

Fixpoint reachable (v : value) (p : list string) : bool :=
  match p with
  | [] => true
  | k :: p' => settable v k && reachable (default VUndefined (child v k)) p'
  end.

(** The chain of children along a path. *)
Fixpoint child_path (v : value) (p : list string) : option value :=
  match p with
  | [] => Some v
  | k :: p' => x ← child v k; child_path x p'
  end.

(** Two paths diverge when they leave some common prefix through
    different property names. *)
Definition diverge (p q : list string) : Prop :=
  ∃ pre k k' p' q', k ≠ k' ∧ p = pre ++ k :: p' ∧ q = pre ++ k' :: q'.

(** ** Documents as the parser returns them *)

(** No [undefined] inside, no named property on an array, no key twice
    in an object. *)
Fixpoint loaded (v : value) : bool :=
  match v with
  | VUndefined => false
  | VNull | VBool _ | VNumber _ | VString _ => true
  | VArray elems extra =>
      forallb loaded elems && bool_decide (extra = [])
  | VObject props =>
      forallb (λ kv, loaded kv.2) props && bool_decide (NoDup (keys props))
  end.

(** ** Induction on values *)

Section value_ind.
Variable P : value → Prop.
Hypothesis Hundef : P VUndefined.
Hypothesis Hnull : P VNull.
Hypothesis Hbool : ∀ b, P (VBool b).
Hypothesis Hnum : ∀ n, P (VNumber n).
Hypothesis Hstr : ∀ s, P (VString s).
Hypothesis Harr :
  ∀ xs ex, Forall P xs → Forall (λ kv, P kv.2) ex → P (VArray xs ex).
Hypothesis Hobj : ∀ ps, Forall (λ kv, P kv.2) ps → P (VObject ps).

Fixpoint value_ind' (v : value) : P v :=
  let fix elems l : Forall P l :=
    match l with
    | [] => Forall_nil_2 _
    | x :: l' => Forall_cons_2 _ _ _ (value_ind' x) (elems l')
    end in
  let fix props l : Forall (λ kv, P kv.2) l :=
    match l with
    | [] => Forall_nil_2 _
    | (k, x) :: l' =>
        Forall_cons_2 (λ kv, P kv.2) (k, x) _ (value_ind' x) (props l')
    end in
  match v with
  | VUndefined => Hundef
  | VNull => Hnull
  | VBool b => Hbool b
  | VNumber n => Hnum n
  | VString s => Hstr s
  | VArray xs ex => Harr xs ex (elems xs) (props ex)
  | VObject ps => Hobj ps (props ps)
  end.

End value_ind.

(** ** Lemmas: truthiness and property reads *)

Lemma truthy_not_nullish v : truthy v = true → nullish v = false.
Proof. by destruct v. Qed.

Lemma isArray_truthy v : isArray v = true → truthy v = true.
Proof. by destruct v. Qed.

Lemma isArray_inv v : isArray v = true → ∃ elems extra, v = VArray elems extra.
Proof. destruct v; try done. eauto. Qed.

(** A property read throws exactly on [null] and [undefined], and then
    it is the [TypeError] that names the property. *)
Lemma get_prop_Throw v k e :
  get_prop v k = Throw e ↔ nullish v = true ∧ e = TypeError Reading v k.
Proof.
  destruct v; simpl; (split; [intros H | intros [H ->]]); try done;
    try (by injection H as <-);
    repeat (case_decide || case_match); simplify_eq.
Qed.

Lemma get_prop_Ok v k : nullish v = false → ∃ x, get_prop v k = Ok x.
Proof.
  destruct v; simpl; try done; intros _;
    repeat case_decide; repeat case_match; eauto.
Qed.

Lemma get_prop_object props k :
  get_prop (VObject props) k = Ok (default VUndefined (assoc_get k props)).
Proof. done. Qed.

(** On an array, [length] is the number of elements and a numeral is an
    element or [undefined]. *)
Lemma get_prop_array_length elems extra :
  get_prop (VArray elems extra) "length" = Ok (VNumber (Int (Z.of_nat (length elems)))).
Proof. done. Qed.

Lemma array_index_0 : array_index "0" = Some 0.
Proof. done. Qed.

Lemma get_prop_array_0 elems extra :
  get_prop (VArray elems extra) "0" = Ok (default VUndefined (head elems)).
Proof. simpl. by destruct elems. Qed.

Lemma get_prop_array_named elems extra k :
  k ≠ "length" → array_index k = None →
  get_prop (VArray elems extra) k = Ok (default VUndefined (assoc_get k extra)).
Proof. intros ? Hk. simpl. case_decide; [done|]. by rewrite Hk. Qed.

(** ** Lemmas: property writes *)

Lemma set_prop_Throw_nullish v k x :
  nullish v = true → set_prop v k x = Throw (TypeError Setting v k).
Proof. by destruct v. Qed.

Lemma set_prop_object props k x :
  set_prop (VObject props) k x = Ok (VObject (assoc_set k x props)).
Proof. done. Qed.

Lemma set_prop_array_named elems extra k x :
  k ≠ "length" → array_index k = None →
  set_prop (VArray elems extra) k x = Ok (VArray elems (assoc_set k x extra)).
Proof. intros ? Hk. simpl. case_decide; [done|]. by rewrite Hk. Qed.

Lemma set_prop_array_0 y elems extra x :
  set_prop (VArray (y :: elems) extra) "0" x = Ok (VArray (x :: elems) extra).
Proof. simpl. by rewrite app_nil_r. Qed.

(** A write to a primitive is dropped. *)
Lemma set_prop_primitive v k x :
  nullish v = false → isArray v = false → (∀ ps, v ≠ VObject ps) →
  set_prop v k x = Ok v.
Proof. destruct v; try done. intros _ _ H. by destruct (H props). Qed.

(** Reading back what was written, on an object. *)
Lemma get_set_prop_object props k k' x v' :
  set_prop (VObject props) k x = Ok v' →
  get_prop v' k' = if decide (k = k') then Ok x else get_prop (VObject props) k'.
Proof.
  intros [= <-]. simpl. rewrite assoc_get_set. by case_decide.
Qed.

(** Writing what is already there changes nothing. *)
Lemma set_prop_object_id props k x :
  assoc_get k props = Some x → set_prop (VObject props) k x = Ok (VObject props).
Proof. intros Hk. simpl. by rewrite assoc_set_id. Qed.

(** ** Lemmas: [includes] and [push] *)

Lemma strict_eq_string_true v s : strict_eq_string v s = true ↔ v = VString s.
Proof.
  destruct v; simpl; try (split; [done | by intros [=]]).
  rewrite bool_decide_eq_true. split; [by intros -> | by intros [= ->]].
Qed.

Lemma includes_array elems extra s :
  includes (VArray elems extra) s = Ok (bool_decide (VString s ∈ elems)).
Proof.
  simpl. f_equal. apply eq_true_iff_eq.
  rewrite existsb_exists, bool_decide_eq_true. split.
  - intros (x & Hx%list_elem_of_In & ->%strict_eq_string_true). done.
  - intros Hin. exists (VString s). split; [by apply list_elem_of_In|].
    by apply strict_eq_string_true.
Qed.

Lemma push_array elems extra s :
  push (VArray elems extra) s = Ok (VArray (elems ++ [VString s]) extra).
Proof. done. Qed.

(** After [push], [includes] answers [true]. *)
Lemma includes_push v s v' : push v s = Ok v' → includes v' s = Ok true.
Proof.
  destruct v; try done. intros [= <-]. rewrite includes_array.
  f_equal. apply bool_decide_eq_true, elem_of_app. right. by left.
Qed.

(** ** Lemmas: [loaded] *)

Lemma loaded_array elems extra :
  loaded (VArray elems extra) = true ↔ Forall (λ x, loaded x = true) elems ∧ extra = [].
Proof.
  simpl. rewrite andb_true_iff, forallb_forall, bool_decide_eq_true, Forall_forall.
  by setoid_rewrite list_elem_of_In.
Qed.

Lemma loaded_object props :
  loaded (VObject props) = true ↔
  Forall (λ kv, loaded kv.2 = true) props ∧ NoDup (keys props).
Proof.
  simpl. rewrite andb_true_iff, forallb_forall, bool_decide_eq_true, Forall_forall.
  by setoid_rewrite list_elem_of_In.
Qed.

Lemma loaded_not_undefined v : loaded v = true → v ≠ VUndefined.
Proof. by destruct v. Qed.

Lemma Forall_assoc_set (P : value → Prop) k x (props : list (string * value)) :
  P x → Forall (λ kv, P kv.2) props → Forall (λ kv, P kv.2) (assoc_set k x props).
Proof.
  intros Hx. induction 1 as [|[k' y] l Hy Hl IH]; simpl.
  - by repeat constructor.
  - case_decide; constructor; done.
Qed.

Lemma Forall_assoc_get (P : value → Prop) k x (props : list (string * value)) :
  Forall (λ kv, P kv.2) props → assoc_get k props = Some x → P x.
Proof.
  intros Hall Hget%assoc_get_Some_elem.
  rewrite Forall_forall in Hall. by apply (Hall (k, x)).
Qed.

(** Writing a loaded value into a loaded object gives a loaded object. *)
Lemma loaded_set_prop_object props k x v' :
  loaded (VObject props) = true → loaded x = true →
  set_prop (VObject props) k x = Ok v' → loaded v' = true.
Proof.
  intros [Hall Hnd]%loaded_object Hx [= <-]. apply loaded_object. split.
  - by apply (Forall_assoc_set (λ v, loaded v = true)).
  - by apply NoDup_keys_assoc_set.
Qed.

(** What is read from a loaded object is loaded or [undefined]. *)
Lemma loaded_get_prop_object props k x :
  loaded (VObject props) = true → get_prop (VObject props) k = Ok x →
  x = VUndefined ∨ loaded x = true.
Proof.
  intros [Hall _]%loaded_object [= <-].
  destruct (assoc_get k props) as [y|] eqn:Hget; simpl; [right | by left].
  by apply (Forall_assoc_get (λ v, loaded v = true) k y props).
Qed.

(** ** Lemmas: array indices are decimal numerals *)

Lemma digit_pretty_N_char (x : N) :
  (x < 10)%N → digit (pretty_N_char x) = Some (N.to_nat x).
Proof.
  intros Hx.
  assert (x = 0 ∨ x = 1 ∨ x = 2 ∨ x = 3 ∨ x = 4 ∨ x = 5 ∨ x = 6 ∨ x = 7 ∨ x = 8 ∨ x = 9)%N
    as Hc by lia.
  by repeat (destruct Hc as [->|Hc]; [done|]); subst.
Qed.

Lemma parse_digits_pretty_N_go (x : N) (s : string) :
  ∃ n, ∀ acc, parse_digits acc (pretty_N_go x s) = parse_digits (acc * n + N.to_nat x) s.
Proof.
  revert s. induction (N.lt_wf_0 x) as [x _ IH]; intros s.
  assert (x = 0 ∨ 0 < x)%N as [->|Hx] by lia.
  - exists 1. intros acc. rewrite pretty_N_go_0. f_equal. lia.
  - rewrite pretty_N_go_step by done.
    destruct (IH (x `div` 10)%N (N.div_lt x 10 Hx eq_refl)
                (String (pretty_N_char (x `mod` 10)) s)) as [n Hn].
    exists (10 * n). intros acc. rewrite Hn. simpl.
    rewrite digit_pretty_N_char by (by apply N.mod_lt). simpl. f_equal.
    pose proof (N.div_mod x 10 ltac:(done)). lia.
Qed.

Lemma parse_digits_pretty (i : nat) : parse_digits 0 (pretty i) = Some i.
Proof.
  unfold pretty, pretty_nat, pretty, pretty_N. case_decide as Hi.
  - by replace i with 0 by lia.
  - destruct (parse_digits_pretty_N_go (N.of_nat i) "") as [n Hn].
    rewrite Hn. simpl. f_equal. lia.
Qed.

Lemma pretty_nat_nonempty (i : nat) : pretty i ≠ "".
Proof.
  intros Hi. pose proof (parse_digits_pretty i) as Hp. rewrite Hi in Hp.
  simpl in Hp. injection Hp as <-. done.
Qed.

(** The numeral of [i] names the element [i], and nothing else does. *)
Lemma array_index_pretty (i : nat) : array_index (pretty i) = Some i.
Proof.
  unfold array_index. destruct (pretty i) eqn:Hp; [by destruct (pretty_nat_nonempty i)|].
  rewrite <- Hp, parse_digits_pretty. simpl. by rewrite decide_True.
Qed.

Lemma array_index_Some k i : array_index k = Some i ↔ k = pretty i.
Proof.
  split; [|intros ->; apply array_index_pretty].
  unfold array_index. destruct k; [done|].
  destruct (parse_digits _ _) as [n|]; simpl; [|done].
  case_decide; [|done]. by intros [= <-].
Qed.

Lemma pretty_nat_not_length (i : nat) : pretty i ≠ "length".
Proof. intros Hi. pose proof (array_index_pretty i) as Hp. by rewrite Hi in Hp. Qed.

(** ** Lemmas: children, replacement and paths *)

Lemma child_get_prop v k x : child v k = Some x → get_prop v k = Ok x.
Proof.
  destruct v; simpl; try done.
  - case_decide; [done|]. destruct (array_index k); by intros ->.
  - by intros ->.
Qed.

Lemma child_array_elem elems extra i :
  child (VArray elems extra) (pretty i) = elems !! i.
Proof.
  simpl. rewrite decide_False by apply pretty_nat_not_length.
  by rewrite array_index_pretty.
Qed.

Lemma get_prop_array_elem elems extra i :
  get_prop (VArray elems extra) (pretty i) = Ok (default VUndefined (elems !! i)).
Proof.
  simpl. rewrite decide_False by apply pretty_nat_not_length.
  by rewrite array_index_pretty.
Qed.

Lemma with_prop_array_elem elems extra i x :
  with_prop (VArray elems extra) (pretty i) x = VArray (<[i := x]> elems) extra.
Proof.
  simpl. rewrite decide_False by apply pretty_nat_not_length.
  by rewrite array_index_pretty.
Qed.

(** Replacing a child does not touch its siblings. *)
Lemma get_prop_with_prop_ne v k k' x :
  k ≠ k' → get_prop (with_prop v k x) k' = get_prop v k'.
Proof.
  intros Hne. destruct v; simpl; try done.
  - destruct (decide (k = "length")) as [->|Hk]; [done|].
    destruct (array_index k) as [i|] eqn:Hi; simpl.
    + rewrite length_insert. case_decide; [done|].
      destruct (array_index k') as [j|] eqn:Hj; [|done].
      apply array_index_Some in Hi, Hj. subst.
      rewrite list_lookup_insert_ne; [done|congruence].
    + case_decide; [done|]. destruct (array_index k'); [done|].
      by rewrite assoc_get_set_ne.
  - by rewrite assoc_get_set_ne.
Qed.

(** A replaced child reads back. *)
Lemma get_prop_with_prop_eq v k x :
  is_Some (child v k) → get_prop (with_prop v k x) k = Ok x.
Proof.
  destruct v; simpl; try by intros [? [=]].
  - case_decide; [by intros [? [=]]|].
    destruct (array_index k) as [i|] eqn:Hi; simpl.
    + intros Hlt%lookup_lt_is_Some. rewrite decide_False, Hi by done.
      by rewrite list_lookup_insert_eq.
    + intros _. rewrite decide_False, Hi by done. by rewrite assoc_get_set_eq.
  - intros _. by rewrite assoc_get_set_eq.
Qed.

(** Replacing a child by itself changes nothing. *)
Lemma with_prop_id v k x : child v k = Some x → with_prop v k x = v.
Proof.
  destruct v; simpl; try done.
  - case_decide; [done|]. destruct (array_index k).
    + intros Hx. by rewrite list_insert_id.
    + intros Hx. by rewrite assoc_set_id.
  - intros Hx. by rewrite assoc_set_id.
Qed.

Lemma with_prop_with_prop v k x y :
  with_prop (with_prop v k x) k y = with_prop v k y.
Proof.
  destruct v; simpl; try done.
  - case_decide; [by simpl; rewrite decide_True|].
    destruct (array_index k) eqn:Hi; simpl; rewrite decide_False, Hi by done.
    + by rewrite list_insert_insert_eq.
    + by rewrite assoc_set_set.
  - by rewrite assoc_set_set.
Qed.

(** An assignment to a named property of an object or an array is the
    replacement of that child. *)
Lemma set_prop_with_prop v k x :
  (isArray v = true ∧ k ≠ "length" ∧ array_index k = None) ∨ (∃ ps, v = VObject ps) →
  set_prop v k x = Ok (with_prop v k x).
Proof.
  intros [(Harr & Hk & Hi)|[ps ->]]; [|done].
  destruct v; try done. simpl. rewrite !decide_False by done. by rewrite Hi.
Qed.

(** A property of a primitive is never an array or an object, so a
    container that was read is a child. *)
Lemma get_prop_container_child v k x :
  get_prop v k = Ok x → container x = true → child v k = Some x.
Proof.
  destruct v; simpl; try done; try (by intros [= <-]).
  - case_decide; [by intros [= <-]|].
    destruct (array_index k); [|by intros [= <-]].
    destruct (String.get _ _); by intros [= <-].
  - case_decide; [by intros [= <-]|].
    destruct (array_index k) as [i|].
    + destruct (elems !! i); by intros [= <-].
    + destruct (assoc_get k extra); by intros [= <-].
  - destruct (assoc_get k props); by intros [= <-].
Qed.

Lemma child_container v k x : child v k = Some x → container v = true.
Proof. by destruct v. Qed.

Lemma container_not_nullish v : container v = true → nullish v = false.
Proof. by destruct v. Qed.

Lemma container_truthy v : container v = true → truthy v = true.
Proof. by destruct v. Qed.

Lemma isArray_container v : isArray v = true → container v = true.
Proof. by destruct v. Qed.

Lemma container_with_prop v k x : container (with_prop v k x) = container v.
Proof.
  destruct v; simpl; try done. case_decide; [done|]. by destruct (array_index k).
Qed.

(** An assignment to a named property of a container replaces (or
    adds) that child. *)
Lemma set_prop_container v k x :
  container v = true → k ≠ "length" → array_index k = None →
  set_prop v k x = Ok (with_prop v k x).
Proof.
  intros Hc Hk Hi. apply set_prop_with_prop. destruct v; try done; eauto.
Qed.

Lemma child_with_prop_named v k x :
  container v = true → k ≠ "length" → array_index k = None →
  child (with_prop v k x) k = Some x.
Proof.
  intros Hc Hk Hi. destruct v; try done; simpl.
  - rewrite !decide_False by done. rewrite Hi. simpl.
    rewrite decide_False by done. rewrite Hi. apply assoc_get_set_eq.
  - apply assoc_get_set_eq.
Qed.

Lemma child_with_prop_eq v k x :
  is_Some (child v k) → child (with_prop v k x) k = Some x.
Proof.
  destruct v; simpl; try by intros [? [=]].
  - case_decide; [by intros [? [=]]|].
    destruct (array_index k) as [i|] eqn:Hi; simpl.
    + intros Hlt%lookup_lt_is_Some. rewrite decide_False, Hi by done.
      by rewrite list_lookup_insert_eq.
    + intros _. rewrite decide_False, Hi by done. by rewrite assoc_get_set_eq.
  - intros _. by rewrite assoc_get_set_eq.
Qed.

Lemma child_with_prop_ne v k k' x :
  k ≠ k' → child (with_prop v k x) k' = child v k'.
Proof.
  intros Hne. destruct v; simpl; try done.
  - destruct (decide (k = "length")) as [->|Hk]; [done|].
    destruct (array_index k) as [i|] eqn:Hi; simpl.
    + case_decide; [done|]. destruct (array_index k') as [j|] eqn:Hj; [|done].
      apply array_index_Some in Hi, Hj. subst.
      rewrite list_lookup_insert_ne; [done|congruence].
    + case_decide; [done|]. destruct (array_index k'); [done|].
      by rewrite assoc_get_set_ne.
  - by rewrite assoc_get_set_ne.
Qed.

Lemma get_path_nil v : get_path v [] = v.
Proof. done. Qed.

Lemma get_path_undefined p : get_path VUndefined p = VUndefined.
Proof. by destruct p. Qed.

Lemma get_path_app v p q : get_path v (p ++ q) = get_path (get_path v p) q.
Proof.
  revert v. induction p as [|k p IH]; intros v; simpl; [done|].
  destruct (get_prop v k); [apply IH | by rewrite get_path_undefined].
Qed.

(** Paths that leave through another child do not see the replacement. *)
Lemma get_path_with_prop_ne v k k' x p :
  k ≠ k' → get_path (with_prop v k x) (k' :: p) = get_path v (k' :: p).
Proof. intros Hne. simpl. by rewrite get_prop_with_prop_ne. Qed.

Lemma get_path_with_prop_eq v k x p :
  is_Some (child v k) → get_path (with_prop v k x) (k :: p) = get_path x p.
Proof. intros Hc. simpl. by rewrite get_prop_with_prop_eq. Qed.

Lemma get_prop_container v k :
  container v = true → k ≠ "length" → get_prop v k = Ok (default VUndefined (child v k)).
Proof.
  destruct v; simpl; try done; intros _ Hk.
  rewrite !decide_False by done. by destruct (array_index k).
Qed.

(** Reading through a replaced child: only what is read below it
    matters. *)
Lemma get_path_with_prop_same v k y p :
  get_path y p = get_path (default VUndefined (child v k)) p →
  get_path (with_prop v k y) (k :: p) = get_path v (k :: p).
Proof.
  intros Hy. destruct v; try done; simpl.
  - destruct (decide (k = "length")) as [->|Hk]; [done|].
    simpl in Hy. rewrite decide_False in Hy by done.
    destruct (array_index k) as [i|] eqn:Hi; simpl; rewrite decide_False, Hi by done.
    + destruct (decide (i < length elems)) as [Hlt|Hge].
      * by rewrite list_lookup_insert_eq.
      * by rewrite list_insert_ge by lia.
    + by rewrite assoc_get_set_eq.
  - simpl in Hy. by rewrite assoc_get_set_eq.
Qed.

Lemma diverge_nil_l q : ¬ diverge [] q.
Proof. intros (pre & k & k' & p' & q' & _ & Hp & _). by destruct pre. Qed.

Lemma diverge_cons k p k' q :
  diverge (k :: p) (k' :: q) ↔ k ≠ k' ∨ (k = k' ∧ diverge p q).
Proof.
  split.
  - intros ([|k0 pre] & k1 & k2 & p' & q' & Hne & Hp & Hq); simplify_eq/=; [by left|].
    right. split; [done|]. by exists pre, k1, k2, p', q'.
  - intros [Hne|[-> (pre & k1 & k2 & p' & q' & Hne & -> & ->)]].
    + by exists [], k, k', p, q.
    + by exists (k' :: pre), k1, k2, p', q'.
Qed.

Lemma diverge_sym p q : diverge p q → diverge q p.
Proof.
  intros (pre & k & k' & p' & q' & Hne & -> & ->). by exists pre, k', k, q', p'.
Qed.

(** What lies off the replaced path is not touched. *)
Lemma get_path_replace_path_diverge v q x p :
  diverge p q → get_path (replace_path v q x) p = get_path v p.
Proof.
  revert v p. induction q as [|k' q IH]; intros v p Hd.
  - by apply diverge_sym, diverge_nil_l in Hd.
  - destruct p as [|k p]; [by apply diverge_nil_l in Hd|].
    apply diverge_cons in Hd as [Hne|[-> Hd]].
    + by apply get_path_with_prop_ne.
    + cbn [replace_path]. apply get_path_with_prop_same. by apply IH.
Qed.

Lemma child_settable v k : is_Some (child v k) → settable v k = true.
Proof.
  destruct v; simpl; try (by intros [? [=]]).
  case_decide; [by intros [? [=]]|]. rewrite bool_decide_eq_false_2 by done. simpl.
  destruct (array_index k); [|done].
  intros ?%lookup_lt_is_Some. by apply bool_decide_eq_true.
Qed.

Lemma container_settable v k :
  container v = true → k ≠ "length" → array_index k = None → settable v k = true.
Proof.
  intros Hc Hk Hi. destruct v; try done. simpl.
  by rewrite bool_decide_eq_false_2, Hi.
Qed.

Lemma settable_container v k : settable v k = true → container v = true.
Proof. by destruct v. Qed.

Lemma child_with_prop_settable v k x :
  settable v k = true → child (with_prop v k x) k = Some x.
Proof.
  destruct v; simpl; try done.
  - intros [Hk Hi]%andb_true_iff. apply negb_true_iff, bool_decide_eq_false in Hk.
    rewrite !decide_False by done. destruct (array_index k) as [i|] eqn:Hidx; simpl.
    + apply bool_decide_eq_true in Hi. rewrite decide_False, Hidx by done.
      by apply list_lookup_insert_eq.
    + rewrite decide_False, Hidx by done. apply assoc_get_set_eq.
  - intros _. apply assoc_get_set_eq.
Qed.

Lemma with_prop_not_settable v k x : settable v k = false → with_prop v k x = v.
Proof.
  destruct v; simpl; try done.
  intros [Hk|Hi]%andb_false_iff.
  - apply negb_false_iff, bool_decide_eq_true in Hk. by rewrite decide_True.
  - case_decide; [done|]. destruct (array_index k) as [i|]; [|done].
    apply bool_decide_eq_false in Hi. by rewrite list_insert_ge by lia.
Qed.

(** What was put at the end of a path is read there. *)
Lemma get_path_replace_path v q x :
  reachable v q = true → get_path (replace_path v q x) q = x.
Proof.
  revert v. induction q as [|k q IH]; intros v; simpl; [done|].
  intros [Hs Hr]%andb_true_iff.
  rewrite (child_get_prop _ _ _ (child_with_prop_settable v k _ Hs)). by apply IH.
Qed.

(** The last replacement at a path wins. *)
Lemma replace_path_replace_path v q x y :
  replace_path (replace_path v q x) q y = replace_path v q y.
Proof.
  revert v. induction q as [|k q IH]; intros v; simpl; [done|].
  destruct (settable v k) eqn:Hs.
  - rewrite child_with_prop_settable by done. simpl.
    by rewrite IH, with_prop_with_prop.
  - by rewrite !(with_prop_not_settable v k) by done.
Qed.

Lemma truthy_with_prop v k x : truthy (with_prop v k x) = truthy v.
Proof.
  destruct v; simpl; try done. case_decide; [done|]. by destruct (array_index k).
Qed.

Lemma child_path_replace_path v q x :
  reachable v q = true → child_path (replace_path v q x) q = Some x.
Proof.
  revert v. induction q as [|k q IH]; intros v; simpl; [done|].
  intros [Hs Hr]%andb_true_iff.
  rewrite (child_with_prop_settable v k _ Hs). simpl. by apply IH.
Qed.

Lemma child_path_get_path v p x : child_path v p = Some x → get_path v p = x.
Proof.
  revert v. induction p as [|k p IH]; intros v; simpl; [by intros [= ->]|].
  destruct (child v k) as [y|] eqn:Hy; simpl; [|done].
  rewrite (child_get_prop _ _ _ Hy). apply IH.
Qed.

Lemma child_path_reachable v p x : child_path v p = Some x → reachable v p = true.
Proof.
  revert v. induction p as [|k p IH]; intros v; simpl; [done|].
  destruct (child v k) as [y|] eqn:Hy; simpl; [|done].
  intros Hp. rewrite child_settable by (by rewrite Hy). simpl. by apply IH.
Qed.

Lemma child_path_app v p q :
  child_path v (p ++ q) = y ← child_path v p; child_path y q.
Proof.
  revert v. induction p as [|k p IH]; intros v; simpl; [done|].
  destruct (child v k); simpl; [apply IH|done].
Qed.

(** Putting back what is there changes nothing. *)
Lemma replace_path_id v p x : child_path v p = Some x → replace_path v p x = v.
Proof.
  revert v. induction p as [|k p IH]; intros v; simpl; [by intros [= ->]|].
  destruct (child v k) as [y|] eqn:Hy; simpl; [|done].
  intros Hp. rewrite IH by done. by apply with_prop_id.
Qed.

Lemma replace_path_app v p q x :
  replace_path v (p ++ q) x =
  replace_path v p (replace_path (default VUndefined (child_path v p)) q x).
Proof.
  revert v. induction p as [|k p IH]; intros v; simpl; [done|].
  rewrite IH. destruct (child v k) as [y|] eqn:Hy; simpl; [done|].
  f_equal. f_equal. destruct p; simpl; [done|]. done.
Qed.

(** Replacing a child of a loaded document by a loaded value gives a
    loaded document, provided that no property is added to an array. *)
Lemma loaded_with_prop v k x :
  loaded v = true → loaded x = true →
  (isArray v = true → is_Some (child v k)) →
  loaded (with_prop v k x) = true.
Proof.
  destruct v; simpl; try done.
  - intros [Hall ->]%loaded_array Hx Hch. specialize (Hch eq_refl).
    case_decide; [by destruct Hch as [? [=]]|].
    destruct (array_index k) as [i|]; [|by destruct Hch as [? [=]]].
    apply loaded_array. split; [|done]. by apply Forall_insert.
  - intros [Hall Hnd]%loaded_object Hx _. apply loaded_object. split.
    + by apply (Forall_assoc_set (λ v, loaded v = true)).
    + by apply NoDup_keys_assoc_set.
Qed.

Lemma loaded_child v k x : loaded v = true → child v k = Some x → loaded x = true.
Proof.
  destruct v; simpl; try done.
  - intros [Hall ->]%loaded_array. case_decide; [done|].
    destruct (array_index k) as [i|]; [|done].
    intros Hx. by apply (Forall_lookup_1 _ _ _ _ Hall Hx).
  - intros [Hall _]%loaded_object Hx.
    by apply (Forall_assoc_get (λ v, loaded v = true) k x props).
Qed.

Lemma loaded_child_path v p x :
  loaded v = true → child_path v p = Some x → loaded x = true.
Proof.
  revert v. induction p as [|k p IH]; intros v Hl; simpl; [by intros [= <-]|].
  destruct (child v k) as [vk|] eqn:Hk; simpl; [|done].
  apply IH. by apply (loaded_child v k).
Qed.

#[export] Hint Resolve truthy_not_nullish isArray_truthy : js.
#[export] Hint Rewrite get_prop_array_length get_prop_array_0 set_prop_array_0 : js.
#[export] Hint Rewrite includes_array push_array : js.
#[export] Hint Rewrite array_index_pretty get_prop_array_elem with_prop_array_elem : js.
#[export] Hint Resolve child_get_prop loaded_child loaded_with_prop : js.
#[export] Hint Resolve container_not_nullish container_truthy isArray_container : js.
#[export] Hint Resolve get_prop_container_child child_container diverge_sym : js.
