(* ===== verification/AddressResolver.v ===== *)
(** * AddressResolver: which address the instance advertises

    Models [getExternalIPv4] (index.js 93-103), the [PORT] default
    (line 90) and the [targetAddress] string (line 107).

    [os.networkInterfaces()] returns an object whose keys are interface
    names and whose values are arrays of address records.  It is an input
    of the model: a list of pairs in the order [Object.values] enumerates
    them.  Of each record the program reads [family], [internal] and
    [address].  [family] is kept as a [value] because the program
    compares it to the string ["IPv4"] with [===]; a platform that
    reports the family as a number never matches. *)

From stdpp Require Import base strings pretty numbers gmap option list.
From S2P Require Import Prelude JsValue.

Local Open Scope string_scope.
Local Open Scope nat_scope.
Local Open Scope list_scope.

(** ** Data *)

Record NetworkInterfaceInfo : Type := {
  address : string;
  family : value;
  internal : bool
}.

(** ** Operations *)

(** ToString of the values a template literal can meet here.  Integers
    print in decimal (JavaScript switches to exponent notation from
    1e21 on, which no port number reaches). *)
Fixpoint ToString (v : value) : string :=
  match v with
  | VUndefined => "undefined"
  | VNull => "null"
  | VBool true => "true"
  | VBool false => "false"
  | VNumber NaN => "NaN"
  | VNumber (Int z) => pretty z
  | VString s => s
  | VArray elems _ =>
      let item x := if nullish x then "" else ToString x in
      (fix join l :=
         match l with
         | [] => ""
         | [x] => item x
         | x :: l' => item x +:+ "," +:+ join l'
         end) elems
  | VObject _ => "[object Object]"
  end.

(** [process.env.PORT || 8000]: the variable when it is set and not
    empty, the number 8000 otherwise. *)
Definition PORT (env : gmap string string) : value :=
  let p := from_option VString VUndefined (env !! "PORT") in
  if truthy p then p else VNumber (Int 8000).

(** The test of line 97. *)
Definition external (net : NetworkInterfaceInfo) : bool :=
  strict_eq_string (family net) "IPv4" && negb (internal net).

(** The inner loop of lines 96-100: [Some] is the early [return]. *)
Fixpoint scan_iface (iface : list NetworkInterfaceInfo) : option string :=
  match iface with
  | [] => None
  | net :: rest => if external net then Some (address net) else scan_iface rest
  end.

(** The outer loop of lines 95-101. *)
Fixpoint scan_nets (nets : list (list NetworkInterfaceInfo)) : option string :=
  match nets with
  | [] => None
  | iface :: rest =>
      match scan_iface iface with
      | Some a => Some a
      | None => scan_nets rest
      end
  end.

Definition getExternalIPv4 (nets : list (string * list NetworkInterfaceInfo)) : string :=
  default "127.0.0.1" (scan_nets nets.*2).

Definition HOST : string := "0.0.0.0".

(** [`${externalIP}:${PORT}`] *)
Definition targetAddress (externalIP : string) (port : value) : string :=
  externalIP +:+ ":" +:+ ToString port.

(** ** Reference definition *)

(** The first qualifying record of all interfaces taken together. *)
Definition first_external (nets : list (string * list NetworkInterfaceInfo)) : option NetworkInterfaceInfo :=
  head (filter (λ net, external net = true) (concat nets.*2)).

(** ** Example hosts *)

(** A host with a loopback interface and one wired interface that has
    an IPv6 and an IPv4 address. *)
Definition host_nets : list (string * list NetworkInterfaceInfo) :=
  [("lo", [{| address := "127.0.0.1"; family := VString "IPv4"; internal := true |};
           {| address := "::1"; family := VString "IPv6"; internal := true |}]);
   ("eth0", [{| address := "fe80::1"; family := VString "IPv6"; internal := false |};
             {| address := "10.0.0.7"; family := VString "IPv4"; internal := false |}])].

(** A host with a loopback interface only. *)
Definition loopback_nets : list (string * list NetworkInterfaceInfo) :=
  [("lo", [{| address := "127.0.0.1"; family := VString "IPv4"; internal := true |};
           {| address := "::1"; family := VString "IPv6"; internal := true |}])].

(** ** Lemmas *)

Lemma scan_iface_head iface :
  scan_iface iface = address <$> head (filter (λ net, external net = true) iface).
Proof.
  induction iface as [|net rest IH]; simpl; [done|].
  rewrite filter_cons. destruct (external net) eqn:Hext.
  - by rewrite decide_True.
  - by rewrite decide_False by (by intros ?).
Qed.

Lemma scan_nets_head nets :
  scan_nets nets = address <$> head (filter (λ net, external net = true) (concat nets)).
Proof.
  induction nets as [|iface rest IH]; simpl; [done|].
  rewrite filter_app, scan_iface_head, IH.
  by destruct (filter _ iface).
Qed.

Lemma scan_nets_None nets :
  scan_nets nets = None ↔ Forall (λ net, external net = false) (concat nets).
Proof.
  rewrite scan_nets_head, fmap_None, head_None, filter_nil_Forall.
  apply Forall_iff. intros net. by rewrite not_true_iff_false.
Qed.

Lemma scan_nets_Some nets a :
  scan_nets nets = Some a ↔
  ∃ pre net post, concat nets = pre ++ net :: post ∧
    Forall (λ n, external n = false) pre ∧ external net = true ∧ a = address net.
Proof.
  rewrite scan_nets_head, fmap_Some. setoid_rewrite head_filter_Some. split.
  - intros (net & (pre & post & Hcat & Hpre & Hnet) & ->).
    exists pre, net, post. split_and!; [done| |done..].
    eapply Forall_impl; [done|]. intros n. apply not_true_is_false.
  - intros (pre & net & post & Hcat & Hpre & Hnet & ->).
    exists net. split; [|done]. exists pre, post. split_and!; [done| |done].
    eapply Forall_impl; [done|]. by intros n ->.
Qed.

Lemma PORT_cases env :
  PORT env = VNumber (Int 8000) ∨ ∃ s, s ≠ "" ∧ env !! "PORT" = Some s ∧ PORT env = VString s.
Proof.
  unfold PORT. destruct (env !! "PORT") as [s|]; simpl; [|by left].
  case_bool_decide; simpl; [by left|]. right. by exists s.
Qed.

Lemma getExternalIPv4_scan nets a :
  scan_nets nets.*2 = Some a → getExternalIPv4 nets = a.
Proof. unfold getExternalIPv4. by intros ->. Qed.

Lemma external_numeric_family net n : family net = VNumber n → external net = false.
Proof. unfold external. by intros ->. Qed.

(** * Theorems *)

(** [C15] The two nested loops with their early return compute the
    reference definition: the address of the first record, in
    enumeration order over all interfaces, that is IPv4 and not
    internal, and [127.0.0.1] when there is none. *)
Theorem getExternalIPv4_first_external nets :
  getExternalIPv4 nets = from_option address "127.0.0.1" (first_external nets).
Proof.
  unfold getExternalIPv4, first_external. rewrite scan_nets_head.
  by destruct (head _).
Qed.

(** Address fallback: on a host none of whose addresses is IPv4
    and not internal, the resolver returns [127.0.0.1]. *)
Theorem getExternalIPv4_fallback nets :
  Forall (λ net, external net = false) (concat nets.*2) →
  getExternalIPv4 nets = "127.0.0.1".
Proof. intros Hall%scan_nets_None. unfold getExternalIPv4. by rewrite Hall. Qed.

Lemma getExternalIPv4_fallback_witness : getExternalIPv4 loopback_nets = "127.0.0.1".
Proof. apply getExternalIPv4_fallback. repeat constructor. Defined.

(** First match: the resolver returns the address of a record
    that is IPv4 and not internal when no record before it, in
    enumeration order, is. *)
Theorem getExternalIPv4_first nets pre net post :
  concat nets.*2 = pre ++ net :: post →
  Forall (λ n, external n = false) pre → external net = true →
  getExternalIPv4 nets = address net.
Proof.
  intros Hcat Hpre Hnet. apply getExternalIPv4_scan, scan_nets_Some.
  by exists pre, net, post.
Qed.

Lemma getExternalIPv4_first_witness : getExternalIPv4 host_nets = "10.0.0.7".
Proof.
  apply (getExternalIPv4_first host_nets
    [{| address := "127.0.0.1"; family := VString "IPv4"; internal := true |};
     {| address := "::1"; family := VString "IPv6"; internal := true |};
     {| address := "fe80::1"; family := VString "IPv6"; internal := false |}]
    {| address := "10.0.0.7"; family := VString "IPv4"; internal := false |} []);
    [reflexivity|repeat constructor|reflexivity].
Defined.

(** [C39] A platform that reports the address family as a number (as
    Node.js 18.0 to 18.3 do) never satisfies the test of line 97: the
    resolver falls back to [127.0.0.1] whatever the interfaces are. *)
Theorem getExternalIPv4_numeric_family nets :
  Forall (λ net, ∃ n, family net = VNumber n) (concat nets.*2) →
  getExternalIPv4 nets = "127.0.0.1".
Proof.
  intros Hall. unfold getExternalIPv4.
  rewrite (proj2 (scan_nets_None _)); [done|].
  eapply Forall_impl; [done|]. intros net [n Hn]. by eapply external_numeric_family.
Qed.

Lemma getExternalIPv4_numeric_family_witness :
  getExternalIPv4
    [("eth0", [{| address := "10.0.0.7"; family := VNumber (Int 4); internal := false |}])]
  = "127.0.0.1".
Proof.
  apply getExternalIPv4_numeric_family. repeat constructor. by exists (Int 4).
Defined.

(** The advertised address uses port 8000 when the [PORT]
    variable is unset or empty, and the variable's text otherwise. *)
Theorem targetAddress_port env ip :
  targetAddress ip (PORT env) =
  ip +:+ ":" +:+ match env !! "PORT" with
                 | Some s => if decide (s = "") then "8000" else s
                 | None => "8000"
                 end.
Proof.
  unfold targetAddress, PORT. destruct (env !! "PORT") as [s|]; simpl; [|done].
  case_bool_decide; simpl; by case_decide.
Qed.
