(* ===== verification/ConfigMutator.v ===== *)
(** * ConfigMutator: the edit of the parsed scrape configuration

    Models the part of [updatePrometheusYML] that works on the parsed
    document (index.js 122-145): the guard on [scrape_configs], the
    search for the job named [prometheus], the initialisation of
    [static_configs] and of [targets], and the append-if-absent of the
    instance's address.

    The code edits objects in place through the references [jobConfig]
    and [staticConfig].  Here each step returns the edited object, and
    [registerTarget] puts it back where it was read from ([with_prop]),
    which is what the in-place edit amounts to in a document without
    sharing.

    [registerTarget] leaves in one of four ways, as the code does: an
    uncaught [TypeError] ([Throw]), the two early returns
    ([NoScrapeConfigs], [JobNotFound]), or the edited document together
    with whether the address had to be added ([Mutated]). *)

From stdpp Require Import base strings pretty numbers option list.
From S2P Require Import Prelude JsValue.

Local Open Scope string_scope.
Local Open Scope nat_scope.
Local Open Scope list_scope.

(** ** Data *)

Inductive mutation : Type :=
| NoScrapeConfigs
| JobNotFound
| Mutated (added : bool) (config : value).

#[export] Instance mutation_eq_dec : EqDecision mutation.
Proof. solve_decision. Defined.

(** ** Operations *)

(** The callback of [find] (line 126): [sc => sc.job_name === "prometheus"] *)
Definition is_job (sc : value) : js bool :=
  let* name := get_prop sc "job_name" in
  Ok (strict_eq_string name "prometheus").

(** [arr.find(p)]: the first element on which [p] holds and its index,
    [None] when [find] returns [undefined]. *)
Definition find (arr : value) (p : value → js bool) : js (option (nat * value)) :=
  match arr with
  | VUndefined | VNull => Throw (TypeError Reading arr "find")
  | VArray elems _ => findM p elems
  | _ => Throw (TypeError Calling arr "find")
  end.

(** The group a job gets when it has none: [[{ targets: [] }]] *)
Definition fresh_static_configs : value :=
  VArray [VObject [("targets", VArray [] [])]] [].

(** Lines 132-134. *)
Definition ensure_static_configs (jobConfig : value) : js value :=
  let* st := get_prop jobConfig "static_configs" in
  let* missing :=
    if negb (truthy st) then Ok true
    else let* len := get_prop st "length" in Ok (strict_eq_int len 0) in
  if missing : bool then set_prop jobConfig "static_configs" fresh_static_configs
  else Ok jobConfig.

(** Lines 136-138, on the object [staticConfig] refers to. *)
Definition ensure_targets (staticConfig : value) : js value :=
  let* t := get_prop staticConfig "targets" in
  if negb (truthy t) || negb (isArray t)
  then set_prop staticConfig "targets" (VArray [] [])
  else Ok staticConfig.

(** Lines 140-145, on the object [staticConfig] refers to: whether the
    address was added, and the object afterwards. *)
Definition add_target (target : string) (staticConfig : value) : js (bool * value) :=
  let* t := get_prop staticConfig "targets" in
  let* present := includes t target in
  if negb present then
    let* t0 := get_prop staticConfig "targets" in
    let* t' := push t0 target in
    Ok (true, with_prop staticConfig "targets" t')
  else Ok (false, staticConfig).

(** Lines 135-145, on the object [staticConfig] refers to. *)
Definition update_group (target : string) (staticConfig : value) : js (bool * value) :=
  let* group1 := ensure_targets staticConfig in
  add_target target group1.

(** Lines 131-145, on the object [jobConfig] refers to. *)
Definition update_job (target : string) (jobConfig : value) : js (bool * value) :=
  let* job1 := ensure_static_configs jobConfig in
  let* st := get_prop job1 "static_configs" in
  let* staticConfig := get_prop st "0" in
  let* r := update_group target staticConfig in
  Ok (r.1, with_prop job1 "static_configs" (with_prop st "0" r.2)).

(** Lines 122-145. *)
Definition registerTarget (target : string) (config : value) : js mutation :=
  let* scs := get_prop config "scrape_configs" in
  if negb (truthy scs) || negb (isArray scs) then Ok NoScrapeConfigs else
  let* found := find scs is_job in
  match found with
  | None => Ok JobNotFound
  | Some (i, jobConfig) =>
      if negb (truthy jobConfig) then Ok JobNotFound else
      let* r := update_job target jobConfig in
      Ok (Mutated r.1 (with_prop config "scrape_configs" (with_prop scs (pretty i) r.2)))
  end.

(** ** Reference definition

    What the edit amounts to, written without the intermediate objects:
    [targets_after] is the new address list, [edit_group] the new target
    group, [edit_job] the new job, [reference] the outcome. *)

(** A job has no usable group list when [static_configs] is falsy or
    has [length] 0 (line 132). *)
Definition no_groups (st : value) : bool :=
  negb (truthy st) ||
  match get_prop st "length" with
  | Ok len => strict_eq_int len 0
  | Throw _ => false
  end.

Definition targets_after (t : string) (t0 : value) : bool * value :=
  match t0 with
  | VArray tl tx =>
      if bool_decide (VString t ∈ tl) then (false, t0)
      else (true, VArray (tl ++ [VString t]) tx)
  | _ => (true, VArray [VString t] [])
  end.

Definition edit_group (t : string) (g : value) : js (bool * value) :=
  match g with
  | VUndefined | VNull => Throw (TypeError Reading g "targets")
  | VArray _ _ | VObject _ =>
      let r := targets_after t (default VUndefined (child g "targets")) in
      Ok (r.1, with_prop g "targets" r.2)
  | _ => Throw (TypeError Reading VUndefined "includes")
  end.

Definition groups_after (st : value) : value :=
  if no_groups st then fresh_static_configs else st.

Definition edit_job (t : string) (job : value) : js (bool * value) :=
  let st1 := groups_after (default VUndefined (child job "static_configs")) in
  let* g := get_prop st1 "0" in
  let* r := edit_group t g in
  Ok (r.1, with_prop job "static_configs" (with_prop st1 "0" r.2)).

Definition reference (t : string) (c : value) : js mutation :=
  let* scs := get_prop c "scrape_configs" in
  match scs with
  | VArray elems extra =>
      let* found := findM is_job elems in
      match found with
      | None => Ok JobNotFound
      | Some (i, job) =>
          let* r := edit_job t job in
          Ok (Mutated r.1 (with_prop c "scrape_configs" (with_prop scs (pretty i) r.2)))
      end
  | _ => Ok NoScrapeConfigs
  end.

(** ** Views used in the statements *)

(** The index of the job the code edits, when there is one. *)
Definition job_index (config : value) : option nat :=
  match get_prop config "scrape_configs" with
  | Ok (VArray elems _) =>
      match findM is_job elems with
      | Ok (Some (i, _)) => Some i
      | _ => None
      end
  | _ => None
  end.

(** Where the job, its groups, its first group and that group's
    addresses are in the document. *)
Definition job_path (i : nat) : list string := ["scrape_configs"; pretty i].
Definition groups_path (i : nat) : list string := job_path i ++ ["static_configs"].
Definition group_path (i : nat) : list string := groups_path i ++ ["0"].
Definition targets_path (i : nat) : list string := group_path i ++ ["targets"].

(** The addresses listed for the job, when they are a list. *)
Definition targets_of (config : value) (i : nat) : option (list value) :=
  match get_path config (targets_path i) with
  | VArray elems _ => Some elems
  | _ => None
  end.

(** ** The shape of a successful edit

    [edit_at t c i a c'] names the pieces of a run that reaches the end
    of the edit: the job found at index [i], its first target group [g],
    and the document [c'], which is [c] with that job replaced. *)

Definition groups_of (job : value) : value :=
  groups_after (default VUndefined (child job "static_configs")).

Definition new_targets (t : string) (g : value) : value :=
  (targets_after t (default VUndefined (child g "targets"))).2.

Definition new_job (t : string) (job g : value) : value :=
  with_prop job "static_configs"
    (with_prop (groups_of job) "0" (with_prop g "targets" (new_targets t g))).

Inductive edit_at (t : string) (c : value) (i : nat) (a : bool) (c' : value) : Prop :=
| EditAt elems extra job g :
    child c "scrape_configs" = Some (VArray elems extra) →
    findM is_job elems = Ok (Some (i, job)) →
    child (groups_of job) "0" = Some g →
    container g = true →
    a = (targets_after t (default VUndefined (child g "targets"))).1 →
    c' = replace_path c (job_path i) (new_job t job g) →
    edit_at t c i a c'.

(** ** The scenarios of the specification *)

Definition doc1 : value :=
  VObject [("scrape_configs",
    VArray [VObject [("job_name", VString "prometheus");
                     ("static_configs",
                      VArray [VObject [("targets", VArray [VString "10.0.0.1:8000"] [])]] [])]] [])].

Definition doc2 : value :=
  VObject [("scrape_configs",
    VArray [VObject [("job_name", VString "prometheus");
                     ("static_configs",
                      VArray [VObject [("targets",
                        VArray [VString "10.0.0.1:8000"; VString "10.0.0.2:8000"] [])]] [])]] [])].

(** A document with a global section, another job and labels. *)
Definition doc3 : value :=
  VObject [("global", VObject [("scrape_interval", VString "15s")]);
           ("scrape_configs",
            VArray [VObject [("job_name", VString "node");
                             ("static_configs",
                              VArray [VObject [("targets", VArray [VString "10.0.0.9:9100"] [])]] [])];
                    VObject [("job_name", VString "prometheus");
                             ("static_configs",
                              VArray [VObject [("targets", VArray [VString "10.0.0.1:8000"] []);
                                               ("labels", VObject [("env", VString "dev")])]] [])]] [])].

(** The same, registered at ["10.0.0.2:8000"]. *)
Definition doc3' : value :=
  VObject [("global", VObject [("scrape_interval", VString "15s")]);
           ("scrape_configs",
            VArray [VObject [("job_name", VString "node");
                             ("static_configs",
                              VArray [VObject [("targets", VArray [VString "10.0.0.9:9100"] [])]] [])];
                    VObject [("job_name", VString "prometheus");
                             ("static_configs",
                              VArray [VObject [("targets",
                                                VArray [VString "10.0.0.1:8000"; VString "10.0.0.2:8000"] []);
                                               ("labels", VObject [("env", VString "dev")])]] [])]] [])].

(** A job that has no [static_configs] yet. *)
Definition doc4 : value :=
  VObject [("scrape_configs", VArray [VObject [("job_name", VString "prometheus")]] [])].

(** A job whose [targets] is a single address, not a list. *)
Definition doc5 : value :=
  VObject [("scrape_configs",
    VArray [VObject [("job_name", VString "prometheus");
                     ("static_configs",
                      VArray [VObject [("targets", VString "10.0.0.1:8000")]] [])]] [])].

(** A list with a [null] entry before the job. *)
Definition doc6 : value :=
  VObject [("scrape_configs",
    VArray [VNull; VObject [("job_name", VString "prometheus")]] [])].

(** A job whose first group is itself a list. *)
Definition doc7 : value :=
  VObject [("scrape_configs",
    VArray [VObject [("job_name", VString "prometheus");
                     ("static_configs",
                      VArray [VArray [VString "10.0.0.1:8000"] []] [])]] [])].

(** ** Lemmas: the steps *)

Lemma is_job_job_name v :
  is_job v = Ok true ↔ get_prop v "job_name" = Ok (VString "prometheus").
Proof.
  unfold is_job. rewrite result_bind_Ok. split.
  - intros (name & Hget & [= Heq]). by apply strict_eq_string_true in Heq as ->.
  - intros Hget. exists (VString "prometheus"). by rewrite Hget.
Qed.

Lemma is_job_container v : is_job v = Ok true → container v = true.
Proof.
  intros Hjob%is_job_job_name. by destruct v.
Qed.

Lemma is_job_with_prop v k x : k ≠ "job_name" → is_job (with_prop v k x) = is_job v.
Proof. intros Hk. unfold is_job. by rewrite get_prop_with_prop_ne. Qed.

Lemma ensure_static_configs_spec job st :
  container job = true → get_prop job "static_configs" = Ok st →
  ensure_static_configs job =
    Ok (if no_groups st then with_prop job "static_configs" fresh_static_configs
        else job).
Proof.
  intros Hc Hst. unfold ensure_static_configs, no_groups. rewrite Hst. simpl.
  destruct (truthy st) eqn:Ht; simpl; [|by apply set_prop_container].
  destruct (get_prop_Ok st "length") as [len ->]; [auto with js|]. simpl.
  destruct (strict_eq_int len 0); [|done]. by apply set_prop_container.
Qed.

Lemma ensure_targets_spec g t :
  container g = true → get_prop g "targets" = Ok t →
  ensure_targets g =
    Ok (if isArray t then g else with_prop g "targets" (VArray [] [])).
Proof.
  intros Hc Ht. unfold ensure_targets. rewrite Ht. simpl.
  destruct (isArray t) eqn:Harr.
  - by rewrite (isArray_truthy _ Harr).
  - rewrite orb_true_r. by apply set_prop_container.
Qed.

Lemma ensure_targets_primitive g g1 :
  container g = false → ensure_targets g = Ok g1 →
  g1 = g ∧ get_prop g "targets" = Ok VUndefined.
Proof.
  unfold ensure_targets. destruct g; try done; simpl; by intros _ [= <-].
Qed.

Lemma add_target_array t g elems extra :
  get_prop g "targets" = Ok (VArray elems extra) →
  add_target t g =
    Ok (if bool_decide (VString t ∈ elems) then (false, g)
        else (true, with_prop g "targets" (VArray (elems ++ [VString t]) extra))).
Proof.
  intros Hg. unfold add_target. rewrite Hg. cbn [result_bind].
  rewrite includes_array. cbn [result_bind]. by destruct (bool_decide _).
Qed.

Lemma add_target_undefined t g :
  get_prop g "targets" = Ok VUndefined →
  add_target t g = Throw (TypeError Reading VUndefined "includes").
Proof. intros Hg. unfold add_target. by rewrite Hg. Qed.

Lemma ensure_targets_Throw_inv g e :
  ensure_targets g = Throw e → nullish g = true ∧ e = TypeError Reading g "targets".
Proof.
  unfold ensure_targets. rewrite result_bind_Throw.
  intros [H|(t0 & Hget & H)]; [by apply get_prop_Throw|].
  destruct (negb (truthy t0) || negb (isArray t0)); [|done].
  by destruct g.
Qed.

Lemma ensure_targets_Throw t g e :
  ensure_targets g = Throw e → edit_group t g = Throw e.
Proof. intros [Hn ->]%ensure_targets_Throw_inv. by destruct g. Qed.

Lemma targets_after_not_array t t0 :
  isArray t0 = false → targets_after t t0 = (true, VArray [VString t] []).
Proof. by destruct t0. Qed.

Lemma add_target_after_ensure t g g1 :
  ensure_targets g = Ok g1 → add_target t g1 = edit_group t g.
Proof.
  destruct (container g) eqn:Hc.
  - pose proof (get_prop_container g "targets" Hc ltac:(done)) as Hget.
    rewrite (ensure_targets_spec g _ Hc Hget). intros [= <-].
    set (t0 := default VUndefined (child g "targets")) in *.
    replace (edit_group t g) with
      (Ok ((targets_after t t0).1, with_prop g "targets" (targets_after t t0).2) : js _)
      by (by destruct g).
    destruct (isArray t0) eqn:Harr.
    + apply isArray_inv in Harr as (tl & tx & Ht0). rewrite Ht0 in *.
      rewrite (add_target_array t g tl tx Hget). simpl.
      case_bool_decide; simpl; [|done].
      rewrite with_prop_id; [done|]. by apply get_prop_container_child.
    + rewrite (add_target_array t _ [] []), targets_after_not_array by
        (done || by apply child_get_prop, child_with_prop_named).
      simpl. by rewrite with_prop_with_prop.
  - intros [-> Hund]%ensure_targets_primitive; [|done].
    rewrite add_target_undefined by done. by destruct g.
Qed.

(** ** Lemmas: the code computes the reference definition *)

Lemma update_group_edit_group t g : update_group t g = edit_group t g.
Proof.
  unfold update_group. destruct (ensure_targets g) as [g1|e] eqn:He; simpl.
  - by apply add_target_after_ensure.
  - symmetry. by apply ensure_targets_Throw.
Qed.

Lemma groups_after_get_prop job :
  container job = true →
  ∃ job1, ensure_static_configs job = Ok job1 ∧
    get_prop job1 "static_configs" =
      Ok (groups_after (default VUndefined (child job "static_configs"))) ∧
    ∀ x, with_prop job1 "static_configs" x = with_prop job "static_configs" x.
Proof.
  intros Hc. pose proof (get_prop_container job "static_configs" Hc ltac:(done)) as Hst.
  rewrite (ensure_static_configs_spec job _ Hc Hst). unfold groups_after.
  destruct (no_groups _); eexists; (split; [done|]); split; try done.
  - by apply child_get_prop, child_with_prop_named.
  - intros x. apply with_prop_with_prop.
Qed.

Lemma update_job_edit_job t job :
  container job = true → update_job t job = edit_job t job.
Proof.
  intros Hc. destruct (groups_after_get_prop job Hc) as (job1 & Hens & Hst & Hw).
  unfold update_job, edit_job. rewrite Hens. cbn [result_bind].
  rewrite Hst. cbn [result_bind].
  destruct (get_prop _ "0") as [g|e]; cbn [result_bind]; [|done].
  rewrite update_group_edit_group.
  destruct (edit_group t g) as [r|e]; cbn [result_bind]; [|done]. by rewrite Hw.
Qed.

Lemma registerTarget_reference t c : registerTarget t c = reference t c.
Proof.
  unfold registerTarget, reference.
  destruct (get_prop c "scrape_configs") as [scs|e]; cbn [result_bind]; [|done].
  destruct (isArray scs) eqn:Harr.
  - rewrite (isArray_truthy _ Harr). apply isArray_inv in Harr as (elems & extra & ->).
    simpl. destruct (findM is_job elems) as [[[i job]|]|e] eqn:Hfind; cbn [result_bind]; [|done..].
    apply findM_Some_holds, is_job_container in Hfind.
    rewrite (container_truthy _ Hfind). simpl negb. cbn iota.
    by rewrite update_job_edit_job.
  - rewrite orb_true_r. by destruct scs.
Qed.

(** ** Lemmas: the shape of a successful edit *)

Lemma edit_group_Ok t g r :
  edit_group t g = Ok r ↔
  container g = true ∧
  r = ((targets_after t (default VUndefined (child g "targets"))).1,
       with_prop g "targets" (new_targets t g)).
Proof.
  unfold new_targets. destruct g; simpl; split; try done; try (by intros [? _]);
    (intros [= <-] || intros [_ ->]); done.
Qed.

Lemma edit_job_Ok t job r :
  edit_job t job = Ok r ↔
  ∃ g, child (groups_of job) "0" = Some g ∧ container g = true ∧
    r = ((targets_after t (default VUndefined (child g "targets"))).1, new_job t job g).
Proof.
  unfold edit_job, new_job. fold (groups_of job). rewrite result_bind_Ok. split.
  - intros (g & Hg & Hr). apply result_bind_Ok in Hr as (r' & Hr' & [= <-]).
    apply edit_group_Ok in Hr' as [Hc ->]. exists g. split_and!; [|done..].
    by apply get_prop_container_child.
  - intros (g & Hg & Hc & ->). exists g. split; [by apply child_get_prop|].
    by rewrite (proj2 (edit_group_Ok t g _) (conj Hc eq_refl)).
Qed.

Lemma replace_job_path c elems extra i x :
  child c "scrape_configs" = Some (VArray elems extra) →
  replace_path c (job_path i) x =
  with_prop c "scrape_configs" (with_prop (VArray elems extra) (pretty i) x).
Proof. intros Hc. unfold job_path. simpl. by rewrite Hc. Qed.

Lemma reference_Mutated t c a c' :
  reference t c = Ok (Mutated a c') ↔ ∃ i, edit_at t c i a c'.
Proof.
  unfold reference. rewrite result_bind_Ok. split.
  - intros (scs & Hscs & H). destruct scs as [| | | | |elems extra|]; try done.
    apply get_prop_container_child in Hscs; [|done].
    apply result_bind_Ok in H as ([[i job]|] & Hfind & H); [|done].
    apply result_bind_Ok in H as (r & Hr & [= <- <-]).
    apply edit_job_Ok in Hr as (g & Hg & Hc & ->).
    exists i. econstructor; [done..|]. by rewrite (replace_job_path c elems extra).
  - intros [i [elems extra job g Hscs Hfind Hg Hc -> ->]].
    exists (VArray elems extra). split; [by apply child_get_prop|].
    rewrite Hfind. cbn [result_bind].
    rewrite (proj2 (edit_job_Ok t job _) (ex_intro _ g (conj Hg (conj Hc eq_refl)))).
    cbn [result_bind]. by rewrite (replace_job_path c elems extra).
Qed.

(** *** The address list *)

Lemma targets_after_array t t0 :
  ∃ tl tx, (targets_after t t0).2 = VArray tl tx ∧ VString t ∈ tl.
Proof.
  destruct t0; simpl; try (eexists _, _; split; [done|]; by left).
  case_bool_decide; simpl; eexists _, _; (split; [done|]); [done|].
  apply elem_of_app. right. by left.
Qed.

Lemma targets_after_settled t t0 :
  targets_after t (targets_after t t0).2 = (false, (targets_after t t0).2).
Proof.
  destruct (targets_after_array t t0) as (tl & tx & -> & Hin). simpl.
  by rewrite bool_decide_eq_true_2.
Qed.

Lemma targets_after_present t tl tx :
  VString t ∈ tl → targets_after t (VArray tl tx) = (false, VArray tl tx).
Proof. intros Hin. simpl. by rewrite bool_decide_eq_true_2. Qed.

Lemma targets_after_absent t tl tx :
  VString t ∉ tl → targets_after t (VArray tl tx) = (true, VArray (tl ++ [VString t]) tx).
Proof. intros Hin. simpl. by rewrite bool_decide_eq_false_2. Qed.

(** *** The group list *)

Lemma no_groups_with_prop st k x :
  k ≠ "length" → no_groups (with_prop st k x) = no_groups st.
Proof.
  intros Hk. unfold no_groups. by rewrite truthy_with_prop, get_prop_with_prop_ne.
Qed.

Lemma no_groups_groups_after st : no_groups (groups_after st) = false.
Proof. unfold groups_after. by destruct (no_groups st) eqn:Hn. Qed.

Lemma groups_after_fixed st : no_groups st = false → groups_after st = st.
Proof. unfold groups_after. by intros ->. Qed.

Lemma no_groups_false_child job :
  no_groups (default VUndefined (child job "static_configs")) = false →
  child job "static_configs" = Some (groups_of job).
Proof.
  unfold groups_of. intros Hn. rewrite groups_after_fixed by done.
  by destruct (child job "static_configs").
Qed.

(** *** Where the pieces are *)

Lemma found_job_child_path c i elems extra job :
  child c "scrape_configs" = Some (VArray elems extra) →
  findM is_job elems = Ok (Some (i, job)) →
  child_path c (job_path i) = Some job.
Proof.
  intros Hscs Hfind. unfold job_path. simpl. rewrite Hscs. simpl.
  rewrite decide_False by apply pretty_nat_not_length.
  rewrite array_index_pretty. by rewrite (findM_Some_lookup _ _ _ _ Hfind).
Qed.

Section new_job.
Context (t : string) (job g : value).
Context (Hjob : is_job job = Ok true).
Context (Hg : child (groups_of job) "0" = Some g).
Context (Hc : container g = true).

Lemma new_job_groups :
  child (new_job t job g) "static_configs" =
  Some (with_prop (groups_of job) "0" (with_prop g "targets" (new_targets t g))).
Proof.
  apply child_with_prop_settable, container_settable; [by apply is_job_container|done..].
Qed.

Lemma new_job_group :
  child_path (new_job t job g) ["static_configs"; "0"] =
  Some (with_prop g "targets" (new_targets t g)).
Proof.
  simpl. rewrite new_job_groups. simpl.
  rewrite child_with_prop_eq by (by rewrite Hg). done.
Qed.

Lemma new_job_targets :
  child_path (new_job t job g) ["static_configs"; "0"; "targets"] =
  Some (new_targets t g).
Proof.
  change ["static_configs"; "0"; "targets"] with (["static_configs"; "0"] ++ ["targets"]).
  rewrite child_path_app, new_job_group. simpl.
  rewrite child_with_prop_settable by (by apply container_settable). done.
Qed.

Lemma new_job_is_job : is_job (new_job t job g) = Ok true.
Proof.
  unfold new_job. by rewrite is_job_with_prop.
Qed.

(** The edited job is a fixed point of the edit. *)
Lemma new_job_groups_of :
  groups_of (new_job t job g) =
  with_prop (groups_of job) "0" (with_prop g "targets" (new_targets t g)).
Proof.
  unfold groups_of at 1. rewrite new_job_groups. simpl.
  apply groups_after_fixed. rewrite no_groups_with_prop by done.
  apply no_groups_groups_after.
Qed.

Lemma new_targets_settled :
  targets_after t (default VUndefined (child (with_prop g "targets" (new_targets t g)) "targets"))
  = (false, new_targets t g).
Proof.
  rewrite child_with_prop_settable by (by apply container_settable). simpl.
  apply targets_after_settled.
Qed.

Lemma new_targets_fixed :
  new_targets t (with_prop g "targets" (new_targets t g)) = new_targets t g.
Proof. unfold new_targets at 1. by rewrite new_targets_settled. Qed.

Lemma new_job_fixed :
  new_job t (new_job t job g) (with_prop g "targets" (new_targets t g)) = new_job t job g.
Proof.
  unfold new_job at 1. rewrite new_job_groups_of, new_targets_fixed.
  rewrite (with_prop_id (with_prop g _ _) "targets") by
    (by apply child_with_prop_settable, container_settable).
  rewrite (with_prop_id (with_prop (groups_of job) _ _) "0") by
    (apply child_with_prop_eq; by rewrite Hg).
  apply with_prop_id, new_job_groups.
Qed.

End new_job.

(** ** Lemmas: properties of a successful edit *)

Lemma targets_path_split i :
  targets_path i = job_path i ++ ["static_configs"; "0"; "targets"].
Proof. done. Qed.

Lemma group_path_split i : group_path i = job_path i ++ ["static_configs"; "0"].
Proof. done. Qed.

Lemma targets_of_Some c i tl :
  targets_of c i = Some tl ↔ ∃ tx, get_path c (targets_path i) = VArray tl tx.
Proof.
  unfold targets_of. destruct (get_path _ _); split; try done; try (by intros [? [=]]).
  - intros [= ->]. eauto.
  - by intros [? [= -> _]].
Qed.

Section edited.
Context (t : string) (c : value) (i : nat).
Context (elems : list value) (extra : list (string * value)) (job g : value).
Context (Hscs : child c "scrape_configs" = Some (VArray elems extra)).
Context (Hfind : findM is_job elems = Ok (Some (i, job))).
Context (Hg : child (groups_of job) "0" = Some g).
Context (Hc : container g = true).

Local Abbreviation c' := (replace_path c (job_path i) (new_job t job g)).
Local Abbreviation t0 := (default VUndefined (child g "targets")).

Lemma edited_is_job : is_job job = Ok true.
Proof. eapply findM_Some_holds, Hfind. Qed.

Lemma edited_job_path : child_path c (job_path i) = Some job.
Proof. by apply (found_job_child_path c i elems extra). Qed.

Lemma edited_job : child_path c' (job_path i) = Some (new_job t job g).
Proof. eapply child_path_replace_path, child_path_reachable, edited_job_path. Qed.

Lemma edited_group :
  child_path c' (group_path i) = Some (with_prop g "targets" (new_targets t g)).
Proof.
  rewrite group_path_split, child_path_app, edited_job. cbn [mbind option_bind].
  apply new_job_group; [apply edited_is_job|done].
Qed.

Lemma edited_groups :
  child_path c' (groups_path i) =
  Some (with_prop (groups_of job) "0" (with_prop g "targets" (new_targets t g))).
Proof.
  unfold groups_path. rewrite child_path_app, edited_job. cbn [mbind option_bind].
  simpl. rewrite new_job_groups by apply edited_is_job. done.
Qed.

(** After the edit, the address list of the job's first group is
    [targets_after] of the list the edit started from. *)
Lemma edited_targets : get_path c' (targets_path i) = (targets_after t t0).2.
Proof.
  apply child_path_get_path.
  rewrite targets_path_split, child_path_app, edited_job. cbn [mbind option_bind].
  apply new_job_targets; [apply edited_is_job|done..].
Qed.

Lemma edited_old_groups :
  get_path c (groups_path i) = default VUndefined (child job "static_configs").
Proof.
  unfold groups_path. rewrite get_path_app, (child_path_get_path _ _ _ edited_job_path).
  simpl. by rewrite get_prop_container by (done || apply is_job_container, edited_is_job).
Qed.

(** The edit replaces the job's group list, and nothing else. *)
Lemma edited_groups_path :
  c' = replace_path c (groups_path i)
         (with_prop (groups_of job) "0" (with_prop g "targets" (new_targets t g))).
Proof. unfold groups_path. by rewrite replace_path_app, edited_job_path. Qed.

(** A job without groups starts from the empty list of the fresh
    group. *)
Lemma edited_no_groups :
  no_groups (get_path c (groups_path i)) = true → t0 = VArray [] [].
Proof.
  rewrite edited_old_groups. intros Hng. revert Hg.
  unfold groups_of, groups_after. rewrite Hng. by intros [= <-].
Qed.

Section had_groups.
Context (Hng : no_groups (get_path c (groups_path i)) = false).

Lemma edited_groups_child : child job "static_configs" = Some (groups_of job).
Proof. apply no_groups_false_child. by rewrite <- edited_old_groups. Qed.

Lemma edited_group_path : child_path c (group_path i) = Some g.
Proof.
  rewrite group_path_split, child_path_app, edited_job_path. simpl.
  rewrite edited_groups_child. simpl. by rewrite Hg.
Qed.

(** A job with groups starts from the list in the document. *)
Lemma edited_old_targets : get_path c (targets_path i) = t0.
Proof.
  unfold targets_path. rewrite get_path_app, (child_path_get_path _ _ _ edited_group_path).
  simpl. by rewrite get_prop_container.
Qed.

(** When the job had groups, the edit replaces the address list of its
    first group, and nothing else. *)
Lemma edited_targets_path : c' = replace_path c (targets_path i) (new_targets t g).
Proof.
  rewrite targets_path_split, replace_path_app, edited_job_path. simpl.
  rewrite edited_groups_child. simpl. by rewrite Hg.
Qed.

End had_groups.

(** A second edit finds everything in place. *)
Lemma edited_idempotent : edit_at t c' i false c'.
Proof.
  apply (EditAt t _ i false _ (<[i := new_job t job g]> elems) extra (new_job t job g)
           (with_prop g "targets" (new_targets t g))).
  - rewrite (replace_job_path c elems extra) by done.
    rewrite child_with_prop_eq by (by rewrite Hscs). by rewrite with_prop_array_elem.
  - apply findM_insert with job; [done|]. apply new_job_is_job, edited_is_job.
  - rewrite new_job_groups_of by apply edited_is_job.
    apply child_with_prop_eq. by rewrite Hg.
  - by rewrite container_with_prop.
  - by rewrite new_targets_settled.
  - rewrite new_job_fixed by (done || apply edited_is_job).
    by rewrite replace_path_replace_path.
Qed.

End edited.

Lemma edit_at_job_index t c i a c' : edit_at t c i a c' → job_index c = Some i.
Proof.
  intros [elems extra job g Hscs Hfind _ _ _ _]. unfold job_index.
  by rewrite (child_get_prop _ _ _ Hscs), Hfind.
Qed.

Lemma edit_at_idempotent t c i a c' : edit_at t c i a c' → edit_at t c' i false c'.
Proof.
  intros [elems extra job g Hscs Hfind Hg Hc -> ->]. by eapply edited_idempotent.
Qed.

(** Off the path of the job's group list nothing changes; when the job
    had groups, nothing changes off the path of the address list. *)
Lemma edit_at_frame t c i a c' p :
  edit_at t c i a c' →
  diverge p (if no_groups (get_path c (groups_path i)) then groups_path i
             else targets_path i) →
  get_path c' p = get_path c p.
Proof.
  intros [elems extra job g Hscs Hfind Hg Hc -> ->].
  destruct (no_groups _) eqn:Hng; intros Hd.
  - rewrite (edited_groups_path t c i elems extra job g) by done.
    by apply get_path_replace_path_diverge.
  - rewrite (edited_targets_path t c i elems extra job g) by done.
    by apply get_path_replace_path_diverge.
Qed.

(** The address list before and after, and whether the address was
    added. *)
Lemma edit_at_targets_after t c i a c' :
  edit_at t c i a c' →
  ∃ t0, (if no_groups (get_path c (groups_path i)) then t0 = VArray [] []
         else t0 = get_path c (targets_path i)) ∧
    a = (targets_after t t0).1 ∧
    get_path c' (targets_path i) = (targets_after t t0).2.
Proof.
  intros [elems extra job g Hscs Hfind Hg Hc -> ->].
  exists (default VUndefined (child g "targets")). split_and!; [|done|].
  - destruct (no_groups _) eqn:Hng.
    + by eapply edited_no_groups.
    + symmetry. by eapply edited_old_targets.
  - by eapply edited_targets.
Qed.

(** ** Lemmas: loaded documents *)

Lemma loaded_fresh_static_configs : loaded fresh_static_configs = true.
Proof. done. Qed.

Lemma loaded_default_child v k :
  loaded v = true → container v = true →
  default VUndefined (child v k) = VUndefined ∨ loaded (default VUndefined (child v k)) = true.
Proof.
  intros Hl Hc. destruct (child v k) as [x|] eqn:Hx; [right|by left].
  by apply (loaded_child v k).
Qed.

Lemma loaded_targets_after t t0 :
  t0 = VUndefined ∨ loaded t0 = true → loaded (targets_after t t0).2 = true.
Proof.
  intros [->|Hl]; [done|]. destruct t0; try done. simpl.
  case_bool_decide; [done|]. apply loaded_array in Hl as [Hall ->].
  apply loaded_array. split; [|done]. apply Forall_app. split; [done|].
  by repeat constructor.
Qed.

Lemma loaded_groups_after st :
  st = VUndefined ∨ loaded st = true → loaded (groups_after st) = true.
Proof.
  unfold groups_after. intros [->|Hl]; [done|].
  by destruct (no_groups st).
Qed.

(** In a loaded document the job is a mapping: a list has no
    [job_name]. *)
Lemma is_job_loaded_object job :
  loaded job = true → is_job job = Ok true → ∃ ps, job = VObject ps.
Proof.
  intros Hl Hjob%is_job_job_name. destruct job; try done; [|by eauto].
  apply loaded_array in Hl as [_ ->]. done.
Qed.

Lemma loaded_new_job t job g :
  loaded job = true → is_job job = Ok true →
  child (groups_of job) "0" = Some g → isArray g = false → container g = true →
  loaded (new_job t job g) = true.
Proof.
  intros Hl Hjob Hg Harr Hc. destruct (is_job_loaded_object job Hl Hjob) as [ps ->].
  assert (loaded (groups_of (VObject ps)) = true) as Hst.
  { apply loaded_groups_after, loaded_default_child; done. }
  assert (loaded g = true) as Hlg
    by (by apply (loaded_child (groups_of (VObject ps)) "0")).
  unfold new_job. apply loaded_with_prop; [done| |done].
  apply loaded_with_prop; [done| |by rewrite Hg].
  apply loaded_with_prop; [done| |by rewrite Harr].
  apply loaded_targets_after, loaded_default_child; done.
Qed.

Lemma edit_at_loaded t c i a c' :
  edit_at t c i a c' → loaded c = true →
  isArray (get_path c' (group_path i)) = false → loaded c' = true.
Proof.
  intros [elems extra job g Hscs Hfind Hg Hc -> ->] Hl.
  rewrite (child_path_get_path _ _ _ (edited_group t c i elems extra job g Hscs Hfind Hg)).
  intros Harr.
  pose proof (findM_Some_holds _ _ _ _ Hfind) as Hjob.
  pose proof (findM_Some_lookup _ _ _ _ Hfind) as Hi.
  assert (loaded (VArray elems extra) = true) as Hls
    by (by apply (loaded_child c "scrape_configs")).
  assert (loaded job = true) as Hlj.
  { apply loaded_array in Hls as [Hall _]. exact (Forall_lookup_1 _ _ _ _ Hall Hi). }
  rewrite (replace_job_path c elems extra) by done.
  apply loaded_with_prop; [done| |by rewrite Hscs].
  apply loaded_with_prop; [done| |by rewrite child_array_elem, Hi].
  apply loaded_new_job; [done..| |done]. by destruct g.
Qed.

(** ** Lemmas: the ways out without an edit *)

Lemma reference_NoScrapeConfigs t c :
  reference t c = Ok NoScrapeConfigs ↔
  ∃ scs, get_prop c "scrape_configs" = Ok scs ∧ isArray scs = false.
Proof.
  unfold reference. rewrite result_bind_Ok. split.
  - intros (scs & Hscs & H). exists scs. split; [done|]. destruct scs; try done.
    destruct (findM _ _) as [[[]|]|]; simpl in H; try done.
    by destruct (edit_job _ _).
  - intros (scs & Hscs & Harr). exists scs. split; [done|]. by destruct scs.
Qed.

Lemma reference_JobNotFound t c :
  reference t c = Ok JobNotFound ↔
  ∃ elems extra, get_prop c "scrape_configs" = Ok (VArray elems extra) ∧
    Forall (λ sc, is_job sc = Ok false) elems.
Proof.
  unfold reference. rewrite result_bind_Ok. split.
  - intros (scs & Hscs & H). destruct scs as [| | | | |elems extra|]; try done.
    exists elems, extra. split; [done|]. apply findM_None.
    destruct (findM _ _) as [[[]|]|]; simpl in H; try done.
    by destruct (edit_job _ _).
  - intros (elems & extra & Hscs & Hall). exists (VArray elems extra).
    split; [done|]. by rewrite (proj2 (findM_None _ _) Hall).
Qed.

(** ** Lemmas: the uncaught exceptions *)

Lemma is_job_Throw sc e :
  is_job sc = Throw e ↔ nullish sc = true ∧ e = TypeError Reading sc "job_name".
Proof.
  unfold is_job. rewrite result_bind_Throw, get_prop_Throw. split; [|by left].
  by intros [?|(? & _ & [=])].
Qed.

Lemma edit_group_Throw t g e :
  edit_group t g = Throw e ↔
  container g = false ∧
  e = if nullish g then TypeError Reading g "targets"
      else TypeError Reading VUndefined "includes".
Proof.
  destruct g; simpl; split; try done; try (by intros [? _]);
    (intros [= <-] || intros [_ ->]); done.
Qed.

Lemma get_prop_groups_of_0 job : ∃ g, get_prop (groups_of job) "0" = Ok g.
Proof.
  apply get_prop_Ok. unfold groups_of.
  pose proof (no_groups_groups_after (default VUndefined (child job "static_configs"))) as Hn.
  unfold no_groups in Hn. apply orb_false_iff in Hn as [Ht%negb_false_iff _].
  by apply truthy_not_nullish.
Qed.

Lemma edit_job_Throw t job e :
  edit_job t job = Throw e ↔
  ∃ g, get_prop (groups_of job) "0" = Ok g ∧ edit_group t g = Throw e.
Proof.
  unfold edit_job. fold (groups_of job).
  destruct (get_prop_groups_of_0 job) as [g Hg]. rewrite Hg. cbn [result_bind].
  split.
  - intros H. exists g. split; [done|]. by destruct (edit_group t g).
  - intros (g' & [= <-] & ->). done.
Qed.

Lemma reference_Throw t c e :
  reference t c = Throw e ↔
  (nullish c = true ∧ e = TypeError Reading c "scrape_configs") ∨
  (∃ elems extra, get_prop c "scrape_configs" = Ok (VArray elems extra) ∧
     ((∃ j sc, elems !! j = Some sc ∧ nullish sc = true ∧
         e = TypeError Reading sc "job_name" ∧
         Forall (λ y, is_job y = Ok false) (take j elems)) ∨
      (∃ i job g, findM is_job elems = Ok (Some (i, job)) ∧
         get_prop (groups_of job) "0" = Ok g ∧ edit_group t g = Throw e))).
Proof.
  unfold reference. rewrite result_bind_Throw, get_prop_Throw. split.
  - intros [?|(scs & Hscs & H)]; [by left|right].
    destruct scs as [| | | | |elems extra|]; try done. exists elems, extra.
    split; [done|]. apply result_bind_Throw in H as [H|([[i job]|] & Hfind & H)].
    + left. apply findM_Throw in H as (j & sc & Hj & [Hn ->]%is_job_Throw & Hall). eauto 10.
    + right. apply result_bind_Throw in H as [H|(? & _ & [=])].
      apply edit_job_Throw in H as (g & Hg & H). eauto 10.
    + done.
  - intros [?|(elems & extra & Hscs & H)]; [by left|right].
    exists (VArray elems extra). split; [done|]. apply result_bind_Throw.
    destruct H as [(j & sc & Hj & Hn & -> & Hall)|(i & job & g & Hfind & Hg & H)].
    + left. apply findM_Throw. exists j, sc. split_and!; [done| |done]. by apply is_job_Throw.
    + right. exists (Some (i, job)). split; [done|]. apply result_bind_Throw. left.
      apply edit_job_Throw. eauto.
Qed.

(** A job without groups ends with one group that lists the address. *)
Lemma edit_at_fresh_groups t c i a c' :
  edit_at t c i a c' → no_groups (get_path c (groups_path i)) = true →
  get_path c' (groups_path i) = VArray [VObject [("targets", VArray [VString t] [])]] [].
Proof.
  intros [elems extra job g Hscs Hfind Hg Hc -> ->] Hng.
  rewrite (child_path_get_path _ _ _ (edited_groups t c i elems extra job g Hscs Hfind)).
  rewrite (edited_old_groups c i elems extra job Hscs Hfind) in Hng.
  revert Hg. unfold new_targets, groups_of, groups_after. rewrite Hng. by intros [= <-].
Qed.

Lemma registerTarget_Mutated t c a c' :
  registerTarget t c = Ok (Mutated a c') ↔ ∃ i, edit_at t c i a c'.
Proof. rewrite registerTarget_reference. apply reference_Mutated. Qed.

Lemma registerTarget_edit_at t c a c' i :
  registerTarget t c = Ok (Mutated a c') → job_index c = Some i → edit_at t c i a c'.
Proof.
  intros [j Hed]%registerTarget_Mutated Hi.
  pose proof (edit_at_job_index _ _ _ _ _ Hed). by simplify_eq.
Qed.

(** * Theorems *)

(** The model of lines 122-145 computes the reference definition:
    [update_group] is [edit_group], [update_job] is [edit_job] on every
    object and array, and [registerTarget] is [reference]. *)
Theorem registerTarget_computes_reference :
  (∀ t g, update_group t g = edit_group t g) ∧
  (∀ t job, container job = true → update_job t job = edit_job t job) ∧
  (∀ t c, registerTarget t c = reference t c).
Proof.
  split_and!; auto using update_group_edit_group, update_job_edit_job,
    registerTarget_reference.
Qed.

(** [C1] Idempotence: registering again in the document that a
    successful registration produced adds nothing and returns the same
    document. *)
Theorem registerTarget_idempotent t c a c' :
  registerTarget t c = Ok (Mutated a c') →
  registerTarget t c' = Ok (Mutated false c').
Proof.
  intros [i Hed]%registerTarget_Mutated. apply registerTarget_Mutated.
  exists i. by eapply edit_at_idempotent.
Qed.

Lemma registerTarget_idempotent_witness :
  registerTarget "10.0.0.2:8000" doc3 = Ok (Mutated true doc3') ∧
  registerTarget "10.0.0.2:8000" doc3' = Ok (Mutated false doc3').
Proof.
  split; [reflexivity|].
  apply (registerTarget_idempotent "10.0.0.2:8000" doc3 true doc3'). reflexivity.
Defined.

(** [C2] Preservation: a successful registration changes the document
    only under the address list of the first group of the job it found
    (under the job's group list when the job had none).  Whatever is read
    along a path that leaves that path is read as before. *)
Theorem registerTarget_preserves t c a c' i p :
  registerTarget t c = Ok (Mutated a c') → job_index c = Some i →
  diverge p (if no_groups (get_path c (groups_path i)) then groups_path i
             else targets_path i) →
  get_path c' p = get_path c p.
Proof. intros Hreg Hi. by apply (edit_at_frame t c i a c' p), registerTarget_edit_at. Qed.

Lemma registerTarget_preserves_witness :
  get_path doc3' ["scrape_configs"; "1"; "static_configs"; "0"; "labels"; "env"] =
  get_path doc3 ["scrape_configs"; "1"; "static_configs"; "0"; "labels"; "env"].
Proof.
  apply (registerTarget_preserves "10.0.0.2:8000" doc3 true doc3' 1); [reflexivity..|].
  exists ["scrape_configs"; "1"; "static_configs"; "0"], "labels", "targets", ["env"], [].
  split_and!; [discriminate|reflexivity..].
Defined.

(** [C11] Preservation of the other jobs: the entry at any other index
    of [scrape_configs], with everything below it, is as before. *)
Theorem registerTarget_other_jobs t c a c' i j p :
  registerTarget t c = Ok (Mutated a c') → job_index c = Some i → j ≠ i →
  get_path c' ("scrape_configs" :: pretty j :: p) =
  get_path c ("scrape_configs" :: pretty j :: p).
Proof.
  intros Hreg Hi Hj. apply (edit_at_frame t c i a c'); [by eapply registerTarget_edit_at|].
  assert (pretty j ≠ pretty i) by (intros Heq; by apply Hj, (inj (pretty : nat → string))).
  destruct (no_groups _);
    exists ["scrape_configs"], (pretty j), (pretty i); by eexists p, _.
Qed.

Lemma registerTarget_other_jobs_witness :
  get_path doc3' ["scrape_configs"; "0"; "static_configs"] =
  get_path doc3 ["scrape_configs"; "0"; "static_configs"].
Proof.
  apply (registerTarget_other_jobs "10.0.0.2:8000" doc3 true doc3' 1 0 ["static_configs"]);
    [reflexivity..|lia].
Defined.

(** Registration: after a successful registration the address
    list of the first group of the job is a list that contains the
    address. *)
Theorem registerTarget_lists_target t c a c' :
  registerTarget t c = Ok (Mutated a c') →
  ∃ i tl, job_index c = Some i ∧ targets_of c' i = Some tl ∧ VString t ∈ tl.
Proof.
  intros [i Hed]%registerTarget_Mutated.
  destruct (edit_at_targets_after _ _ _ _ _ Hed) as (t0 & _ & _ & Hnew).
  destruct (targets_after_array t t0) as (tl & tx & Htl & Hin).
  exists i, tl. split_and!; [by eapply edit_at_job_index| |done].
  apply targets_of_Some. exists tx. by rewrite Hnew.
Qed.

Lemma registerTarget_lists_target_witness :
  ∃ i tl, job_index doc4 = Some i ∧
    targets_of (VObject [("scrape_configs",
      VArray [VObject [("job_name", VString "prometheus");
                       ("static_configs",
                        VArray [VObject [("targets", VArray [VString "10.0.0.2:8000"] [])]] [])]] [])]) i
    = Some tl ∧ VString "10.0.0.2:8000" ∈ tl.
Proof. apply (registerTarget_lists_target "10.0.0.2:8000" doc4 true). reflexivity. Defined.

(** [C9] Append if absent: when the job has groups and the first one
    lists addresses, the address is added at the end exactly when it was
    not in the list, and the list is otherwise unchanged, order
    included. *)
Theorem registerTarget_appends t c a c' i tl :
  registerTarget t c = Ok (Mutated a c') → job_index c = Some i →
  no_groups (get_path c (groups_path i)) = false →
  targets_of c i = Some tl →
  a = negb (bool_decide (VString t ∈ tl)) ∧
  targets_of c' i = Some (if a then tl ++ [VString t] else tl).
Proof.
  intros Hreg Hi Hng [tx Hold]%targets_of_Some.
  destruct (edit_at_targets_after t c i a c') as (t0 & Ht0 & -> & Hnew); [by eapply registerTarget_edit_at|].
  rewrite Hng in Ht0. subst t0. rewrite Hold in *. unfold targets_of. rewrite Hnew.
  simpl. by case_bool_decide.
Qed.

Lemma registerTarget_appends_witness :
  true = negb (bool_decide (VString "10.0.0.2:8000" ∈ [VString "10.0.0.1:8000"])) ∧
  targets_of doc3' 1 = Some ([VString "10.0.0.1:8000"] ++ [VString "10.0.0.2:8000"]).
Proof.
  apply (registerTarget_appends "10.0.0.2:8000" doc3 true doc3' 1); reflexivity.
Defined.

(** [C10] No duplicates: if the address list the document had for the
    job (when it had one) lists no address twice, the list after a
    successful registration lists no address twice, and lists the
    registered address. *)
Theorem registerTarget_no_duplicates t c a c' i :
  registerTarget t c = Ok (Mutated a c') → job_index c = Some i →
  (∀ tl, targets_of c i = Some tl → NoDup tl) →
  ∃ tl', targets_of c' i = Some tl' ∧ NoDup tl' ∧ VString t ∈ tl'.
Proof.
  intros Hreg Hi Hnd.
  destruct (edit_at_targets_after t c i a c') as (t0 & Ht0 & _ & Hnew); [by eapply registerTarget_edit_at|].
  assert (∀ tl tx, t0 = VArray tl tx → NoDup tl) as Hnd0.
  { intros tl tx ->. destruct (no_groups _).
    - injection Ht0 as -> _. constructor.
    - apply Hnd, targets_of_Some. by exists tx. }
  unfold targets_of. rewrite Hnew. destruct t0; simpl;
    try (eexists; split_and!; [done|apply NoDup_singleton|by left]).
  case_bool_decide; eexists; (split; [done|]); split; eauto; [|apply elem_of_app; right; by left].
  apply NoDup_app. split_and!; [by eapply Hnd0| |apply NoDup_singleton].
  by intros x Hx ->%list_elem_of_singleton.
Qed.

Lemma registerTarget_no_duplicates_witness :
  ∃ tl', targets_of doc3' 1 = Some tl' ∧ NoDup tl' ∧ VString "10.0.0.2:8000" ∈ tl'.
Proof.
  apply (registerTarget_no_duplicates "10.0.0.2:8000" doc3 true doc3' 1); [reflexivity..|].
  intros tl [= <-]. apply NoDup_singleton.
Defined.

(** A job without a usable group list ([static_configs] missing,
    falsy or of length 0) gets one group whose only address is the
    registered one, and the address counts as added. *)
Theorem registerTarget_fresh_group t c a c' i :
  registerTarget t c = Ok (Mutated a c') → job_index c = Some i →
  no_groups (get_path c (groups_path i)) = true →
  a = true ∧
  get_path c' (groups_path i) = VArray [VObject [("targets", VArray [VString t] [])]] [].
Proof.
  intros Hreg Hi Hng. split; [|by eapply edit_at_fresh_groups; eauto using registerTarget_edit_at].
  destruct (edit_at_targets_after t c i a c') as (t0 & Ht0 & -> & _); [by eapply registerTarget_edit_at|].
  rewrite Hng in Ht0. by subst t0.
Qed.

Lemma registerTarget_fresh_group_witness :
  true = true ∧
  get_path (VObject [("scrape_configs",
      VArray [VObject [("job_name", VString "prometheus");
                       ("static_configs",
                        VArray [VObject [("targets", VArray [VString "10.0.0.2:8000"] [])]] [])]] [])])
    (groups_path 0)
  = VArray [VObject [("targets", VArray [VString "10.0.0.2:8000"] [])]] [].
Proof.
  apply (registerTarget_fresh_group "10.0.0.2:8000" doc4 true); reflexivity.
Defined.

(** [C38] When the first group's [targets] is not a list (a single
    address written as a scalar, say), the code replaces it: after the
    registration the list holds the registered address only, and what
    was there is gone. *)
Theorem registerTarget_replaces_non_list t c a c' i :
  registerTarget t c = Ok (Mutated a c') → job_index c = Some i →
  no_groups (get_path c (groups_path i)) = false →
  isArray (get_path c (targets_path i)) = false →
  a = true ∧ targets_of c' i = Some [VString t].
Proof.
  intros Hreg Hi Hng Harr.
  destruct (edit_at_targets_after t c i a c') as (t0 & Ht0 & -> & Hnew); [by eapply registerTarget_edit_at|].
  rewrite Hng in Ht0. subst t0. unfold targets_of. rewrite Hnew.
  by rewrite targets_after_not_array.
Qed.

Lemma registerTarget_replaces_non_list_witness :
  true = true ∧
  targets_of (VObject [("scrape_configs",
      VArray [VObject [("job_name", VString "prometheus");
                       ("static_configs",
                        VArray [VObject [("targets", VArray [VString "10.0.0.2:8000"] [])]] [])]] [])]) 0
  = Some [VString "10.0.0.2:8000"].
Proof.
  apply (registerTarget_replaces_non_list "10.0.0.2:8000" doc5 true); reflexivity.
Defined.

(** Well-formedness: a successful registration in a parsed
    document gives a document of the same kind (no [undefined], no key
    twice, no named property on a list), provided the first group is
    not itself a list. *)
Theorem registerTarget_keeps_loaded t c a c' i :
  registerTarget t c = Ok (Mutated a c') → job_index c = Some i →
  loaded c = true → isArray (get_path c' (group_path i)) = false →
  loaded c' = true.
Proof. intros Hreg Hi. apply (edit_at_loaded t c i a c'). by eapply registerTarget_edit_at. Qed.

Lemma registerTarget_keeps_loaded_witness : loaded doc3' = true.
Proof.
  apply (registerTarget_keeps_loaded "10.0.0.2:8000" doc3 true doc3' 1); reflexivity.
Defined.

(** [C37] Uncaught exceptions: the edit throws exactly when the
    document is [null] or [undefined] (an empty file), when a [null]
    entry of [scrape_configs] precedes the job, or when the first group
    of the job is not an object; the exception is the [TypeError] of the
    property read that failed. *)
Theorem registerTarget_throws t c e :
  registerTarget t c = Throw e ↔
  (nullish c = true ∧ e = TypeError Reading c "scrape_configs") ∨
  (∃ elems extra, get_prop c "scrape_configs" = Ok (VArray elems extra) ∧
     ((∃ j sc, elems !! j = Some sc ∧ nullish sc = true ∧
         e = TypeError Reading sc "job_name" ∧
         Forall (λ y, is_job y = Ok false) (take j elems)) ∨
      (∃ i job g, findM is_job elems = Ok (Some (i, job)) ∧
         get_prop (groups_of job) "0" = Ok g ∧ container g = false ∧
         e = if nullish g then TypeError Reading g "targets"
             else TypeError Reading VUndefined "includes"))).
Proof.
  rewrite registerTarget_reference, reference_Throw.
  by setoid_rewrite edit_group_Throw.
Qed.

(** The job is reported as not found, and nothing is edited,
    exactly when [scrape_configs] is a list none of whose entries has
    [job_name] equal to [prometheus]. *)
Theorem registerTarget_job_not_found t c :
  registerTarget t c = Ok JobNotFound ↔
  ∃ elems extra, get_prop c "scrape_configs" = Ok (VArray elems extra) ∧
    Forall (λ sc, is_job sc = Ok false) elems.
Proof. rewrite registerTarget_reference. apply reference_JobNotFound. Qed.

(** The document is reported as having no [scrape_configs], and
    nothing is edited, exactly when the document is not [null] or
    [undefined] and its [scrape_configs] is not a list. *)
Theorem registerTarget_no_scrape_configs t c :
  registerTarget t c = Ok NoScrapeConfigs ↔
  ∃ scs, get_prop c "scrape_configs" = Ok scs ∧ isArray scs = false.
Proof. rewrite registerTarget_reference. apply reference_NoScrapeConfigs. Qed.

(** The two scenarios of the specification: registering a new
    address appends it, registering the listed address changes
    nothing. *)
Theorem registerTarget_scenarios :
  registerTarget "10.0.0.2:8000" doc1 = Ok (Mutated true doc2) ∧
  registerTarget "10.0.0.1:8000" doc1 = Ok (Mutated false doc1).
Proof. split; reflexivity. Qed.
