(* ===== verification/Settled.v ===== *)
(** * Settled: the target set of the job, and registration as insertion

    The specification describes the configuration as a document in which
    the job has a first target group holding a set of addresses, and
    registration as insertion into that set.  This file states that
    reading of the document and shows when the code implements it.

    [settled c i] holds of the documents on which the edit of index.js
    122-145 takes no repair branch: the file was parsed ([loaded]), the
    job is found at index [i] (line 126), it has groups (line 132 is
    false), its first group is an object and not a list, and the
    group's [targets] is a list (line 136 is false).  On such a
    document [targets_of] is the target set, [listed] is the insertion
    of lines 140-141 on it, and [with_targets] is the document with
    another target set and everything else as it is.

    [descends c0 i tl c] is the family of documents the program can
    derive from [c0]: [c0] with the target set [tl]. *)

From stdpp Require Import base strings pretty numbers option list.
From S2P Require Import Prelude JsValue ConfigMutator.

Local Open Scope string_scope.
Local Open Scope nat_scope.
Local Open Scope list_scope.

(** ** Definitions *)

(** Lines 140-141 on the list of addresses: append if absent. *)
Definition listed (t : string) (tl : list value) : list value :=
  if bool_decide (VString t ∈ tl) then tl else tl ++ [VString t].

(** The addresses after the instances [ts] registered one after the
    other. *)
Definition all_listed (ts : list string) (tl : list value) : list value :=
  foldl (λ acc t, listed t acc) tl ts.

(** The document with the target set of the job replaced. *)
Definition with_targets (c : value) (i : nat) (tl : list value) : value :=
  replace_path c (targets_path i) (VArray tl []).

(** The documents on which lines 122-145 take no repair branch. *)
Definition settled (c : value) (i : nat) : bool :=
  loaded c && bool_decide (job_index c = Some i) &&
  negb (no_groups (get_path c (groups_path i))) &&
  negb (isArray (get_path c (group_path i))) &&
  isArray (get_path c (targets_path i)).

(** [c] is [c0] with the target set [tl]. *)
Record descends (c0 : value) (i : nat) (tl : list value) (c : value) : Prop := Descends {
  descends_settled : settled c i = true;
  descends_targets : targets_of c i = Some tl;
  descends_rest : c = with_targets c0 i tl
}.

(** ** Lemmas: the target set *)

Lemma elem_of_listed x t tl : x ∈ listed t tl ↔ x ∈ tl ∨ x = VString t.
Proof.
  unfold listed. case_bool_decide; [naive_solver|].
  rewrite elem_of_app, list_elem_of_singleton. done.
Qed.

Lemma listed_present t tl : VString t ∈ tl → listed t tl = tl.
Proof. intros Hin. unfold listed. by rewrite bool_decide_eq_true_2. Qed.

Lemma listed_absent t tl : VString t ∉ tl → listed t tl = tl ++ [VString t].
Proof. intros Hin. unfold listed. by rewrite bool_decide_eq_false_2. Qed.

Lemma listed_idemp t tl : listed t (listed t tl) = listed t tl.
Proof. apply listed_present, elem_of_listed. by right. Qed.

Lemma listed_prefix t tl : tl `prefix_of` listed t tl.
Proof. unfold listed. case_bool_decide; [done|]. by apply prefix_app_r. Qed.

Lemma listed_NoDup t tl : NoDup tl → NoDup (listed t tl).
Proof.
  intros Hnd. unfold listed. case_bool_decide; [done|].
  apply NoDup_app. split_and!; [done| |apply NoDup_singleton].
  intros x Hx ->%list_elem_of_singleton. done.
Qed.

Lemma listed_loaded t tl : forallb loaded tl = true → forallb loaded (listed t tl) = true.
Proof.
  intros Hl. unfold listed. case_bool_decide; [done|].
  rewrite forallb_app, Hl. done.
Qed.

(** The set is unordered: two insertions in either order list the same
    addresses. *)
Lemma listed_comm t1 t2 tl : listed t1 (listed t2 tl) ≡ₚ listed t2 (listed t1 tl).
Proof.
  destruct (decide (t1 = t2)) as [->|Hne]; [done|].
  assert (VString t1 ≠ VString t2) by congruence.
  destruct (decide (VString t1 ∈ tl)) as [H1|H1], (decide (VString t2 ∈ tl)) as [H2|H2].
  - by rewrite !listed_present by (rewrite ?listed_present; done).
  - rewrite (listed_present t1 tl), (listed_absent t2 tl) by done.
    rewrite listed_present; [done|]. apply elem_of_app. by left.
  - rewrite (listed_present t2 tl), (listed_absent t1 tl) by done.
    rewrite (listed_present t2); [done|]. apply elem_of_app. by left.
  - rewrite (listed_absent t1 tl), (listed_absent t2 tl) by done.
    rewrite !listed_absent by (rewrite elem_of_app, list_elem_of_singleton; naive_solver).
    rewrite <- !(assoc_L (++)). apply Permutation_app_head, perm_swap.
Qed.

#[export] Instance listed_perm t : Proper ((≡ₚ) ==> (≡ₚ)) (listed t).
Proof.
  intros tl tl' Hp. unfold listed.
  rewrite (bool_decide_ext _ (VString t ∈ tl')) by (by rewrite Hp).
  case_bool_decide; by rewrite Hp.
Qed.

Lemma all_listed_perm_r ts tl tl' : tl ≡ₚ tl' → all_listed ts tl ≡ₚ all_listed ts tl'.
Proof.
  revert tl tl'. induction ts as [|t ts IH]; intros tl tl' Hp; simpl; [done|].
  by apply IH, listed_perm.
Qed.

(** The order in which instances register does not matter to the
    addresses that end up listed. *)
#[export] Instance all_listed_perm : Proper ((≡ₚ) ==> (≡ₚ) ==> (≡ₚ)) all_listed.
Proof.
  intros ts ts' Hts. induction Hts as [|t ts ts' _ IH|t1 t2 ts|ts1 ts2 ts3 _ IH1 _ IH2];
    intros tl tl' Hp; simpl.
  - done.
  - by apply IH, listed_perm.
  - apply all_listed_perm_r. rewrite Hp. apply listed_comm.
  - etrans; [by apply IH1|by apply IH2].
Qed.

Lemma elem_of_all_listed x ts tl :
  x ∈ all_listed ts tl ↔ x ∈ tl ∨ ∃ t, t ∈ ts ∧ x = VString t.
Proof.
  revert tl. induction ts as [|t ts IH]; intros tl; simpl.
  - split; [by left|]. intros [?|(t & Ht & _)]; [done|]. by apply elem_of_nil in Ht.
  - rewrite IH, elem_of_listed. setoid_rewrite elem_of_cons. naive_solver.
Qed.

Lemma all_listed_prefix ts tl : tl `prefix_of` all_listed ts tl.
Proof.
  revert tl. induction ts as [|t ts IH]; intros tl; simpl; [done|].
  etrans; [apply (listed_prefix t)|apply IH].
Qed.

Lemma all_listed_NoDup ts tl : NoDup tl → NoDup (all_listed ts tl).
Proof.
  revert tl. induction ts as [|t ts IH]; intros tl Hnd; simpl; [done|].
  by apply IH, listed_NoDup.
Qed.

(** What registrations add: each address once, after what was listed. *)
Lemma all_listed_added ts tl :
  ∃ added, all_listed ts tl = tl ++ (VString <$> added) ∧ NoDup added ∧ added ⊆ ts ∧
    ∀ t, t ∈ added → VString t ∉ tl.
Proof.
  revert tl. induction ts as [|t ts IH]; intros tl; simpl.
  { exists []. rewrite app_nil_r. split_and!; [done|constructor|done|by intros ? ?%elem_of_nil]. }
  destruct (decide (VString t ∈ tl)) as [Hin|Hout].
  - rewrite listed_present by done. destruct (IH tl) as (added & -> & Hnd & Hsub & Hnew).
    exists added. split_and!; [done..| |done]. intros x Hx.
    by apply elem_of_cons; right; apply Hsub.
  - rewrite listed_absent by done.
    destruct (IH (tl ++ [VString t])) as (added & -> & Hnd & Hsub & Hnew).
    assert (∀ t', t' ∈ added → t' ≠ t ∧ VString t' ∉ tl) as Hnew'.
    { intros t' Ht'%Hnew. rewrite elem_of_app, list_elem_of_singleton in Ht'.
      split; [intros ->|]; tauto. }
    exists (t :: added). rewrite <- (assoc (++)). split_and!; [done| | |].
    + apply NoDup_cons. split; [|done]. intros [? _]%Hnew'. done.
    + intros x [->|Hx]%elem_of_cons; apply elem_of_cons; [by left|by right; apply Hsub].
    + intros t' [->|[_ ?]%Hnew']%elem_of_cons; done.
Qed.

(** However often the instances register, the list grows by one
    entry for each of their addresses at most. *)
Lemma all_listed_length ts us tl :
  ts ⊆ us → length (all_listed ts tl) ≤ length tl + length us.
Proof.
  intros Hsub. destruct (all_listed_added ts tl) as (added & -> & Hnd & Hadd & _).
  rewrite length_app, length_fmap. apply Nat.add_le_mono_l, submseteq_length.
  apply NoDup_submseteq; [done|]. intros x Hx. by apply Hsub, Hadd.
Qed.

(** ** Lemmas: the shape of a settled document *)

(** A container that a chain of property reads ends in was reached
    through own children. *)
Lemma get_path_child_path v p x :
  get_path v p = x → container x = true → child_path v p = Some x.
Proof.
  revert v. induction p as [|k p IH]; intros v; simpl; [by intros ->|].
  destruct (get_prop v k) as [y|e] eqn:Hk; [|by intros <-].
  intros Hp Hx. pose proof (IH y Hp Hx) as Hy.
  assert (container y = true) as Hc.
  { destruct p as [|k' p]; simpl in Hy; [by simplify_eq|].
    destruct (child y k') eqn:Hk'; [by eapply child_container|done]. }
  by rewrite (get_prop_container_child v k y Hk Hc).
Qed.

Lemma settled_spec c i :
  settled c i = true ↔
  loaded c = true ∧ job_index c = Some i ∧
  no_groups (get_path c (groups_path i)) = false ∧
  isArray (get_path c (group_path i)) = false ∧
  isArray (get_path c (targets_path i)) = true.
Proof.
  unfold settled. rewrite !andb_true_iff, !negb_true_iff, bool_decide_eq_true. naive_solver.
Qed.

Lemma job_index_Some c i :
  job_index c = Some i →
  ∃ elems extra job, child c "scrape_configs" = Some (VArray elems extra) ∧
    findM is_job elems = Ok (Some (i, job)).
Proof.
  unfold job_index. destruct (get_prop c "scrape_configs") as [[| | | | |elems extra|]|] eqn:Hscs;
    try done.
  destruct (findM is_job elems) as [[[j job]|]|] eqn:Hfind; try done. intros [= ->].
  exists elems, extra, job. split; [|done]. by apply get_prop_container_child.
Qed.

(** The pieces the edit works on, in a settled document. *)
Lemma settled_pieces c i tl :
  settled c i = true → targets_of c i = Some tl →
  ∃ elems extra job g,
    child c "scrape_configs" = Some (VArray elems extra) ∧
    findM is_job elems = Ok (Some (i, job)) ∧
    child (groups_of job) "0" = Some g ∧ container g = true ∧
    child g "targets" = Some (VArray tl []).
Proof.
  intros (Hl & Hi & Hng & Hgrp & Harr)%settled_spec [tx Htl]%targets_of_Some.
  destruct (job_index_Some c i Hi) as (elems & extra & job & Hscs & Hfind).
  exists elems, extra, job.
  pose proof (get_path_child_path c _ _ Htl eq_refl) as Hp.
  pose proof (loaded_child_path c _ _ Hl Hp) as [_ ->]%loaded_array.
  rewrite targets_path_split, child_path_app in Hp.
  rewrite (found_job_child_path c i elems extra job Hscs Hfind) in Hp. simpl in Hp.
  destruct (child job "static_configs") as [st|] eqn:Hst; [|done]. simpl in Hp.
  destruct (child st "0") as [g|] eqn:Hg; [|done]. simpl in Hp.
  rewrite (edited_old_groups c i elems extra job Hscs Hfind), Hst in Hng.
  destruct (child g "targets") as [x|] eqn:Ht; [|done]. simpl in Hp. simplify_eq.
  exists g. split_and!; [done..| |by eapply child_container|done].
  unfold groups_of. rewrite Hst. simpl. by rewrite groups_after_fixed.
Qed.

(** ** Lemmas: registration on a settled document *)

Lemma targets_after_listed t tl :
  targets_after t (VArray tl []) = (negb (bool_decide (VString t ∈ tl)), VArray (listed t tl) []).
Proof. unfold listed. simpl. by case_bool_decide. Qed.

(** On a settled document the edit is the insertion. *)
Lemma settled_edit_at t c i tl :
  settled c i = true → targets_of c i = Some tl →
  edit_at t c i (negb (bool_decide (VString t ∈ tl))) (with_targets c i (listed t tl)).
Proof.
  intros Hs Htl.
  destruct (settled_pieces c i tl Hs Htl) as (elems & extra & job & g & Hscs & Hfind & Hg & Hc & Ht).
  apply settled_spec in Hs as (_ & _ & Hng & _).
  apply (EditAt t c i _ _ elems extra job g); [done..| |].
  - rewrite Ht. cbn [from_option id]. by rewrite targets_after_listed.
  - rewrite (edited_targets_path t c i elems extra job g) by done.
    unfold with_targets, new_targets. rewrite Ht. cbn [from_option id].
    by rewrite targets_after_listed.
Qed.

(** The edit of a settled document leaves a settled document. *)
Lemma edit_at_settled t c i a c' :
  settled c i = true → edit_at t c i a c' → settled c' i = true.
Proof.
  intros (Hl & Hi & Hng & Hgrp & Harr)%settled_spec Hed.
  pose proof (edit_at_job_index _ _ _ _ _ (edit_at_idempotent _ _ _ _ _ Hed)) as Hi'.
  destruct Hed as [elems extra job g Hscs Hfind Hg Hc -> ->].
  assert (child_path (replace_path c (job_path i) (new_job t job g)) (group_path i) =
          Some (with_prop g "targets" (new_targets t g))) as Hgrp'
    by (by apply (edited_group t c i elems extra job g)).
  assert (child_path c (group_path i) = Some g) as Hg0
    by (by apply (edited_group_path c i elems extra job g)).
  assert (isArray (get_path (replace_path c (job_path i) (new_job t job g)) (group_path i))
          = false) as Hna.
  { rewrite (child_path_get_path _ _ _ Hgrp').
    rewrite (child_path_get_path _ _ _ Hg0) in Hgrp. by destruct g. }
  apply settled_spec. split_and!; [|done| |done|].
  - eapply edit_at_loaded; [by econstructor|done..].
  - erewrite child_path_get_path; [|by apply (edited_groups t c i elems extra job g)].
    rewrite no_groups_with_prop by done. apply no_groups_groups_after.
  - rewrite (edited_targets t c i elems extra job g) by done.
    by destruct (targets_after_array t (default VUndefined (child g "targets")))
      as (tl & tx & -> & _).
Qed.

Lemma targets_of_with_targets c i tl tl' :
  settled c i = true → targets_of c i = Some tl → targets_of (with_targets c i tl') i = Some tl'.
Proof.
  intros (_ & _ & _ & _ & Harr)%settled_spec [tx Htl]%targets_of_Some.
  apply targets_of_Some. exists []. apply get_path_replace_path.
  eapply child_path_reachable, get_path_child_path; [exact Htl|done].
Qed.

Lemma with_targets_id c i tl :
  settled c i = true → targets_of c i = Some tl → with_targets c i tl = c.
Proof.
  intros Hs Htl.
  destruct (settled_pieces c i tl Hs Htl) as (elems & extra & job & g & Hscs & Hfind & Hg & Hc & Ht).
  apply settled_spec in Hs as (_ & _ & Hng & _).
  apply replace_path_id. unfold targets_path.
  rewrite child_path_app, (edited_group_path c i elems extra job g) by done. simpl. by rewrite Ht.
Qed.

Lemma with_targets_with_targets c i tl tl' :
  with_targets (with_targets c i tl) i tl' = with_targets c i tl'.
Proof. apply replace_path_replace_path. Qed.

(** What lies off the target set is as in the document the family
    started from. *)
Lemma with_targets_frame c i tl p :
  diverge p (targets_path i) → get_path (with_targets c i tl) p = get_path c p.
Proof. apply get_path_replace_path_diverge. Qed.

Lemma descends_refl c i tl :
  settled c i = true → targets_of c i = Some tl → descends c i tl c.
Proof. intros Hs Htl. split; [done..|]. by rewrite with_targets_id. Qed.

(** Registration maps the family to itself: the document with the
    target set [tl] goes to the document with the target set
    [listed t tl]. *)
Lemma descends_register t c0 i tl c :
  descends c0 i tl c →
  registerTarget t c = Ok (Mutated (negb (bool_decide (VString t ∈ tl)))
                             (with_targets c0 i (listed t tl))) ∧
  descends c0 i (listed t tl) (with_targets c0 i (listed t tl)).
Proof.
  intros [Hs Htl Hc].
  pose proof (settled_edit_at t c i tl Hs Htl) as Hed.
  rewrite Hc, with_targets_with_targets, <- Hc in Hed.
  split; [apply registerTarget_Mutated; eauto|].
  pose proof (edit_at_settled _ _ _ _ _ Hs Hed) as Hs'.
  split; [done| |done].
  rewrite <- (with_targets_with_targets c0 i tl), <- Hc. by eapply targets_of_with_targets.
Qed.

Lemma descends_loaded c0 i tl c : descends c0 i tl c → loaded c = true.
Proof. by intros [(Hl & _)%settled_spec _ _]. Qed.

Lemma descends_functional c0 i tl c1 c2 : descends c0 i tl c1 → descends c0 i tl c2 → c1 = c2.
Proof. intros [_ _ ->] [_ _ ->]. done. Qed.

(** * Theorems *)

(** [C24] On a settled document the code is the insertion of the
    specification: registration succeeds, reports the address as
    added exactly when it was not listed, returns the document with
    the address appended to the target set if it was not listed and
    everything else as it was, and that document is settled again,
    with no address twice if there was none. *)
Theorem registerTarget_settled t c i tl :
  settled c i = true → targets_of c i = Some tl →
  registerTarget t c =
    Ok (Mutated (negb (bool_decide (VString t ∈ tl))) (with_targets c i (listed t tl))) ∧
  settled (with_targets c i (listed t tl)) i = true ∧
  targets_of (with_targets c i (listed t tl)) i = Some (listed t tl) ∧
  (NoDup tl → NoDup (listed t tl)) ∧
  ∀ p, diverge p (targets_path i) → get_path (with_targets c i (listed t tl)) p = get_path c p.
Proof.
  intros Hs Htl.
  destruct (descends_register t c i tl c (descends_refl c i tl Hs Htl)) as [Hreg [Hs' Htl' _]].
  split_and!; [done..|apply listed_NoDup|]. intros p Hp. by apply with_targets_frame.
Qed.

Lemma registerTarget_settled_witness :
  registerTarget "10.0.0.2:8000" doc3 =
    Ok (Mutated (negb (bool_decide (VString "10.0.0.2:8000" ∈ [VString "10.0.0.1:8000"])))
          (with_targets doc3 1 (listed "10.0.0.2:8000" [VString "10.0.0.1:8000"]))) ∧
  settled (with_targets doc3 1 (listed "10.0.0.2:8000" [VString "10.0.0.1:8000"])) 1 = true ∧
  targets_of (with_targets doc3 1 (listed "10.0.0.2:8000" [VString "10.0.0.1:8000"])) 1 =
    Some (listed "10.0.0.2:8000" [VString "10.0.0.1:8000"]) ∧
  (NoDup [VString "10.0.0.1:8000"] → NoDup (listed "10.0.0.2:8000" [VString "10.0.0.1:8000"])) ∧
  ∀ p, diverge p (targets_path 1) →
    get_path (with_targets doc3 1 (listed "10.0.0.2:8000" [VString "10.0.0.1:8000"])) p =
    get_path doc3 p.
Proof. apply (registerTarget_settled "10.0.0.2:8000" doc3 1); reflexivity. Defined.
