(* ===== verification/Heap.v ===== *)
(** * Heap: the parsed document as JavaScript has it, objects in a store

    [yaml.load] returns objects, and [updatePrometheusYML] edits them in
    place through the references [jobConfig] and [staticConfig]
    (index.js 126-141).  ConfigMutator reads the document as a tree;
    here it is what it is in memory: a [heap] maps locations to objects
    whose properties are primitives or references ([hval]).  Two
    properties may hold the same reference, which is what a YAML alias
    ([*name]) gives.

    The operators are those of JsValue, on references: [hget_prop],
    [hset_prop], [hisArray], [hincludes], [hpush], [hfind], and [alloc]
    for an array or object literal.  A primitive behaves as in JsValue,
    so its cases are taken from there ([shallow], [lift]).

    [repr h v t ls] says that the value [v] reads in the heap [h] as the
    tree [t], and that [ls] lists the locations met on the way, one
    entry per visit: the value is tree-shaped, without sharing, when no
    location is listed twice.  [unfold] computes [t] and [ls]. *)

From stdpp Require Import base strings pretty numbers gmap option list.
From S2P Require Import Prelude JsValue.

Local Open Scope string_scope.
Local Open Scope nat_scope.
Local Open Scope list_scope.

(** ** Data *)

Definition loc : Type := positive.

(** A value as a variable holds it. *)
Inductive hval : Type :=
| HUndefined
| HNull
| HBool (b : bool)
| HNumber (n : number)
| HString (s : string)
| HRef (l : loc).

(** An object of the store: an array with its elements and named
    properties, or a plain object with its properties. *)
Inductive obj : Type :=
| OArray (elems : list hval) (extra : list (string * hval))
| OObject (props : list (string * hval)).

#[warnings="-notation-for-abbreviation"]
Notation heap := (gmap loc obj).

(** Exceptions, with the value the failed access was made on. *)
Inductive hexn : Type :=
| HTypeError (how : access) (base : hval) (key : string)
| HUnmodelled (what : string).

(** A computation that reads and writes the store and may throw. *)
Definition heapM (A : Type) : Type := heap → result hexn (A * heap).

#[export] Instance hval_eq_dec : EqDecision hval.
Proof. solve_decision. Defined.

#[export] Instance obj_eq_dec : EqDecision obj.
Proof. solve_decision. Defined.

#[export] Instance hexn_eq_dec : EqDecision hexn.
Proof. solve_decision. Defined.

#[export] Instance heapM_ret : MRet heapM := λ A x h, Ok (x, h).

#[export] Instance heapM_bind : MBind heapM := λ A B f m h,
  let* r := m h in f r.1 r.2.

(** A computation that only reads, and one that only writes. *)
Definition reading {A} (f : heap → result hexn A) : heapM A := λ h,
  let* x := f h in Ok (x, h).

Definition writing (f : heap → result hexn heap) : heapM unit := λ h,
  let* h' := f h in Ok ((), h').

(** ** Primitives *)

Definition is_ref (v : hval) : bool :=
  match v with
  | HRef _ => true
  | _ => false
  end.

(** What can be told of a value without the store: a primitive is
    itself, a reference is some object. *)
Definition shallow (v : hval) : value :=
  match v with
  | HUndefined => VUndefined
  | HNull => VNull
  | HBool b => VBool b
  | HNumber n => VNumber n
  | HString s => VString s
  | HRef _ => VObject []
  end.

Definition of_value (t : value) : hval :=
  match t with
  | VUndefined => HUndefined
  | VNull => HNull
  | VBool b => HBool b
  | VNumber n => HNumber n
  | VString s => HString s
  | VArray _ _ | VObject _ => HUndefined
  end.

(** The outcome of an operator of JsValue on the primitive [v]. *)
Definition lift {A B} (f : A → B) (v : hval) (r : js A) : result hexn B :=
  match r with
  | Ok x => Ok (f x)
  | Throw (TypeError how _ k) => Throw (HTypeError how v k)
  | Throw (Unmodelled what) => Throw (HUnmodelled what)
  | Throw _ => Throw (HUnmodelled "not an error of an operator")
  end.

(** ** Operators *)

Definition htruthy (v : hval) : bool := truthy (shallow v).

Definition hnullish (v : hval) : bool := nullish (shallow v).

Definition dangling : hexn := HUnmodelled "dangling reference".

(** [v.k] and [v[k]] *)
Definition hget_prop (h : heap) (v : hval) (k : string) : result hexn hval :=
  match v with
  | HRef l =>
      match h !! l with
      | Some (OArray elems extra) =>
          if decide (k = "length") then Ok (HNumber (Int (Z.of_nat (length elems))))
          else match array_index k with
               | Some i => Ok (default HUndefined (elems !! i))
               | None => Ok (default HUndefined (assoc_get k extra))
               end
      | Some (OObject props) => Ok (default HUndefined (assoc_get k props))
      | None => Throw dangling
      end
  | _ => lift of_value v (get_prop (shallow v) k)
  end.

(** [v.k = x]: the object [v] refers to is changed where it is. *)
Definition hset_prop (v : hval) (k : string) (x : hval) (h : heap) : result hexn heap :=
  match v with
  | HRef l =>
      match h !! l with
      | Some (OArray elems extra) =>
          if decide (k = "length") then Throw (HUnmodelled "write to Array length")
          else match array_index k with
               | Some i =>
                   Ok (<[l := OArray
                                (<[i := x]> (elems ++ replicate (S i - length elems) HUndefined))
                                extra]> h)
               | None => Ok (<[l := OArray elems (assoc_set k x extra)]> h)
               end
      | Some (OObject props) => Ok (<[l := OObject (assoc_set k x props)]> h)
      | None => Throw dangling
      end
  | _ => lift (λ _, h) v (set_prop (shallow v) k VUndefined)
  end.

(** [Array.isArray(v)] *)
Definition hisArray (h : heap) (v : hval) : bool :=
  match v with
  | HRef l =>
      match h !! l with
      | Some (OArray _ _) => true
      | _ => false
      end
  | _ => false
  end.

(** [v.includes(s)] *)
Definition hincludes (h : heap) (v : hval) (s : string) : result hexn bool :=
  match v with
  | HRef l =>
      match h !! l with
      | Some (OArray elems _) => Ok (existsb (λ x, strict_eq_string (shallow x) s) elems)
      | Some (OObject _) => Throw (HTypeError Calling v "includes")
      | None => Throw dangling
      end
  | _ => lift id v (includes (shallow v) s)
  end.

(** [v.push(s)]: the array [v] refers to grows where it is. *)
Definition hpush (v : hval) (s : string) (h : heap) : result hexn heap :=
  match v with
  | HRef l =>
      match h !! l with
      | Some (OArray elems extra) => Ok (<[l := OArray (elems ++ [HString s]) extra]> h)
      | Some (OObject _) => Throw (HTypeError Calling v "push")
      | None => Throw dangling
      end
  | _ => lift (λ _, h) v (push (shallow v) s)
  end.

(** [arr.find(p)]: the first element on which [p] holds. *)
Definition hfind (h : heap) (arr : hval) (p : hval → result hexn bool) :
    result hexn (option hval) :=
  match arr with
  | HRef l =>
      match h !! l with
      | Some (OArray elems _) => result_map (fmap snd) (findM p elems)
      | Some (OObject _) => Throw (HTypeError Calling arr "find")
      | None => Throw dangling
      end
  | _ =>
      Throw (HTypeError (if hnullish arr then Reading else Calling) arr "find")
  end.

(** An array or object literal: a new object at a location not yet in
    use. *)
Definition alloc (o : obj) : heapM hval := λ h,
  let l := fresh (dom h) in Ok (HRef l, <[l := o]> h).

(** The own child of the object [v] refers to, under a property name. *)
Definition hchild (h : heap) (v : hval) (k : string) : option hval :=
  match v with
  | HRef l =>
      match h !! l with
      | Some (OArray elems extra) =>
          if decide (k = "length") then None
          else match array_index k with
               | Some i => elems !! i
               | None => assoc_get k extra
               end
      | Some (OObject props) => assoc_get k props
      | None => None
      end
  | _ => None
  end.

(** ** Reading a value of the store as a tree *)

(** Lists related element by element, with what the elements list put
    end to end. *)
Inductive reprs {A B C} (R : A → B → list C → Prop) : list A → list B → list C → Prop :=
| reprs_nil : reprs R [] [] []
| reprs_cons x y ls xs ys ls' :
    R x y ls → reprs R xs ys ls' → reprs R (x :: xs) (y :: ys) (ls ++ ls').

#[warnings="-register-all"]
Inductive repr (h : heap) : hval → value → list loc → Prop :=
| repr_prim v : is_ref v = false → repr h v (shallow v) []
| repr_array l elems extra ts tx ls1 ls2 :
    h !! l = Some (OArray elems extra) →
    reprs (repr h) elems ts ls1 →
    keys extra = keys tx →
    reprs (repr h) extra.*2 tx.*2 ls2 →
    repr h (HRef l) (VArray ts tx) (l :: ls1 ++ ls2)
| repr_object l props tps ls :
    h !! l = Some (OObject props) →
    keys props = keys tps →
    reprs (repr h) props.*2 tps.*2 ls →
    repr h (HRef l) (VObject tps) (l :: ls).

(** The same as a function.  [n] bounds the depth; a reference cycle
    has no tree and exhausts every bound. *)
Fixpoint unfold_list (f : hval → option (value * list loc)) (vs : list hval) :
    option (list value * list loc) :=
  match vs with
  | [] => Some ([], [])
  | v :: vs' =>
      r ← f v; rs ← unfold_list f vs'; Some (r.1 :: rs.1, r.2 ++ rs.2)
  end.

Fixpoint unfold (n : nat) (h : heap) (v : hval) : option (value * list loc) :=
  match v with
  | HRef l =>
      match n with
      | 0 => None
      | S n' =>
          match h !! l with
          | Some (OArray elems extra) =>
              es ← unfold_list (unfold n' h) elems;
              ex ← unfold_list (unfold n' h) extra.*2;
              Some (VArray es.1 (zip (keys extra) ex.1), l :: es.2 ++ ex.2)
          | Some (OObject props) =>
              ps ← unfold_list (unfold n' h) props.*2;
              Some (VObject (zip (keys props) ps.1), l :: ps.2)
          | None => None
          end
      end
  | _ => Some (shallow v, [])
  end.

(** ** Examples *)

(** A document in which the job [node] takes its groups from the job
    [prometheus] by an alias:
<<
    scrape_configs:
      - job_name: prometheus
        static_configs: &groups
          - targets: ['localhost:9090']
      - job_name: node
        static_configs: *groups
>>
    The two jobs hold the same reference, to the object at 5. *)
Definition alias_heap : heap := list_to_map
  [(1%positive, OObject [("scrape_configs", HRef 2%positive)]);
   (2%positive, OArray [HRef 3%positive; HRef 4%positive] []);
   (3%positive, OObject [("job_name", HString "prometheus"); ("static_configs", HRef 5%positive)]);
   (4%positive, OObject [("job_name", HString "node"); ("static_configs", HRef 5%positive)]);
   (5%positive, OArray [HRef 6%positive] []);
   (6%positive, OObject [("targets", HRef 7%positive)]);
   (7%positive, OArray [HString "localhost:9090"] [])].

(** What it reads as, from the root at 1. *)
Definition alias_tree : value :=
  let groups := VArray [VObject [("targets", VArray [VString "localhost:9090"] [])]] [] in
  VObject [("scrape_configs",
    VArray [VObject [("job_name", VString "prometheus"); ("static_configs", groups)];
            VObject [("job_name", VString "node"); ("static_configs", groups)]] [])].

(** An array that holds itself. *)
Definition cycle_heap : heap := {[1%positive := OArray [HRef 1%positive] []]}.

(** ** Putting a tree in the store *)

(** The objects of a tree, each at a location of its own, children
    before parents: what a parser returns for a document without
    aliases. *)
Section store_list.
Context (f : value → heap → hval * heap).

Fixpoint store_elems (ts : list value) (h : heap) : list hval * heap :=
  match ts with
  | [] => ([], h)
  | t :: ts' =>
      let r := f t h in
      let rs := store_elems ts' r.2 in (r.1 :: rs.1, rs.2)
  end.

Fixpoint store_props (ps : list (string * value)) (h : heap) :
    list (string * hval) * heap :=
  match ps with
  | [] => ([], h)
  | kt :: ps' =>
      let r := f kt.2 h in
      let rs := store_props ps' r.2 in ((kt.1, r.1) :: rs.1, rs.2)
  end.

End store_list.

Fixpoint store (t : value) (h : heap) : hval * heap :=
  match t with
  | VArray xs ex =>
      let es := store_elems store xs h in
      let px := store_props store ex es.2 in
      let l := fresh (dom px.2) in
      (HRef l, <[l := OArray es.1 px.1]> px.2)
  | VObject ps =>
      let pp := store_props store ps h in
      let l := fresh (dom pp.2) in
      (HRef l, <[l := OObject pp.1]> pp.2)
  | _ => (of_value t, h)
  end.

(** ** Induction on [repr] *)

Section repr_ind.
Context (h : heap) (P : hval → value → list loc → Prop).
Hypothesis Hprim : ∀ v, is_ref v = false → P v (shallow v) [].
Hypothesis Harray : ∀ l elems extra ts tx ls1 ls2,
  h !! l = Some (OArray elems extra) →
  reprs (λ v t ls, repr h v t ls ∧ P v t ls) elems ts ls1 →
  keys extra = keys tx →
  reprs (λ v t ls, repr h v t ls ∧ P v t ls) extra.*2 tx.*2 ls2 →
  P (HRef l) (VArray ts tx) (l :: ls1 ++ ls2).
Hypothesis Hobject : ∀ l props tps ls,
  h !! l = Some (OObject props) →
  keys props = keys tps →
  reprs (λ v t ls, repr h v t ls ∧ P v t ls) props.*2 tps.*2 ls →
  P (HRef l) (VObject tps) (l :: ls).

Fixpoint repr_ind' v t ls (H : repr h v t ls) {struct H} : P v t ls :=
  let all :=
    fix all xs ys ls (Hs : reprs (repr h) xs ys ls) {struct Hs} :
        reprs (λ v t ls, repr h v t ls ∧ P v t ls) xs ys ls :=
      match Hs with
      | reprs_nil _ => reprs_nil _
      | reprs_cons _ x y l0 xs' ys' l' Hx Hr =>
          reprs_cons _ x y l0 xs' ys' l' (conj Hx (repr_ind' x y l0 Hx)) (all xs' ys' l' Hr)
      end in
  match H with
  | repr_prim _ v Hv => Hprim v Hv
  | repr_array _ l elems extra ts tx ls1 ls2 Hl He Hk Hx =>
      Harray l elems extra ts tx ls1 ls2 Hl (all _ _ _ He) Hk (all _ _ _ Hx)
  | repr_object _ l props tps ls Hl Hk Hp =>
      Hobject l props tps ls Hl Hk (all _ _ _ Hp)
  end.

End repr_ind.

(** ** Lemmas: related lists *)

Section reprs_lemmas.
Context {A B C : Type}.
Implicit Types (R : A → B → list C → Prop).

Lemma reprs_length R xs ys ls : reprs R xs ys ls → length xs = length ys.
Proof. induction 1; simpl; congruence. Qed.

(** A relation may be exchanged for another on the elements, each
    knowing that what it lists is listed by the whole. *)
Lemma reprs_impl R R' xs ys ls :
  reprs R xs ys ls → (∀ x y l0, R x y l0 → l0 ⊆ ls → R' x y l0) → reprs R' xs ys ls.
Proof.
  induction 1 as [|x y l0 xs ys l' Hx _ IH]; intros Himp; constructor.
  - apply Himp; [done|set_solver].
  - apply IH. intros x' y' l1 Hx' Hsub. apply Himp; [done|set_solver].
Qed.

Lemma reprs_snoc R xs ys ls x y l0 :
  reprs R xs ys ls → R x y l0 → reprs R (xs ++ [x]) (ys ++ [y]) (ls ++ l0).
Proof.
  induction 1 as [|x' y' l1 xs ys l' Hx' _ IH]; intros Hx; simpl.
  - rewrite <- (app_nil_r l0). by repeat constructor.
  - rewrite <- app_assoc. constructor; auto.
Qed.

(** The element at a place, with what stands before and after what it
    lists; and the list with another element at that place. *)
Lemma reprs_lookup R xs ys ls i x :
  reprs R xs ys ls → xs !! i = Some x →
  ∃ y l0 pre post, ys !! i = Some y ∧ R x y l0 ∧ ls = pre ++ l0 ++ post ∧
    ∀ R' x' y' l0',
      (∀ a b l1, R a b l1 → l1 ⊆ pre ++ post → R' a b l1) → R' x' y' l0' →
      reprs R' (<[i := x']> xs) (<[i := y']> ys) (pre ++ l0' ++ post).
Proof.
  intros Hs. revert i. induction Hs as [|x0 y0 l0 xs ys l' Hx0 Hs IH]; intros [|i] Hi;
    simplify_eq/=.
  - exists y0, l0, [], l'. split_and!; [done..|]. intros R' x' y' l0' Himp Hx'. simpl.
    constructor; [done|]. eapply reprs_impl; [done|]. auto.
  - destruct (IH i Hi) as (y & l1 & pre & post & Hy & Hx & -> & Hins).
    exists y, l1, (l0 ++ pre), post. split_and!; [done..|by rewrite <- app_assoc|].
    intros R' x' y' l0' Himp Hx'. rewrite <- app_assoc. constructor.
    + apply Himp; [done|set_solver].
    + apply Hins; [|done]. intros a b l2 Hab Hsub. apply Himp; [done|set_solver].
Qed.

Lemma reprs_lookup_None R xs ys ls i :
  reprs R xs ys ls → xs !! i = None → ys !! i = None.
Proof.
  intros Hlen%reprs_length. rewrite !lookup_ge_None. lia.
Qed.

(** What the elements list is listed by the whole. *)
Lemma reprs_elem_of R xs ys ls c :
  reprs R xs ys ls → c ∈ ls → ∃ x y l0, x ∈ xs ∧ R x y l0 ∧ c ∈ l0.
Proof.
  induction 1 as [|x y l0 xs ys l' Hx _ IH]; [by intros ?%elem_of_nil|].
  intros [Hc|Hc]%elem_of_app.
  - exists x, y, l0. split_and!; [left|done..].
  - destruct (IH Hc) as (x' & y' & l1 & ? & ? & ?). exists x', y', l1.
    split_and!; [by right|done..].
Qed.

End reprs_lemmas.

(** Properties by key: the same with [assoc_get] and [assoc_set]. *)
Section reprs_assoc.
Context {A B C : Type} `{EqDecision K}.
Implicit Types (R : A → B → list C → Prop) (ps : list (K * A)) (ts : list (K * B)).

Lemma reprs_assoc_get R ps ts ls k x :
  keys ps = keys ts → reprs R ps.*2 ts.*2 ls → assoc_get k ps = Some x →
  ∃ y l0 pre post, assoc_get k ts = Some y ∧ R x y l0 ∧ ls = pre ++ l0 ++ post ∧
    ∀ R' y' l0',
      (∀ a b l1, R a b l1 → l1 ⊆ pre ++ post → R' a b l1) → R' x y' l0' →
      keys ps = keys (assoc_set k y' ts) ∧
      reprs R' ps.*2 (assoc_set k y' ts).*2 (pre ++ l0' ++ post).
Proof.
  intros Hk Hs. rewrite !assoc_get_key_index, <- Hk.
  destruct (key_index k (keys ps)) as [i|] eqn:Hi; simpl; [|done]. intros Hx.
  destruct (reprs_lookup R _ _ _ i x Hs Hx) as (y & l0 & pre & post & Hy & Hxy & -> & Hins).
  exists y, l0, pre, post. split_and!; [done..|]. intros R' y' l0' Himp Hx'.
  destruct (assoc_set_key_index k y' ts) as [-> ->]. rewrite <- Hk, Hi. simpl.
  split; [done|]. rewrite <- (list_insert_id ps.*2 i x Hx) at 1. by apply Hins.
Qed.

Lemma reprs_assoc_get_None R ps ts ls k :
  keys ps = keys ts → reprs R ps.*2 ts.*2 ls → assoc_get k ps = None →
  assoc_get k ts = None.
Proof.
  intros Hk Hs. rewrite !assoc_get_key_index, <- Hk.
  destruct (key_index k (keys ps)) as [i|] eqn:Hi; simpl; [|done].
  intros Hn. by eapply (reprs_lookup_None R).
Qed.

(** Writing a key on both sides. *)
Lemma reprs_assoc_set R R' ps ts ls k x y l0 :
  keys ps = keys ts → reprs R ps.*2 ts.*2 ls →
  (∀ a b l1, R a b l1 → l1 ⊆ ls → R' a b l1) → R' x y l0 →
  ∃ pre post, ls ⊆ pre ++ post ++ ls ∧
    (∀ c, c ∈ pre ++ post → c ∈ ls) ∧ (NoDup ls → NoDup (pre ++ post)) ∧
    keys (assoc_set k x ps) = keys (assoc_set k y ts) ∧
    reprs R' (assoc_set k x ps).*2 (assoc_set k y ts).*2 (pre ++ l0 ++ post).
Proof.
  intros Hk Hs Himp Hxy.
  destruct (assoc_set_key_index k x ps) as [-> ->].
  destruct (assoc_set_key_index k y ts) as [-> ->]. rewrite <- Hk.
  destruct (key_index k (keys ps)) as [i|] eqn:Hi; simpl.
  - destruct (lookup_lt_is_Some_2 ps.*2 i) as [x0 Hx0].
    { apply key_index_lt in Hi. unfold keys in Hi. by rewrite !length_fmap in *. }
    destruct (reprs_lookup R _ _ _ i x0 Hs Hx0) as (y0 & l1 & pre & post & _ & _ & -> & Hins).
    exists pre, post. split_and!; [set_solver|set_solver| |done|].
    + rewrite !NoDup_app. set_solver.
    + apply Hins; [|done]. intros a b l2 Hab Hsub. apply Himp; [done|set_solver].
  - exists ls, []. split_and!; [set_solver|set_solver|by rewrite app_nil_r|by rewrite Hk|].
    rewrite app_nil_r. apply reprs_snoc; [|done]. eapply reprs_impl; [done|]. auto.
Qed.

End reprs_assoc.

(** ** Lemmas: [repr] *)

(** The locations a reading visits hold objects. *)
Lemma repr_dom h v t ls l : repr h v t ls → l ∈ ls → is_Some (h !! l).
Proof.
  intros Hr. revert l.
  induction Hr as [v Hv|l0 elems extra ts tx ls1 ls2 Hl He Hk Hx|l0 props tps ls Hl Hk Hp]
    using repr_ind'; intros l.
  - by intros ?%elem_of_nil.
  - intros [->|[Hin|Hin]%elem_of_app]%elem_of_cons; [by eexists|..].
    + destruct (reprs_elem_of _ _ _ _ _ He Hin) as (? & ? & ? & _ & [_ IH] & ?). by apply IH.
    + destruct (reprs_elem_of _ _ _ _ _ Hx Hin) as (? & ? & ? & _ & [_ IH] & ?). by apply IH.
  - intros [->|Hin]%elem_of_cons; [by eexists|].
    destruct (reprs_elem_of _ _ _ _ _ Hp Hin) as (? & ? & ? & _ & [_ IH] & ?). by apply IH.
Qed.

(** Frame: a reading depends on the locations it lists only. *)
Lemma repr_frame h h' v t ls :
  repr h v t ls → (∀ l, l ∈ ls → h' !! l = h !! l) → repr h' v t ls.
Proof.
  intros Hr.
  induction Hr as [v Hv|l0 elems extra ts tx ls1 ls2 Hl He Hk Hx|l0 props tps ls Hl Hk Hp]
    using repr_ind'; intros Hsame.
  - by constructor.
  - apply (repr_array _ _ elems extra); [rewrite Hsame; [done|set_solver]| |done|].
    + eapply reprs_impl; [exact He|]. intros x y l1 [_ IH] Hsub. apply IH. set_solver.
    + eapply reprs_impl; [exact Hx|]. intros x y l1 [_ IH] Hsub. apply IH. set_solver.
  - apply (repr_object _ _ props); [rewrite Hsame; [done|set_solver]|done|].
    eapply reprs_impl; [exact Hp|]. intros x y l1 [_ IH] Hsub. apply IH. set_solver.
Qed.

(** The child under a name, on both sides, with what stands before and
    after what the child lists; and the parent once the child reads
    otherwise, in a heap that is the same elsewhere. *)
Lemma repr_child h v t ls k vk :
  repr h v t ls → hchild h v k = Some vk →
  ∃ l tk lsk pre post, v = HRef l ∧ child t k = Some tk ∧ repr h vk tk lsk ∧
    ls = l :: pre ++ lsk ++ post ∧
    ∀ h' tk' lsk', h' !! l = h !! l → (∀ x, x ∈ pre ++ post → h' !! x = h !! x) →
      repr h' vk tk' lsk' →
      repr h' (HRef l) (with_prop t k tk') (l :: pre ++ lsk' ++ post).
Proof.
  inversion 1 as [v0 Hv|l elems extra ts tx ls1 ls2 Hl He Hk Hx|l props tps ls0 Hl Hk Hp];
    subst; simpl.
  - by destruct v.
  - rewrite Hl. case_decide as Hlen; [done|]. destruct (array_index k) as [i|] eqn:Hi.
    + intros Hvk.
      destruct (reprs_lookup _ _ _ _ i vk He Hvk) as (tk & lsk & pre & post & Htk & Hr & -> & Hins).
      exists l, tk, lsk, pre, (post ++ ls2). split_and!; [done..|by rewrite <- !app_assoc|].
      intros h' tk' lsk' Hl' Hsame Hr'.
      replace (pre ++ lsk' ++ post ++ ls2) with ((pre ++ lsk' ++ post) ++ ls2)
        by (by rewrite <- !app_assoc).
      apply (repr_array _ _ elems extra); [by rewrite Hl'| |done|].
      * rewrite <- (list_insert_id elems i vk Hvk). apply Hins; [|done].
        intros a b l1 Hab Hsub. eapply repr_frame; [done|]. intros x Hx'. apply Hsame. set_solver.
      * eapply reprs_impl; [exact Hx|]. intros a b l1 Hab Hsub.
        eapply repr_frame; [done|]. intros x Hx'. apply Hsame. set_solver.
    + intros Hvk.
      destruct (reprs_assoc_get _ _ _ _ k vk Hk Hx Hvk)
        as (tk & lsk & pre & post & Htk & Hr & -> & Hins).
      exists l, tk, lsk, (ls1 ++ pre), post. split_and!; [done..|by rewrite <- !app_assoc|].
      intros h' tk' lsk' Hl' Hsame Hr'.
      destruct (Hins (repr h') tk' lsk') as [Hk' Hx']; [|done|].
      { intros a b l1 Hab Hsub. eapply repr_frame; [done|]. intros x Hx'. apply Hsame. set_solver. }
      rewrite <- app_assoc. apply (repr_array _ _ elems extra); [by rewrite Hl'| |done..].
      eapply reprs_impl; [exact He|]. intros a b l1 Hab Hsub.
      eapply repr_frame; [done|]. intros x Hx''. apply Hsame. set_solver.
  - rewrite Hl. intros Hvk.
    destruct (reprs_assoc_get _ _ _ _ k vk Hk Hp Hvk)
      as (tk & lsk & pre & post & Htk & Hr & -> & Hins).
    exists l, tk, lsk, pre, post. split_and!; [done..|].
    intros h' tk' lsk' Hl' Hsame Hr'. simpl.
    destruct (Hins (repr h') tk' lsk') as [Hk' Hx']; [|done|].
    { intros a b l1 Hab Hsub. eapply repr_frame; [done|]. intros x Hx'. by apply Hsame, Hsub. }
    by apply (repr_object _ _ props); [rewrite Hl'|..].
Qed.

Lemma repr_child_None h v t ls k :
  repr h v t ls → hchild h v k = None → child t k = None.
Proof.
  inversion 1 as [v0 Hv|l elems extra ts tx ls1 ls2 Hl He Hk Hx|l props tps ls0 Hl Hk Hp];
    subst; simpl.
  - by destruct v.
  - rewrite Hl. case_decide; [done|]. destruct (array_index k) as [i|].
    + by apply (reprs_lookup_None (repr h) _ _ ls1).
    + by apply (reprs_assoc_get_None (repr h) _ _ ls2).
  - rewrite Hl. by apply (reprs_assoc_get_None (repr h) _ _ ls0).
Qed.

(** ** Lemmas: the operators that read *)

Lemma shallow_of_value t : container t = false → shallow (of_value t) = t.
Proof. by destruct t. Qed.

Lemma is_ref_of_value t : is_ref (of_value t) = false.
Proof. by destruct t. Qed.

(** What a property read of a primitive gives is a primitive. *)
Lemma get_prop_primitive v k t :
  container v = false → get_prop v k = Ok t → container t = false.
Proof.
  destruct v; simpl; try done; try (by intros _ [= <-]).
  intros _. case_decide; [by intros [= <-]|].
  destruct (array_index k) as [i|]; [|by intros [= <-]].
  destruct (String.get i s); by intros [= <-].
Qed.

Lemma hget_prop_primitive h v k :
  is_ref v = false → hget_prop h v k = lift of_value v (get_prop (shallow v) k).
Proof. by destruct v. Qed.

Lemma repr_truthy h v t ls : repr h v t ls → truthy t = htruthy v ∧ nullish t = hnullish v.
Proof. by inversion 1. Qed.

Lemma repr_isArray h v t ls : repr h v t ls → isArray t = hisArray h v.
Proof.
  inversion 1 as [v0 Hv|l elems extra ts tx ls1 ls2 Hl|l props tps ls0 Hl]; subst; simpl.
  - by destruct v.
  - by rewrite Hl.
  - by rewrite Hl.
Qed.

Lemma repr_strict_eq_string h v t ls s :
  repr h v t ls → strict_eq_string t s = strict_eq_string (shallow v) s.
Proof. by inversion 1. Qed.

(** A property read gives the child on both sides when there is one,
    and the same primitive otherwise; it throws on both sides or on
    none. *)
Lemma hget_prop_repr h v t ls k :
  repr h v t ls →
  match hget_prop h v k, get_prop t k with
  | Ok v', Ok t' =>
      match hchild h v k with
      | Some vk => v' = vk ∧ child t k = Some t'
      | None => is_ref v' = false ∧ t' = shallow v' ∧ child t k = None
      end
  | Throw e, Throw e' =>
      e = HTypeError Reading v k ∧ e' = TypeError Reading t k ∧ hnullish v = true
  | _, _ => False
  end.
Proof.
  intros Hr. pose proof (repr_child_None h v t ls k Hr) as Hnone.
  destruct (hchild h v k) as [vk|] eqn:Hc.
  - destruct (repr_child h v t ls k vk Hr Hc) as (l & tk & _ & _ & _ & -> & Htk & _).
    rewrite (child_get_prop _ _ _ Htk). revert Hc. simpl.
    destruct (h !! l) as [[elems extra|props]|]; [|by intros ->|done].
    case_decide; [done|]. destruct (array_index k); by intros ->.
  - specialize (Hnone eq_refl). revert Hc.
    inversion Hr as [v0 Hv|l elems extra ts tx ls1 ls2 Hl He|l props tps ls0 Hl];
      subst; simpl.
    + intros _. rewrite hget_prop_primitive by done.
      destruct (get_prop (shallow v) k) as [t'|e] eqn:Hget; simpl.
      * rewrite is_ref_of_value, shallow_of_value; [done|].
        eapply get_prop_primitive; [|done]. by destruct v.
      * by apply get_prop_Throw in Hget as [Hn ->].
    + rewrite Hl. simpl in Hnone. case_decide; [by rewrite (reprs_length _ _ _ _ He)|].
      destruct (array_index k); rewrite Hnone; by intros ->.
    + rewrite Hl. simpl in Hnone. rewrite Hnone. by intros ->.
Qed.

Section reprs_pointwise.
Context {A B C E E' : Type} (R : A → B → list C → Prop).

(** A test that gives the same on related elements finds the same in
    related lists. *)
Lemma reprs_existsb (f : A → bool) (g : B → bool) xs ys ls :
  reprs R xs ys ls → (∀ x y l0, R x y l0 → f x = g y) → existsb f xs = existsb g ys.
Proof.
  induction 1 as [|x y l0 xs ys l' Hx _ IH]; intros Hfg; simpl; [done|].
  by rewrite (Hfg x y l0 Hx), IH.
Qed.

(** The same for a search with a callback that may throw: the same
    place on both sides, or the same failure. *)
Lemma reprs_findM (S : E → E' → Prop) (p : A → result E bool) (q : B → result E' bool)
    xs ys ls :
  reprs R xs ys ls →
  (∀ x y l0, R x y l0 →
     match p x, q y with
     | Ok b, Ok b' => b = b'
     | Throw e, Throw e' => S e e'
     | _, _ => False
     end) →
  match findM p xs, findM q ys with
  | Ok None, Ok None => True
  | Ok (Some (i, x)), Ok (Some (j, y)) => i = j ∧ xs !! i = Some x ∧ ys !! i = Some y
  | Throw e, Throw e' => S e e'
  | _, _ => False
  end.
Proof.
  induction 1 as [|x y l0 xs ys l' Hx _ IH]; intros Hpq; simpl; [done|].
  specialize (Hpq x y l0 Hx) as Hxy. specialize (IH Hpq).
  destruct (p x) as [[]|], (q y) as [[]|]; simpl; try done.
  destruct (findM p xs) as [[[i x']|]|], (findM q ys) as [[[j y']|]|]; simpl; try done.
  by destruct IH as (-> & ? & ?).
Qed.

End reprs_pointwise.

(** ** Lemmas: allocation *)

Lemma alloc_fresh o h : ∃ l, alloc o h = Ok (HRef l, <[l := o]> h) ∧ h !! l = None.
Proof.
  exists (fresh (dom h)). split; [done|].
  apply (not_elem_of_dom (D := gset loc)). apply is_fresh.
Qed.

(** What was read before an allocation reads the same after it. *)
Lemma repr_alloc h l o v t ls :
  h !! l = None → repr h v t ls → repr (<[l := o]> h) v t ls.
Proof.
  intros Hl Hr. eapply repr_frame; [done|]. intros c Hc.
  rewrite lookup_insert_ne; [done|]. intros ->.
  destruct (repr_dom h v t ls c Hr Hc) as [? Hsome]. congruence.
Qed.

(** ** Lemmas: [unfold] *)

Lemma unfold_list_reprs (f : hval → option (value * list loc)) R vs ts ls :
  (∀ v t l0, f v = Some (t, l0) → R v t l0) →
  unfold_list f vs = Some (ts, ls) → reprs R vs ts ls.
Proof.
  intros Hf. revert ts ls. induction vs as [|v vs IH]; intros ts ls; simpl.
  - intros [= <- <-]. constructor.
  - destruct (f v) as [[t l0]|] eqn:Hv; simpl; [|done].
    destruct (unfold_list f vs) as [[ts' ls']|]; simpl; [|done].
    intros [= <- <-]. constructor; auto.
Qed.

Lemma reprs_unfold_list (f : nat → hval → option (value * list loc))
    (R : hval → value → list loc → Prop) vs ts ls m :
  (∀ v t l0, R v t l0 → ∀ m, length l0 ≤ m → f m v = Some (t, l0)) →
  reprs R vs ts ls → length ls ≤ m → unfold_list (f m) vs = Some (ts, ls).
Proof.
  intros Hf. induction 1 as [|v t l0 vs ts ls' Hv _ IH]; simpl; [done|].
  rewrite length_app. intros Hm. rewrite (Hf _ _ _ Hv), IH by lia. done.
Qed.

Lemma zip_keys {A B} (ps : list (string * A)) (ts : list (string * B)) :
  keys ps = keys ts → zip (keys ps) ts.*2 = ts.
Proof. intros ->. apply zip_fst_snd. Qed.

Lemma keys_zip {A} (ks : list string) (xs : list A) :
  length ks = length xs → keys (zip ks xs) = ks ∧ (zip ks xs).*2 = xs.
Proof. intros Hl. unfold keys. split; [apply fst_zip|apply snd_zip]; lia. Qed.

Lemma unfold_prim n h v : is_ref v = false → unfold n h v = Some (shallow v, []).
Proof. by destruct v, n. Qed.

(** What [unfold] returns is a reading of the value. *)
Lemma unfold_repr n h v t ls : unfold n h v = Some (t, ls) → repr h v t ls.
Proof.
  revert v t ls. induction n as [|n IH]; intros v t ls;
    (destruct (is_ref v) eqn:Hv;
       [|rewrite unfold_prim by done; intros [= <- <-]; by constructor]);
    destruct v as [| | | | |l]; try done. simpl.
  destruct (h !! l) as [[elems extra|props]|] eqn:Hl; [| |done].
  - destruct (unfold_list (unfold n h) elems) as [[es l1]|] eqn:He; simpl; [|done].
    destruct (unfold_list (unfold n h) extra.*2) as [[ex l2]|] eqn:Hx; simpl; [|done].
    intros [= <- <-]. apply (unfold_list_reprs _ (repr h)) in He, Hx; [|done..].
    destruct (keys_zip (keys extra) ex) as [Hk Hz].
    { unfold keys. rewrite length_fmap, <- (reprs_length _ _ _ _ Hx). by rewrite length_fmap. }
    apply (repr_array _ _ elems extra); [done..|by rewrite Hk|by rewrite Hz].
  - destruct (unfold_list (unfold n h) props.*2) as [[ps l1]|] eqn:Hp; simpl; [|done].
    intros [= <- <-]. apply (unfold_list_reprs _ (repr h)) in Hp; [|done].
    destruct (keys_zip (keys props) ps) as [Hk Hz].
    { unfold keys. rewrite length_fmap, <- (reprs_length _ _ _ _ Hp). by rewrite length_fmap. }
    apply (repr_object _ _ props); [done|by rewrite Hk|by rewrite Hz].
Qed.

(** [unfold] returns on every value that has a reading, with as much
    fuel as the reading visits locations. *)
Lemma repr_unfold h v t ls m : repr h v t ls → length ls ≤ m → unfold m h v = Some (t, ls).
Proof.
  intros Hr. revert m.
  induction Hr as [v Hv|l elems extra ts tx ls1 ls2 Hl He Hk Hx|l props tps ls Hl Hk Hp]
    using repr_ind'; intros m Hm.
  - by rewrite unfold_prim.
  - simpl in Hm. rewrite length_app in Hm. destruct m as [|m]; [lia|]. simpl. rewrite Hl.
    rewrite (reprs_unfold_list (λ m, unfold m h) _ _ _ _ m (λ _ _ _ H, proj2 H) He) by lia.
    rewrite (reprs_unfold_list (λ m, unfold m h) _ _ _ _ m (λ _ _ _ H, proj2 H) Hx) by lia. simpl.
    by rewrite (zip_keys extra tx Hk).
  - simpl in Hm. destruct m as [|m]; [lia|]. simpl. rewrite Hl.
    rewrite (reprs_unfold_list (λ m, unfold m h) _ _ _ _ m (λ _ _ _ H, proj2 H) Hp) by lia. simpl.
    by rewrite (zip_keys props tps Hk).
Qed.

(** A value reads as one tree at most. *)
Lemma repr_functional h v t ls t' ls' :
  repr h v t ls → repr h v t' ls' → t' = t ∧ ls' = ls.
Proof.
  intros Hr Hr'.
  pose proof (repr_unfold h v t ls (length ls `max` length ls') Hr ltac:(lia)) as Hu.
  pose proof (repr_unfold h v t' ls' (length ls `max` length ls') Hr' ltac:(lia)) as Hu'.
  split; congruence.
Qed.

(** A reference cycle exhausts every bound. *)
Lemma unfold_cycle h l n : h !! l = Some (OArray [HRef l] []) → unfold n h (HRef l) = None.
Proof. intros Hl. induction n as [|n IH]; simpl; [done|]. by rewrite Hl; simpl; rewrite IH. Qed.

Lemma unfold_cycle_heap n : unfold n cycle_heap (HRef 1%positive) = None.
Proof. by apply unfold_cycle. Qed.

(** ** Theorems *)

(** Reading a value of the store as a tree terminates: when the
    value has a reading, [unfold] returns it as soon as its fuel is the
    number of locations the reading visits, and there is no other
    reading.  (A value has none when a reference cycle is reachable
    from it, and then every amount of fuel is exhausted:
    [unfold_cycle].) *)
Theorem unfold_terminates h v t ls n :
  repr h v t ls → length ls ≤ n →
  unfold n h v = Some (t, ls) ∧ ∀ t' ls', repr h v t' ls' → t' = t ∧ ls' = ls.
Proof.
  intros Hr Hn. split; [by apply repr_unfold|].
  intros t' ls' Hr'. by apply (repr_functional h v).
Qed.

Lemma unfold_terminates_witness :
  unfold 10 alias_heap (HRef 1%positive) =
    Some (alias_tree, [1; 2; 3; 5; 6; 7; 4; 5; 6; 7]%positive) ∧
  ∀ t' ls', repr alias_heap (HRef 1%positive) t' ls' →
    t' = alias_tree ∧ ls' = [1; 2; 3; 5; 6; 7; 4; 5; 6; 7]%positive.
Proof.
  apply (unfold_terminates alias_heap (HRef 1%positive) alias_tree
           [1; 2; 3; 5; 6; 7; 4; 5; 6; 7]%positive 10).
  - apply (unfold_repr 10). vm_compute. reflexivity.
  - simpl. lia.
Defined.
