(* ===== verification/HeapRefine.v ===== *)
(** * HeapRefine: operators on the store against operators on trees

    What relates a run of the code on objects in a store (Heap) to the
    same run on the tree the objects read as (JsValue): outcomes that
    agree ([sim], [exn_sim]), the writes and allocations a run may make
    ([edit]), an object that reads as a given tree after them
    ([updated]), and what an edit below a property amounts to for the
    object that holds it ([focus]).

    The lemmas give each operator of Heap its counterpart of JsValue on
    a value without sharing. *)

From stdpp Require Import base strings pretty numbers gmap option list.
From S2P Require Import Prelude JsValue Heap.

Local Open Scope string_scope.
Local Open Scope nat_scope.
Local Open Scope list_scope.

(** ** Exceptions on both sides *)

(** The same kind of failure on the same property, of the same
    primitive or of some object. *)
Definition exn_sim (e : hexn) (e' : exn) : Prop :=
  match e, e' with
  | HTypeError how v k, TypeError how' t k' =>
      how = how' ∧ k = k' ∧ if is_ref v then container t = true else t = shallow v
  | HUnmodelled what, Unmodelled what' => what = what'
  | _, _ => False
  end.

(** Two outcomes agree: both return, with results related by [Q], or
    both throw. *)
Definition sim {A B} (Q : A → B → Prop) (r : result hexn A) (r' : js B) : Prop :=
  match r, r' with
  | Ok x, Ok y => Q x y
  | Throw e, Throw e' => exn_sim e e'
  | _, _ => False
  end.

(** ** Edits *)

(** [edit h ls h' ls']: the heap [h'] comes from [h] by writes to
    locations of [ls] and by allocations; [ls'] lists locations of [ls]
    and new ones. *)
Record edit (h : heap) (ls : list loc) (h' : heap) (ls' : list loc) : Prop := Edit {
  edit_old l : l ∈ ls' → l ∈ ls ∨ h !! l = None;
  edit_frame l : l ∉ ls → is_Some (h !! l) → h' !! l = h !! l;
  edit_dom l : is_Some (h !! l) → is_Some (h' !! l)
}.

(** [updated h v ls h' t']: after an edit of the heap [h], in which [v]
    read within [ls], the value [v] reads as the tree [t'], again
    without sharing. *)
Definition updated (h : heap) (v : hval) (ls : list loc) (h' : heap) (t' : value) : Prop :=
  ∃ ls', repr h' v t' ls' ∧ NoDup ls' ∧ edit h ls h' ls'.

(** A property read, with what an edit of the value read amounts to
    for the object it was read from. *)
Definition focus (h : heap) (v : hval) (t : value) (ls : list loc) (k : string)
    (vk : hval) (tk : value) : Prop :=
  ∃ lsk, repr h vk tk lsk ∧ NoDup lsk ∧
    (is_ref vk = true →
     is_ref v = true ∧
     ∀ h' tk', updated h vk lsk h' tk' → updated h v ls h' (with_prop t k tk')).

(** ** Lemmas: the operators that read *)

Lemma hget_prop_sim h v t ls k :
  repr h v t ls →
  sim (λ v' t', match hchild h v k with
                | Some vk => v' = vk ∧ child t k = Some t'
                | None => is_ref v' = false ∧ t' = shallow v' ∧ child t k = None
                end) (hget_prop h v k) (get_prop t k).
Proof.
  intros Hr. pose proof (hget_prop_repr h v t ls k Hr) as H. unfold sim.
  destruct (hget_prop h v k), (get_prop t k); try done.
  destruct H as (-> & -> & Hn). simpl. split_and!; [done..|].
  destruct v; try done; by inversion Hr.
Qed.

Lemma hincludes_sim h v t ls s :
  repr h v t ls → sim eq (hincludes h v s) (includes t s).
Proof.
  inversion 1 as [v0 Hv|l elems extra ts tx ls1 ls2 Hl He|l props tps ls0 Hl]; subst.
  - by destruct v.
  - simpl. rewrite Hl. simpl. apply (reprs_existsb (repr h) _ _ _ _ _ He).
    intros x y l0 Hxy. symmetry. by eapply repr_strict_eq_string.
  - simpl. by rewrite Hl.
Qed.

(** ** Lemmas: edits *)

Lemma edit_refl h ls : edit h ls h ls.
Proof. by split; auto. Qed.

Lemma edit_trans h ls h1 ls1 h2 ls2 :
  edit h ls h1 ls1 → edit h1 ls1 h2 ls2 → edit h ls h2 ls2.
Proof.
  intros [Ho1 Hf1 Hd1] [Ho2 Hf2 Hd2]. split.
  - intros l [Hl|Hl]%Ho2; [auto|]. right.
    destruct (h !! l) eqn:Hh; [|done]. destruct (Hd1 l) as [? Hsome]; [by eexists|congruence].
  - intros l Hl Hsome. rewrite Hf2, Hf1; [done..| |by apply Hd1].
    intros [Hin|Hnone]%Ho1; [done|]. rewrite Hnone in Hsome. by destruct Hsome.
  - auto.
Qed.

(** Writes that stay clear of [ls0] leave what reads within [ls0]. *)
Lemma edit_repr_frame h ls h' ls' v t ls0 :
  edit h ls h' ls' → repr h v t ls0 → (∀ l, l ∈ ls0 → l ∉ ls) → repr h' v t ls0.
Proof.
  intros [_ Hf _] Hr Hout. eapply repr_frame; [done|]. intros l Hl.
  apply Hf; [by apply Hout|]. by eapply repr_dom.
Qed.

(** An edit below a child, seen from the parent: the parent reads as
    before with the child replaced, and visits no location twice. *)
Lemma repr_edit_child h v t ls k vk :
  repr h v t ls → NoDup ls → hchild h v k = Some vk →
  ∃ tk lsk, child t k = Some tk ∧ repr h vk tk lsk ∧ NoDup lsk ∧
    ∀ h' tk' lsk', edit h lsk h' lsk' → repr h' vk tk' lsk' → NoDup lsk' →
      ∃ ls', repr h' v (with_prop t k tk') ls' ∧ NoDup ls' ∧ edit h ls h' ls'.
Proof.
  intros Hr Hnd Hc. pose proof (λ l, repr_dom h v t ls l Hr) as Hdom.
  destruct (repr_child h v t ls k vk Hr Hc)
    as (l & tk & lsk & pre & post & -> & Htk & Hrk & -> & Hctx).
  apply NoDup_cons in Hnd as [Hl Hnd]. apply NoDup_app in Hnd as (Hpre & Hdis1 & Hnd).
  apply NoDup_app in Hnd as (Hk & Hdis2 & Hpost).
  exists tk, lsk. split_and!; [done..|]. intros h' tk' lsk' [Ho Hf Hd] Hrk' Hnd'.
  exists (l :: pre ++ lsk' ++ post). split_and!.
  - apply Hctx; [|intros x Hx|done]; (apply Hf; [set_solver|apply Hdom; set_solver]).
  - assert (∀ c, c ∈ lsk' → c ∈ lsk ∨ ¬ is_Some (h !! c)) as Ho'.
    { intros c [?|Hnone]%Ho; [by left|right]. rewrite Hnone. by intros []. }
    apply NoDup_cons. split.
    + intros [?|[Hin|?]%elem_of_app]%elem_of_app; [set_solver| |set_solver].
      destruct (Ho' l Hin) as [?|Hn]; [set_solver|]. apply Hn, Hdom. set_solver.
    + apply NoDup_app. split_and!; [done| |].
      * intros c Hc1 [Hin|?]%elem_of_app; [|set_solver].
        destruct (Ho' c Hin) as [?|Hn]; [set_solver|]. apply Hn, Hdom. set_solver.
      * apply NoDup_app. split_and!; [done| |done]. intros c Hin Hc2.
        destruct (Ho' c Hin) as [?|Hn]; [set_solver|]. apply Hn, Hdom. set_solver.
  - split; [|intros c Hc1 Hc2; apply Hf; [set_solver|done]|done].
    intros c [->|[?|[Hin|?]%elem_of_app]%elem_of_app]%elem_of_cons; [set_solver..| |set_solver].
    destruct (Ho c Hin); [set_solver|by right].
Qed.

(** ** Lemmas: allocation *)

Lemma edit_alloc h0 h l o ls :
  edit h0 [] h ls → h !! l = None → edit h0 [] (<[l := o]> h) (l :: ls).
Proof.
  intros [Ho Hf Hd] Hl. split.
  - intros c [->|Hc]%elem_of_cons; [|auto]. right.
    destruct (h0 !! l) eqn:Hc; [|done]. destruct (Hd l) as [? Hsome]; [by eexists|congruence].
  - intros c Hc Hsome. rewrite lookup_insert_ne; [auto|]. intros ->.
    destruct (Hd c Hsome) as [? Hsome']. congruence.
  - intros c Hsome. destruct (decide (l = c)) as [->|]; [by rewrite lookup_insert_eq|].
    rewrite lookup_insert_ne by done. auto.
Qed.

(** A new array or object over values made since [h0]. *)
Lemma new_node h0 h l o lx :
  h !! l = None → edit h0 [] h lx → NoDup lx → (∀ c, c ∈ lx → is_Some (h !! c)) →
  NoDup (l :: lx) ∧ edit h0 [] (<[l := o]> h) (l :: lx).
Proof.
  intros Hl He Hnd Hdom. split; [|by apply edit_alloc].
  apply NoDup_cons. split; [|done]. intros [? Hsome]%Hdom. congruence.
Qed.

Lemma reprs_alloc h l o vs ts lx :
  h !! l = None → reprs (repr h) vs ts lx →
  reprs (repr (<[l := o]> h)) vs ts lx ∧ ∀ c, c ∈ lx → is_Some (h !! c).
Proof.
  intros Hl Hs. split.
  - eapply reprs_impl; [done|]. intros v t l0 Hr _. by apply repr_alloc.
  - intros c Hc. destruct (reprs_elem_of _ _ _ _ c Hs Hc) as (v & t & l0 & _ & Hr & Hin).
    by eapply repr_dom.
Qed.

Lemma new_array h0 h l elems extra ts tx ls1 ls2 :
  h !! l = None → edit h0 [] h (ls1 ++ ls2) → NoDup (ls1 ++ ls2) →
  reprs (repr h) elems ts ls1 → keys extra = keys tx → reprs (repr h) extra.*2 tx.*2 ls2 →
  repr (<[l := OArray elems extra]> h) (HRef l) (VArray ts tx) (l :: ls1 ++ ls2) ∧
  NoDup (l :: ls1 ++ ls2) ∧ edit h0 [] (<[l := OArray elems extra]> h) (l :: ls1 ++ ls2).
Proof.
  intros Hl He Hnd Hs Hk Hx.
  destruct (reprs_alloc h l (OArray elems extra) _ _ _ Hl Hs) as [Hs' Hdom].
  destruct (reprs_alloc h l (OArray elems extra) _ _ _ Hl Hx) as [Hx' Hdom'].
  split; [by apply (repr_array _ _ elems extra); [rewrite lookup_insert_eq|..]|].
  apply new_node; [done..|]. intros c [?|?]%elem_of_app; auto.
Qed.

Lemma new_object h0 h l props tps lx :
  h !! l = None → edit h0 [] h lx → NoDup lx →
  keys props = keys tps → reprs (repr h) props.*2 tps.*2 lx →
  repr (<[l := OObject props]> h) (HRef l) (VObject tps) (l :: lx) ∧ NoDup (l :: lx) ∧
  edit h0 [] (<[l := OObject props]> h) (l :: lx).
Proof.
  intros Hl He Hnd Hk Hs. destruct (reprs_alloc h l (OObject props) _ _ _ Hl Hs) as [Hs' Hdom].
  split; [|by apply new_node].
  by apply (repr_object _ _ props); [rewrite lookup_insert_eq|..].
Qed.

(** Allocations one after the other. *)
Lemma edit_app h h1 h2 ls1 ls2 :
  edit h [] h1 ls1 → edit h1 [] h2 ls2 → edit h [] h2 (ls1 ++ ls2).
Proof.
  intros [Ho1 Hf1 Hd1] [Ho2 Hf2 Hd2]. split.
  - intros c [[?%elem_of_nil|?]%Ho1|[?%elem_of_nil|Hc]%Ho2]%elem_of_app; [done|by right|done|].
    right. destruct (h !! c) eqn:Hh; [|done].
    destruct (Hd1 c) as [? Hsome]; [by eexists|congruence].
  - intros c Hc Hsome. rewrite Hf2, Hf1; [done..|by apply Hd1].
  - auto.
Qed.

(** What is made after a value leaves it as it reads, apart from it. *)
Lemma edit_new_disjoint h1 h2 v t ls1 ls2 :
  repr h1 v t ls1 → NoDup ls1 → edit h1 [] h2 ls2 → NoDup ls2 →
  repr h2 v t ls1 ∧ NoDup (ls1 ++ ls2).
Proof.
  intros Hr Hnd1 He Hnd2. split.
  - eapply edit_repr_frame; [done..|]. by intros c _ ?%elem_of_nil.
  - apply NoDup_app. split_and!; [done| |done]. intros c Hc1 Hc2.
    destruct (edit_old _ _ _ _ He c Hc2) as [?%elem_of_nil|Hnone]; [done|].
    destruct (repr_dom _ _ _ _ c Hr Hc1) as [? Hsome]. congruence.
Qed.

(** ** Lemmas: the operators that write *)

(** Writing the object at [l], the root of a value without sharing,
    after some allocations: what hangs below [l] and what was made
    since read as before, and the locations of both are apart. *)
Lemma write_node h0 h l o ls0 lx :
  edit h0 [] h lx → NoDup lx → NoDup (l :: ls0) →
  (∀ c, c ∈ l :: ls0 → is_Some (h0 !! c)) →
  (∀ a b l1, repr h0 a b l1 → l1 ⊆ ls0 → repr (<[l := o]> h) a b l1) ∧
  (∀ x tx, repr h x tx lx → repr (<[l := o]> h) x tx lx) ∧
  ∀ pre post, (∀ c, c ∈ pre ++ post → c ∈ ls0) → NoDup (pre ++ post) →
    NoDup (l :: pre ++ lx ++ post) ∧
    edit h0 (l :: ls0) (<[l := o]> h) (l :: pre ++ lx ++ post).
Proof.
  intros [Ho Hf Hd] Hndx [Hnl Hnd]%NoDup_cons Hdom.
  assert (∀ c, c ∈ lx → ¬ is_Some (h0 !! c)) as Hnew.
  { intros c [?%elem_of_nil|Hnone]%Ho; [done|]. rewrite Hnone. by intros []. }
  assert (∀ c, is_Some (h0 !! c) → h !! c = h0 !! c) as Hsame.
  { intros c Hc. apply Hf; [by intros ?%elem_of_nil|done]. }
  assert (∀ c, c ∈ lx → c ∉ l :: ls0) as Hout.
  { intros c Hc Hin. by apply (Hnew c Hc), Hdom. }
  split_and!.
  - intros a b l1 Hab Hsub. eapply repr_frame; [done|]. intros c Hc.
    rewrite lookup_insert_ne by set_solver. apply Hsame, Hdom. set_solver.
  - intros x tx Hx. eapply repr_frame; [done|]. intros c Hc.
    rewrite lookup_insert_ne; [done|]. intros ->. apply (Hout c Hc). set_solver.
  - intros pre post Hsub [Hpre [Hdis Hpost]]%NoDup_app. split.
    + apply NoDup_cons. split; [set_solver|]. rewrite !NoDup_app. set_solver.
    + split; [|intros c Hc Hsome|intros c Hsome].
      * intros c Hc. destruct (decide (c ∈ lx)) as [Hin|Hnin]; [|left; set_solver].
        right. destruct (h0 !! c) eqn:Hc0; [|done]. destruct (Hnew c Hin). by eexists.
      * rewrite lookup_insert_ne by set_solver. by apply Hsame.
      * destruct (decide (l = c)) as [->|]; [by rewrite lookup_insert_eq|].
        rewrite lookup_insert_ne by done. auto.
Qed.

(** Setting a named property to a value that was just made: the
    object reads with the property set, and still visits no location
    twice. *)
Lemma hset_prop_sim h0 h v t ls k x tx lx :
  k ≠ "length" → array_index k = None →
  repr h0 v t ls → NoDup ls →
  edit h0 [] h lx → repr h x tx lx → NoDup lx →
  sim (updated h0 v ls) (hset_prop v k x h) (set_prop t k tx).
Proof.
  intros Hlen Hi Hr Hnd He Hx Hndx. unfold updated.
  pose proof (λ l, repr_dom h0 v t ls l Hr) as Hdom.
  inversion Hr as [v0 Hv|l elems extra ts te ls1 ls2 Hl Hes Hk He'|l props tps ls0 Hl Hk Hp];
    subst.
  - assert (repr h v (shallow v) []) as Hr' by by constructor.
    destruct v; try done; simpl; exists []; (split_and!; [done|apply NoDup_nil_2|]);
      destruct He; split; [by intros ? ?%elem_of_nil|auto..].
  - destruct (write_node h0 h l (OArray elems (assoc_set k x extra)) _ lx He Hndx Hnd Hdom)
      as (Hfr & Hnew & Hend).
    simpl. rewrite (edit_frame _ _ _ _ He), Hl by (by rewrite ?Hl; try intros ?%elem_of_nil).
    rewrite !decide_False, Hi by done. simpl.
    apply NoDup_cons in Hnd as [_ [Hnd1 [Hdis Hnd2]]%NoDup_app].
    destruct (reprs_assoc_set (repr h0) (repr (<[l := OArray elems (assoc_set k x extra)]> h))
                extra te ls2 k x tx lx Hk He')
      as (pre & post & _ & Hsub & Hnd' & Hk' & He''); [|by apply Hnew|].
    { intros a b l1 Hab Hsub. apply Hfr; [done|set_solver]. }
    destruct (Hend (ls1 ++ pre) post) as [Hnd3 He3]; [set_solver| |].
    { specialize (Hnd' Hnd2). rewrite <- app_assoc, NoDup_app. set_solver. }
    rewrite <- app_assoc in Hnd3, He3.
    exists (l :: ls1 ++ pre ++ lx ++ post). split_and!; [|done..].
    apply (repr_array _ _ elems (assoc_set k x extra)); [by rewrite lookup_insert_eq| |done..].
    eapply reprs_impl; [exact Hes|]. intros a b l1 Hab Hsub'. apply Hfr; [done|set_solver].
  - destruct (write_node h0 h l (OObject (assoc_set k x props)) _ lx He Hndx Hnd Hdom)
      as (Hfr & Hnew & Hend).
    simpl. rewrite (edit_frame _ _ _ _ He), Hl by (by rewrite ?Hl; try intros ?%elem_of_nil).
    simpl. apply NoDup_cons in Hnd as [_ Hnd].
    destruct (reprs_assoc_set (repr h0) (repr (<[l := OObject (assoc_set k x props)]> h))
                props tps ls0 k x tx lx Hk Hp)
      as (pre & post & _ & Hsub & Hnd' & Hk' & Hp'); [done|by apply Hnew|].
    destruct (Hend pre post) as [Hnd3 He3]; [done|by apply Hnd'|].
    exists (l :: pre ++ lx ++ post). split_and!; [|done..].
    by apply (repr_object _ _ (assoc_set k x props)); [rewrite lookup_insert_eq|..].
Qed.

(** [push] on an array without sharing: the array reads with the
    string at its end, at the same locations. *)
Lemma hpush_sim h v t ls s :
  repr h v t ls → NoDup ls →
  sim (updated h v ls) (hpush v s h) (push t s).
Proof.
  intros Hr Hnd. pose proof (λ l, repr_dom h v t ls l Hr) as Hdom. pose proof Hnd as Hnd0.
  inversion Hr as [v0 Hv|l elems extra ts tx ls1 ls2 Hl He Hk Hx|l props tps ls0 Hl Hk Hp];
    subst; simpl.
  - by destruct v.
  - rewrite Hl. simpl. apply NoDup_cons in Hnd as [Hnl Hnd].
    set (h' := <[l := OArray (elems ++ [HString s]) extra]> h).
    assert (∀ a b l1, repr h a b l1 → l1 ⊆ ls1 ++ ls2 → repr h' a b l1) as Hfr.
    { intros a b l1 Hab Hsub. eapply repr_frame; [done|]. intros c Hc. unfold h'.
      rewrite lookup_insert_ne; [done|]. set_solver. }
    exists (l :: ls1 ++ ls2). split_and!; [|done|].
    + apply (repr_array _ _ (elems ++ [HString s]) extra);
        [by unfold h'; rewrite lookup_insert_eq| |done|].
      * rewrite <- (app_nil_r ls1). apply reprs_snoc; [|by apply (repr_prim _ (HString s))].
        eapply reprs_impl; [exact He|]. intros a b l1 Hab Hsub. apply Hfr; [done|set_solver].
      * eapply reprs_impl; [exact Hx|]. intros a b l1 Hab Hsub. apply Hfr; [done|set_solver].
    + split; [auto| |].
      * intros c Hc Hsome. unfold h'. rewrite lookup_insert_ne; [done|set_solver].
      * intros c Hsome. unfold h'. destruct (decide (l = c)) as [->|];
          [by rewrite lookup_insert_eq|by rewrite lookup_insert_ne].
  - by rewrite Hl.
Qed.

Lemma hpush_Ok_ref v s h h' : hpush v s h = Ok h' → is_ref v = true.
Proof. by destruct v. Qed.

Lemma hchild_focus h v t ls k vk tk :
  repr h v t ls → NoDup ls → hchild h v k = Some vk → child t k = Some tk →
  focus h v t ls k vk tk.
Proof.
  intros Hr Hnd Hc Ht.
  destruct (repr_edit_child h v t ls k vk Hr Hnd Hc) as (tk0 & lsk & Ht0 & Hrk & Hndk & Hctx).
  assert (tk0 = tk) as -> by congruence. exists lsk. split_and!; [done..|]. intros _.
  split; [by destruct v|]. intros h' tk' (lsk' & ? & ? & ?). by eapply Hctx.
Qed.

Lemma hget_prop_focus h v t ls k :
  repr h v t ls → NoDup ls → sim (focus h v t ls k) (hget_prop h v k) (get_prop t k).
Proof.
  intros Hr Hnd. pose proof (hget_prop_sim h v t ls k Hr) as Hs. unfold sim in *.
  destruct (hget_prop h v k) as [vk|], (get_prop t k) as [tk|]; try done.
  destruct (hchild h v k) as [vk0|] eqn:Hc.
  - destruct Hs as [-> Ht]. by eapply hchild_focus.
  - destruct Hs as (Hv & -> & _). exists []. split_and!; [by constructor|constructor|].
    by rewrite Hv.
Qed.

(** A read alone needs no separation. *)
Lemma hget_prop_reads h v t ls k :
  repr h v t ls → sim (λ vk tk, ∃ lsk, repr h vk tk lsk) (hget_prop h v k) (get_prop t k).
Proof.
  intros Hr. pose proof (hget_prop_sim h v t ls k Hr) as Hs. unfold sim in *.
  destruct (hget_prop h v k) as [vk|], (get_prop t k) as [tk|]; try done.
  destruct (hchild h v k) as [vk0|] eqn:Hc.
  - destruct Hs as [-> Ht].
    destruct (repr_child h v t ls k vk0 Hr Hc) as (_ & tk0 & lsk & _ & _ & _ & Ht0 & Hrk & _).
    exists lsk. congruence.
  - destruct Hs as (Hv & -> & _). exists []. by constructor.
Qed.

(** ** Lemmas: composing runs *)

Lemma sim_bind {A A' B B'} (Q : A → A' → Prop) (Q' : B → B' → Prop)
    (r : result hexn A) (r' : js A') (f : A → result hexn B) (f' : A' → js B') :
  sim Q r r' → (∀ x y, Q x y → sim Q' (f x) (f' y)) →
  sim Q' (result_bind f r) (result_bind f' r').
Proof. destruct r, r'; simpl; try done. intros HQ Hf. by apply Hf. Qed.

Lemma sim_mono {A A'} (Q Q' : A → A' → Prop) (r : result hexn A) (r' : js A') :
  sim Q r r' → (∀ x y, Q x y → Q' x y) → sim Q' r r'.
Proof. destruct r, r'; simpl; try done. intros HQ Hf. by apply Hf. Qed.

Lemma edited_refl h v t ls : repr h v t ls → NoDup ls → updated h v ls h t.
Proof. intros Hr Hnd. exists ls. split_and!; [done..|apply edit_refl]. Qed.

Lemma edited_trans h v ls h1 ls1 h2 t2 :
  edit h ls h1 ls1 → updated h1 v ls1 h2 t2 → updated h v ls h2 t2.
Proof.
  intros He (ls2 & Hr & Hnd & He'). exists ls2. split_and!; [done..|by eapply edit_trans].
Qed.

(** ** Lemmas: [store] *)

Section store_lists.
Context (f : value → heap → hval * heap).
Implicit Types (ts : list value) (ps : list (string * value)).

Definition stores (t : value) : Prop :=
  ∀ h, ∃ ls, repr (f t h).2 (f t h).1 t ls ∧ NoDup ls ∧ edit h [] (f t h).2 ls.

Lemma store_elems_edited ts h :
  Forall stores ts →
  ∃ ls, reprs (repr (store_elems f ts h).2) (store_elems f ts h).1 ts ls ∧ NoDup ls ∧
    edit h [] (store_elems f ts h).2 ls.
Proof.
  intros Hts. revert h. induction Hts as [|t ts Ht _ IH]; intros h; simpl.
  { exists []. split_and!; [constructor|constructor|apply edit_refl]. }
  destruct (Ht h) as (l1 & Hr1 & Hnd1 & He1). destruct (IH (f t h).2) as (l2 & Hr2 & Hnd2 & He2).
  destruct (edit_new_disjoint _ _ _ _ _ _ Hr1 Hnd1 He2 Hnd2) as [Hr1' Hnd].
  exists (l1 ++ l2). split_and!; [by constructor|done|by eapply edit_app].
Qed.

Lemma store_props_edited ps h :
  Forall (λ kt, stores kt.2) ps →
  ∃ ls, keys (store_props f ps h).1 = keys ps ∧
    reprs (repr (store_props f ps h).2) (store_props f ps h).1.*2 ps.*2 ls ∧ NoDup ls ∧
    edit h [] (store_props f ps h).2 ls.
Proof.
  intros Hps. revert h. induction Hps as [|[k t] ps Ht _ IH]; intros h; simpl.
  { exists []. split_and!; [done|constructor|constructor|apply edit_refl]. }
  destruct (Ht h) as (l1 & Hr1 & Hnd1 & He1). simpl in Hr1, He1.
  destruct (IH (f t h).2) as (l2 & Hk & Hr2 & Hnd2 & He2).
  destruct (edit_new_disjoint _ _ _ _ _ _ Hr1 Hnd1 He2 Hnd2) as [Hr1' Hnd].
  exists (l1 ++ l2). unfold keys in *. simpl. rewrite Hk.
  split_and!; [done|by constructor|done|by eapply edit_app].
Qed.

End store_lists.

(** A tree put in the store reads as the tree, shares nothing, and
    leaves what was in the store. *)
Lemma store_edited t : stores store t.
Proof.
  induction t as [| | | | |xs ex Hxs Hex|ps Hps] using value_ind'; intros h;
    try (exists []; split_and!; [by constructor|constructor|apply edit_refl]); simpl.
  - destruct (store_elems_edited store xs h Hxs) as (l1 & Hr1 & Hnd1 & He1).
    destruct (store_props_edited store ex (store_elems store xs h).2 Hex)
      as (l2 & Hk & Hr2 & Hnd2 & He2).
    set (h1 := (store_elems store xs h).2) in *. set (h2 := (store_props store ex h1).2) in *.
    assert (reprs (repr h2) (store_elems store xs h).1 xs l1 ∧ NoDup (l1 ++ l2)) as [Hr1' Hnd].
    { split.
      - eapply reprs_impl; [done|]. intros v t l0 Hr _.
        eapply edit_repr_frame; [done..|]. by intros c _ ?%elem_of_nil.
      - apply NoDup_app. split_and!; [done| |done]. intros c Hc1 Hc2.
        destruct (edit_old _ _ _ _ He2 c Hc2) as [?%elem_of_nil|Hnone]; [done|].
        destruct (reprs_elem_of _ _ _ _ c Hr1 Hc1) as (v & t & l0 & _ & Hr & Hin).
        destruct (repr_dom _ _ _ _ c Hr Hin) as [? Hsome]. congruence. }
    exists (fresh (dom h2) :: l1 ++ l2).
    apply (new_array h h2); [|by eapply edit_app|done..].
    apply (not_elem_of_dom (D := gset loc)). apply is_fresh.
  - destruct (store_props_edited store ps h Hps) as (l1 & Hk & Hr1 & Hnd1 & He1).
    exists (fresh (dom (store_props store ps h).2) :: l1).
    apply (new_object h); [|done..].
    apply (not_elem_of_dom (D := gset loc)). apply is_fresh.
Qed.

(** ** Theorems *)

(** Putting a tree in the store and reading it back gives the
    tree: the objects made share nothing, [unfold] returns the tree
    with the fuel of one unit per object, and what was in the store is
    still there. *)
Theorem store_unfold t h :
  ∃ ls, NoDup ls ∧
    unfold (length ls) (store t h).2 (store t h).1 = Some (t, ls) ∧
    ∀ l, is_Some (h !! l) → (store t h).2 !! l = h !! l.
Proof.
  destruct (store_edited t h) as (ls & Hr & Hnd & He). exists ls.
  split_and!; [done|by apply repr_unfold|].
  intros l Hl. apply (edit_frame _ _ _ _ He); [by intros ?%elem_of_nil|done].
Qed.
