(* ===== verification/HeapMutator.v ===== *)
(** * HeapMutator: the edit of the scrape configuration, in place

    The same lines as ConfigMutator (index.js 122-145), as the code
    runs them: [jobConfig] and [staticConfig] are references into the
    document that [yaml.load] returned, the literals of lines 133 and
    137 are new objects, and the assignments and [push] change objects
    where they are.  Nothing is put back: what the caller sees
    afterwards is whatever the root now reads as.

    [registerTargetH] is that program.  On a document without sharing
    it does what [ConfigMutator.registerTarget] does
    ([registerTargetH_sim]); in a document where two jobs share their
    [static_configs] or their target set, which a YAML alias gives, it
    changes both ([alias_registers_both], for every store in which the
    job has a target set; [alias_heap_reads] on an example).  The
    parser of the model, [Heap.store], makes no shared objects: stores
    with sharing are those js-yaml returns for a text with anchors and
    aliases, which the model does not parse. *)

From stdpp Require Import base strings pretty numbers gmap option list.
From S2P Require Import Prelude JsValue ConfigMutator Heap HeapRefine.

Local Open Scope string_scope.
Local Open Scope nat_scope.
Local Open Scope list_scope.

(** ** Data *)

(** The ways [registerTargetH] returns; the document is in the heap. *)
Inductive hmutation : Type :=
| HNoScrapeConfigs
| HJobNotFound
| HMutated (added : bool).

#[export] Instance hmutation_eq_dec : EqDecision hmutation.
Proof. solve_decision. Defined.

(** ** Operations *)

(** The callback of [find] (line 126). *)
Definition his_job (h : heap) (sc : hval) : result hexn bool :=
  let* name := hget_prop h sc "job_name" in
  Ok (strict_eq_string (shallow name) "prometheus").

(** The literal [[{ targets: [] }]] (line 133): three new objects. *)
Definition hfresh_static_configs : heapM hval :=
  t ← alloc (OArray [] []);
  g ← alloc (OObject [("targets", t)]);
  alloc (OArray [g] []).

(** Lines 132-134. *)
Definition hensure_static_configs (jobConfig : hval) : heapM unit :=
  st ← reading (λ h, hget_prop h jobConfig "static_configs");
  missing ← reading (λ h,
    if negb (htruthy st) then Ok true
    else let* len := hget_prop h st "length" in Ok (strict_eq_int (shallow len) 0));
  if missing : bool then
    a ← hfresh_static_configs;
    writing (hset_prop jobConfig "static_configs" a)
  else mret ().

(** Lines 136-138. *)
Definition hensure_targets (staticConfig : hval) : heapM unit :=
  t ← reading (λ h, hget_prop h staticConfig "targets");
  arr ← reading (λ h, Ok (hisArray h t));
  if negb (htruthy t) || negb arr then
    a ← alloc (OArray [] []);
    writing (hset_prop staticConfig "targets" a)
  else mret ().

(** Lines 140-145: whether the address was added. *)
Definition hadd_target (target : string) (staticConfig : hval) : heapM bool :=
  t ← reading (λ h, hget_prop h staticConfig "targets");
  present ← reading (λ h, hincludes h t target);
  if negb present then
    t0 ← reading (λ h, hget_prop h staticConfig "targets");
    writing (hpush t0 target);;
    mret true
  else mret false.

(** Lines 135-145. *)
Definition hupdate_group (target : string) (staticConfig : hval) : heapM bool :=
  hensure_targets staticConfig;;
  hadd_target target staticConfig.

(** Lines 131-145. *)
Definition hupdate_job (target : string) (jobConfig : hval) : heapM bool :=
  hensure_static_configs jobConfig;;
  st ← reading (λ h, hget_prop h jobConfig "static_configs");
  staticConfig ← reading (λ h, hget_prop h st "0");
  hupdate_group target staticConfig.

(** Lines 122-145. *)
Definition registerTargetH (target : string) (config : hval) : heapM hmutation :=
  scs ← reading (λ h, hget_prop h config "scrape_configs");
  arr ← reading (λ h, Ok (hisArray h scs));
  if negb (htruthy scs) || negb arr then mret HNoScrapeConfigs else
  found ← reading (λ h, hfind h scs (his_job h));
  match found with
  | None => mret HJobNotFound
  | Some jobConfig =>
      if negb (htruthy jobConfig) then mret HJobNotFound else
      added ← hupdate_job target jobConfig;
      mret (HMutated added)
  end.

(** ** Where a target set lives *)

(** The job line 126 finds in the document at [config]. *)
Definition hjob (h : heap) (config : hval) : option hval :=
  scs ← hchild h config "scrape_configs";
  match hfind h scs (his_job h) with
  | Ok found => found
  | Throw _ => None
  end.

(** The array [job.static_configs[0].targets] refers to, for a job
    whose [static_configs] is a list. *)
Definition htargets (h : heap) (job : hval) : option loc :=
  st ← hchild h job "static_configs";
  if hisArray h st then
    g ← hchild h st "0";
    t ← hchild h g "targets";
    match t with
    | HRef l => if hisArray h t then Some l else None
    | _ => None
    end
  else None.

(** The store after [push] on the array at [l]. *)
Definition pushed (l : loc) (x : hval) (h : heap) : heap :=
  match h !! l with
  | Some (OArray elems extra) => <[l := OArray (elems ++ [x]) extra]> h
  | _ => h
  end.

(** ** Outcomes on both sides *)

(** The outcome in the store against the outcome on the tree [root]
    read as: the same way out, and after an edit the root reads as the
    updated tree. *)
Definition mutation_sim (h : heap) (root : hval) (ls : list loc)
    (x : hmutation * heap) (y : mutation) : Prop :=
  match x.1, y with
  | HNoScrapeConfigs, NoScrapeConfigs => x.2 = h
  | HJobNotFound, JobNotFound => x.2 = h
  | HMutated a, Mutated a' c' => a = a' ∧ updated h root ls x.2 c'
  | _, _ => False
  end.

(** ** Examples *)

(** The document [doc3] as [yaml.load] returns it, and its root. *)
Definition heap3 : heap := (store doc3 ∅).2.
Definition root3 : hval := (store doc3 ∅).1.

(** The same store with an object that is no part of the document,
    and what a registration leaves of it. *)
Definition heap3x : heap := <[99%positive := OArray [HString "kept"] []]> heap3.

Definition heap3x_after : heap :=
  match registerTargetH "10.0.0.2:8000" root3 heap3x with
  | Ok r => r.2
  | Throw _ => ∅
  end.

(** The store and the tree of the document with an alias, after a
    registration of ["10.0.0.5:8000"]. *)
Definition alias_heap_after : heap :=
  match registerTargetH "10.0.0.5:8000" (HRef 1%positive) alias_heap with
  | Ok r => r.2
  | Throw _ => ∅
  end.

Definition alias_tree_after : value :=
  match registerTarget "10.0.0.5:8000" alias_tree with
  | Ok (Mutated _ c') => c'
  | _ => VUndefined
  end.

(** ** Lemmas: the steps *)

(** [find] with callbacks that agree on related elements: the same
    outcome, and what is found is the child at the index found. *)
Lemma hfind_sim h arr t ls p q :
  repr h arr t ls →
  (∀ x y l0, repr h x y l0 → sim eq (p x) (q y)) →
  sim (λ o o', match o, o' with
               | None, None => True
               | Some x, Some (i, y) =>
                   hchild h arr (pretty i) = Some x ∧ child t (pretty i) = Some y
               | _, _ => False
               end) (hfind h arr p) (find t q).
Proof.
  intros Hr Hpq.
  inversion Hr as [v0 Hv|l elems extra ts tx ls1 ls2 Hl He Hk Hx|l props tps ls0 Hl Hk Hp];
    subst; simpl.
  - by destruct arr.
  - rewrite Hl. simpl. pose proof (reprs_findM (repr h) exn_sim p q _ _ _ He Hpq) as Hf.
    destruct (findM p elems) as [[[i x]|]|], (findM q ts) as [[[j y]|]|]; simpl; try done.
    destruct Hf as (<- & Hi & Hj).
    by rewrite !decide_False, array_index_pretty by apply pretty_nat_not_length.
  - by rewrite Hl.
Qed.

Lemma repr_strict_eq_int h v t ls n :
  repr h v t ls → strict_eq_int t n = strict_eq_int (shallow v) n.
Proof. by inversion 1. Qed.

Lemma his_job_sim h v t ls : repr h v t ls → sim eq (his_job h v) (is_job t).
Proof.
  intros Hr. eapply sim_bind; [by eapply hget_prop_reads|].
  intros vk tk [lsk Hk]. simpl. symmetry. by eapply repr_strict_eq_string.
Qed.

Lemma sim_reading {A B} (Q : A → B → Prop) (f : heap → result hexn A) h (r' : js B) :
  sim Q (f h) r' → sim (λ x y, Q x.1 y ∧ x.2 = h) (reading f h) r'.
Proof. unfold reading. by destruct (f h), r'. Qed.

Lemma sim_writing {B} (Q : heap → B → Prop) (f : heap → result hexn heap) h (r' : js B) :
  sim Q (f h) r' → sim (λ x y, Q x.2 y) (writing f h) r'.
Proof. unfold writing. by destruct (f h), r'. Qed.

(** The literal of line 133 makes three objects that read as
    [fresh_static_configs] and share nothing with what was there. *)
Lemma hfresh_static_configs_new h :
  ∃ a h' lx, hfresh_static_configs h = Ok (a, h') ∧
    repr h' a fresh_static_configs lx ∧ NoDup lx ∧ edit h [] h' lx.
Proof.
  destruct (alloc_fresh (OArray [] []) h) as (lt & Ht & Hlt).
  destruct (new_array h h lt [] [] [] [] [] [] Hlt (edit_refl h []) (NoDup_nil_2 (A := loc)))
    as (Hr1 & Hnd1 & He1); [constructor|done|constructor|].
  destruct (alloc_fresh (OObject [("targets", HRef lt)]) (<[lt := OArray [] []]> h))
    as (lg & Hg & Hlg).
  destruct (new_object h _ lg [("targets", HRef lt)] [("targets", VArray [] [])] [lt]
              Hlg He1 Hnd1 eq_refl) as (Hr2 & Hnd2 & He2).
  { apply (reprs_cons _ _ _ [lt] [] [] []); [done|constructor]. }
  destruct (alloc_fresh (OArray [HRef lg] []) (<[lg := OObject [("targets", HRef lt)]]>
              (<[lt := OArray [] []]> h))) as (la & Ha & Hla).
  destruct (new_array h _ la [HRef lg] [] [VObject [("targets", VArray [] [])]] [] [lg; lt] []
              Hla He2 Hnd2) as (Hr3 & Hnd3 & He3); [|done|constructor|].
  { apply (reprs_cons _ _ _ [lg; lt] [] [] []); [done|constructor]. }
  eexists _, _, _. split; [|done]. unfold hfresh_static_configs, mbind, heapM_bind.
  rewrite Ht. cbn [result_bind fst snd]. rewrite Hg. cbn [result_bind fst snd]. by rewrite Ha.
Qed.

Lemma hensure_static_configs_sim h v t ls :
  repr h v t ls → NoDup ls →
  sim (λ x t', updated h v ls x.2 t') (hensure_static_configs v h) (ensure_static_configs t).
Proof.
  intros Hr Hnd. unfold hensure_static_configs, ensure_static_configs, mbind, heapM_bind.
  eapply sim_bind; [apply sim_reading; by eapply hget_prop_reads|].
  intros [st h'] tst [[lst Hst] Hh]. simpl in Hst, Hh. subst h'. cbn [fst snd].
  eapply sim_bind.
  { apply (sim_reading eq). rewrite (proj1 (repr_truthy _ _ _ _ Hst)).
    destruct (htruthy st); simpl; [|done].
    eapply sim_bind; [by eapply hget_prop_reads|].
    intros len tlen [ll Hlen]. simpl. symmetry. by eapply repr_strict_eq_int. }
  intros [missing h'] m' [Hm Hh]. simpl in Hm, Hh. subst h' m'. destruct missing; cbn [fst snd].
  - destruct (hfresh_static_configs_new h) as (a & h' & lx & -> & Hra & Hnda & Hea).
    cbn [result_bind fst snd].
    apply (sim_writing (updated h v ls)). by apply (hset_prop_sim h h' v t ls _ a _ lx).
  - by apply edited_refl.
Qed.

Lemma hensure_targets_sim h v t ls :
  repr h v t ls → NoDup ls →
  sim (λ x t', updated h v ls x.2 t') (hensure_targets v h) (ensure_targets t).
Proof.
  intros Hr Hnd. unfold hensure_targets, ensure_targets, mbind, heapM_bind.
  eapply sim_bind; [apply sim_reading; by eapply hget_prop_reads|].
  intros [tg h'] ttg [[ltg Htg] Hh]. simpl in Htg, Hh. subst h'.
  unfold reading. cbn [result_bind fst snd].
  rewrite (proj1 (repr_truthy _ _ _ _ Htg)), (repr_isArray _ _ _ _ Htg).
  destruct (negb (htruthy tg) || negb (hisArray h tg)); cbn [fst snd];
    [|by apply edited_refl].
  destruct (alloc_fresh (OArray [] []) h) as (la & -> & Hla). cbn [result_bind fst snd].
  destruct (new_array h h la [] [] [] [] [] [] Hla (edit_refl h []) (NoDup_nil_2 (A := loc)))
    as (Hra & Hnda & Hea); [constructor|done|constructor|].
  apply (sim_writing (updated h v ls)). by apply (hset_prop_sim h _ v t ls _ (HRef la) _ [la]).
Qed.

Lemma hadd_target_sim target h v t ls :
  repr h v t ls → NoDup ls →
  sim (λ x y, x.1 = y.1 ∧ updated h v ls x.2 y.2) (hadd_target target v h) (add_target target t).
Proof.
  intros Hr Hnd. unfold hadd_target, add_target, mbind, heapM_bind.
  eapply sim_bind; [apply sim_reading; by eapply hget_prop_reads|].
  intros [tg h'] ttg [[ltg Htg] Hh]. simpl in Htg, Hh. subst h'. cbn [fst snd].
  eapply sim_bind; [apply sim_reading; by eapply hincludes_sim|].
  intros [present h'] p' [Hp Hh]. simpl in Hp, Hh. subst h' p'. cbn [fst snd].
  destruct present; simpl; [split; [done|by apply edited_refl]|].
  eapply sim_bind; [apply sim_reading; by eapply hget_prop_focus|].
  intros [t0 h'] tt0 [(l0 & Hr0 & Hnd0 & Hctx) Hh]. simpl in Hr0, Hctx, Hh. subst h'.
  cbn [fst snd].
  pose proof (hpush_sim h t0 tt0 l0 target Hr0 Hnd0) as Hpush. unfold writing.
  destruct (hpush t0 target h) as [h'|e] eqn:Hh', (push tt0 target) as [t'|e']; try done.
  simpl in *. split; [done|]. apply Hctx; [by eapply hpush_Ok_ref|done].
Qed.

Lemma hupdate_group_sim target h v t ls :
  repr h v t ls → NoDup ls →
  sim (λ x y, x.1 = y.1 ∧ updated h v ls x.2 y.2)
    (hupdate_group target v h) (update_group target t).
Proof.
  intros Hr Hnd. unfold hupdate_group, update_group, mbind, heapM_bind.
  eapply sim_bind; [by apply hensure_targets_sim|].
  intros [[] h1] t1 (ls1 & Hr1 & Hnd1 & He1). simpl in Hr1, He1. cbn [fst snd].
  eapply sim_mono; [by apply hadd_target_sim|].
  intros x y [Hxy Hed]. split; [done|]. by eapply edited_trans.
Qed.

(** A group that is not an object has no [targets] to pass to
    [includes]: line 140 throws. *)
Lemma hupdate_group_Ok_ref target v h x : hupdate_group target v h = Ok x → is_ref v = true.
Proof. by destruct v. Qed.

Lemma hupdate_job_sim target h v t ls :
  repr h v t ls → NoDup ls →
  sim (λ x y, x.1 = y.1 ∧ updated h v ls x.2 y.2) (hupdate_job target v h) (update_job target t).
Proof.
  intros Hr Hnd. unfold hupdate_job, update_job, mbind, heapM_bind.
  eapply sim_bind; [by apply hensure_static_configs_sim|].
  intros [[] h1] t1 (ls1 & Hr1 & Hnd1 & He1). simpl in Hr1, He1. cbn [fst snd].
  eapply sim_bind; [apply sim_reading; by eapply hget_prop_focus|].
  intros [st h'] tst [(lst & Hst & Hndst & Hctx1) Hh]. simpl in Hst, Hctx1, Hh. subst h'.
  cbn [fst snd].
  eapply sim_bind; [apply sim_reading; by eapply hget_prop_focus|].
  intros [g h'] tg [(lg & Hg & Hndg & Hctx2) Hh]. simpl in Hg, Hctx2, Hh. subst h'.
  cbn [fst snd].
  pose proof (hupdate_group_sim target h1 g tg lg Hg Hndg) as Hgroup.
  destruct (hupdate_group target g h1) as [[a h2]|e] eqn:Hrun,
    (update_group target tg) as [[a' tg']|e']; try done.
  destruct Hgroup as [Ha Hed]. simpl in Ha, Hed. split; [done|].
  destruct Hctx2 as [Href Hctx2]; [by eapply hupdate_group_Ok_ref|].
  destruct Hctx1 as [_ Hctx1]; [done|].
  eapply edited_trans; [done|]. by apply Hctx1, Hctx2.
Qed.

(** A job that is not an object has no [static_configs] to index:
    line 135 throws. *)
Lemma hupdate_job_Ok_ref target v h x : hupdate_job target v h = Ok x → is_ref v = true.
Proof. by destruct v. Qed.

(** ** The refinement *)

(** On a document without sharing the code, run on the store, leaves
    in the way [registerTarget] does on the tree, and after an edit the
    root reads as the tree [registerTarget] returns. *)
Lemma registerTargetH_sim target h root c ls :
  repr h root c ls → NoDup ls →
  sim (mutation_sim h root ls) (registerTargetH target root h) (registerTarget target c).
Proof.
  intros Hr Hnd. unfold registerTargetH, registerTarget, mbind, heapM_bind.
  eapply sim_bind; [apply sim_reading; by eapply hget_prop_focus|].
  intros [scs h'] tscs [(lscs & Hscs & Hndscs & Hctx1) Hh]. simpl in Hscs, Hctx1, Hh.
  subst h'. unfold reading. cbn [result_bind fst snd].
  rewrite (proj1 (repr_truthy _ _ _ _ Hscs)), (repr_isArray _ _ _ _ Hscs).
  destruct (negb (htruthy scs) || negb (hisArray h scs)) eqn:Hguard; [done|].
  cbn [fst snd]. eapply sim_bind.
  { eapply (sim_reading _ (λ h0, hfind h0 scs (his_job h0)) h).
    eapply hfind_sim; [done|]. intros. by eapply his_job_sim. }
  intros [[job|] h'] [[i tjob]|] [Hfound Hh]; simpl in Hfound, Hh; try done; subst h';
    cbn [fst snd].
  destruct Hfound as [Hjob Htjob].
  destruct (hchild_focus h scs tscs lscs (pretty i) job tjob Hscs Hndscs Hjob Htjob)
    as (lj & Hrj & Hndj & Hctx2).
  rewrite (proj1 (repr_truthy _ _ _ _ Hrj)). destruct (htruthy job); [|done].
  cbv beta iota delta [negb].
  pose proof (hupdate_job_sim target h job tjob lj Hrj Hndj) as Hrun.
  destruct (hupdate_job target job h) as [[a h2]|e] eqn:Hjobrun,
    (update_job target tjob) as [[a' tjob']|e']; try done.
  destruct Hrun as [Ha Hed]. simpl in Ha, Hed. split; [done|].
  destruct Hctx2 as [Href Hctx2]; [by eapply hupdate_job_Ok_ref|].
  destruct Hctx1 as [_ Hctx1]; [done|]. by apply Hctx1, Hctx2.
Qed.

(** ** Lemmas: a run on objects that may be shared *)

Lemma reading_bind {A B} (f : heap → result hexn A) (k : A → heapM B) h x :
  f h = Ok x → (reading f ≫= k) h = k x h.
Proof. intros Hf. unfold mbind, heapM_bind, reading. by rewrite Hf. Qed.

Lemma writing_bind {B} (f : heap → result hexn heap) (k : unit → heapM B) h h' :
  f h = Ok h' → (writing f ≫= k) h = k () h'.
Proof. intros Hf. unfold mbind, heapM_bind, writing. by rewrite Hf. Qed.

(** An own child is what a property read returns. *)
Lemma hchild_get_prop h v k x : hchild h v k = Some x → hget_prop h v k = Ok x.
Proof.
  destruct v as [| | | | |l]; try done. simpl.
  destruct (h !! l) as [[elems extra|props]|]; [|by intros ->|done].
  case_decide; [done|]. destruct (array_index k); by intros ->.
Qed.

Lemma hchild_is_ref h v k x : hchild h v k = Some x → htruthy v = true.
Proof. by destruct v. Qed.

Lemma hisArray_spec h v :
  hisArray h v = true ↔ ∃ l elems extra, v = HRef l ∧ h !! l = Some (OArray elems extra).
Proof.
  split; [|by intros (l & elems & extra & -> & Hl); simpl; rewrite Hl].
  destruct v as [| | | | |l]; try done. simpl.
  destruct (h !! l) as [[elems extra|]|] eqn:Hl; [|done..]. by exists l, elems, extra.
Qed.

(** [push] keeps every child and every array where it is. *)
Lemma hchild_pushed l0 y h v k x :
  hchild h v k = Some x → hchild (pushed l0 y h) v k = Some x.
Proof.
  unfold pushed. destruct (h !! l0) as [[elems extra|]|] eqn:Hl0; [|done..].
  destruct v as [| | | | |l]; try done. simpl.
  destruct (decide (l = l0)) as [->|Hne]; [|by rewrite lookup_insert_ne].
  rewrite lookup_insert_eq, Hl0. case_decide; [done|].
  destruct (array_index k); [|done]. apply lookup_app_l_Some.
Qed.

Lemma hisArray_pushed l0 y h v : hisArray h v = true → hisArray (pushed l0 y h) v = true.
Proof.
  unfold pushed. destruct (h !! l0) as [[elems extra|]|] eqn:Hl0; [|done..].
  destruct v as [| | | | |l]; try done. simpl.
  destruct (decide (l = l0)) as [->|Hne]; [by rewrite lookup_insert_eq|].
  by rewrite lookup_insert_ne.
Qed.

Lemma htargets_pushed l0 y h job l :
  htargets h job = Some l → htargets (pushed l0 y h) job = Some l.
Proof.
  unfold htargets. destruct (hchild h job "static_configs") as [st|] eqn:Hst; [|done].
  simpl. destruct (hisArray h st) eqn:Harr; [|done].
  destruct (hchild h st "0") as [g|] eqn:Hg; [|done]. simpl.
  destruct (hchild h g "targets") as [t|] eqn:Ht; [|done]. simpl.
  rewrite (hchild_pushed _ _ _ _ _ _ Hst). simpl.
  rewrite (hisArray_pushed _ _ _ _ Harr), (hchild_pushed _ _ _ _ _ _ Hg). simpl.
  rewrite (hchild_pushed _ _ _ _ _ _ Ht). simpl.
  destruct t as [| | | | |lt]; try done.
  destruct (hisArray h (HRef lt)) eqn:Harr'; [|done].
  by rewrite (hisArray_pushed _ _ _ _ Harr').
Qed.

(** What [htargets] says of the objects on the way. *)
Lemma htargets_spec h job l :
  htargets h job = Some l →
  ∃ st g elems extra, hchild h job "static_configs" = Some st ∧ hisArray h st = true ∧
    hchild h st "0" = Some g ∧ hchild h g "targets" = Some (HRef l) ∧
    h !! l = Some (OArray elems extra).
Proof.
  unfold htargets. destruct (hchild h job "static_configs") as [st|] eqn:Hst; [|done].
  simpl. destruct (hisArray h st) eqn:Harr; [|done].
  destruct (hchild h st "0") as [g|] eqn:Hg; [|done]. simpl.
  destruct (hchild h g "targets") as [[| | | | |lt]|] eqn:Ht; try done. simpl.
  destruct (h !! lt) as [[elems extra|]|] eqn:Hlt; [|done..]. intros [= <-].
  by exists st, g, elems, extra.
Qed.

(** A list with a first element has not the length 0. *)
Lemma harray_not_empty h st g :
  hisArray h st = true → hchild h st "0" = Some g →
  ∃ len, hget_prop h st "length" = Ok len ∧ strict_eq_int (shallow len) 0 = false.
Proof.
  intros (l & elems & extra & -> & Hl)%hisArray_spec. simpl. rewrite Hl.
  change (array_index "0") with (Some 0). destruct elems as [|x elems]; [done|].
  intros _. by eexists.
Qed.

Lemma hensure_static_configs_skip h job st g :
  hchild h job "static_configs" = Some st → hisArray h st = true →
  hchild h st "0" = Some g → hensure_static_configs job h = Ok ((), h).
Proof.
  intros Hst Harr Hg. destruct (harray_not_empty h st g Harr Hg) as (len & Hlen & Hne).
  unfold hensure_static_configs.
  rewrite (reading_bind _ _ h st) by by apply hchild_get_prop.
  rewrite (reading_bind _ _ h false); [done|].
  by rewrite (hchild_is_ref _ _ _ _ Hg), Hlen, <- Hne.
Qed.

Lemma hensure_targets_skip h g t :
  hchild h g "targets" = Some t → hisArray h t = true → hensure_targets g h = Ok ((), h).
Proof.
  intros Ht Harr. unfold hensure_targets.
  rewrite (reading_bind _ _ h t) by by apply hchild_get_prop.
  rewrite (reading_bind _ _ h true) by by rewrite Harr.
  apply hisArray_spec in Harr as (l & elems & extra & -> & _). done.
Qed.

(** Lines 140-145 on a group whose [targets] is the array at [l]. *)
Lemma hadd_target_pushes target h g l present :
  hchild h g "targets" = Some (HRef l) → hincludes h (HRef l) target = Ok present →
  hadd_target target g h =
    Ok (negb present, if present then h else pushed l (HString target) h).
Proof.
  intros Ht Hinc. unfold hadd_target.
  rewrite (reading_bind _ _ h (HRef l)) by by apply hchild_get_prop.
  rewrite (reading_bind _ _ h present) by done.
  destruct present; [done|]. cbn [negb].
  rewrite (reading_bind _ _ h (HRef l)) by by apply hchild_get_prop.
  unfold pushed. simpl in Hinc. destruct (h !! l) as [[elems extra|]|] eqn:Hl; [|done..].
  rewrite (writing_bind _ _ h (<[l := OArray (elems ++ [HString target]) extra]> h)); [done|].
  simpl. by rewrite Hl.
Qed.

(** Lines 131-145 on a job whose target set is the array at [l]: no
    repair, and the address is pushed there unless it is there. *)
Lemma hupdate_job_pushes target h job l present :
  htargets h job = Some l → hincludes h (HRef l) target = Ok present →
  hupdate_job target job h =
    Ok (negb present, if present then h else pushed l (HString target) h).
Proof.
  intros (st & g & elems & extra & Hst & Harr & Hg & Ht & Hl)%htargets_spec Hinc.
  unfold hupdate_job, hupdate_group.
  unfold mbind at 1, heapM_bind at 1.
  rewrite (hensure_static_configs_skip h job st g) by done. cbn [result_bind fst snd].
  rewrite (reading_bind _ _ h st) by by apply hchild_get_prop.
  rewrite (reading_bind _ _ h g) by by apply hchild_get_prop.
  unfold mbind, heapM_bind.
  rewrite (hensure_targets_skip h g (HRef l)) by (by rewrite ?hisArray_spec; eauto).
  cbn [result_bind fst snd]. by apply hadd_target_pushes.
Qed.

(** Lines 122-145 likewise, from the root. *)
Lemma registerTargetH_pushes target h config job l present :
  hjob h config = Some job → htargets h job = Some l →
  hincludes h (HRef l) target = Ok present →
  registerTargetH target config h =
    Ok (HMutated (negb present), if present then h else pushed l (HString target) h).
Proof.
  unfold hjob. destruct (hchild h config "scrape_configs") as [scs|] eqn:Hscs; [|done].
  simpl. destruct (hfind h scs (his_job h)) as [found|] eqn:Hfind; [|done].
  intros -> Hl Hinc. unfold registerTargetH.
  rewrite (reading_bind _ _ h scs) by by apply hchild_get_prop.
  assert (hisArray h scs = true ∧ htruthy scs = true) as [Harr Htr].
  { destruct scs as [| | | | |ls]; try done. simpl in *.
    by destruct (h !! ls) as [[]|]. }
  rewrite (reading_bind _ _ h true) by by rewrite Harr.
  rewrite Htr. cbn [negb orb].
  rewrite (reading_bind _ _ h (Some job)) by done.
  assert (htruthy job = true) as ->.
  { apply htargets_spec in Hl as (st & _ & _ & _ & Hst & _). by eapply hchild_is_ref. }
  cbn [negb]. unfold mbind, heapM_bind.
  by rewrite (hupdate_job_pushes target h job l present).
Qed.

(** ** Theorems *)

(** [C3] The code on objects in a store refines the edit of the tree:
    when the root reads as the document [c] and no object is reachable
    twice, the run leaves the way [registerTarget] does on [c] (the
    same early return, the same answer to whether the address was
    added, a TypeError on the same property); after an edit the root
    reads as the document [registerTarget] returns, again without
    sharing, and after an early return the store is as it was. *)
Theorem registerTargetH_refines target h root c ls :
  repr h root c ls → NoDup ls →
  match registerTargetH target root h, registerTarget target c with
  | Ok (HMutated a, h'), Ok (Mutated a' c') =>
      a = a' ∧ ∃ ls', repr h' root c' ls' ∧ NoDup ls' ∧ edit h ls h' ls'
  | Ok (HNoScrapeConfigs, h'), Ok NoScrapeConfigs => h' = h
  | Ok (HJobNotFound, h'), Ok JobNotFound => h' = h
  | Throw e, Throw e' => exn_sim e e'
  | _, _ => False
  end.
Proof.
  intros Hr Hnd. pose proof (registerTargetH_sim target h root c ls Hr Hnd) as Hs.
  unfold sim, mutation_sim, updated in Hs.
  by destruct (registerTargetH target root h) as [[[] ?]|], (registerTarget target c) as [[]|].
Qed.

Lemma registerTargetH_refines_witness :
  match registerTargetH "10.0.0.2:8000" root3 heap3, registerTarget "10.0.0.2:8000" doc3 with
  | Ok (HMutated a, h'), Ok (Mutated a' c') =>
      a = a' ∧ ∃ ls', repr h' root3 c' ls' ∧ NoDup ls' ∧
        edit heap3 [12; 1; 11; 5; 4; 3; 2; 10; 9; 8; 6; 7]%positive h' ls'
  | Ok (HNoScrapeConfigs, h'), Ok NoScrapeConfigs => h' = heap3
  | Ok (HJobNotFound, h'), Ok JobNotFound => h' = heap3
  | Throw e, Throw e' => exn_sim e e'
  | _, _ => False
  end.
Proof.
  apply (registerTargetH_refines "10.0.0.2:8000" heap3 root3 doc3
           [12; 1; 11; 5; 4; 3; 2; 10; 9; 8; 6; 7]%positive).
  - apply (unfold_repr 12). vm_compute. reflexivity.
  - apply (bool_decide_unpack _). vm_compute. reflexivity.
Defined.

(** A run writes only to objects of the document: an object of
    the store that is not reachable from the root is after the run
    what it was before, whatever the outcome. *)
Theorem registerTargetH_frame target h root c ls m h' l :
  repr h root c ls → NoDup ls → registerTargetH target root h = Ok (m, h') →
  l ∉ ls → is_Some (h !! l) → h' !! l = h !! l.
Proof.
  intros Hr Hnd Hrun Hl Hsome.
  pose proof (registerTargetH_sim target h root c ls Hr Hnd) as Hs. rewrite Hrun in Hs.
  unfold sim, mutation_sim in Hs. destruct (registerTarget target c) as [[]|]; [..|done];
    destruct m; simpl in Hs; try done; try by subst.
  destruct Hs as (_ & ls' & _ & _ & He). by apply (edit_frame _ _ _ _ He).
Qed.

Lemma registerTargetH_frame_witness :
  heap3x_after !! 99%positive = heap3x !! 99%positive.
Proof.
  apply (registerTargetH_frame "10.0.0.2:8000" heap3x root3 doc3
           [12; 1; 11; 5; 4; 3; 2; 10; 9; 8; 6; 7]%positive (HMutated true) heap3x_after).
  - apply (unfold_repr 12). vm_compute. reflexivity.
  - apply (bool_decide_unpack _). vm_compute. reflexivity.
  - vm_compute. reflexivity.
  - apply (bool_decide_unpack _). vm_compute. reflexivity.
  - eexists. vm_compute. reflexivity.
Defined.

(** End to end on a parsed document without aliases: the run on
    the objects [store] makes for the document [c] leaves the way
    [registerTarget] does on [c], and after it the root reads as the
    document [registerTarget] returns. *)
Theorem registerTargetH_store target c :
  match registerTargetH target (store c ∅).1 (store c ∅).2, registerTarget target c with
  | Ok (HMutated a, h'), Ok (Mutated a' c') =>
      a = a' ∧ ∃ n, fst <$> unfold n h' (store c ∅).1 = Some c'
  | Ok (HNoScrapeConfigs, h'), Ok NoScrapeConfigs
  | Ok (HJobNotFound, h'), Ok JobNotFound => h' = (store c ∅).2
  | Throw e, Throw e' => exn_sim e e'
  | _, _ => False
  end.
Proof.
  destruct (store_edited c ∅) as (ls & Hr & Hnd & _).
  pose proof (registerTargetH_sim target _ _ c ls Hr Hnd) as Hs.
  unfold sim, mutation_sim in Hs.
  destruct (registerTargetH target _ _) as [[[] h']|], (registerTarget target c) as [[]|];
    try done.
  destruct Hs as (-> & ls' & Hr' & _). split; [done|]. exists (length ls').
  by rewrite (repr_unfold _ _ _ _ _ Hr').
Qed.

(** [C12] The edit reaches whoever shares the target set.  When line
    126 finds the job [job], whose [static_configs[0].targets] is the
    array at [l] with the elements [elems], the run takes no repair
    branch, leaves at [l] the elements with the address pushed unless
    it was among them, and changes no other object; so a job [other]
    whose target set is the same array, as a YAML alias makes it, has
    the address afterwards as well. *)
Theorem alias_registers_both target h config job other l elems extra present :
  hjob h config = Some job → htargets h job = Some l → htargets h other = Some l →
  h !! l = Some (OArray elems extra) → hincludes h (HRef l) target = Ok present →
  ∃ h', registerTargetH target config h = Ok (HMutated (negb present), h') ∧
    htargets h' job = Some l ∧ htargets h' other = Some l ∧
    h' !! l = Some (OArray (if present then elems else elems ++ [HString target]) extra) ∧
    ∀ l', l' ≠ l → h' !! l' = h !! l'.
Proof.
  intros Hjob Hl Ho Hh Hinc. eexists. split; [by eapply registerTargetH_pushes|].
  destruct present; [done|]. split_and!; [by apply htargets_pushed..| |];
    unfold pushed; rewrite Hh; [apply lookup_insert_eq|].
  intros l' Hne. by apply lookup_insert_ne.
Qed.

Lemma alias_registers_both_witness :
  ∃ h', registerTargetH "10.0.0.5:8000" (HRef 1%positive) alias_heap =
          Ok (HMutated true, h') ∧
    htargets h' (HRef 3%positive) = Some 7%positive ∧
    htargets h' (HRef 4%positive) = Some 7%positive ∧
    h' !! 7%positive =
      Some (OArray [HString "localhost:9090"; HString "10.0.0.5:8000"] []) ∧
    ∀ l', l' ≠ 7%positive → h' !! l' = alias_heap !! l'.
Proof.
  apply (alias_registers_both "10.0.0.5:8000" alias_heap (HRef 1%positive) (HRef 3%positive)
           (HRef 4%positive) 7%positive [HString "localhost:9090"] [] false);
    vm_compute; reflexivity.
Defined.

(** The document [alias_heap], in which the job [node] takes its
    [static_configs] from the job [prometheus] by an alias, read before
    and after: the run adds the address to the groups both jobs share,
    while [registerTarget] on the tree the document reads as changes
    the job [prometheus] alone. *)
Lemma alias_heap_reads :
  ∃ h' c',
    registerTargetH "10.0.0.5:8000" (HRef 1%positive) alias_heap = Ok (HMutated true, h') ∧
    registerTarget "10.0.0.5:8000" alias_tree = Ok (Mutated true c') ∧
    targets_of c' 1 = Some [VString "localhost:9090"] ∧
    (c'' ← fst <$> unfold 10 h' (HRef 1%positive); targets_of c'' 1) =
      Some [VString "localhost:9090"; VString "10.0.0.5:8000"].
Proof. exists alias_heap_after, alias_tree_after. split_and!; vm_compute; reflexivity. Qed.
