(* ===== verification/World.v ===== *)
(** * World: what the program touches outside itself

    The files it reads and writes ([fs.readFileSync],
    [fs.writeFileSync], index.js 116 and 148), the console (lines 108 to
    159 and 235), the requests it sends ([http.request] and [req.end],
    lines 155-161), the listening socket ([app.listen], line 234) and
    the [js-yaml] library (lines 116 and 148).

    The library is an interface, [Yaml]: a parser and a printer with the
    four laws the theorems on registration need.  [RefCodec] is an
    instance of it, so that the laws are known to be consistent and so
    that examples run; its file format is not YAML syntax. *)

From Stdlib Require Import Ascii.
From stdpp Require Import base strings pretty numbers gmap countable option list.
From S2P Require Import Prelude JsValue.

Local Open Scope string_scope.
Local Open Scope nat_scope.
Local Open Scope list_scope.

(** ** Data *)

Inductive stream : Type :=
| Stdout
| Stderr.

(** An argument of [console.log] or [console.error]: a string, or an
    error object that was caught. *)
Inductive log_arg : Type :=
| Str (s : string)
| Err (e : exn).

Record log_line : Type := {
  to : stream;
  args : list log_arg
}.

(** An outgoing request, as [http.request] is given it. *)
Record ClientRequest : Type := {
  url : string;
  method : string
}.

(** [files] maps a path to the text of the file there; a path of
    [write_protected] is one that [writeFileSync] fails on.  [console]
    and [outbox] grow at the end.  [listening] is the port and the host
    of the server socket once [app.listen] was called. *)
Record world : Type := {
  files : gmap string string;
  write_protected : gset string;
  console : list log_line;
  outbox : list ClientRequest;
  listening : option (value * string)
}.

#[export] Instance stream_eq_dec : EqDecision stream.
Proof. solve_decision. Defined.

#[export] Instance log_arg_eq_dec : EqDecision log_arg.
Proof. solve_decision. Defined.

#[export] Instance log_line_eq_dec : EqDecision log_line.
Proof. solve_decision. Defined.

#[export] Instance ClientRequest_eq_dec : EqDecision ClientRequest.
Proof. solve_decision. Defined.

(** ** Operations *)

(** [fs.readFileSync(path, "utf8")] *)
Definition readFileSync (path : string) (w : world) : js string :=
  match files w !! path with
  | Some text => Ok text
  | None => Throw (SystemError "ENOENT")
  end.

(** [fs.writeFileSync(path, data)]: the file is replaced as a whole, or
    the call throws and the file is as before. *)
Definition writeFileSync (path data : string) (w : world) : js world :=
  if decide (path ∈ write_protected w) then Throw (SystemError "EACCES")
  else Ok {| files := <[path := data]> (files w);
             write_protected := write_protected w;
             console := console w;
             outbox := outbox w;
             listening := listening w |}.

(** The two system calls [fs.writeFileSync] makes on the file: it is
    opened for writing, which empties it or fails, and then the data is
    written.  Another process, or the end of this one, can come between
    the two. *)
Definition openSync_w (path : string) (w : world) : js world :=
  if decide (path ∈ write_protected w) then Throw (SystemError "EACCES")
  else Ok {| files := <[path := ""]> (files w);
             write_protected := write_protected w;
             console := console w;
             outbox := outbox w;
             listening := listening w |}.

Definition writeSync (path data : string) (w : world) : world :=
  {| files := <[path := data]> (files w);
     write_protected := write_protected w;
     console := console w;
     outbox := outbox w;
     listening := listening w |}.

Definition print (line : log_line) (w : world) : world :=
  {| files := files w;
     write_protected := write_protected w;
     console := console w ++ [line];
     outbox := outbox w;
     listening := listening w |}.

Definition console_log (a : list log_arg) : world → world :=
  print {| to := Stdout; args := a |}.

Definition console_error (a : list log_arg) : world → world :=
  print {| to := Stderr; args := a |}.

(** [http.request(url, { method }, ...)] followed by [req.end()] *)
Definition request_end (r : ClientRequest) (w : world) : world :=
  {| files := files w;
     write_protected := write_protected w;
     console := console w;
     outbox := outbox w ++ [r];
     listening := listening w |}.

(** [app.listen(port, host, ...)] *)
Definition listen (port : value) (host : string) (w : world) : world :=
  {| files := files w;
     write_protected := write_protected w;
     console := console w;
     outbox := outbox w;
     listening := Some (port, host) |}.

(** [path.join(__dirname, name)] for the directory of a script. *)
Definition path_join (dirname name : string) : string :=
  if decide (dirname = "/") then "/" +:+ name else dirname +:+ "/" +:+ name.

(** ** The printer's view of a document *)

(** A printer walks the elements of an array and the properties of an
    object: a named property attached to an array is not printed. *)
Fixpoint strip_extra (v : value) : value :=
  match v with
  | VArray elems _ => VArray (strip_extra <$> elems) []
  | VObject props => VObject (prod_map id strip_extra <$> props)
  | _ => v
  end.

(** ** The interface of js-yaml *)

(** [load] returns [undefined] for an empty document and otherwise
    a plain value; [dump] does not look at named properties of arrays;
    what [dump] prints of a plain value, [load] reads back.

    The last law is assumed of every [loaded] value.  This is more
    than the library is ever asked: an object of the model is an
    association list, and a list such as [("b", _); ("0", _)] is the
    keys of no JavaScript object, which has its array indices first.
    The program gets its documents from [load] and adds the keys
    [static_configs] and [targets] only, at the end, where JavaScript
    puts them. *)
Class Yaml : Type := {
  load : string → js value;
  dump : value → js string;
  load_empty : load "" = Ok VUndefined;
  load_plain v s : load s = Ok v → v = VUndefined ∨ loaded v = true;
  dump_strip_extra v : dump v = dump (strip_extra v);
  dump_load v : loaded v = true → ∃ s, dump v = Ok s ∧ load s = Ok v
}.

(** ** A reference codec *)

#[export] Instance number_countable : Countable number.
Proof.
  refine (inj_countable' (λ n, match n with NaN => None | Int z => Some z end)
            (λ o, match o with None => NaN | Some z => Int z end) _).
  by intros [].
Defined.

Definition value_enc : value → gen_tree (bool + number + string) :=
  fix go v :=
    let props l :=
      (λ kv : string * value, GenNode 0 [GenLeaf (inr kv.1); go kv.2]) <$> l in
    match v with
    | VUndefined => GenNode 0 []
    | VNull => GenNode 1 []
    | VBool b => GenLeaf (inl (inl b))
    | VNumber n => GenLeaf (inl (inr n))
    | VString s => GenLeaf (inr s)
    | VArray xs ex => GenNode 2 [GenNode 0 (go <$> xs); GenNode 0 (props ex)]
    | VObject ps => GenNode 3 (props ps)
    end.

Definition value_dec : gen_tree (bool + number + string) → value :=
  fix go t :=
    let prop t :=
      match t with
      | GenNode 0 [GenLeaf (inr k); x] => (k, go x)
      | _ => ("", VUndefined)
      end in
    match t with
    | GenNode 0 [] => VUndefined
    | GenNode 1 [] => VNull
    | GenLeaf (inl (inl b)) => VBool b
    | GenLeaf (inl (inr n)) => VNumber n
    | GenLeaf (inr s) => VString s
    | GenNode 2 [GenNode 0 xs; GenNode 0 ex] => VArray (go <$> xs) (prop <$> ex)
    | GenNode 3 ps => VObject (prop <$> ps)
    | _ => VUndefined
    end.

Lemma value_dec_enc v : value_dec (value_enc v) = v.
Proof.
  induction v as [| | | | |xs ex IHxs IHex|ps IHps] using value_ind'; try done.
  - simpl. f_equal.
    + rewrite <- list_fmap_compose. rewrite <- (list_fmap_id xs) at 2.
      apply Forall_fmap_ext_1. eapply Forall_impl; [exact IHxs|]. done.
    + rewrite <- list_fmap_compose. rewrite <- (list_fmap_id ex) at 2.
      apply Forall_fmap_ext_1. eapply Forall_impl; [exact IHex|].
      intros [k x] Hx. simpl in *. by rewrite Hx.
  - simpl. f_equal.
    rewrite <- list_fmap_compose. rewrite <- (list_fmap_id ps) at 2.
    apply Forall_fmap_ext_1. eapply Forall_impl; [exact IHps|].
    intros [k x] Hx. simpl in *. by rewrite Hx.
Qed.

#[export] Instance value_countable : Countable value.
Proof. exact (inj_countable' value_enc value_dec value_dec_enc). Defined.

(** A positive number as its binary digits, lowest first, and back. *)
Fixpoint bits (p : positive) : string :=
  match p with
  | xH => ""
  | xO p' => String "0"%char (bits p')
  | xI p' => String "1"%char (bits p')
  end.

Fixpoint unbits (s : string) : option positive :=
  match s with
  | "" => Some xH
  | String c s' =>
      if decide (c = "0"%char) then xO <$> unbits s'
      else if decide (c = "1"%char) then xI <$> unbits s'
      else None
  end.

Definition ref_load (s : string) : js value :=
  match s with
  | "" => Ok VUndefined
  | String _ s' =>
      match unbits s' ≫= decode with
      | Some v => if loaded v then Ok v else Throw (YAMLException "not a plain document")
      | None => Throw (YAMLException "unreadable")
      end
  end.

Definition ref_print (v : value) : string :=
  String "y"%char (bits (encode (strip_extra v))).

Definition ref_dump (v : value) : js string := Ok (ref_print v).

(** ** Lemmas *)

Lemma writeFileSync_Ok path data w w' :
  writeFileSync path data w = Ok w' ↔
  (path ∉ write_protected w) ∧
  w' = {| files := <[path := data]> (files w); write_protected := write_protected w;
          console := console w; outbox := outbox w; listening := listening w |}.
Proof. unfold writeFileSync. case_decide; naive_solver. Qed.

Lemma writeFileSync_Throw path data w e :
  writeFileSync path data w = Throw e ↔
  (path ∈ write_protected w) ∧ e = SystemError "EACCES".
Proof. unfold writeFileSync. case_decide; naive_solver. Qed.

(** [writeFileSync] is its two system calls one after the other. *)
Lemma writeFileSync_calls path data w :
  writeFileSync path data w = (let* w' := openSync_w path w in Ok (writeSync path data w')).
Proof.
  unfold writeFileSync, openSync_w, writeSync. case_decide; [done|]. simpl.
  by rewrite insert_insert_eq.
Qed.

Lemma unbits_bits p : unbits (bits p) = Some p.
Proof. induction p as [p IH|p IH|]; simpl; by rewrite ?IH. Qed.

Lemma strip_extra_loaded v : loaded v = true → strip_extra v = v.
Proof.
  induction v as [| | | | |xs ex IHxs _|ps IHps] using value_ind'; try done.
  - intros [Hall ->]%loaded_array. simpl. f_equal.
    rewrite <- (list_fmap_id xs) at 2. apply Forall_fmap_ext_1, Forall_forall.
    rewrite Forall_forall in IHxs, Hall. intros x Hx. by apply IHxs, Hall.
  - intros [Hall _]%loaded_object. simpl. f_equal.
    rewrite <- (list_fmap_id ps) at 2. apply Forall_fmap_ext_1, Forall_forall.
    rewrite Forall_forall in IHps, Hall. intros [k x] Hx.
    pose proof (IHps _ Hx (Hall _ Hx)) as Hs. unfold prod_map. simpl in *. by rewrite Hs.
Qed.

Lemma strip_extra_idemp v : strip_extra (strip_extra v) = strip_extra v.
Proof.
  induction v as [| | | | |xs ex IHxs _|ps IHps] using value_ind'; try done.
  - simpl. f_equal. rewrite <- list_fmap_compose. apply Forall_fmap_ext_1.
    eapply Forall_impl; [exact IHxs|]. done.
  - simpl. f_equal. rewrite <- list_fmap_compose. apply Forall_fmap_ext_1.
    eapply Forall_impl; [exact IHps|].
    intros [k x] Hx. unfold prod_map. simpl in *. by rewrite Hx.
Qed.

Lemma fmap_assoc_set (f : value → value) k x (props : list (string * value)) :
  prod_map id f <$> assoc_set k x props = assoc_set k (f x) (prod_map id f <$> props).
Proof.
  induction props as [|[k' y] props IH]; [done|]. simpl.
  case_decide; simpl; [done|]. f_equal. apply IH.
Qed.

(** A named property put on a list is lost on the printer: replacing
    a child by something that prints as the child did gives a document
    that prints as before. *)
Lemma strip_extra_with_prop v k y x :
  loaded v = true → child v k = Some y → strip_extra x = y →
  strip_extra (with_prop v k x) = v.
Proof.
  intros Hl Hy Hx. pose proof (strip_extra_loaded v Hl) as Hv.
  destruct v as [| | | | |elems extra|props]; try done.
  - apply loaded_array in Hl as [_ ->]. revert Hy. cbn [child with_prop strip_extra] in *.
    case_decide; [done|]. destruct (array_index k) as [i|]; [|done]. intros Hy.
    injection Hv as Hv. cbn [strip_extra]. by rewrite list_fmap_insert, Hv, Hx, list_insert_id.
  - cbn [child with_prop strip_extra] in *. injection Hv as Hv.
    by rewrite fmap_assoc_set, Hv, Hx, assoc_set_id.
Qed.

Lemma strip_extra_replace_path v p y x :
  loaded v = true → child_path v p = Some y → strip_extra x = y →
  strip_extra (replace_path v p x) = v.
Proof.
  revert v. induction p as [|k p IH]; intros v Hl; simpl; [by intros [= <-]|].
  destruct (child v k) as [vk|] eqn:Hk; simpl; [|done]. intros Hy Hx.
  apply (strip_extra_with_prop v k vk); [done..|]. apply IH; [|done..].
  by apply (loaded_child v k).
Qed.

Lemma ref_load_dump v s : loaded v = true → ref_dump v = Ok s → ref_load s = Ok v.
Proof.
  intros Hv [= <-]. simpl. rewrite unbits_bits. simpl.
  rewrite decode_encode, strip_extra_loaded by done. by rewrite Hv.
Qed.

Lemma ref_load_plain v s : ref_load s = Ok v → v = VUndefined ∨ loaded v = true.
Proof.
  destruct s as [|c s]; simpl; [by intros [= <-]; left|].
  destruct (unbits s ≫= decode) as [x|]; [|done].
  destruct (loaded x) eqn:Hx; [|done]. intros [= <-]. by right.
Qed.

Lemma ref_dump_strip_extra v : ref_dump v = ref_dump (strip_extra v).
Proof. unfold ref_dump, ref_print. by rewrite strip_extra_idemp. Qed.

(** The reference codec implements the interface. *)
#[export] Instance RefCodec : Yaml := {|
  load := ref_load;
  dump := ref_dump;
  load_empty := eq_refl;
  load_plain := ref_load_plain;
  dump_strip_extra := ref_dump_strip_extra;
  dump_load v Hv := ex_intro _ _ (conj eq_refl (ref_load_dump v _ Hv eq_refl))
|}.
