(* ===== verification/Registration.v ===== *)
(** * Registration: [updatePrometheusYML] as a whole, and the start of
    the process

    [updatePrometheusYML] (index.js 113-162) reads and parses the
    configuration file, edits the document ([registerTarget] of
    ConfigMutator, lines 122-145), prints it back over the file and
    sends the reload request.  It is a function from worlds to
    completions: [Ok w'] is a normal return in world [w'], [Throw e] an
    exception that nothing catches; the world is then as it was, since
    every statement that can throw outside a [try] stands before the
    first effect.

    [main] (lines 90, 105-108, 164 and 234-236) is the module body: it
    resolves the address, registers and starts listening.  What happens
    later, when the reply to the reload request arrives and when the
    socket is bound, is the step relation [step]. *)

From stdpp Require Import base strings pretty numbers gmap option list.
From S2P Require Import Prelude JsValue AddressResolver ConfigMutator World.

Local Open Scope string_scope.
Local Open Scope nat_scope.
Local Open Scope list_scope.

(** ** Data *)

(** What the process is started with: its environment, the network
    interfaces of the machine and the directory of the script. *)
Record host : Type := {
  env : gmap string string;
  nets : list (string * list NetworkInterfaceInfo);
  dirname : string
}.

(** What comes back for the reload request: a response with its status
    code, or an [error] event. *)
Inductive reply : Type :=
| Response (statusCode : Z)
| Failed (err : exn).

(** What the event loop still owes the program after [main]. *)
Inductive event : Type :=
| Listening
| Reply (r : reply).

#[export] Instance reply_eq_dec : EqDecision reply.
Proof. solve_decision. Defined.

#[export] Instance event_eq_dec : EqDecision event.
Proof. solve_decision. Defined.

(** A process after [main]: the world as it is now, how many of the
    requests it sent have had their reply, whether the callback of
    [app.listen] is still to run, and the exception that ended it, if
    one did. *)
Record process : Type := {
  now : world;
  answered : nat;
  listening_pending : bool;
  crashed : option exn
}.

(** ** Operations *)

Definition reloadUrl : string := "http://localhost:9090/-/reload".

Definition prometheusConfigPath (dir : string) : string :=
  path_join dir "prometheus.yml".

(** The callbacks of lines 155-160. *)
Definition on_reply (r : reply) (w : world) : world :=
  match r with
  | Response statusCode =>
      console_log
        [Str ("Prometheus reload triggered, status code: " +:+ pretty statusCode)] w
  | Failed err => console_error [Str "Error triggering Prometheus reload:"; Err err] w
  end.

(** Lines 154-161. *)
Definition trigger_reload (w : world) : world :=
  request_end {| url := reloadUrl; method := "POST" |} w.

(** The message of line 142 or of line 144. *)
Definition added_message (added : bool) (target : string) : list log_arg :=
  [Str (if added then "Added target to Prometheus config:"
        else "Target already exists in Prometheus config:");
   Str target].

Section registration.
Context `{Yaml}.
Variable path : string.
Variable target : string.

(** Line 116. *)
Definition read_config (w : world) : js value :=
  let* text := readFileSync path w in
  load text.

(** Lines 147-152. *)
Definition write_config (config : value) (w : world) : world :=
  match (let* text := dump config in writeFileSync path text w) with
  | Ok w' => console_log [Str "Prometheus config updated."] w'
  | Throw err => console_error [Str "Error writing Prometheus config:"; Err err] w
  end.

Definition updatePrometheusYML (w : world) : js world :=
  match read_config w with
  | Throw err => Ok (console_error [Str "Error reading Prometheus config:"; Err err] w)
  | Ok config =>
      let* m := registerTarget target config in
      match m with
      | NoScrapeConfigs =>
          Ok (console_error [Str "No scrape_configs found in Prometheus config."] w)
      | JobNotFound =>
          Ok (console_error [Str "Job 'prometheus' not found in Prometheus config."] w)
      | Mutated added config' =>
          Ok (trigger_reload
                (write_config config' (console_log (added_message added target) w)))
      end
  end.

End registration.

(** The callback of [app.listen], line 235. *)
Definition started_message (externalIP : string) (port : value) : list log_arg :=
  [Str ("Express Server Started at http://" +:+ externalIP +:+ ":" +:+ ToString port)].

(** The module body.  An exception of [updatePrometheusYML] ends the
    process before [app.listen] is reached.  What lies between the two
    (lines 166-232) is taken to return without an exception, and
    [app.listen] to open the socket. *)
Definition main `{Yaml} (h : host) (w : world) : process :=
  let port := PORT (env h) in
  let externalIP := getExternalIPv4 (nets h) in
  let target := targetAddress externalIP port in
  let w1 := console_log [Str "Detected target address:"; Str target] w in
  match updatePrometheusYML (prometheusConfigPath (dirname h)) target w1 with
  | Throw e =>
      {| now := w1; answered := length (outbox w); listening_pending := false;
         crashed := Some e |}
  | Ok w2 =>
      {| now := listen port HOST w2;
         answered := length (outbox w);
         listening_pending := true;
         crashed := None |}
  end.

(** One turn of the event loop after [main]. *)
Definition deliver (h : host) (ev : event) (p : process) : option process :=
  match crashed p, ev with
  | Some _, _ => None
  | None, Listening =>
      if listening_pending p then
        Some {| now := console_log
                         (started_message (getExternalIPv4 (nets h)) (PORT (env h))) (now p);
                answered := answered p;
                listening_pending := false;
                crashed := None |}
      else None
  | None, Reply r =>
      if decide (answered p < length (outbox (now p))) then
        Some {| now := on_reply r (now p);
                answered := S (answered p);
                listening_pending := listening_pending p;
                crashed := None |}
      else None
  end.

Inductive step (h : host) : process → event → process → Prop :=
| StepListening p :
    crashed p = None → listening_pending p = true →
    step h p Listening
      {| now := console_log
                  (started_message (getExternalIPv4 (nets h)) (PORT (env h))) (now p);
         answered := answered p;
         listening_pending := false;
         crashed := None |}
| StepReply p r :
    crashed p = None → answered p < length (outbox (now p)) →
    step h p (Reply r)
      {| now := on_reply r (now p);
         answered := S (answered p);
         listening_pending := listening_pending p;
         crashed := None |}.

(** The processes the event loop can reach from [p], with the events
    that led there. *)
Definition steps (h : host) : process → list event → process → Prop :=
  star (step h).

(** The event loop run on a list of events, first event first. *)
Definition run (h : host) : list event → process → option process :=
  exec (deliver h).

(** How many replies, and how many [listening] events, a sequence of
    events holds. *)
Definition replies (evs : list event) : nat :=
  length (filter (λ ev, ev ≠ Listening) evs).

Definition bindings (evs : list event) : nat :=
  length (filter (λ ev, ev = Listening) evs).

(** ** The outcomes of registration, as a relation

    [registered path target w w'] lists the four ways in which
    [updatePrometheusYML] returns, each with what it has done to the
    world. *)
Inductive registered `{Yaml} (path target : string) (w : world) : world → Prop :=
| Unreadable err :
    read_config path w = Throw err →
    registered path target w
      (console_error [Str "Error reading Prometheus config:"; Err err] w)
| WithoutScrapeConfigs c :
    read_config path w = Ok c → registerTarget target c = Ok NoScrapeConfigs →
    registered path target w
      (console_error [Str "No scrape_configs found in Prometheus config."] w)
| WithoutJob c :
    read_config path w = Ok c → registerTarget target c = Ok JobNotFound →
    registered path target w
      (console_error [Str "Job 'prometheus' not found in Prometheus config."] w)
| Edited c added c' :
    read_config path w = Ok c → registerTarget target c = Ok (Mutated added c') →
    registered path target w
      (trigger_reload
         (write_config path c' (console_log (added_message added target) w))).

(** The document was read and a job to edit was found in it. *)
Definition edited `{Yaml} (path target : string) (w : world) : Prop :=
  ∃ c added c', read_config path w = Ok c ∧
    registerTarget target c = Ok (Mutated added c').

(** ** Example worlds *)

Definition app_host : host := {| env := ∅; nets := host_nets; dirname := "/app" |}.

(** A machine whose configuration file holds [text]. *)
Definition disk (text : string) : world :=
  {| files := {[ "/app/prometheus.yml" := text ]};
     write_protected := ∅;
     console := [];
     outbox := [];
     listening := None |}.

(** The same with the file protected against writing. *)
Definition protected_disk (text : string) : world :=
  {| files := {[ "/app/prometheus.yml" := text ]};
     write_protected := {[ "/app/prometheus.yml" ]};
     console := [];
     outbox := [];
     listening := None |}.

(** A machine without the file. *)
Definition empty_disk : world :=
  {| files := ∅; write_protected := ∅; console := []; outbox := []; listening := None |}.

(** A document whose only job is another one. *)
Definition node_only : value :=
  VObject [("scrape_configs", VArray [VObject [("job_name", VString "node")]] [])].

(** The process started on a machine whose file holds [doc3], after
    the reply to its reload request and the [listening] event. *)
Definition served : option process :=
  run app_host [Reply (Response 200); Listening]
    (main app_host (disk (ref_print doc3))).

(** ** Lemmas: effects of the parts *)

Section registration_lemmas.
Context `{Yaml}.
Variable path : string.
Variable target : string.

(** Printing the document changes no other file, sends nothing and
    prints one line. *)
Lemma write_config_frame c w :
  (∀ p, p ≠ path → files (write_config path c w) !! p = files w !! p) ∧
  write_protected (write_config path c w) = write_protected w ∧
  outbox (write_config path c w) = outbox w ∧
  listening (write_config path c w) = listening w ∧
  ∃ line, console (write_config path c w) = console w ++ [line].
Proof.
  unfold write_config. destruct (result_bind _ _) as [w'|e] eqn:Hw; simpl.
  - inv_result. apply writeFileSync_Ok in Hw as [_ ->]. simpl.
    split_and!; [|done..|by eexists]. intros p Hp. by rewrite lookup_insert_ne.
  - split_and!; [done..|by eexists].
Qed.

Lemma write_config_Ok c s w :
  dump c = Ok s → path ∉ write_protected w →
  files (write_config path c w) = <[path := s]> (files w) ∧
  console (write_config path c w) =
    console w ++ [{| to := Stdout; args := [Str "Prometheus config updated."] |}].
Proof.
  intros Hs Hp. unfold write_config. rewrite Hs. cbn [result_bind].
  unfold writeFileSync. by rewrite decide_False.
Qed.

Lemma write_config_protected c w :
  path ∈ write_protected w →
  files (write_config path c w) = files w ∧
  ∃ e, console (write_config path c w) =
    console w ++ [{| to := Stderr; args := [Str "Error writing Prometheus config:"; Err e] |}].
Proof.
  intros Hp. unfold write_config. destruct (dump c) as [s|e]; cbn [result_bind].
  - unfold writeFileSync. rewrite decide_True by done. by eauto.
  - by eauto.
Qed.

End registration_lemmas.

(** ** Lemmas: reading *)

Section update_lemmas.
Context `{Yaml}.
Variable path : string.
Variable target : string.

(** Reading looks at the configuration file only. *)
Lemma read_config_frame w1 w2 :
  files w1 !! path = files w2 !! path → read_config path w1 = read_config path w2.
Proof. unfold read_config, readFileSync. by intros ->. Qed.

Lemma read_config_Ok w c :
  read_config path w = Ok c ↔ ∃ text, files w !! path = Some text ∧ load text = Ok c.
Proof.
  unfold read_config, readFileSync. rewrite result_bind_Ok.
  destruct (files w !! path) as [text|]; naive_solver.
Qed.

Lemma read_config_Throw w e :
  read_config path w = Throw e ↔
  (files w !! path = None ∧ e = SystemError "ENOENT") ∨
  (∃ text, files w !! path = Some text ∧ load text = Throw e).
Proof.
  unfold read_config, readFileSync. rewrite result_bind_Throw.
  destruct (files w !! path) as [text|]; naive_solver.
Qed.

Lemma read_config_plain w c :
  read_config path w = Ok c → c = VUndefined ∨ loaded c = true.
Proof. intros (text & _ & Hl)%read_config_Ok. by eapply load_plain. Qed.

(** A document that can be edited was read as a plain document. *)
Lemma read_config_edited w c a c' :
  read_config path w = Ok c → registerTarget target c = Ok (Mutated a c') →
  loaded c = true.
Proof. intros [->|Hl]%read_config_plain; [done|by intros _]. Qed.

(** What was printed over the file is read back. *)
Lemma read_config_write_config c w :
  loaded c = true → path ∉ write_protected w →
  read_config path (write_config path c w) = Ok c.
Proof.
  intros Hl Hp. destruct (dump_load c Hl) as (s & Hs & Hload).
  apply read_config_Ok. exists s. split; [|done].
  destruct (write_config_Ok path c s w Hs Hp) as [-> _]. by rewrite lookup_insert_eq.
Qed.

(** When the first group of the job is itself a list, the address
    goes to a named property of that list, which the printer does not
    see: the address counts as added, and the document prints as it
    did before. *)
Lemma edit_at_list_group c a c' i :
  edit_at target c i a c' → loaded c = true →
  isArray (get_path c' (group_path i)) = true →
  a = true ∧ strip_extra c' = c.
Proof.
  intros [elems extra job g Hscs Hfind Hg Hc -> ->] Hl.
  rewrite (child_path_get_path _ _ _ (edited_group target c i elems extra job g Hscs Hfind Hg)).
  intros Harr. destruct g as [| | | | |ge gx|]; try done.
  destruct (no_groups (get_path c (groups_path i))) eqn:Hng.
  { revert Hg. unfold groups_of, groups_after.
    rewrite <- (edited_old_groups c i elems extra job) by done. by rewrite Hng. }
  pose proof (edited_group_path c i elems extra job _ Hscs Hfind Hg Hng) as Hgp.
  pose proof (loaded_child_path c _ _ Hl Hgp) as Hlg.
  pose proof (strip_extra_loaded _ Hlg) as Hs. apply loaded_array in Hlg as [_ ->].
  split; [done|].
  rewrite (edited_targets_path target c i elems extra job _ Hscs Hfind Hg Hng).
  unfold targets_path. rewrite replace_path_app, Hgp.
  by apply (strip_extra_replace_path c _ (VArray ge [])).
Qed.

(** ** Lemmas: the function and the relation *)

Lemma updatePrometheusYML_registered w w' :
  updatePrometheusYML path target w = Ok w' ↔ registered path target w w'.
Proof.
  unfold updatePrometheusYML. split.
  - destruct (read_config path w) as [c|err] eqn:Hread.
    + intros ([| |a c'] & Hreg & [= <-])%result_bind_Ok; by econstructor.
    + intros [= <-]. by constructor.
  - intros [err Hread|c Hread Hreg|c Hread Hreg|c a c' Hread Hreg];
      rewrite Hread; [done|by rewrite Hreg..].
Qed.

Lemma updatePrometheusYML_Throw w e :
  updatePrometheusYML path target w = Throw e ↔
  ∃ c, read_config path w = Ok c ∧ registerTarget target c = Throw e.
Proof.
  unfold updatePrometheusYML. destruct (read_config path w) as [c|err]; split.
  - intros [Hreg|([| |a c'] & _ & [=])]%result_bind_Throw. by exists c.
  - intros (? & [= <-] & ->). done.
  - done.
  - by intros (? & [=] & _).
Qed.

(** An edit whose printing and writing succeed: the file holds the
    printed document, two lines are printed and the reload request is
    sent. *)
Lemma updatePrometheusYML_edited w c a c' s :
  read_config path w = Ok c → registerTarget target c = Ok (Mutated a c') →
  dump c' = Ok s → path ∉ write_protected w →
  ∃ w', updatePrometheusYML path target w = Ok w' ∧
    files w' = <[path := s]> (files w) ∧
    write_protected w' = write_protected w ∧
    console w' = console w ++
      [{| to := Stdout; args := added_message a target |};
       {| to := Stdout; args := [Str "Prometheus config updated."] |}] ∧
    outbox w' = outbox w ++ [{| url := reloadUrl; method := "POST" |}].
Proof.
  intros Hread Hreg Hs Hp. eexists. split.
  { apply updatePrometheusYML_registered. by eapply Edited. }
  set (w1 := console_log (added_message a target) w).
  destruct (write_config_Ok path c' s w1 Hs Hp) as [Hf Hc].
  destruct (write_config_frame path c' w1) as (_ & Hwp & Ho & _).
  simpl. rewrite Hf, Hwp, Hc, Ho. simpl. by rewrite <- app_assoc.
Qed.

(** The same when the file cannot be written: it is as before, the
    failure is printed, and the reload request is sent all the same. *)
Lemma updatePrometheusYML_not_written w c a c' :
  read_config path w = Ok c → registerTarget target c = Ok (Mutated a c') →
  path ∈ write_protected w →
  ∃ w' e, updatePrometheusYML path target w = Ok w' ∧
    files w' = files w ∧
    console w' = console w ++
      [{| to := Stdout; args := added_message a target |};
       {| to := Stderr; args := [Str "Error writing Prometheus config:"; Err e] |}] ∧
    outbox w' = outbox w ++ [{| url := reloadUrl; method := "POST" |}].
Proof.
  intros Hread Hreg Hp.
  set (w1 := console_log (added_message a target) w).
  destruct (write_config_protected path c' w1 Hp) as (Hf & e & Hc).
  destruct (write_config_frame path c' w1) as (_ & _ & Ho & _).
  eexists _, e. split.
  { apply updatePrometheusYML_registered. by eapply Edited. }
  simpl. fold w1. rewrite Hf, Hc, Ho. simpl. by rewrite <- app_assoc.
Qed.

(** Whatever the outcome, no other file is touched, no path becomes
    writable or protected and the socket is as before. *)
Lemma registered_frame w w' :
  registered path target w w' →
  (∀ p, p ≠ path → files w' !! p = files w !! p) ∧
  write_protected w' = write_protected w ∧ listening w' = listening w.
Proof.
  intros [err _|c _ _|c _ _|c a c' _ _]; simpl; [done..|].
  destruct (write_config_frame path c' (console_log (added_message a target) w))
    as (Hf & Hp & _ & Hl & _). done.
Qed.

(** The requests sent: one, the reload request, when the document was
    edited; none otherwise, and then no file is written either. *)
Lemma registered_outbox w w' :
  registered path target w w' →
  (edited path target w ∧
   outbox w' = outbox w ++ [{| url := reloadUrl; method := "POST" |}]) ∨
  (¬ edited path target w ∧ outbox w' = outbox w ∧ files w' = files w).
Proof.
  intros [err Hread|c Hread Hreg|c Hread Hreg|c a c' Hread Hreg]; simpl.
  1-3: right; split; [|done]; intros (c0 & a0 & c0' & Hread0 & Hreg0); congruence.
  left. split; [by exists c, a, c'|].
  destruct (write_config_frame path c' (console_log (added_message a target) w))
    as (_ & _ & -> & _). done.
Qed.

End update_lemmas.

(** ** Lemmas: the module body and the event loop *)

Section process_lemmas.
Context `{Yaml}.
Variable h : host.

Lemma main_crashed w e :
  crashed (main h w) = Some e ↔
  updatePrometheusYML (prometheusConfigPath (dirname h))
    (targetAddress (getExternalIPv4 (nets h)) (PORT (env h)))
    (console_log [Str "Detected target address:";
                  Str (targetAddress (getExternalIPv4 (nets h)) (PORT (env h)))] w)
  = Throw e.
Proof. unfold main. destruct (updatePrometheusYML _ _ _); simpl; naive_solver. Qed.

Lemma main_listening w :
  listening (now (main h w)) =
  match crashed (main h w) with
  | None => Some (PORT (env h), HOST)
  | Some _ => listening w
  end.
Proof. unfold main. by destruct (updatePrometheusYML _ _ _). Qed.

(** After the module body at most one reply is owed. *)
Lemma main_outbox w :
  answered (main h w) ≤ length (outbox (now (main h w))) ≤ S (answered (main h w)).
Proof.
  unfold main. destruct (updatePrometheusYML _ _ _) as [w2|e] eqn:Hupd; simpl; [|lia].
  apply updatePrometheusYML_registered, registered_outbox in Hupd
    as [[_ ->]|(_ & -> & _)]; simpl; rewrite ?length_app; simpl; lia.
Qed.

Lemma step_deliver p ev q : step h p ev q ↔ deliver h ev p = Some q.
Proof.
  split.
  - intros [p' Hc Hl|p' r Hc Hlt]; unfold deliver; rewrite Hc.
    + by rewrite Hl.
    + by rewrite decide_True.
  - unfold deliver. destruct (crashed p) eqn:Hc; [done|]. destruct ev as [|r].
    + destruct (listening_pending p) eqn:Hl; [|done]. intros [= <-]. by constructor.
    + case_decide; [|done]. intros [= <-]. by constructor.
Qed.

(** A turn of the event loop prints one line and does nothing else to
    the world. *)
Lemma step_frame p ev q :
  step h p ev q →
  files (now q) = files (now p) ∧ outbox (now q) = outbox (now p) ∧
  listening (now q) = listening (now p) ∧ crashed q = None ∧
  length (console (now q)) = S (length (console (now p))).
Proof.
  intros [p' _ _|p' [code|err] _ _]; simpl; rewrite length_app; simpl;
    split_and!; (done || lia).
Qed.

(** The counters of a turn: a reply is counted, and was owed; the
    [listening] event comes while it is awaited and ends the wait. *)
Lemma step_counts p ev q :
  step h p ev q →
  answered q = answered p + replies [ev] ∧
  (answered p ≤ length (outbox (now p)) → answered q ≤ length (outbox (now q))) ∧
  (if listening_pending p then 1 else 0) =
    bindings [ev] + (if listening_pending q then 1 else 0).
Proof.
  intros [p' _ Hl|p' r _ Hlt]; unfold replies, bindings; simpl.
  - rewrite Hl. split_and!; [lia|done|done].
  - split_and!; [lia|by destruct r|done].
Qed.

Lemma replies_snoc evs ev : replies (evs ++ [ev]) = replies evs + replies [ev].
Proof. unfold replies. by rewrite filter_app, length_app. Qed.

Lemma bindings_snoc evs ev : bindings (evs ++ [ev]) = bindings evs + bindings [ev].
Proof. unfold bindings. by rewrite filter_app, length_app. Qed.

(** By induction on the turns: the event loop writes no file, sends
    nothing and leaves the socket alone; it prints one line a turn. *)
Lemma steps_frame p evs q :
  steps h p evs q →
  files (now q) = files (now p) ∧ outbox (now q) = outbox (now p) ∧
  listening (now q) = listening (now p) ∧
  length (console (now q)) = length (console (now p)) + length evs.
Proof.
  induction 1 as [|p evs q ev r _ (IHf & IHo & IHl & IHc) Hstep]; [simpl; auto with lia|].
  apply step_frame in Hstep as (-> & -> & -> & _ & ->).
  rewrite length_app. simpl. auto with lia.
Qed.

(** By induction on the turns: every reply delivered was owed, and the
    [listening] event is delivered at most once. *)
Lemma steps_counts p evs q :
  steps h p evs q → answered p ≤ length (outbox (now p)) →
  answered q = answered p + replies evs ∧
  answered q ≤ length (outbox (now q)) ∧
  (if listening_pending p then 1 else 0) =
    bindings evs + (if listening_pending q then 1 else 0).
Proof.
  intros Hsteps Hp.
  induction Hsteps as [|p evs q ev r _ IH Hstep]; [simpl; auto with lia|].
  destruct (IH Hp) as (IHa & IHle & IHb).
  apply step_counts in Hstep as (-> & Hle & Hb).
  rewrite replies_snoc, bindings_snoc. split_and!; [lia|auto|lia].
Qed.

(** The executable event loop and the relation agree. *)
Lemma run_steps evs p q : run h evs p = Some q ↔ steps h p evs q.
Proof. apply exec_star, step_deliver. Qed.

(** The module body on a document that is [null] or [undefined]. *)
Lemma main_nullish w c :
  read_config (prometheusConfigPath (dirname h)) w = Ok c → nullish c = true →
  main h w =
    {| now := console_log
                [Str "Detected target address:";
                 Str (targetAddress (getExternalIPv4 (nets h)) (PORT (env h)))] w;
       answered := length (outbox w);
       listening_pending := false;
       crashed := Some (TypeError Reading c "scrape_configs") |}.
Proof.
  intros Hread Hn. unfold main, updatePrometheusYML.
  rewrite (read_config_frame _ _ w), Hread by done.
  unfold registerTarget. by destruct c.
Qed.

End process_lemmas.

(** * Theorems *)

Section registration_theorems.
Context `{Yaml}.
Variable path : string.
Variable target : string.

(** Refinement: [updatePrometheusYML] returns in world [w']
    exactly when the relation [registered] holds, that is, in one of
    the four listed ways; it throws exactly when the document was read
    and the edit of it throws. *)
Theorem updatePrometheusYML_outcomes w :
  (∀ w', updatePrometheusYML path target w = Ok w' ↔ registered path target w w') ∧
  (∀ e, updatePrometheusYML path target w = Throw e ↔
        ∃ c, read_config path w = Ok c ∧ registerTarget target c = Throw e).
Proof.
  split; [intros w'; apply updatePrometheusYML_registered|].
  intros e. apply updatePrometheusYML_Throw.
Qed.

(** [C4] Round trip through the file: when the document read from
    the file is edited and the file can be written, then reading the
    file afterwards gives the edited document (the first group of the
    job not being a list). *)
Theorem updatePrometheusYML_round_trip w c a c' i :
  read_config path w = Ok c → registerTarget target c = Ok (Mutated a c') →
  job_index c = Some i → isArray (get_path c' (group_path i)) = false →
  path ∉ write_protected w →
  ∃ w', updatePrometheusYML path target w = Ok w' ∧ read_config path w' = Ok c'.
Proof.
  intros Hread Hreg Hi Harr Hp. eexists. split.
  { apply updatePrometheusYML_registered. by eapply Edited. }
  rewrite <- (read_config_write_config path c' (console_log (added_message a target) w)).
  - by apply read_config_frame.
  - eapply edit_at_loaded; eauto using read_config_edited, registerTarget_edit_at.
  - done.
Qed.

(** [C5] Idempotence across runs: when the first run edits the
    document, the first group of the job is not itself a list and the
    file can be written, a second run on the world the first left
    finds the address listed, prints the same text over the file, and
    reports that the target already exists. *)
Theorem updatePrometheusYML_twice w c a c' i :
  read_config path w = Ok c → registerTarget target c = Ok (Mutated a c') →
  job_index c = Some i → isArray (get_path c' (group_path i)) = false →
  path ∉ write_protected w →
  ∃ w1 w2, updatePrometheusYML path target w = Ok w1 ∧
    updatePrometheusYML path target w1 = Ok w2 ∧
    files w2 = files w1 ∧
    console w2 = console w1 ++
      [{| to := Stdout; args := added_message false target |};
       {| to := Stdout; args := [Str "Prometheus config updated."] |}].
Proof.
  intros Hread Hreg Hi Harr Hp.
  assert (loaded c' = true) as Hl.
  { eapply edit_at_loaded; eauto using read_config_edited, registerTarget_edit_at. }
  destruct (dump_load c' Hl) as (s & Hs & Hload).
  destruct (updatePrometheusYML_edited path target w c a c' s) as (w1 & Hw1 & Hf1 & Hp1 & _);
    [done..|].
  destruct (updatePrometheusYML_edited path target w1 c' false c' s)
    as (w2 & Hw2 & Hf2 & _ & Hc2 & _); [| |done| |].
  - apply read_config_Ok. exists s. by rewrite Hf1, lookup_insert_eq.
  - apply registerTarget_Mutated in Hreg as [j Hed]. apply registerTarget_Mutated.
    exists j. by eapply edit_at_idempotent.
  - by rewrite Hp1.
  - exists w1, w2. by rewrite Hf2, Hf1, insert_insert_eq.
Qed.

(** [C13] Unreadable or malformed file: when the file is missing or
    the parser rejects its text, the function returns normally, no file
    is changed, nothing is sent, and one line goes to the error
    stream. *)
Theorem updatePrometheusYML_unreadable w err :
  read_config path w = Throw err →
  ∃ w', updatePrometheusYML path target w = Ok w' ∧
    files w' = files w ∧ outbox w' = outbox w ∧
    console w' = console w ++
      [{| to := Stderr; args := [Str "Error reading Prometheus config:"; Err err] |}].
Proof.
  intros Hread. eexists. split; [apply updatePrometheusYML_registered; by constructor|done].
Qed.

(** [C14] Missing job: when [scrape_configs] is a list without an
    entry named [prometheus], no file is changed, nothing is sent (the
    reload request neither), and the absence is reported. *)
Theorem updatePrometheusYML_missing_job w c elems extra :
  read_config path w = Ok c →
  get_prop c "scrape_configs" = Ok (VArray elems extra) →
  Forall (λ sc, is_job sc = Ok false) elems →
  ∃ w', updatePrometheusYML path target w = Ok w' ∧
    files w' = files w ∧ outbox w' = outbox w ∧
    console w' = console w ++
      [{| to := Stderr;
          args := [Str "Job 'prometheus' not found in Prometheus config."] |}].
Proof.
  intros Hread Hscs Hall. assert (registerTarget target c = Ok JobNotFound) as Hreg.
  { rewrite registerTarget_reference. apply reference_JobNotFound. eauto. }
  eexists. split; [apply updatePrometheusYML_registered; by eapply WithoutJob|done].
Qed.

(** Frame: whatever the outcome, every file other than the
    configuration file is as before, and so are the write protection
    and the socket. *)
Theorem updatePrometheusYML_frame w w' :
  updatePrometheusYML path target w = Ok w' →
  (∀ p, p ≠ path → files w' !! p = files w !! p) ∧
  write_protected w' = write_protected w ∧ listening w' = listening w.
Proof.
  intros Hupd. by apply (registered_frame path target), updatePrometheusYML_registered.
Qed.

(** One request at most: a run sends the reload request, once,
    when it read a document and found the job in it, and sends nothing
    and writes nothing otherwise. *)
Theorem updatePrometheusYML_one_request w w' :
  updatePrometheusYML path target w = Ok w' →
  (edited path target w ∧
   outbox w' = outbox w ++ [{| url := reloadUrl; method := "POST" |}]) ∨
  (¬ edited path target w ∧ outbox w' = outbox w ∧ files w' = files w).
Proof.
  intros Hupd. by apply (registered_outbox path target), updatePrometheusYML_registered.
Qed.

(** [C35] Failed write: when the file cannot be written, the file is
    as before and the failure is printed, but the reload request is
    sent all the same. *)
Theorem updatePrometheusYML_write_failure w c a c' :
  read_config path w = Ok c → registerTarget target c = Ok (Mutated a c') →
  path ∈ write_protected w →
  ∃ w', updatePrometheusYML path target w = Ok w' ∧ files w' = files w ∧
    outbox w' = outbox w ++ [{| url := reloadUrl; method := "POST" |}] ∧
    ∃ e, last (console w') =
      Some {| to := Stderr; args := [Str "Error writing Prometheus config:"; Err e] |}.
Proof.
  intros Hread Hreg Hp.
  destruct (updatePrometheusYML_not_written path target w c a c')
    as (w' & e & Hupd & Hf & Hc & Ho); [done..|].
  exists w'. split_and!; [done..|]. exists e. rewrite Hc.
  by rewrite (last_app_cons _ [_]).
Qed.

(** [C34] A first group that is a list: the address is attached to
    the list as a named property, which [yaml.dump] does not print.
    The run reports that it added the target and that it updated the
    file, and sends the reload request; the file, read again, holds
    the document as it was read, without the address.  The next start
    finds the same document and does the same. *)
Theorem updatePrometheusYML_list_group w c a c' i :
  read_config path w = Ok c → registerTarget target c = Ok (Mutated a c') →
  job_index c = Some i → isArray (get_path c' (group_path i)) = true →
  path ∉ write_protected w →
  ∃ w', updatePrometheusYML path target w = Ok w' ∧
    read_config path w' = Ok c ∧
    console w' = console w ++
      [{| to := Stdout; args := added_message true target |};
       {| to := Stdout; args := [Str "Prometheus config updated."] |}] ∧
    outbox w' = outbox w ++ [{| url := reloadUrl; method := "POST" |}].
Proof.
  intros Hread Hreg Hi Harr Hp.
  pose proof (read_config_edited path target w c a c' Hread Hreg) as Hl.
  destruct (edit_at_list_group target c a c' i) as [-> Hs];
    [by eapply registerTarget_edit_at|done..|].
  destruct (dump_load c Hl) as (s & Hdump & Hload).
  rewrite <- Hs, <- dump_strip_extra in Hdump.
  destruct (updatePrometheusYML_edited path target w c true c' s)
    as (w' & Hw' & Hf & _ & Hc & Ho); [done..|].
  exists w'. split_and!; [done| |done..].
  apply read_config_Ok. exists s. by rewrite Hf, lookup_insert_eq.
Qed.

End registration_theorems.

Section process_theorems.
Context `{Yaml}.
Variable h : host.

(** [C31] An empty configuration file ends the process: when the
    document read is [null] or [undefined], the property read of line
    122 throws a [TypeError] that nothing catches, the socket is never
    opened, and no later event is handled. *)
Theorem main_empty_document w c :
  read_config (prometheusConfigPath (dirname h)) w = Ok c → nullish c = true →
  crashed (main h w) = Some (TypeError Reading c "scrape_configs") ∧
  listening (now (main h w)) = listening w ∧
  files (now (main h w)) = files w ∧
  ∀ ev q, ¬ step h (main h w) ev q.
Proof.
  intros Hread Hn. rewrite (main_nullish h w c Hread Hn). simpl.
  split_and!; [done..|]. intros ev q Hstep. by inversion Hstep.
Qed.

(** [C33] The listener is reached exactly when the edit of the
    document does not throw: the process then listens on [PORT] and
    [HOST], whatever registration did or failed to do. *)
Theorem main_listens w :
  listening w = None →
  listening (now (main h w)) = Some (PORT (env h), HOST) ↔
  ¬ ∃ c e, read_config (prometheusConfigPath (dirname h)) w = Ok c ∧
      registerTarget (targetAddress (getExternalIPv4 (nets h)) (PORT (env h))) c = Throw e.
Proof.
  intros Hw. rewrite main_listening, Hw.
  destruct (crashed (main h w)) as [e|] eqn:Hc.
  - apply main_crashed, updatePrometheusYML_Throw in Hc as (c & Hread & Hreg).
    rewrite (read_config_frame _ _ w) in Hread by done. naive_solver.
  - split; [|done]. intros _ (c & e & Hread & Hreg).
    assert (crashed (main h w) = Some e) as Hc'; [|congruence].
    apply main_crashed, updatePrometheusYML_Throw. exists c.
    by rewrite (read_config_frame _ _ w).
Qed.

(** After the module body the event loop writes no file and
    sends no request, however the collaborator answers; it handles at
    most one reply to the reload request (there is no retry) and the
    [listening] event at most once. *)
Theorem steps_after_main w evs q :
  steps h (main h w) evs q →
  files (now q) = files (now (main h w)) ∧
  outbox (now q) = outbox (now (main h w)) ∧
  replies evs ≤ 1 ∧ bindings evs ≤ 1.
Proof.
  intros Hsteps. pose proof (main_outbox h w) as [Hlo Hhi].
  destruct (steps_frame h _ _ _ Hsteps) as (Hf & Ho & _).
  destruct (steps_counts h _ _ _ Hsteps Hlo) as (Ha & Hle & Hb).
  rewrite Ho in Hle. split_and!; [done|done|lia|].
  destruct (listening_pending (main h w)), (listening_pending q); lia.
Qed.

End process_theorems.

(** * The theorems at concrete worlds *)

Lemma updatePrometheusYML_round_trip_witness :
  ∃ w', updatePrometheusYML "/app/prometheus.yml" "10.0.0.2:8000"
          (disk (ref_print doc3)) = Ok w' ∧
        read_config "/app/prometheus.yml" w' = Ok doc3'.
Proof.
  apply (updatePrometheusYML_round_trip "/app/prometheus.yml" "10.0.0.2:8000"
           (disk (ref_print doc3)) doc3 true doc3' 1);
    [vm_compute; reflexivity|reflexivity..|vm_compute; set_solver].
Defined.

Lemma updatePrometheusYML_twice_witness :
  ∃ w1 w2,
    updatePrometheusYML "/app/prometheus.yml" "10.0.0.2:8000"
      (disk (ref_print doc3)) = Ok w1 ∧
    updatePrometheusYML "/app/prometheus.yml" "10.0.0.2:8000" w1 = Ok w2 ∧
    files w2 = files w1 ∧
    console w2 = console w1 ++
      [{| to := Stdout; args := added_message false "10.0.0.2:8000" |};
       {| to := Stdout; args := [Str "Prometheus config updated."] |}].
Proof.
  apply (updatePrometheusYML_twice "/app/prometheus.yml" "10.0.0.2:8000"
           (disk (ref_print doc3)) doc3 true doc3' 1);
    [vm_compute; reflexivity|reflexivity..|vm_compute; set_solver].
Defined.

Lemma updatePrometheusYML_unreadable_witness :
  ∃ w', updatePrometheusYML "/app/prometheus.yml" "10.0.0.2:8000" empty_disk = Ok w' ∧
    files w' = files empty_disk ∧ outbox w' = outbox empty_disk ∧
    console w' = console empty_disk ++
      [{| to := Stderr;
          args := [Str "Error reading Prometheus config:"; Err (SystemError "ENOENT")] |}].
Proof.
  apply (updatePrometheusYML_unreadable "/app/prometheus.yml" "10.0.0.2:8000" empty_disk).
  reflexivity.
Defined.

Lemma updatePrometheusYML_missing_job_witness :
  ∃ w', updatePrometheusYML "/app/prometheus.yml" "10.0.0.2:8000"
          (disk (ref_print node_only)) = Ok w' ∧
    files w' = files (disk (ref_print node_only)) ∧
    outbox w' = outbox (disk (ref_print node_only)) ∧
    console w' = console (disk (ref_print node_only)) ++
      [{| to := Stderr;
          args := [Str "Job 'prometheus' not found in Prometheus config."] |}].
Proof.
  apply (updatePrometheusYML_missing_job "/app/prometheus.yml" "10.0.0.2:8000"
           (disk (ref_print node_only)) node_only
           [VObject [("job_name", VString "node")]] []);
    [vm_compute; reflexivity|reflexivity|by repeat constructor].
Defined.

Lemma updatePrometheusYML_frame_witness :
  ∃ w', updatePrometheusYML "/app/prometheus.yml" "10.0.0.2:8000"
          (disk (ref_print doc3)) = Ok w' ∧
    (∀ p, p ≠ "/app/prometheus.yml" → files w' !! p = files (disk (ref_print doc3)) !! p) ∧
    write_protected w' = write_protected (disk (ref_print doc3)) ∧
    listening w' = listening (disk (ref_print doc3)).
Proof.
  eexists. split; [vm_compute; reflexivity|].
  apply (updatePrometheusYML_frame "/app/prometheus.yml" "10.0.0.2:8000").
  vm_compute. reflexivity.
Defined.

Lemma updatePrometheusYML_one_request_witness :
  ∃ w', updatePrometheusYML "/app/prometheus.yml" "10.0.0.2:8000"
          (disk (ref_print node_only)) = Ok w' ∧
    ((edited "/app/prometheus.yml" "10.0.0.2:8000" (disk (ref_print node_only)) ∧
      outbox w' = outbox (disk (ref_print node_only)) ++
        [{| url := reloadUrl; method := "POST" |}]) ∨
     (¬ edited "/app/prometheus.yml" "10.0.0.2:8000" (disk (ref_print node_only)) ∧
      outbox w' = outbox (disk (ref_print node_only)) ∧
      files w' = files (disk (ref_print node_only)))).
Proof.
  eexists. split; [vm_compute; reflexivity|].
  apply (updatePrometheusYML_one_request "/app/prometheus.yml" "10.0.0.2:8000").
  vm_compute. reflexivity.
Defined.

Lemma updatePrometheusYML_write_failure_witness :
  ∃ w', updatePrometheusYML "/app/prometheus.yml" "10.0.0.2:8000"
          (protected_disk (ref_print doc3)) = Ok w' ∧
    files w' = files (protected_disk (ref_print doc3)) ∧
    outbox w' = outbox (protected_disk (ref_print doc3)) ++
      [{| url := reloadUrl; method := "POST" |}] ∧
    ∃ e, last (console w') =
      Some {| to := Stderr; args := [Str "Error writing Prometheus config:"; Err e] |}.
Proof.
  apply (updatePrometheusYML_write_failure "/app/prometheus.yml" "10.0.0.2:8000"
           (protected_disk (ref_print doc3)) doc3 true doc3');
    [vm_compute; reflexivity|reflexivity|vm_compute; set_solver].
Defined.

Lemma main_empty_document_witness :
  crashed (main app_host (disk "")) = Some (TypeError Reading VUndefined "scrape_configs") ∧
  listening (now (main app_host (disk ""))) = listening (disk "") ∧
  files (now (main app_host (disk ""))) = files (disk "") ∧
  ∀ ev q, ¬ step app_host (main app_host (disk "")) ev q.
Proof. apply (main_empty_document app_host (disk "") VUndefined); reflexivity. Defined.

Lemma main_listens_witness :
  listening (now (main app_host (disk (ref_print doc3)))) =
    Some (PORT (env app_host), HOST) ↔
  ¬ ∃ c e,
      read_config (prometheusConfigPath (dirname app_host)) (disk (ref_print doc3)) = Ok c ∧
      registerTarget
        (targetAddress (getExternalIPv4 (nets app_host)) (PORT (env app_host))) c = Throw e.
Proof. apply (main_listens app_host (disk (ref_print doc3))). reflexivity. Defined.

Lemma steps_after_main_witness :
  ∃ q, served = Some q ∧
    files (now q) = files (now (main app_host (disk (ref_print doc3)))) ∧
    outbox (now q) = outbox (now (main app_host (disk (ref_print doc3)))) ∧
    replies [Reply (Response 200); Listening] ≤ 1 ∧
    bindings [Reply (Response 200); Listening] ≤ 1.
Proof.
  eexists. split; [vm_compute; reflexivity|].
  apply (steps_after_main app_host (disk (ref_print doc3))), run_steps.
  vm_compute. reflexivity.
Defined.

Lemma updatePrometheusYML_list_group_witness :
  ∃ w', updatePrometheusYML "/app/prometheus.yml" "10.0.0.2:8000"
          (disk (ref_print doc7)) = Ok w' ∧
    read_config "/app/prometheus.yml" w' = Ok doc7 ∧
    console w' = console (disk (ref_print doc7)) ++
      [{| to := Stdout; args := added_message true "10.0.0.2:8000" |};
       {| to := Stdout; args := [Str "Prometheus config updated."] |}] ∧
    outbox w' = outbox (disk (ref_print doc7)) ++
      [{| url := reloadUrl; method := "POST" |}].
Proof.
  apply (updatePrometheusYML_list_group "/app/prometheus.yml" "10.0.0.2:8000"
           (disk (ref_print doc7)) doc7 true
           (VObject [("scrape_configs",
              VArray [VObject [("job_name", VString "prometheus");
                               ("static_configs",
                                VArray [VArray [VString "10.0.0.1:8000"]
                                          [("targets", VArray [VString "10.0.0.2:8000"] [])]]
                                  [])]] [])]) 0);
    [vm_compute; reflexivity|reflexivity..|vm_compute; set_solver].
Defined.
