(* ===== verification/HeapRegistration.v ===== *)
(** * HeapRegistration: [updatePrometheusYML] on the objects it edits

    [Registration.updatePrometheusYML] runs lines 122-145 on a tree.
    Here the same function runs them as the code does, on the objects
    the parser made ([store]), and prints what the root holds at the
    end ([unfold]).  The two functions do the same to every world: this
    is what makes the tree an exact model of a run, the parser
    returning objects without sharing for a text without aliases. *)

From stdpp Require Import base strings pretty numbers gmap option list.
From S2P Require Import Prelude JsValue AddressResolver ConfigMutator Heap HeapRefine.
From S2P Require Import HeapMutator World Registration.

Local Open Scope string_scope.
Local Open Scope nat_scope.
Local Open Scope list_scope.

(** ** Operations *)

Section registration.
Context `{Yaml}.
Variable path : string.
Variable target : string.

(** Lines 113-162, with the document in a store.  The fuel of the
    reading at line 148 is the number of objects in the store. *)
Definition updatePrometheusYMLH (w : world) : result hexn world :=
  match read_config path w with
  | Throw err => Ok (console_error [Str "Error reading Prometheus config:"; Err err] w)
  | Ok config =>
      let r := store config ∅ in
      let* m := registerTargetH target r.1 r.2 in
      match m.1 with
      | HNoScrapeConfigs =>
          Ok (console_error [Str "No scrape_configs found in Prometheus config."] w)
      | HJobNotFound =>
          Ok (console_error [Str "Job 'prometheus' not found in Prometheus config."] w)
      | HMutated added =>
          match unfold (size m.2) m.2 r.1 with
          | Some config' =>
              Ok (trigger_reload
                    (write_config path config'.1 (console_log (added_message added target) w)))
          | None => Throw (HUnmodelled "a cycle in the document")
          end
      end
  end.

End registration.

(** ** Lemmas *)

(** A reading without sharing visits at most as many locations as the
    store has objects. *)
Lemma repr_size h v t ls : repr h v t ls → NoDup ls → length ls ≤ size h.
Proof.
  intros Hr Hnd. rewrite <- (size_dom h), <- (size_list_to_set (C := gset loc) ls Hnd).
  apply subseteq_size. intros l Hl%elem_of_list_to_set.
  apply elem_of_dom. by eapply repr_dom.
Qed.

(** ** Theorems *)

Section registration_theorems.
Context `{Yaml}.
Variable path : string.
Variable target : string.

(** [C26] The run on objects and the run on the tree do the same to
    the world: from every world, [updatePrometheusYMLH] and
    [updatePrometheusYML] return the same world (the same file written,
    the same lines printed, the same request sent), or both throw a
    [TypeError] on the same property. *)
Theorem updatePrometheusYMLH_agrees w :
  sim eq (updatePrometheusYMLH path target w) (updatePrometheusYML path target w).
Proof.
  unfold updatePrometheusYMLH, updatePrometheusYML.
  destruct (read_config path w) as [c|err]; [|done]. cbv zeta.
  destruct (store_edited c ∅) as (ls & Hr & Hnd & _).
  eapply sim_bind; [by apply (registerTargetH_sim target _ _ c ls)|].
  intros [m h'] m' Hm. unfold mutation_sim in Hm. simpl in *.
  destruct m as [| |a], m' as [| |a' c']; try done.
  destruct Hm as (-> & ls' & Hr' & Hnd' & _).
  by rewrite (repr_unfold _ _ _ _ _ Hr' (repr_size _ _ _ _ Hr' Hnd')).
Qed.

End registration_theorems.
