(* ===== verification/HttpService.v ===== *)
(** * HttpService: the routes, the observer and the metrics registry

    Models index.js 179-232 for [GET] requests: the two metrics of the
    program ([total_req], line 191, and [http_express_req_res_time],
    line 184), the [response-time] observer that updates them when a
    response is written (lines 196-205), and the three routes (lines
    207-232) with the answer Express gives when none matches.

    The service is a state machine.  A request that arrives is handled
    in one turn of the event loop, except on [/slow], where the handler
    waits for [doSomeHeavyTask]: the request is then pending until the
    task settles, and other requests are served in between.  [serve] is
    one turn as a function, [serving] the same as a relation, [trace]
    its closure.

    The histogram is kept as the list of its observations; what
    [prom-client] exposes of it (bucket counts, count and sum of a label
    set) are the functions [bucket_count], [series_count] and
    [series_sum].  Times are whole numbers of nanoseconds, the resolution
    of the clock [response-time] reads (the library hands them on in
    milliseconds, as fractions).  Two registries that differ in the order of
    their observations expose the same ([registry_equiv]); this is the
    equivalence under which the order of the turns does not matter. *)

From Stdlib Require Import Ascii.
From stdpp Require Import base strings pretty numbers gmap option list.
From S2P Require Import Prelude JsValue AddressResolver.

Local Open Scope string_scope.
Local Open Scope nat_scope.
Local Open Scope list_scope.

(** ** Data *)

Record request : Type := {
  req_method : string;
  req_url : string
}.

(** The label set of an observation (lines 199-203). *)
Record labels : Type := {
  method : string;
  route : string;
  status_code : Z
}.

(** What the registry holds of the two metrics of the program. *)
Record registry : Type := {
  total_req : nat;
  observations : list (labels * Z)
}.

(** The body of a response: a JSON document, the exposition of the
    registry as it was when [/metrics] read it, or the page Express
    answers when no route matches. *)
Inductive body : Type :=
| Json (v : value)
| Exposition (snapshot : registry)
| CannotGet (path : string).

Record response : Type := {
  statusCode : Z;
  contentType : string;
  payload : body
}.

Inductive level : Type :=
| Info
| Error.

(** How [doSomeHeavyTask] settles: with the time it took, or with an
    error that has a message. *)
Inductive outcome : Type :=
| Resolved (timeTaken : value)
| Rejected (message : string).

Inductive route_name : Type :=
| Root
| Slow
| Metrics
| NoRoute.

(** The service: the registry, the lines given to the logger, the
    requests on [/slow] whose task has not settled, and the responses
    written, latest last; requests are told apart by a number. *)
Record server : Type := {
  metrics : registry;
  logged : list (level * string);
  pending : list (nat * request);
  sent : list (nat * response)
}.

(** What a turn of the event loop brings: a request, or the settling
    of the task of a pending request.  [time] is what [response-time]
    measures when the response of this turn is written. *)
Inductive signal : Type :=
| Incoming (id : nat) (req : request) (time : Z)
| Settled (id : nat) (o : outcome) (time : Z).

#[export] Instance request_eq_dec : EqDecision request.
Proof. solve_decision. Defined.

#[export] Instance labels_eq_dec : EqDecision labels.
Proof. solve_decision. Defined.

#[export] Instance registry_eq_dec : EqDecision registry.
Proof. solve_decision. Defined.

#[export] Instance body_eq_dec : EqDecision body.
Proof. solve_decision. Defined.

#[export] Instance response_eq_dec : EqDecision response.
Proof. solve_decision. Defined.

#[export] Instance route_name_eq_dec : EqDecision route_name.
Proof. solve_decision. Defined.

(** ** The metrics (lines 184-194) *)

(** The upper bounds of the histogram, in milliseconds. *)
Definition buckets : list Z := [1; 50; 100; 200; 400; 500; 800; 1000; 2000]%Z.

Definition empty_registry : registry := {| total_req := 0; observations := [] |}.

(** [totalReqCounter.inc()] *)
Definition inc (r : registry) : registry :=
  {| total_req := S (total_req r); observations := observations r |}.

(** [reqResTime.labels(l).observe(time)] *)
Definition observe (l : labels) (time : Z) (r : registry) : registry :=
  {| total_req := total_req r; observations := observations r ++ [(l, time)] |}.

(** What the histogram exposes of a label set: the number of its
    observations of at most [le] milliseconds, their number, and their
    sum.  These are views of the list of observations and no code of
    index.js.  The observer is handed the time in milliseconds, as a
    fraction that carries the nanoseconds of the clock; the model keeps
    that time as a whole number of nanoseconds, so the bucket of [le]
    milliseconds takes the observations of at most [le * 1000000]. *)
Definition bucket_count (l : labels) (le : Z) (r : registry) : nat :=
  length (filter (λ o, o.1 = l ∧ (o.2 ≤ le * 1000000)%Z) (observations r)).

Definition series_count (l : labels) (r : registry) : nat :=
  length (filter (λ o, o.1 = l) (observations r)).

Definition series_sum (l : labels) (r : registry) : Z :=
  foldr Z.add 0%Z ((filter (λ o, o.1 = l) (observations r)).*2).

(** ** The observer (lines 196-205) *)

Definition responseTime (req : request) (res : response) (time : Z) (r : registry) : registry :=
  observe {| method := req_method req; route := req_url req; status_code := statusCode res |}
    time (inc r).

(** ** Routing *)

(** The path of a URL: what stands before the query string. *)
Fixpoint pathname (u : string) : string :=
  match u with
  | "" => ""
  | String c u' => if decide (c = "?"%char) then "" else String c (pathname u')
  end.

Definition lower_ascii (c : ascii) : ascii :=
  let n := nat_of_ascii c in
  if decide (65 ≤ n ≤ 90) then ascii_of_nat (n + 32) else c.

Fixpoint lower (s : string) : string :=
  match s with
  | "" => ""
  | String c s' => String (lower_ascii c) (lower s')
  end.

(** Express matches a path without regard to case and allows one
    slash after it. *)
Definition matches (path pattern : string) : bool :=
  bool_decide (lower path = pattern) ||
  bool_decide (pattern ≠ "/" ∧ lower path = pattern +:+ "/").

(** The routes in the order they are registered (lines 207, 212, 228). *)
Definition route_of (req : request) : route_name :=
  let p := pathname (req_url req) in
  if matches p "/" then Root
  else if matches p "/slow" then Slow
  else if matches p "/metrics" then Metrics
  else NoRoute.

(** ** Responses *)

(** [res.json(v)] with the status set before it. *)
Definition json (status : Z) (v : value) : response :=
  {| statusCode := status; contentType := "application/json; charset=utf-8";
     payload := Json v |}.

(** Line 209. *)
Definition hello : response :=
  json 200 (VObject [("message", VString "Hello from Express Server")]).

(** Lines 216-219 and 222-224. *)
Definition slow_response (o : outcome) : response :=
  match o with
  | Resolved timeTaken =>
      json 200 (VObject [("status", VString "Success");
                         ("message",
                          VString ("Heavy Task completed in " +:+ ToString timeTaken +:+ "ms"))])
  | Rejected _ =>
      json 500 (VObject [("status", VString "Error");
                         ("error", VString "Internal Server Error")])
  end.

(** Lines 229-231: the exposition is made from the registry before the
    response is written. *)
Definition metrics_response (r : registry) : response :=
  {| statusCode := 200; contentType := "text/plain; version=0.0.4; charset=utf-8";
     payload := Exposition r |}.

(** What Express answers when no route matches. *)
Definition not_found (req : request) : response :=
  {| statusCode := 404; contentType := "text/html; charset=utf-8";
     payload := CannotGet (pathname (req_url req)) |}.

(** ** The handlers, one turn each *)

Definition initial : server :=
  {| metrics := empty_registry; logged := []; pending := []; sent := [] |}.

(** The numbers of the requests seen so far. *)
Definition seen (s : server) : list nat := (pending s).*1 ++ (sent s).*1.

(** [logger.info] and [logger.error] *)
Definition log (l : level) (msg : string) (s : server) : server :=
  {| metrics := metrics s; logged := logged s ++ [(l, msg)];
     pending := pending s; sent := sent s |}.

(** The response is written: the observer runs on it. *)
Definition respond (id : nat) (req : request) (res : response) (time : Z) (s : server) : server :=
  {| metrics := responseTime req res time (metrics s); logged := logged s;
     pending := pending s; sent := sent s ++ [(id, res)] |}.

(** The handler of [/slow] up to its [await]. *)
Definition wait (id : nat) (req : request) (s : server) : server :=
  {| metrics := metrics s; logged := logged s;
     pending := pending s ++ [(id, req)]; sent := sent s |}.

Definition forget (id : nat) (s : server) : server :=
  {| metrics := metrics s; logged := logged s;
     pending := filter (λ p, p.1 ≠ id) (pending s); sent := sent s |}.

(** A request arrives (lines 207-232). *)
Definition handle (id : nat) (req : request) (time : Z) (s : server) : server :=
  match route_of req with
  | Root => respond id req hello time (log Info "Req came on / router" s)
  | Slow => wait id req (log Info "Req came on /slow router" s)
  | Metrics => respond id req (metrics_response (metrics s)) time s
  | NoRoute => respond id req (not_found req) time s
  end.

(** The task of a pending request settles (lines 216-224). *)
Definition settle (id : nat) (req : request) (o : outcome) (time : Z) (s : server) : server :=
  let s1 := match o with
            | Resolved _ => forget id s
            | Rejected message => log Error message (forget id s)
            end in
  respond id req (slow_response o) time s1.

(** One turn of the event loop. *)
Definition serve (sig : signal) (s : server) : option server :=
  match sig with
  | Incoming id req time =>
      if decide ((id ∉ seen s) ∧ req_method req = "GET") then Some (handle id req time s)
      else None
  | Settled id o time =>
      match assoc_get id (pending s) with
      | Some req => Some (settle id req o time s)
      | None => None
      end
  end.

Inductive serving : server → signal → server → Prop :=
| ServeIncoming s id req time :
    id ∉ seen s → req_method req = "GET" →
    serving s (Incoming id req time) (handle id req time s)
| ServeSettled s id req o time :
    assoc_get id (pending s) = Some req →
    serving s (Settled id o time) (settle id req o time s).

(** The runs of the service. *)
Definition trace : server → list signal → server → Prop := star serving.

(** ** Views *)

(** The response a request gets in the turn it arrives in, if it gets
    one then. *)
Definition answer (req : request) (r : registry) : option response :=
  match route_of req with
  | Root => Some hello
  | Slow => None
  | Metrics => Some (metrics_response r)
  | NoRoute => Some (not_found req)
  end.

(** The responses of a run and the requests it leaves pending are
    told apart by their numbers. *)
Definition well_numbered (s : server) : Prop := NoDup (seen s).

(** Every response written was counted and observed, once. *)
Definition accounted (s : server) : Prop :=
  total_req (metrics s) = length (sent s) ∧
  length (observations (metrics s)) = length (sent s).

(** The requests a run has brought. *)
Definition arrived (sigs : list signal) : list nat :=
  omap (λ sig, match sig with Incoming id _ _ => Some id | Settled _ _ _ => None end) sigs.

(** The requests a run has brought, by number. *)
Definition requests (sigs : list signal) : list (nat * request) :=
  omap (λ sig, match sig with
               | Incoming id req _ => Some (id, req)
               | Settled _ _ _ => None
               end) sigs.

(** The observation a turn makes, if it writes a response: that of the
    request it brings, or that of the pending request, found by its
    number among the requests [reqs] of the run. *)
Definition observed (reqs : list (nat * request)) (sig : signal) : option (labels * Z) :=
  match sig with
  | Incoming id req time =>
      res ← answer req empty_registry;
      Some ({| method := req_method req; route := req_url req;
               status_code := statusCode res |}, time)
  | Settled id o time =>
      req ← assoc_get id reqs;
      Some ({| method := req_method req; route := req_url req;
               status_code := statusCode (slow_response o) |}, time)
  end.

(** [known reqs sigs]: the requests settled in [sigs] are among
    [reqs]. *)
Definition known (reqs : list (nat * request)) (sigs : list signal) : Prop :=
  Forall (λ sig, match sig with
                 | Incoming _ _ _ => True
                 | Settled id _ _ => is_Some (assoc_get id reqs)
                 end) sigs.

(** Two registries expose the same when they hold the same counter and
    the same observations, in whatever order. *)
#[export] Instance registry_equiv : Equiv registry := λ r r',
  total_req r = total_req r' ∧ observations r ≡ₚ observations r'.

(** ** Example run *)

Definition get (u : string) : request := {| req_method := "GET"; req_url := u |}.

(** Two requests on [/], then one on [/metrics]. *)
Definition scenario : list signal :=
  [Incoming 0 (get "/") 350000; Incoming 1 (get "/") 120000;
   Incoming 2 (get "/metrics") 2400000]%Z.

(** A request on [/slow] that is answered after two others. *)
Definition interleaved : list signal :=
  [Incoming 0 (get "/slow") 0; Incoming 1 (get "/") 200000;
   Incoming 2 (get "/nowhere?x=1") 90000;
   Settled 0 (Rejected "boom") 1500000000]%Z.

(** The same with the two first requests in the other order. *)
Definition interleaved' : list signal :=
  [Incoming 1 (get "/") 200000; Incoming 0 (get "/slow") 0;
   Incoming 2 (get "/nowhere?x=1") 90000;
   Settled 0 (Rejected "boom") 1500000000]%Z.

(** ** Lemmas: one turn *)

Lemma serving_serve s sig s' : serving s sig s' ↔ serve sig s = Some s'.
Proof.
  split.
  - intros [s0 id req time Hid Hget|s0 id req o time Hp]; simpl.
    + by rewrite decide_True.
    + by rewrite Hp.
  - destruct sig as [id req time|id o time]; simpl.
    + case_decide as Hd; [|done]. destruct Hd. intros [= <-]. by constructor.
    + destruct (assoc_get id (pending s)) as [req|] eqn:Hp; [|done].
      intros [= <-]. by constructor.
Qed.

Lemma exec_trace sigs s s' : exec serve sigs s = Some s' ↔ trace s sigs s'.
Proof. apply exec_star, serving_serve. Qed.

(** What a request that arrives does to the service. *)
Lemma handle_sent id req time s :
  sent (handle id req time s) =
  sent s ++ from_option (λ res, [(id, res)]) [] (answer req (metrics s)).
Proof. unfold handle, answer. destruct (route_of req); simpl; by rewrite ?app_nil_r. Qed.

Lemma handle_pending id req time s :
  pending (handle id req time s) =
  pending s ++ from_option (λ _, []) [(id, req)] (answer req (metrics s)).
Proof. unfold handle, answer. destruct (route_of req); simpl; by rewrite ?app_nil_r. Qed.

Lemma handle_metrics id req time s :
  metrics (handle id req time s) =
  from_option (λ res, responseTime req res time (metrics s)) (metrics s)
    (answer req (metrics s)).
Proof. unfold handle, answer. by destruct (route_of req). Qed.

(** What the settling of a task does to the service. *)
Lemma settle_effect id req o time s :
  sent (settle id req o time s) = sent s ++ [(id, slow_response o)] ∧
  pending (settle id req o time s) = filter (λ p, p.1 ≠ id) (pending s) ∧
  metrics (settle id req o time s) = responseTime req (slow_response o) time (metrics s).
Proof. by destruct o. Qed.

Lemma answer_Slow req r : answer req r = None ↔ route_of req = Slow.
Proof. unfold answer. by destruct (route_of req). Qed.

Lemma arrived_snoc sigs sig : arrived (sigs ++ [sig]) = arrived sigs ++ arrived [sig].
Proof. unfold arrived. by rewrite omap_app. Qed.

(** ** Lemmas: registries up to order *)

#[export] Instance registry_equivalence : Equivalence (≡@{registry}).
Proof.
  split.
  - by intros r.
  - intros r r' [Ht Ho]. by split.
  - intros r1 r2 r3 [Ht Ho] [Ht' Ho']. split; [congruence|by rewrite Ho].
Qed.

#[export] Instance inc_proper : Proper ((≡) ==> (≡)) inc.
Proof. intros r r' [Ht Ho]. split; simpl; [by rewrite Ht|done]. Qed.

#[export] Instance observe_proper l time : Proper ((≡) ==> (≡)) (observe l time).
Proof. intros r r' [Ht Ho]. split; simpl; [done|by rewrite Ho]. Qed.

#[export] Instance responseTime_proper req res time :
  Proper ((≡) ==> (≡)) (responseTime req res time).
Proof. intros r r' Hr. unfold responseTime. by rewrite Hr. Qed.

#[export] Instance bucket_count_proper l le : Proper ((≡) ==> (=)) (bucket_count l le).
Proof. intros r r' [_ Ho]. unfold bucket_count. by rewrite Ho. Qed.

#[export] Instance series_count_proper l : Proper ((≡) ==> (=)) (series_count l).
Proof. intros r r' [_ Ho]. unfold series_count. by rewrite Ho. Qed.

Lemma sum_Permutation (l l' : list Z) : l ≡ₚ l' → foldr Z.add 0%Z l = foldr Z.add 0%Z l'.
Proof. induction 1; simpl; lia. Qed.

#[export] Instance series_sum_proper l : Proper ((≡) ==> (=)) (series_sum l).
Proof. intros r r' [_ Ho]. unfold series_sum. apply sum_Permutation. by rewrite Ho. Qed.

(** ** Lemmas: invariants of a turn *)

Lemma serving_accounted s sig s' : accounted s → serving s sig s' → accounted s'.
Proof.
  intros Hacc Hs. destruct Hs as [s0 id req time _ _|s0 id req o time _];
    destruct Hacc as [Ht Ho]; unfold accounted.
  - rewrite handle_sent, handle_metrics.
    destruct (answer req (metrics s0)); simpl; rewrite ?length_app, ?app_nil_r; simpl; lia.
  - destruct (settle_effect id req o time s0) as (-> & _ & ->).
    simpl. rewrite !length_app. simpl. lia.
Qed.

(** A turn adds the number of the request it brings, if it brings one,
    and moves no other number. *)
Lemma serving_seen s sig s' :
  well_numbered s → serving s sig s' → seen s' ≡ₚ seen s ++ arrived [sig].
Proof.
  intros Hnd Hs. destruct Hs as [s0 id req time _ _|s0 id req o time Hp]; unfold seen.
  - rewrite handle_sent, handle_pending.
    destruct (answer req (metrics s0)); simpl; rewrite !fmap_app, ?app_nil_r; simpl.
    + by rewrite <- app_assoc.
    + rewrite <- !app_assoc. f_equiv. apply Permutation_app_comm.
  - destruct (settle_effect id req o time s0) as (-> & -> & _).
    apply NoDup_app in Hnd as (Hnd & _ & _).
    rewrite (keys_filter_ne id req (pending s0) Hnd Hp). unfold keys.
    rewrite fmap_app. simpl. rewrite app_nil_r.
    rewrite (Permutation_app_comm (sent s0).*1 [id]). simpl. symmetry. apply Permutation_middle.
Qed.

Lemma serving_well_numbered s sig s' : well_numbered s → serving s sig s' → well_numbered s'.
Proof.
  intros Hnd Hs. unfold well_numbered. rewrite (serving_seen s sig s' Hnd Hs).
  destruct Hs as [s0 id req time Hid _|s0 id req o time _]; simpl.
  - apply NoDup_app. split_and!; [done|set_solver|apply NoDup_singleton].
  - by rewrite app_nil_r.
Qed.

(** ** Lemmas: invariants of a run *)

Lemma trace_accounted_from s sigs s' : trace s sigs s' → accounted s → accounted s'.
Proof. apply star_invariant. intros s1 e s2. apply serving_accounted. Qed.

Lemma trace_seen s sigs s' :
  trace s sigs s' → well_numbered s →
  well_numbered s' ∧ seen s' ≡ₚ seen s ++ arrived sigs.
Proof.
  intros Htr Hs. induction Htr as [|s sigs s1 sig s2 _ IH Hstep]; simpl.
  - by rewrite app_nil_r.
  - destruct (IH Hs) as [Hnd Hseen]. split; [by eapply serving_well_numbered|].
    rewrite (serving_seen s1 sig s2 Hnd Hstep), Hseen, arrived_snoc. by rewrite app_assoc.
Qed.

Lemma initial_accounted : accounted initial.
Proof. done. Qed.

Lemma initial_well_numbered : well_numbered initial.
Proof. constructor. Qed.

(** ** Lemmas: the observations of a run *)

Lemma requests_snoc sigs sig : requests (sigs ++ [sig]) = requests sigs ++ requests [sig].
Proof. unfold requests. by rewrite omap_app. Qed.

Lemma keys_requests sigs : keys (requests sigs) = arrived sigs.
Proof.
  unfold keys, requests, arrived.
  induction sigs as [|[id req time|id o time] sigs IH]; simpl; [done|by f_equal|done].
Qed.

(** The status of an answer does not depend on the registry. *)
Lemma answer_status req r r' :
  statusCode <$> answer req r = statusCode <$> answer req r'.
Proof. unfold answer. by destruct (route_of req). Qed.

Lemma known_more reqs more sigs :
  known reqs sigs →
  known (reqs ++ more) sigs ∧ omap (observed (reqs ++ more)) sigs = omap (observed reqs) sigs.
Proof.
  induction 1 as [|[id req time|id o time] sigs Hsig _ [IHk IHo]]; csimpl.
  - split; [constructor|done].
  - split; [by constructor|]. by rewrite IHo.
  - destruct Hsig as [req Hreq]. rewrite assoc_get_app, Hreq. csimpl.
    split; [|by rewrite IHo]. constructor; [|done]. by rewrite assoc_get_app, Hreq.
Qed.

(** What a run from the start has observed, turn by turn, and what it
    knows of its pending requests. *)
Lemma trace_observed sigs s :
  trace initial sigs s →
  observations (metrics s) = omap (observed (requests sigs)) sigs ∧
  known (requests sigs) sigs ∧
  ∀ id req, assoc_get id (pending s) = Some req → assoc_get id (requests sigs) = Some req.
Proof.
  intros Htr. remember initial as s0 eqn:Hs0.
  induction Htr as [|s0 sigs s1 sig s2 Htr IH Hstep];
    [subst; split_and!; [done|constructor|done]|].
  destruct (IH Hs0) as (IHo & IHk & IHp). subst s0.
  destruct (trace_seen initial sigs s1 Htr initial_well_numbered) as [Hnd Hseen].
  rewrite requests_snoc, omap_app.
  destruct (known_more (requests sigs) (requests [sig]) sigs IHk) as [Hk ->].
  destruct Hstep as [s1 id req time Hid _|s1 id req o time Hp].
  - rewrite handle_metrics, handle_pending. split_and!.
    + pose proof (answer_status req (metrics s1) empty_registry) as Hst. simpl.
      destruct (answer req (metrics s1)) as [res|], (answer req empty_registry) as [res'|];
        try done; simpl; [|by rewrite app_nil_r].
      injection Hst as ->. by rewrite IHo.
    + apply Forall_app. split; [done|]. by repeat constructor.
    + intros id' req'. rewrite !assoc_get_app. simpl.
      destruct (assoc_get id' (pending s1)) as [r|] eqn:Hget; [intros [= <-]; by rewrite (IHp _ _ Hget)|].
      destruct (answer req (metrics s1)); simpl; [done|]. case_decide; [|done].
      intros [= <-]. subst id'.
      assert (assoc_get id (requests sigs) = None) as ->; [|done].
      apply assoc_get_None. rewrite keys_requests. intros Hin. apply Hid.
      rewrite Hseen. done.
  - destruct (settle_effect id req o time s1) as (_ & -> & ->). simpl.
    rewrite app_nil_r in *. rewrite (IHp _ _ Hp). simpl. split_and!.
    + by rewrite IHo.
    + apply Forall_app. split; [done|]. repeat constructor. rewrite (IHp _ _ Hp). by eexists.
    + intros id' req'. rewrite assoc_get_filter_ne. case_decide; [done|]. apply IHp.
Qed.

(** Every response has one of three status codes. *)
Lemma serving_status s sig s' :
  Forall (λ r, r.2.(statusCode) ∈ [200; 404; 500]%Z) (sent s) → serving s sig s' →
  Forall (λ r, r.2.(statusCode) ∈ [200; 404; 500]%Z) (sent s').
Proof.
  intros Hall Hs. destruct Hs as [s0 id req time _ _|s0 id req o time _].
  - rewrite handle_sent. apply Forall_app. split; [done|]. unfold answer.
    destruct (route_of req); repeat constructor; simpl; set_solver.
  - destruct (settle_effect id req o time s0) as (-> & _ & _).
    apply Forall_app. split; [done|]. destruct o; repeat constructor; simpl; set_solver.
Qed.

(** ** Lemmas: the histogram *)

Lemma bucket_count_observe l le l' t r :
  bucket_count l le (observe l' t r) =
  bucket_count l le r + (if decide (l' = l ∧ (t ≤ le * 1000000)%Z) then 1 else 0).
Proof.
  unfold bucket_count. simpl. rewrite filter_app, length_app. f_equal.
  rewrite filter_cons, filter_nil. simpl. by repeat case_decide.
Qed.

(** * Theorems *)

(** [C28] Accounting: along every run from the start, the counter
    [total_req] equals the number of responses written, and so does the
    number of observations of the histogram. *)
Theorem trace_accounted sigs s :
  trace initial sigs s →
  total_req (metrics s) = length (sent s) ∧
  length (observations (metrics s)) = length (sent s).
Proof. intros Htr. by apply (trace_accounted_from initial sigs s). Qed.

Lemma trace_accounted_witness :
  ∃ s, exec serve interleaved initial = Some s ∧
    total_req (metrics s) = length (sent s) ∧
    length (observations (metrics s)) = length (sent s).
Proof.
  eexists. split; [vm_compute; reflexivity|].
  apply (trace_accounted interleaved), exec_trace. vm_compute. reflexivity.
Defined.

(** One response at most: along every run, no request is
    answered twice, and a request that is pending has no response. *)
Theorem trace_well_numbered sigs s :
  trace initial sigs s → NoDup ((pending s).*1 ++ (sent s).*1).
Proof. intros Htr. by apply (trace_seen initial sigs s), initial_well_numbered. Qed.

Lemma trace_well_numbered_witness :
  ∃ s, exec serve interleaved initial = Some s ∧ NoDup ((pending s).*1 ++ (sent s).*1).
Proof.
  eexists. split; [vm_compute; reflexivity|].
  apply (trace_well_numbered interleaved), exec_trace. vm_compute. reflexivity.
Defined.

(** No request is lost: along every run, the requests that
    arrived are those answered together with those pending. *)
Theorem trace_conservation sigs s :
  trace initial sigs s → (pending s).*1 ++ (sent s).*1 ≡ₚ arrived sigs.
Proof.
  intros Htr. by destruct (trace_seen initial sigs s Htr initial_well_numbered) as [_ ->].
Qed.

Lemma trace_conservation_witness :
  ∃ s, exec serve interleaved initial = Some s ∧
    (pending s).*1 ++ (sent s).*1 ≡ₚ arrived interleaved.
Proof.
  eexists. split; [vm_compute; reflexivity|].
  apply (trace_conservation interleaved), exec_trace. vm_compute. reflexivity.
Defined.

(** [C29] The exposition does not count its own request: a request on
    [/metrics] is answered with the registry as it was before, whose
    counter is the number of responses written until then; the request
    itself is counted afterwards. *)
Theorem metrics_counts_earlier_responses sigs s id req time s' :
  trace initial sigs s → serving s (Incoming id req time) s' →
  route_of req = Metrics →
  ∃ snapshot, last (sent s') = Some (id, metrics_response snapshot) ∧
    total_req snapshot = length (sent s) ∧
    total_req (metrics s') = S (length (sent s)).
Proof.
  intros Htr Hs Hroute.
  destruct (trace_accounted_from initial sigs s Htr initial_accounted) as [Ht _].
  inversion Hs; subst. exists (metrics s).
  rewrite handle_sent, handle_metrics. unfold answer. rewrite Hroute. simpl.
  by rewrite last_snoc, Ht.
Qed.

Lemma metrics_counts_earlier_responses_witness :
  ∃ s', exec serve scenario initial = Some s' ∧
  ∃ snapshot, last (sent s') = Some (2, metrics_response snapshot) ∧
    total_req snapshot = 2 ∧ total_req (metrics s') = 3.
Proof.
  eexists. split; [vm_compute; reflexivity|].
  apply (metrics_counts_earlier_responses
           [Incoming 0 (get "/") 350000; Incoming 1 (get "/") 120000]
           (default initial
              (exec serve [Incoming 0 (get "/") 350000; Incoming 1 (get "/") 120000] initial))
           2 (get "/metrics") 2400000);
    [apply exec_trace; vm_compute; reflexivity
    |apply serving_serve; vm_compute; reflexivity
    |reflexivity].
Defined.

(** A pending request blocks nothing: whatever is pending, a new
    [GET] request is taken; it is answered in the same turn unless its
    route is [/slow], and then it is pending and nothing is written. *)
Theorem incoming_never_blocked s id req time :
  id ∉ seen s → req_method req = "GET" →
  ∃ s', serving s (Incoming id req time) s' ∧
    (route_of req ≠ Slow → ∃ res, last (sent s') = Some (id, res)) ∧
    (route_of req = Slow → pending s' = pending s ++ [(id, req)] ∧ sent s' = sent s).
Proof.
  intros Hid Hget. exists (handle id req time s). split; [by constructor|].
  rewrite handle_sent, handle_pending.
  destruct (answer req (metrics s)) as [res|] eqn:Ha; simpl.
  - split; [intros _; exists res; by rewrite last_snoc|].
    intros Hslow%(answer_Slow req (metrics s)). congruence.
  - apply answer_Slow in Ha. split; [done|]. intros _. by rewrite app_nil_r.
Qed.

Lemma incoming_never_blocked_witness :
  ∃ s', serving (handle 0 (get "/slow") 0 initial) (Incoming 1 (get "/") 200000) s' ∧
    (route_of (get "/") ≠ Slow → ∃ res, last (sent s') = Some (1, res)) ∧
    (route_of (get "/") = Slow →
       pending s' = pending (handle 0 (get "/slow") 0 initial) ++ [(1, get "/")] ∧
       sent s' = sent (handle 0 (get "/slow") 0 initial)).
Proof.
  apply (incoming_never_blocked (handle 0 (get "/slow") 0 initial) 1 (get "/") 200000);
    [vm_compute; set_solver|reflexivity].
Defined.

(** Settling answers the pending request: when the task of a
    pending request settles, the request leaves the pending list and
    gets its response, with status 200 if the task succeeded and 500,
    with a logged error, if it failed. *)
Theorem settled_answers s id o time s' :
  well_numbered s → serving s (Settled id o time) s' →
  (id ∉ (pending s').*1) ∧
  last (sent s') = Some (id, slow_response o) ∧
  statusCode (slow_response o) = match o with Resolved _ => 200 | Rejected _ => 500 end%Z ∧
  match o with
  | Resolved _ => logged s' = logged s
  | Rejected message => logged s' = logged s ++ [(Error, message)]
  end.
Proof.
  intros Hnd Hs. inversion Hs as [|s0 id0 req o0 time0 Hp]; subst.
  destruct (settle_effect id req o time s) as (-> & -> & _).
  split_and!; [|by rewrite last_snoc|by destruct o..].
  intros ([id' req'] & -> & [Hne _]%list_elem_of_filter)%list_elem_of_fmap. done.
Qed.

Lemma settled_answers_witness :
  ∃ s', serve (Settled 0 (Rejected "boom") 1500000000) (handle 0 (get "/slow") 0 initial)
          = Some s' ∧
    (0 ∉ (pending s').*1) ∧
    last (sent s') = Some (0, slow_response (Rejected "boom")) ∧
    statusCode (slow_response (Rejected "boom")) = 500%Z ∧
    logged s' = logged (handle 0 (get "/slow") 0 initial) ++ [(Error, "boom")].
Proof.
  eexists. split; [vm_compute; reflexivity|].
  apply (settled_answers (handle 0 (get "/slow") 0 initial) 0 (Rejected "boom") 1500000000).
  - vm_compute. apply NoDup_singleton.
  - apply serving_serve. vm_compute. reflexivity.
Defined.

(** [C36] The labels of an observation: a response written in the
    turn its request arrives in is observed under the method of the
    request, its URL as received (query string included) and the status
    code of the response, with the time measured. *)
Theorem observed_labels s id req time s' res :
  serving s (Incoming id req time) s' → answer req (metrics s) = Some res →
  last (observations (metrics s')) =
    Some ({| method := req_method req; route := req_url req;
             status_code := statusCode res |}, time).
Proof.
  intros Hs Ha. inversion Hs; subst. rewrite handle_metrics, Ha. simpl.
  by rewrite last_snoc.
Qed.

Lemma observed_labels_witness :
  last (observations (metrics (handle 7 (get "/nowhere?x=1") 90000 initial))) =
    Some ({| method := "GET"; route := "/nowhere?x=1"; status_code := 404 |}, 90000%Z).
Proof.
  apply (observed_labels initial 7 (get "/nowhere?x=1") 90000 _ (not_found (get "/nowhere?x=1")));
    [apply serving_serve; vm_compute; reflexivity|reflexivity].
Defined.

(** Status codes: along every run, every response written has
    status 200, 404 or 500. *)
Theorem trace_status_codes sigs s :
  trace initial sigs s →
  Forall (λ r, r.2.(statusCode) ∈ [200; 404; 500]%Z) (sent s).
Proof.
  intros Htr.
  apply (star_invariant serving
           (λ s, Forall (λ r, r.2.(statusCode) ∈ [200; 404; 500]%Z) (sent s))
           initial sigs s); [apply serving_status|done|constructor].
Qed.

Lemma trace_status_codes_witness :
  ∃ s, exec serve interleaved initial = Some s ∧
    Forall (λ r, r.2.(statusCode) ∈ [200; 404; 500]%Z) (sent s).
Proof.
  eexists. split; [vm_compute; reflexivity|].
  apply (trace_status_codes interleaved), exec_trace. vm_compute. reflexivity.
Defined.

(** An observation enters the buckets of its own label set whose
    bound it does not exceed, and no other bucket. *)
Theorem observe_bucket_count l le l' t r :
  bucket_count l le (observe l' t r) =
  bucket_count l le r + (if decide (l' = l ∧ (t ≤ le * 1000000)%Z) then 1 else 0).
Proof. apply bucket_count_observe. Qed.

(** The metrics do not depend on the order of the turns: two runs
    of the service that take the same turns in different orders end
    with the same counter and the same observations up to their order,
    and so expose the same count in every bucket, the same number of
    observations and the same sum for every label set. *)
Theorem metrics_order_independent sigs sigs' s s' :
  trace initial sigs s → trace initial sigs' s' → sigs ≡ₚ sigs' →
  metrics s ≡ metrics s' ∧
  ∀ l, (∀ le, bucket_count l le (metrics s) = bucket_count l le (metrics s')) ∧
       series_count l (metrics s) = series_count l (metrics s') ∧
       series_sum l (metrics s) = series_sum l (metrics s').
Proof.
  intros Htr Htr' Hp.
  destruct (trace_observed sigs s Htr) as (Ho & _ & _).
  destruct (trace_observed sigs' s' Htr') as (Ho' & _ & _).
  destruct (trace_accounted_from _ _ _ Htr initial_accounted) as [Ht Hl].
  destruct (trace_accounted_from _ _ _ Htr' initial_accounted) as [Ht' Hl'].
  destruct (trace_seen initial sigs s Htr initial_well_numbered) as [Hnd Hseen].
  assert (observations (metrics s) ≡ₚ observations (metrics s')) as Hobs.
  { rewrite Ho, Ho'.
    assert (omap (observed (requests sigs)) sigs' = omap (observed (requests sigs')) sigs')
      as <-; [|by apply omap_Permutation].
    apply list_omap_ext, Forall_Forall2_diag, Forall_forall.
    intros [id req time|id o time] _; simpl; [done|].
    rewrite (assoc_get_Permutation id (requests sigs) (requests sigs')); [done| |].
    - rewrite keys_requests. unfold well_numbered in Hnd. by rewrite Hseen in Hnd.
    - by apply omap_Permutation. }
  assert (metrics s ≡ metrics s') as Hm.
  { split; [|done]. rewrite Ht, Ht', <- Hl, <- Hl'. by rewrite Hobs. }
  split; [done|]. intros l. by setoid_rewrite Hm.
Qed.

Lemma metrics_order_independent_witness :
  metrics (default initial (exec serve interleaved initial)) ≡
    metrics (default initial (exec serve interleaved' initial)) ∧
  ∀ l, (∀ le, bucket_count l le (metrics (default initial (exec serve interleaved initial))) =
              bucket_count l le (metrics (default initial (exec serve interleaved' initial)))) ∧
       series_count l (metrics (default initial (exec serve interleaved initial))) =
         series_count l (metrics (default initial (exec serve interleaved' initial))) ∧
       series_sum l (metrics (default initial (exec serve interleaved initial))) =
         series_sum l (metrics (default initial (exec serve interleaved' initial))).
Proof.
  apply (metrics_order_independent interleaved interleaved').
  - apply exec_trace. vm_compute. reflexivity.
  - apply exec_trace. vm_compute. reflexivity.
  - apply perm_swap.
Defined.
