(* ===== verification/Process.v ===== *)
(** * Process: registration and the service in one event loop

    The module body of index.js runs registration (line 164), builds
    the Express application (lines 179-232) and calls [app.listen]
    (line 234).  What follows is one event loop, which takes in turn
    the callback of [app.listen], the callbacks of the reload request
    (lines 155-160) and the requests of the service.

    [system] puts the process of Registration and the server of
    HttpService side by side; a [turn] is a turn of either.  The source
    does not say in which order the callbacks run, and the model does
    not either: the callback of [app.listen], the replies to the reload
    request and the requests of the service are taken in any order, as
    soon as the module body has queued or enabled them (the order in
    which Node.js runs them is one of these).  What the source does
    decide is kept: line 164 comes before line 234, so a request is
    taken only when registration has returned and the socket is open
    ([accepting]), and nothing is taken after an uncaught exception of
    the module body.  [advance] is one turn as a function, [moves] the
    same as a relation, [history] its closure.

    Lines 166-232 (the logger, the metrics, the routes) are taken to
    return without an exception and [app.listen] to open the socket, as
    in [Registration.main].

    Registration and the service share no state: a history is a run of
    each, and its turns can be taken in another order. *)

From stdpp Require Import base strings pretty numbers gmap option list.
From S2P Require Import Prelude JsValue AddressResolver ConfigMutator World.
From S2P Require Import Registration HttpService.

Local Open Scope string_scope.
Local Open Scope nat_scope.
Local Open Scope list_scope.

(** ** Data *)

Record system : Type := {
  proc : process;
  app : server
}.

Inductive turn : Type :=
| Loop (ev : event)
| Http (sig : signal).

(** ** Operations *)

(** The program after its module body. *)
Definition boot `{Yaml} (h : host) (w : world) : system :=
  {| proc := main h w; app := initial |}.

(** The service takes requests: the module body went through and
    [app.listen] (line 234) has opened the socket. *)
Definition accepting (p : process) : bool :=
  bool_decide (crashed p = None) && bool_decide (is_Some (listening (now p))).

Definition advance (h : host) (t : turn) (s : system) : option system :=
  match t with
  | Loop ev => p ← deliver h ev (proc s); Some {| proc := p; app := app s |}
  | Http sig =>
      if accepting (proc s) then a ← serve sig (app s); Some {| proc := proc s; app := a |}
      else None
  end.

Inductive moves (h : host) : system → turn → system → Prop :=
| MoveLoop s ev p :
    step h (proc s) ev p →
    moves h s (Loop ev) {| proc := p; app := app s |}
| MoveHttp s sig a :
    accepting (proc s) = true → serving (app s) sig a →
    moves h s (Http sig) {| proc := proc s; app := a |}.

(** The histories of the program, as a relation and as a function. *)
Definition history (h : host) : system → list turn → system → Prop := star (moves h).

Definition play (h : host) : list turn → system → option system := exec (advance h).

(** ** Views *)

(** The turns of the event loop of Registration in a history, and the
    turns of the service. *)
Definition loop_events (ts : list turn) : list event :=
  omap (λ t, match t with Loop ev => Some ev | Http _ => None end) ts.

Definition http_signals (ts : list turn) : list signal :=
  omap (λ t, match t with Http sig => Some sig | Loop _ => None end) ts.

(** ** Example *)

(** The program started on a machine whose file holds [doc3]: it
    announces itself, takes a request on [/slow], gets the reply to its
    reload request, answers [/metrics], and then the slow request. *)
Definition busy_start : list turn :=
  [Loop Listening;
   Http (Incoming 0 (get "/slow") 0);
   Loop (Reply (Response 200));
   Http (Incoming 1 (get "/metrics") 310000);
   Http (Settled 0 (Resolved (VNumber (Int 1200))) 1200000000)]%Z.

(** The same turns with the reply to the reload request first and the
    callback of [app.listen] last. *)
Definition late_start : list turn :=
  [Loop (Reply (Response 200));
   Http (Incoming 0 (get "/slow") 0);
   Http (Incoming 1 (get "/metrics") 310000);
   Http (Settled 0 (Resolved (VNumber (Int 1200))) 1200000000);
   Loop Listening]%Z.

(** Where it leaves the program. *)
Definition after_busy_start : system :=
  default (boot (H := RefCodec) app_host (disk (ref_print doc3)))
    (play app_host busy_start (boot (H := RefCodec) app_host (disk (ref_print doc3)))).

(** ** Lemmas: one turn *)

Lemma moves_advance h s t s' : moves h s t s' ↔ advance h t s = Some s'.
Proof.
  split.
  - intros [s0 ev p Hstep|s0 sig a Hopen Hserve]; simpl.
    + apply step_deliver in Hstep. by rewrite Hstep.
    + apply serving_serve in Hserve. by rewrite Hopen, Hserve.
  - destruct t as [ev|sig]; simpl.
    + destruct (deliver h ev (proc s)) as [p|] eqn:Hd; [|done].
      intros [= <-]. constructor. by apply step_deliver.
    + destruct (accepting (proc s)) eqn:Hopen; [|done].
      destruct (serve sig (app s)) as [a|] eqn:Hs; [|done].
      intros [= <-]. constructor; [done|]. by apply serving_serve.
Qed.

Lemma play_history h ts s s' : play h ts s = Some s' ↔ history h s ts s'.
Proof. apply exec_star, moves_advance. Qed.

Lemma accepting_spec p :
  accepting p = true ↔
  crashed p = None ∧ is_Some (listening (now p)).
Proof. unfold accepting. by rewrite andb_true_iff, !bool_decide_eq_true. Qed.

(** A turn is a turn of one of the two machines, and leaves the other
    as it is. *)
Lemma moves_projects h s t s' :
  moves h s t s' →
  steps h (proc s) (loop_events [t]) (proc s') ∧ trace (app s) (http_signals [t]) (app s').
Proof.
  intros [s0 ev p Hstep|s0 sig a _ Hserve]; simpl;
    (split; [try by apply star_one|try by apply star_one]); constructor.
Qed.

Lemma loop_events_app ts ts' : loop_events (ts ++ ts') = loop_events ts ++ loop_events ts'.
Proof. apply omap_app. Qed.

Lemma http_signals_app ts ts' :
  http_signals (ts ++ ts') = http_signals ts ++ http_signals ts'.
Proof. apply omap_app. Qed.

(** The service keeps taking requests. *)
Lemma moves_accepting h s t s' :
  moves h s t s' → accepting (proc s) = true → accepting (proc s') = true.
Proof.
  intros [s0 ev p Hstep|s0 sig a _ _]; [|done].
  rewrite !accepting_spec. intros [Hc Hs]. simpl.
  inversion Hstep as [p0|p0 r]; subst; simpl; [done|]. by destruct r.
Qed.

(** ** Lemmas: histories *)

Lemma history_projects_from h s ts s' :
  history h s ts s' →
  steps h (proc s) (loop_events ts) (proc s') ∧ trace (app s) (http_signals ts) (app s').
Proof.
  induction 1 as [|s ts s1 t s2 _ [IHp IHa] Hmove]; [split; constructor|].
  apply moves_projects in Hmove as [Hp Ha].
  rewrite loop_events_app, http_signals_app. split; by eapply star_app.
Qed.

Lemma history_accepting h s ts s' :
  history h s ts s' → accepting (proc s) = true → accepting (proc s') = true.
Proof.
  apply (star_invariant _ (λ s, accepting (proc s) = true)).
  intros s1 t s2 Hopen Hmove. by eapply moves_accepting.
Qed.

(** A run of the service is a history, once it takes requests. *)
Lemma trace_history h p a sigs a' :
  trace a sigs a' → accepting p = true →
  history h {| proc := p; app := a |} (Http <$> sigs) {| proc := p; app := a' |}.
Proof.
  intros Htr Hopen. induction Htr as [|a sigs a1 sig a2 _ IH Hserve]; [constructor|].
  rewrite fmap_app. eapply star_snoc; [exact IH|]. by apply (MoveHttp h {| proc := p |}).
Qed.

(** A run of the event loop of Registration is a history. *)
Lemma steps_history h p a evs p' :
  steps h p evs p' →
  history h {| proc := p; app := a |} (Loop <$> evs) {| proc := p'; app := a |}.
Proof.
  induction 1 as [|p evs p1 ev p2 _ IH Hstep]; [constructor|].
  rewrite fmap_app. eapply star_snoc; [exact IH|]. by apply (MoveLoop h {| proc := p1 |}).
Qed.

(** After an exception of the module body there is no turn. *)
Lemma moves_alive h s t s' : moves h s t s' → crashed (proc s) = None.
Proof.
  intros [s0 ev p Hstep|s0 sig a Hopen _].
  - by inversion Hstep.
  - by apply accepting_spec in Hopen as [Hc _].
Qed.

(** ** Theorems *)

Section process_theorems.
Context `{Yaml}.
Variable h : host.

(** A history of the program is a run of the event loop of
    Registration from the end of the module body, together with a run
    of the service from its initial state: each turn is a turn of one
    of the two and leaves the other as it is. *)
Theorem history_projects w ts s :
  history h (boot h w) ts s →
  steps h (main h w) (loop_events ts) (proc s) ∧ trace initial (http_signals ts) (app s).
Proof. apply history_projects_from. Qed.

(** An exception of the module body leaves no service: when
    registration throws (as it does on an empty configuration file),
    the program has no history but the empty one, so no request is ever
    answered. *)
Theorem crashed_serves_nothing w e ts s :
  crashed (main h w) = Some e → history h (boot h w) ts s →
  ts = [] ∧ s = boot h w ∧ sent (app s) = [].
Proof.
  intros Hc Hh. destruct ts as [|t ts].
  - apply star_nil_inv in Hh as <-. done.
  - apply star_cons_inv in Hh as (s1 & Hmove & _).
    apply moves_alive in Hmove. simpl in Hmove. congruence.
Qed.

(** While the service runs nobody writes the configuration file
    or sends another reload request, and the metrics stay exact: in
    every history the files and the requests sent are those the module
    body left, the counter [total_req] is the number of responses
    written, and no request is answered twice. *)
Theorem history_frame w ts s :
  history h (boot h w) ts s →
  files (now (proc s)) = files (now (main h w)) ∧
  outbox (now (proc s)) = outbox (now (main h w)) ∧
  total_req (metrics (app s)) = length (sent (app s)) ∧
  well_numbered (app s).
Proof.
  intros [Hp Ha]%history_projects_from. simpl in Hp, Ha.
  destruct (steps_frame h _ _ _ Hp) as (Hf & Ho & _).
  destruct (trace_accounted_from _ _ _ Ha initial_accounted) as [Hn _].
  destruct (trace_seen _ _ _ Ha initial_well_numbered) as [Hw _]. done.
Qed.

(** [C27] What is advertised is what is served: when the document is
    read, has the job, the first group of the job is not itself a
    list, and the file can be written, then after the
    module body the file reads as the edited document, the address
    listed there is the external address of the machine with the port
    the program listens on, the socket is open on that port, and the
    module body has not thrown. *)
Theorem advertised_is_served w c a c' i :
  read_config (prometheusConfigPath (dirname h)) w = Ok c →
  registerTarget (targetAddress (getExternalIPv4 (nets h)) (PORT (env h))) c
    = Ok (Mutated a c') →
  job_index c = Some i → isArray (get_path c' (group_path i)) = false →
  prometheusConfigPath (dirname h) ∉ write_protected w →
  ∃ tl,
    read_config (prometheusConfigPath (dirname h)) (now (proc (boot h w))) = Ok c' ∧
    targets_of c' i = Some tl ∧
    VString (getExternalIPv4 (nets h) +:+ ":" +:+ ToString (PORT (env h))) ∈ tl ∧
    listening (now (proc (boot h w))) = Some (PORT (env h), HOST) ∧
    crashed (proc (boot h w)) = None.
Proof.
  intros Hread Hreg Hi Harr Hp.
  destruct (registerTarget_lists_target _ _ _ _ Hreg) as (j & tl & Hj & Htl & Hin).
  assert (j = i) as -> by congruence. exists tl.
  assert (loaded c' = true) as Hl.
  { eapply edit_at_loaded; eauto using read_config_edited, registerTarget_edit_at. }
  unfold boot, main. cbv zeta.
  set (w1 := console_log _ w).
  assert (read_config (prometheusConfigPath (dirname h)) w1 = Ok c) as Hread1
    by by rewrite (read_config_frame _ w1 w).
  rewrite (proj2 (updatePrometheusYML_registered _ _ _ _) (Edited _ _ _ _ _ _ Hread1 Hreg)).
  simpl. split_and!; [|done..].
  erewrite read_config_frame; [apply read_config_write_config|reflexivity]; done.
Qed.

End process_theorems.

(** Registration and the service do not interfere: once the
    service takes requests, the turns of a history can be taken with
    all requests first or with all replies first, and the program ends
    in the same state. *)
Theorem history_reorder h s ts s' :
  accepting (proc s) = true → history h s ts s' →
  history h s ((Http <$> http_signals ts) ++ (Loop <$> loop_events ts)) s' ∧
  history h s ((Loop <$> loop_events ts) ++ (Http <$> http_signals ts)) s'.
Proof.
  intros Hopen Hh. destruct (history_projects_from h s ts s' Hh) as [Hp Ha].
  destruct s as [p a], s' as [p' a']. simpl in *.
  pose proof (steps_history h p a _ p' Hp) as Hloop.
  pose proof (steps_history h p a' _ p' Hp) as Hloop'.
  split.
  - eapply star_app; [by apply trace_history|done].
  - eapply star_app; [done|]. apply trace_history; [done|].
    by apply (history_accepting h _ _ _ Hloop).
Qed.

(** * The theorems at a concrete history *)

Lemma history_projects_witness :
  steps app_host (main (H := RefCodec) app_host (disk (ref_print doc3)))
    (loop_events busy_start) (proc after_busy_start) ∧
  trace initial (http_signals busy_start) (app after_busy_start).
Proof.
  apply (history_projects (H := RefCodec) app_host (disk (ref_print doc3)) busy_start).
  apply play_history. vm_compute. reflexivity.
Defined.

Lemma crashed_serves_nothing_witness :
  ([] : list turn) = [] ∧
  boot (H := RefCodec) app_host (disk "") = boot (H := RefCodec) app_host (disk "") ∧
  sent (app (boot (H := RefCodec) app_host (disk ""))) = [].
Proof.
  apply (crashed_serves_nothing (H := RefCodec) app_host (disk "")
           (TypeError Reading VUndefined "scrape_configs") []).
  - vm_compute. reflexivity.
  - constructor.
Defined.

Lemma history_frame_witness :
  files (now (proc after_busy_start)) =
    files (now (main (H := RefCodec) app_host (disk (ref_print doc3)))) ∧
  outbox (now (proc after_busy_start)) =
    outbox (now (main (H := RefCodec) app_host (disk (ref_print doc3)))) ∧
  total_req (metrics (app after_busy_start)) = length (sent (app after_busy_start)) ∧
  well_numbered (app after_busy_start).
Proof.
  apply (history_frame (H := RefCodec) app_host (disk (ref_print doc3)) busy_start).
  apply play_history. vm_compute. reflexivity.
Defined.

Lemma history_reorder_witness :
  history app_host
    (default after_busy_start
       (play app_host [Loop Listening]
          (boot (H := RefCodec) app_host (disk (ref_print doc3)))))
    ((Http <$> http_signals (tail busy_start)) ++ (Loop <$> loop_events (tail busy_start)))
    after_busy_start ∧
  history app_host
    (default after_busy_start
       (play app_host [Loop Listening]
          (boot (H := RefCodec) app_host (disk (ref_print doc3)))))
    ((Loop <$> loop_events (tail busy_start)) ++ (Http <$> http_signals (tail busy_start)))
    after_busy_start.
Proof.
  apply (history_reorder app_host _ (tail busy_start) after_busy_start).
  - vm_compute. reflexivity.
  - apply play_history. vm_compute. reflexivity.
Defined.

(** The order of the callbacks is open: the turns of [busy_start] with
    the reply first and the callback of [app.listen] last are a history
    of the program as well. *)
Lemma late_start_history :
  is_Some (play app_host late_start (boot (H := RefCodec) app_host (disk (ref_print doc3)))).
Proof. vm_compute. by eexists. Qed.

Lemma advertised_is_served_witness :
  ∃ tl,
    read_config (H := RefCodec) (prometheusConfigPath (dirname app_host))
      (now (proc (boot (H := RefCodec) app_host (disk (ref_print doc3))))) =
      Ok (default VUndefined
            (match registerTarget (targetAddress (getExternalIPv4 (nets app_host))
                                     (PORT (env app_host))) doc3 with
             | Ok (Mutated _ c') => Some c'
             | _ => None
             end)) ∧
    targets_of (default VUndefined
            (match registerTarget (targetAddress (getExternalIPv4 (nets app_host))
                                     (PORT (env app_host))) doc3 with
             | Ok (Mutated _ c') => Some c'
             | _ => None
             end)) 1 = Some tl ∧
    VString (getExternalIPv4 (nets app_host) +:+ ":" +:+ ToString (PORT (env app_host))) ∈ tl ∧
    listening (now (proc (boot (H := RefCodec) app_host (disk (ref_print doc3))))) =
      Some (PORT (env app_host), HOST) ∧
    crashed (proc (boot (H := RefCodec) app_host (disk (ref_print doc3)))) = None.
Proof.
  apply (advertised_is_served (H := RefCodec) app_host (disk (ref_print doc3)) doc3 true).
  - vm_compute. reflexivity.
  - vm_compute. reflexivity.
  - reflexivity.
  - vm_compute. reflexivity.
  - vm_compute. set_solver.
Defined.
