(* ===== verification/Fleet.v ===== *)
(** * Fleet: several instances of the service on one configuration file

    The program is made to be started more than once: every instance
    adds its own address to the configuration file next to index.js
    (line 111) and asks the collector to reload.  Inside one process
    [updatePrometheusYML] runs from its first line to its last without
    interruption; between processes it does not: another instance, or
    the end of this one, can come between any two of its accesses to
    the file.

    [pc] names the places of the module body at which that can happen,
    and [advance_member] is the code between one place and the next:

    - [AtStart]:   lines 105-108, the address is resolved and printed;
    - [AtRead]:    line 116, the file is read and parsed (lines 117-119
                   when that fails);
    - [AtEdit]:    lines 122-145 on the parsed document;
    - [AtWrite]:   line 148, the document is printed and the file is
                   opened for writing, which empties it (lines 150-151
                   when that fails);
    - [AtFill]:    line 148, the text is written; line 149;
    - [AtReload]:  lines 154-161;
    - [AtListen]:  line 234;
    - [Up]:        the module body is done, the event loop runs;
    - [Down]:      an exception left the module body.

    A [fleet] is a file system and the instances that share it; a [move]
    is one step of one instance, or the restart of one.  The console,
    the requests sent and the socket belong to the instance; [view] is
    the world of an instance as of its last step.  Every instance has
    a socket of its own (another port, or another machine with the
    same directory): [app.listen] does not fail, as in
    [Registration].

    Reading a file and writing a text into an open file are taken as
    atomic, which small files are in practice; what is not atomic in
    [fs.writeFileSync] is the pair of the opening, which empties the
    file, and the writing. *)

From stdpp Require Import base strings pretty numbers gmap option list.
From S2P Require Import Prelude JsValue AddressResolver ConfigMutator Settled World Registration.

Local Open Scope string_scope.
Local Open Scope nat_scope.
Local Open Scope list_scope.

(** ** Data *)

Inductive pc : Type :=
| AtStart
| AtRead
| AtEdit (config : value)
| AtWrite (config : value)
| AtFill (text : string)
| AtReload
| AtListen
| Up
| Down (e : exn).

Record member : Type := {
  on : host;
  point : pc;
  view : world
}.

Record fleet : Type := {
  shared : gmap string string;
  members : list member
}.

Inductive move : Type :=
| Step (n : nat)
| Restart (n : nat).

#[export] Instance pc_eq_dec : EqDecision pc.
Proof. solve_decision. Defined.

#[export] Instance move_eq_dec : EqDecision move.
Proof. solve_decision. Defined.

(** ** One instance *)

(** Line 107. *)
Definition member_target (h : host) : string :=
  targetAddress (getExternalIPv4 (nets h)) (PORT (env h)).

(** Line 111. *)
Definition member_path (h : host) : string := prometheusConfigPath (dirname h).

(** The code from one place to the next; nothing runs after [Up] or
    [Down]. *)
Definition advance_member `{Yaml} (h : host) (p : pc) (w : world) : option (pc * world) :=
  let target := member_target h in
  let path := member_path h in
  match p with
  | AtStart => Some (AtRead, console_log [Str "Detected target address:"; Str target] w)
  | AtRead =>
      match read_config path w with
      | Throw err =>
          Some (AtListen, console_error [Str "Error reading Prometheus config:"; Err err] w)
      | Ok config => Some (AtEdit config, w)
      end
  | AtEdit config =>
      match registerTarget target config with
      | Throw e => Some (Down e, w)
      | Ok NoScrapeConfigs =>
          Some (AtListen, console_error [Str "No scrape_configs found in Prometheus config."] w)
      | Ok JobNotFound =>
          Some (AtListen,
                console_error [Str "Job 'prometheus' not found in Prometheus config."] w)
      | Ok (Mutated added config') =>
          Some (AtWrite config', console_log (added_message added target) w)
      end
  | AtWrite config' =>
      match (let* text := dump config' in
             let* w' := openSync_w path w in Ok (text, w')) with
      | Ok (text, w') => Some (AtFill text, w')
      | Throw err =>
          Some (AtReload, console_error [Str "Error writing Prometheus config:"; Err err] w)
      end
  | AtFill text =>
      Some (AtReload, console_log [Str "Prometheus config updated."] (writeSync path text w))
  | AtReload => Some (AtListen, trigger_reload w)
  | AtListen => Some (Up, listen (PORT (env h)) HOST w)
  | Up | Down _ => None
  end.

(** An instance left to itself, for at most [fuel] steps. *)
Fixpoint finish `{Yaml} (h : host) (fuel : nat) (p : pc) (w : world) : pc * world :=
  match fuel with
  | 0 => (p, w)
  | S fuel' =>
      match advance_member h p w with
      | Some (p', w') => finish h fuel' p' w'
      | None => (p, w)
      end
  end.

(** The steps an instance has left at most. *)
Definition rank (p : pc) : nat :=
  match p with
  | AtStart => 7
  | AtRead => 6
  | AtEdit _ => 5
  | AtWrite _ => 4
  | AtFill _ => 3
  | AtReload => 2
  | AtListen => 1
  | Up | Down _ => 0
  end.

(** How the module body of [Registration.main] ended. *)
Definition ending (p : process) : pc :=
  match crashed p with
  | Some e => Down e
  | None => Up
  end.

(** ** The fleet *)

(** The world of an instance with the files as they are now. *)
Definition sync (fs : gmap string string) (w : world) : world :=
  {| files := fs;
     write_protected := write_protected w;
     console := console w;
     outbox := outbox w;
     listening := listening w |}.

(** The world a process leaves behind when it ends: its socket is
    closed. *)
Definition closed (w : world) : world :=
  {| files := files w;
     write_protected := write_protected w;
     console := console w;
     outbox := outbox w;
     listening := None |}.

Definition moved (m : member) (r : pc * world) : member :=
  {| on := on m; point := r.1; view := r.2 |}.

Definition restarted (m : member) : member :=
  {| on := on m; point := AtStart; view := closed (view m) |}.

Definition fleet_advance `{Yaml} (mv : move) (f : fleet) : option fleet :=
  match mv with
  | Step n =>
      m ← members f !! n;
      r ← advance_member (on m) (point m) (sync (shared f) (view m));
      Some {| shared := files r.2; members := <[n := moved m r]> (members f) |}
  | Restart n =>
      m ← members f !! n;
      Some {| shared := shared f; members := <[n := restarted m]> (members f) |}
  end.

(** The same as a relation. *)
Inductive fleet_step `{Yaml} (f : fleet) : move → fleet → Prop :=
| FleetStep n m r :
    members f !! n = Some m →
    advance_member (on m) (point m) (sync (shared f) (view m)) = Some r →
    fleet_step f (Step n) {| shared := files r.2; members := <[n := moved m r]> (members f) |}
| FleetRestart n m :
    members f !! n = Some m →
    fleet_step f (Restart n) {| shared := shared f; members := <[n := restarted m]> (members f) |}.

Definition schedule `{Yaml} : fleet → list move → fleet → Prop := star fleet_step.

Definition fleet_run `{Yaml} : list move → fleet → option fleet := exec fleet_advance.

(** Instance [n] left to itself, for at most [fuel] steps. *)
Fixpoint drive `{Yaml} (fuel : nat) (n : nat) (f : fleet) : fleet :=
  match fuel with
  | 0 => f
  | S fuel' =>
      match fleet_advance (Step n) f with
      | Some f' => drive fuel' n f'
      | None => f
      end
  end.

(** The instances started one after the other, each when the one
    before is [Up] or [Down]: seven steps are all an instance has. *)
Definition serial `{Yaml} (ns : list nat) (f : fleet) : fleet :=
  foldl (λ f n, drive 7 n f) f ns.

(** The instances of [hs] just started on the machine [w]. *)
Definition launch (hs : list host) (w : world) : fleet :=
  {| shared := files w;
     members := (λ h, {| on := h; point := AtStart; view := w |}) <$> hs |}.

(** The steps the fleet has left at most. *)
Definition weight (f : fleet) : nat := sum_list ((λ m, rank (point m)) <$> members f).

(** ** Views used in the statements *)

(** [text] is what the printer makes of [c], and reads back as [c]. *)
Definition printed `{Yaml} (c : value) (text : string) : Prop :=
  dump c = Ok text ∧ load text = Ok c.

(** The configuration file in the directory [d] holds the document
    [c0] with the target set [tl]. *)
Definition holds `{Yaml} (d : string) (c0 : value) (i : nat) (tl : list value)
    (f : fleet) : Prop :=
  ∃ text c, shared f !! prometheusConfigPath d = Some text ∧
    load text = Ok c ∧ descends c0 i tl c.

(** The addresses of the instances [ns] of the hosts [hs], in that
    order. *)
Definition targets_in (hs : list host) (ns : list nat) : list string :=
  omap (λ n, member_target <$> hs !! n) ns.

(** Instance [n] is about to start and may write the file. *)
Definition waiting (d : string) (f : fleet) (n : nat) : Prop :=
  ∃ m, members f !! n = Some m ∧ point m = AtStart ∧
    prometheusConfigPath d ∉ write_protected (view m).

(** Instance [n] went through its module body and listens. *)
Definition up (f : fleet) (n : nat) : Prop :=
  ∃ m, members f !! n = Some m ∧ point m = Up ∧
    listening (view m) = Some (PORT (env (on m)), HOST).

(** ** Examples *)

(** A second instance on the machine of [app_host], on port 8001. *)
Definition second_host : host :=
  {| env := {[ "PORT" := "8001" ]}; nets := host_nets; dirname := "/app" |}.

(** Both instances just started on a machine whose file holds [doc3]. *)
Definition pair : fleet :=
  launch [app_host; second_host] (disk (ref_print doc3)).

(** The first instance resolved its address and read the file, the
    second resolved its address. *)
Definition three_steps : list nat := [0; 1; 0].

Definition after_three_steps : fleet :=
  default pair (fleet_run (H := RefCodec) (Step <$> three_steps) pair).

(** ** Lemmas: one instance *)

Section member_lemmas.
Context `{Yaml}.

Lemma advance_member_rank h p w r :
  advance_member h p w = Some r → rank r.1 < rank p.
Proof.
  destruct p; cbn [advance_member]; try done; try (intros [= <-]; simpl; lia).
  - destruct (read_config _ _); intros [= <-]; simpl; lia.
  - destruct (registerTarget _ _) as [[| |a c']|e]; intros [= <-]; simpl; lia.
  - destruct (let* _ := dump _ in _) as [[text w']|err]; intros [= <-]; simpl; lia.
Qed.

Lemma advance_member_None h p w : advance_member h p w = None ↔ rank p = 0.
Proof.
  destruct p; simpl; try done.
  - by destruct (read_config _ _).
  - by destruct (registerTarget _ _) as [[| |a c']|e].
  - by destruct (let* _ := dump _ in _) as [[text w']|err].
Qed.

Lemma finish_halted h fuel p w : rank p = 0 → finish h fuel p w = (p, w).
Proof.
  intros Hr%(advance_member_None h p w). destruct fuel; simpl; [done|]. by rewrite Hr.
Qed.

(** Seven steps are enough. *)
Lemma finish_rank h fuel p w : rank p ≤ fuel → rank (finish h fuel p w).1 = 0.
Proof.
  revert p w. induction fuel as [|fuel IH]; intros p w Hr; simpl; [lia|].
  destruct (advance_member h p w) as [[p' w']|] eqn:Hadv.
  - apply IH. apply advance_member_rank in Hadv. simpl in Hadv. lia.
  - by apply advance_member_None in Hadv.
Qed.

Lemma finish_S h fuel p w :
  finish h (S fuel) p w =
  match advance_member h p w with
  | Some r => finish h fuel r.1 r.2
  | None => (p, w)
  end.
Proof. simpl. by destruct (advance_member h p w) as [[p' w']|]. Qed.

(** The write of line 148, in its two steps. *)
Lemma finish_write h c' w :
  finish h 4 (AtWrite c') w =
  (Up, listen (PORT (env h)) HOST (trigger_reload (write_config (member_path h) c' w))).
Proof.
  simpl. unfold write_config. destruct (dump c') as [text|err]; simpl; [|done].
  rewrite writeFileSync_calls. by destruct (openSync_w _ _).
Qed.

(** An instance left to itself runs the module body as
    [Registration.main] has it. *)
Lemma finish_main h w : finish h 7 AtStart w = (ending (main h w), now (main h w)).
Proof.
  unfold main, updatePrometheusYML, ending. fold (member_target h) (member_path h).
  rewrite finish_S. cbn [advance_member fst snd]. rewrite finish_S. cbn [advance_member].
  destruct (read_config _ _) as [c|err]; [|done].
  cbn [fst snd]. rewrite finish_S. cbn [advance_member].
  destruct (registerTarget _ _) as [[| |a c']|e]; try done.
  cbn [result_bind fst snd]. by rewrite finish_write.
Qed.

Lemma finish_add h a b p w :
  finish h (a + b) p w = finish h b (finish h a p w).1 (finish h a p w).2.
Proof.
  revert p w. induction a as [|a IH]; intros p w; [done|].
  change (S a + b) with (S (a + b)). rewrite !finish_S.
  destruct (advance_member h p w) as [r|] eqn:Hr; [apply IH|].
  simpl. apply advance_member_None in Hr. by rewrite finish_halted.
Qed.

Lemma printed_loaded c : loaded c = true → ∃ text, printed c text.
Proof. apply dump_load. Qed.

(** Lines 105-145 on a file that holds a document of the family: the
    instance is left with the document in which it is listed. *)
Lemma finish_reads h w text c0 i tl c :
  files w !! member_path h = Some text → load text = Ok c → descends c0 i tl c →
  finish h 3 AtStart w =
  (AtWrite (with_targets c0 i (listed (member_target h) tl)),
   console_log (added_message (negb (bool_decide (VString (member_target h) ∈ tl)))
                  (member_target h))
     (console_log [Str "Detected target address:"; Str (member_target h)] w)).
Proof.
  intros Hf Hl Hd. rewrite finish_S. cbn [advance_member fst snd]. rewrite finish_S.
  cbn [advance_member]. unfold read_config, readFileSync. cbn [files console_log print].
  rewrite Hf. cbn [result_bind]. rewrite Hl. cbn [fst snd]. rewrite finish_S.
  cbn [advance_member]. by rewrite (proj1 (descends_register _ _ _ _ _ Hd)).
Qed.

(** Lines 148-234 when the file can be written. *)
Lemma finish_writes h w c text :
  dump c = Ok text → member_path h ∉ write_protected w →
  finish h 4 (AtWrite c) w =
  (Up, listen (PORT (env h)) HOST
         (trigger_reload
            (console_log [Str "Prometheus config updated."]
               (writeSync (member_path h) text w)))).
Proof.
  intros Hd Hp. rewrite finish_write. unfold write_config. rewrite Hd. cbn [result_bind].
  unfold writeFileSync. by rewrite decide_False.
Qed.

(** Fuel beyond the end of the module body changes nothing. *)
Lemma finish_more h a b p w :
  rank (finish h a p w).1 = 0 → finish h (a + b) p w = finish h a p w.
Proof.
  intros Hr. rewrite finish_add, finish_halted by done. by destruct (finish h a p w).
Qed.

(** Line 148 after the opening, and lines 149-234. *)
Lemma finish_fills h w text :
  finish h 3 (AtFill text) w =
  (Up, listen (PORT (env h)) HOST
         (trigger_reload
            (console_log [Str "Prometheus config updated."]
               (writeSync (member_path h) text w)))).
Proof. done. Qed.

(** Lines 105-122 on an empty file: the parser returns [undefined],
    and the property read of line 122 throws. *)
Lemma finish_blind h w :
  files w !! member_path h = Some "" →
  finish h 7 AtStart w =
  (Down (TypeError Reading VUndefined "scrape_configs"),
   console_log [Str "Detected target address:"; Str (member_target h)] w).
Proof.
  intros Hf. rewrite finish_S. cbn [advance_member fst snd]. rewrite finish_S.
  cbn [advance_member]. unfold read_config, readFileSync. cbn [files console_log print].
  rewrite Hf. cbn [result_bind]. by rewrite load_empty.
Qed.

End member_lemmas.

(** ** Lemmas: the fleet *)

Section fleet_lemmas.
Context `{Yaml}.

Lemma fleet_advance_step mv f f' : fleet_advance mv f = Some f' ↔ fleet_step f mv f'.
Proof.
  split.
  - destruct mv as [n|n]; simpl; destruct (members f !! n) as [m|] eqn:Hm; simpl; try done.
    + destruct (advance_member _ _ _) as [r|] eqn:Hr; simpl; [|done].
      intros [= <-]. by econstructor.
    + intros [= <-]. by econstructor.
  - intros [n m r Hm Hr|n m Hm]; simpl; rewrite Hm; simpl; [by rewrite Hr|done].
Qed.

Lemma fleet_run_schedule ms f f' : fleet_run ms f = Some f' ↔ schedule f ms f'.
Proof. apply exec_star. intros. symmetry. apply fleet_advance_step. Qed.

Lemma sync_files w : sync (files w) w = w.
Proof. by destruct w. Qed.

Lemma moved_id m : moved m (point m, view m) = m.
Proof. by destruct m. Qed.

Lemma fleet_advance_Step n f m :
  members f !! n = Some m →
  fleet_advance (Step n) f =
  r ← advance_member (on m) (point m) (sync (shared f) (view m));
  Some {| shared := files r.2; members := <[n := moved m r]> (members f) |}.
Proof. intros Hm. simpl. by rewrite Hm. Qed.

(** What [drive] does is a schedule of the fleet. *)
Lemma drive_run fuel n f :
  ∃ k, k ≤ fuel ∧ fleet_run (replicate k (Step n)) f = Some (drive fuel n f).
Proof.
  revert f. induction fuel as [|fuel IH]; intros f; [by exists 0|]. cbn [drive].
  destruct (fleet_advance (Step n) f) as [f'|] eqn:Hf; [|by exists 0; split; [lia|]].
  destruct (IH f') as (k & Hk & Hrun). exists (S k). split; [lia|].
  cbn [replicate fleet_run exec]. by rewrite Hf.
Qed.

(** An instance whose view of the files is current, left to itself. *)
Lemma drive_synced fuel n f m :
  members f !! n = Some m → files (view m) = shared f →
  drive fuel n f =
  {| shared := files (finish (on m) fuel (point m) (view m)).2;
     members := <[n := moved m (finish (on m) fuel (point m) (view m))]> (members f) |}.
Proof.
  revert f m. induction fuel as [|fuel IH]; intros f m Hm Hs.
  { simpl. rewrite moved_id, list_insert_id, Hs by done. by destruct f. }
  cbn [drive]. rewrite (fleet_advance_Step n f m Hm), <- Hs, sync_files, finish_S.
  destruct (advance_member _ _ _) as [r|] eqn:Hr; simpl.
  - rewrite (IH _ (moved m r)); simpl; [|by apply list_lookup_insert_eq, lookup_lt_Some with m|done].
    by rewrite list_insert_insert_eq.
  - rewrite moved_id, list_insert_id, Hs by done. by destruct f.
Qed.

(** An instance that has steps left, left to itself. *)
Lemma drive_finish fuel n f m :
  members f !! n = Some m → rank (point m) ≠ 0 →
  drive (S fuel) n f =
  {| shared := files (finish (on m) (S fuel) (point m) (sync (shared f) (view m))).2;
     members :=
       <[n := moved m (finish (on m) (S fuel) (point m) (sync (shared f) (view m)))]>
         (members f) |}.
Proof.
  intros Hm Hr. cbn [drive]. rewrite (fleet_advance_Step n f m Hm), finish_S.
  destruct (advance_member _ _ _) as [r|] eqn:Hadv; simpl;
    [|by apply advance_member_None in Hadv].
  rewrite (drive_synced fuel n _ (moved m r)); simpl;
    [|by apply list_lookup_insert_eq, lookup_lt_Some with m|done].
  by rewrite list_insert_insert_eq.
Qed.

Lemma weight_insert n m m' l :
  l !! n = Some m →
  sum_list ((λ m, rank (point m)) <$> <[n := m']> l) + rank (point m) =
  sum_list ((λ m, rank (point m)) <$> l) + rank (point m').
Proof. apply (sum_list_fmap_insert (λ m, rank (point m))). Qed.

(** Every step of an instance uses up some of what the fleet has
    left. *)
Lemma fleet_step_weight f n f' : fleet_step f (Step n) f' → weight f' < weight f.
Proof.
  inversion 1 as [? m r Hm Hr|]; subst. unfold weight. simpl.
  pose proof (weight_insert n m (moved m r) _ Hm) as Hw.
  apply advance_member_rank in Hr. simpl in Hw. lia.
Qed.

Lemma schedule_weight f ns f' :
  schedule f (Step <$> ns) f' → length ns + weight f' ≤ weight f.
Proof.
  revert f. induction ns as [|n ns IH]; intros f; simpl.
  - intros <-%star_nil_inv. lia.
  - intros (f1 & Hstep%fleet_step_weight & Hs%IH)%star_cons_inv. lia.
Qed.

Lemma weight_launch hs w : weight (launch hs w) = 7 * length hs.
Proof.
  unfold weight, launch. cbn [members]. rewrite <- list_fmap_compose.
  induction hs as [|h hs IH]; csimpl in *; lia.
Qed.

(** An instance that is neither [Up] nor [Down] can take a step. *)
Lemma fleet_progress f n m :
  members f !! n = Some m → rank (point m) ≠ 0 → ∃ f', fleet_step f (Step n) f'.
Proof.
  intros Hm Hr.
  destruct (advance_member (on m) (point m) (sync (shared f) (view m))) as [r|] eqn:Hadv;
    [|by apply advance_member_None in Hadv].
  eexists. by econstructor.
Qed.

End fleet_lemmas.

(** ** Lemmas: instances on one configuration file *)

Section shared_file.
Context `{Yaml} (d : string) (c0 : value) (i : nat).

Local Abbreviation path := (prometheusConfigPath d).

Lemma drive_add a b n f : drive (a + b) n f = drive b n (drive a n f).
Proof.
  revert f. induction a as [|a IH]; intros f; [done|]. cbn [Nat.add drive].
  destruct (fleet_advance (Step n) f) as [f'|] eqn:Hf; [apply IH|].
  destruct b; cbn [drive]; [done|]. by rewrite Hf.
Qed.

(** Lines 105-145 in the fleet: the file is read, and not touched. *)
Lemma drive_reads n f m text tl c :
  members f !! n = Some m → point m = AtStart →
  shared f !! member_path (on m) = Some text → load text = Ok c → descends c0 i tl c →
  drive 3 n f =
  {| shared := shared f;
     members :=
       <[n := moved m
          (AtWrite (with_targets c0 i (listed (member_target (on m)) tl)),
           console_log (added_message (negb (bool_decide (VString (member_target (on m)) ∈ tl)))
                          (member_target (on m)))
             (console_log [Str "Detected target address:"; Str (member_target (on m))]
                (sync (shared f) (view m))))]> (members f) |}.
Proof.
  intros Hm Hp Hf Hl Hc. rewrite (drive_finish 2 n f m Hm) by (by rewrite Hp).
  by rewrite Hp, (finish_reads (on m) _ text c0 i tl c).
Qed.

(** Line 148, first half: the file is emptied. *)
Lemma drive_opens n f m c text :
  members f !! n = Some m → point m = AtWrite c → dump c = Ok text →
  member_path (on m) ∉ write_protected (view m) →
  drive 1 n f =
  {| shared := <[member_path (on m) := ""]> (shared f);
     members :=
       <[n := moved m (AtFill text, sync (<[member_path (on m) := ""]> (shared f)) (view m))]>
         (members f) |}.
Proof.
  intros Hm Hp Hd Hw. rewrite (drive_finish 0 n f m Hm) by (by rewrite Hp).
  rewrite Hp. cbn [finish advance_member]. rewrite Hd. cbn [result_bind].
  unfold openSync_w. cbn [write_protected sync]. by rewrite decide_False.
Qed.

(** Line 148, second half, and the rest of the module body. *)
Lemma drive_fills k n f m text :
  members f !! n = Some m → point m = AtFill text →
  drive (3 + k) n f =
  {| shared := <[member_path (on m) := text]> (shared f);
     members :=
       <[n := moved m
          (Up, listen (PORT (env (on m))) HOST
                 (trigger_reload
                    (console_log [Str "Prometheus config updated."]
                       (sync (<[member_path (on m) := text]> (shared f)) (view m)))))]>
         (members f) |}.
Proof.
  intros Hm Hp. rewrite (drive_finish (2 + k) n f m Hm) by (by rewrite Hp).
  rewrite Hp. change (S (2 + k)) with (3 + k). by rewrite finish_more, finish_fills.
Qed.

(** Line 148 as a whole, and the rest of the module body. *)
Lemma drive_writes k n f m c text :
  members f !! n = Some m → point m = AtWrite c → dump c = Ok text →
  member_path (on m) ∉ write_protected (view m) →
  drive (4 + k) n f =
  {| shared := <[member_path (on m) := text]> (shared f);
     members :=
       <[n := moved m
          (Up, listen (PORT (env (on m))) HOST
                 (trigger_reload
                    (console_log [Str "Prometheus config updated."]
                       (sync (<[member_path (on m) := text]> (shared f)) (view m)))))]>
         (members f) |}.
Proof.
  intros Hm Hp Hd Hw. change (4 + k) with (1 + (3 + k)).
  rewrite drive_add, (drive_opens n f m c text) by done.
  rewrite (drive_fills k n _ (moved m (AtFill text, sync (<[member_path (on m) := ""]> (shared f))
                                                      (view m))) text);
    [|apply list_lookup_insert_eq; by eapply lookup_lt_Some|done].
  cbn [shared members moved on]. by rewrite insert_insert_eq, list_insert_insert_eq.
Qed.

Lemma drive_writes_end n f m c text :
  members f !! n = Some m → point m = AtWrite c → dump c = Ok text →
  member_path (on m) ∉ write_protected (view m) →
  drive 7 n f =
  {| shared := <[member_path (on m) := text]> (shared f);
     members :=
       <[n := moved m
          (Up, listen (PORT (env (on m))) HOST
                 (trigger_reload
                    (console_log [Str "Prometheus config updated."]
                       (sync (<[member_path (on m) := text]> (shared f)) (view m)))))]>
         (members f) |}.
Proof. apply (drive_writes 3). Qed.

Lemma drive_fills_end n f m text :
  members f !! n = Some m → point m = AtFill text →
  drive 7 n f =
  {| shared := <[member_path (on m) := text]> (shared f);
     members :=
       <[n := moved m
          (Up, listen (PORT (env (on m))) HOST
                 (trigger_reload
                    (console_log [Str "Prometheus config updated."]
                       (sync (<[member_path (on m) := text]> (shared f)) (view m)))))]>
         (members f) |}.
Proof. apply (drive_fills 4). Qed.

(** An instance that starts on an empty file goes down. *)
Lemma drive_blind n f m :
  members f !! n = Some m → point m = AtStart → shared f !! member_path (on m) = Some "" →
  drive 7 n f =
  {| shared := shared f;
     members :=
       <[n := moved m
          (Down (TypeError Reading VUndefined "scrape_configs"),
           console_log [Str "Detected target address:"; Str (member_target (on m))]
             (sync (shared f) (view m)))]> (members f) |}.
Proof.
  intros Hm Hp Hf. rewrite (drive_finish 6 n f m Hm) by (by rewrite Hp).
  by rewrite Hp, finish_blind.
Qed.

(** An instance that starts on a file of the family and is left to
    itself puts its address into the file and listens. *)
Lemma drive_registers n f m tl :
  members f !! n = Some m → point m = AtStart → dirname (on m) = d →
  path ∉ write_protected (view m) → holds d c0 i tl f →
  ∃ text w,
    drive 7 n f =
      {| shared := <[path := text]> (shared f);
         members := <[n := {| on := on m; point := Up; view := w |}]> (members f) |} ∧
    printed (with_targets c0 i (listed (member_target (on m)) tl)) text ∧
    descends c0 i (listed (member_target (on m)) tl)
      (with_targets c0 i (listed (member_target (on m)) tl)) ∧
    listening w = Some (PORT (env (on m)), HOST).
Proof.
  intros Hm Hp Hd Hw (text & c & Hf & Hload & Hc).
  pose proof (proj2 (descends_register (member_target (on m)) _ _ _ _ Hc)) as Hc'.
  destruct (printed_loaded _ (descends_loaded _ _ _ _ Hc')) as (text' & Hpr).
  exists text'. eexists. split_and!; [|done..|].
  - rewrite (drive_finish 6 n f m Hm) by (by rewrite Hp).
    rewrite Hp, (finish_add (on m) 3 4).
    rewrite (finish_reads (on m) _ text c0 i tl c) by (unfold member_path; by rewrite ?Hd).
    cbn [fst snd]. rewrite (finish_writes (on m) _ _ text') by
      (unfold member_path; rewrite ?Hd; done || apply Hpr).
    unfold moved, member_path. rewrite Hd. reflexivity.
  - done.
Qed.

(** The same, as what it leaves true of the fleet. *)
Lemma drive_holds n f tl hs :
  on <$> members f = hs → Forall (λ h, dirname h = d) hs →
  waiting d f n → holds d c0 i tl f →
  ∃ h, hs !! n = Some h ∧
    holds d c0 i (listed (member_target h) tl) (drive 7 n f) ∧
    on <$> members (drive 7 n f) = hs ∧ up (drive 7 n f) n ∧
    ∀ n', n' ≠ n → members (drive 7 n f) !! n' = members f !! n'.
Proof.
  intros Hon Hdir (m & Hm & Hp & Hw) Hh.
  assert (hs !! n = Some (on m)) as Hn by (by rewrite <- Hon, list_lookup_fmap, Hm).
  pose proof (Forall_lookup_1 _ _ _ _ Hdir Hn) as Hd. simpl in Hd.
  destruct (drive_registers n f m tl Hm Hp Hd Hw Hh) as (text & w & -> & Hpr & Hc & Hl).
  exists (on m). split_and!; [done| | | |].
  - eexists text, _. split_and!; [|apply Hpr|done]. simpl. apply lookup_insert_eq.
  - simpl. rewrite list_fmap_insert. simpl. rewrite <- Hon. apply list_insert_id.
    by rewrite list_lookup_fmap, Hm.
  - eexists. split_and!; [apply list_lookup_insert_eq; by eapply lookup_lt_Some|done..].
  - intros n' Hn'. simpl. by apply list_lookup_insert_ne.
Qed.

(** The instances [ns], started one after the other. *)
Lemma serial_holds hs ns f tl :
  on <$> members f = hs → Forall (λ h, dirname h = d) hs → NoDup ns →
  (∀ n, n ∈ ns → waiting d f n) → holds d c0 i tl f →
  holds d c0 i (all_listed (targets_in hs ns) tl) (serial ns f) ∧
  on <$> members (serial ns f) = hs ∧
  (∀ n, n ∈ ns → up (serial ns f) n) ∧
  ∀ n', n' ∉ ns → members (serial ns f) !! n' = members f !! n'.
Proof.
  intros Hon Hdir Hnd. revert f tl Hon.
  induction Hnd as [|n ns Hn Hnd IH]; intros f tl Hon Hw Hh.
  { split_and!; [done..|by intros n ?%elem_of_nil|done]. }
  destruct (drive_holds n f tl hs Hon Hdir) as (h & Hh' & Hholds & Hon' & Hup & Hframe);
    [apply Hw; by left|done|].
  destruct (IH (drive 7 n f) (listed (member_target h) tl) Hon') as (IH1 & IH2 & IH3 & IH4);
    [|done|].
  { intros n' Hn'. unfold waiting. rewrite Hframe by (by intros ->). apply Hw. by right. }
  unfold targets_in. cbn [serial foldl omap list_omap]. rewrite Hh'. csimpl.
  split_and!; [done..| |].
  - intros n' [->|Hn']%elem_of_cons; [|by apply IH3]. unfold up. by rewrite IH4.
  - intros n' [Hne Hn']%not_elem_of_cons. rewrite IH4 by done. by apply Hframe.
Qed.

Lemma targets_in_seq hs : targets_in hs (seq 0 (length hs)) = member_target <$> hs.
Proof.
  unfold targets_in. induction hs as [|h hs IH] using rev_ind; [done|].
  rewrite length_app, Nat.add_comm. cbn [length Nat.add]. rewrite seq_S, omap_app, fmap_app.
  f_equal.
  - rewrite <- IH. apply list_omap_ext, Forall_Forall2_diag, Forall_forall.
    intros n Hn%elem_of_seq. rewrite lookup_app_l by lia. done.
  - csimpl. by rewrite list_lookup_middle.
Qed.

(** * Theorems *)

(** [C25] One instance alone is the program as [Registration] has it: a
    fleet of one instance, left to itself for the seven steps it has at
    most, ends with the files, the console, the requests and the socket
    that the module body [main] leaves, [Up] if [main] went through and
    [Down] with the exception that ended it otherwise. *)
Theorem fleet_of_one h w :
  drive 7 0 (launch [h] w) =
  {| shared := files (now (main h w));
     members := [{| on := h; point := ending (main h w); view := now (main h w) |}] |}.
Proof.
  rewrite (drive_synced 7 0 _ {| on := h; point := AtStart; view := w |}) by done.
  cbn [on point view]. by rewrite finish_main.
Qed.

(** [C32] Every schedule ends: a fleet of [n] instances takes at most
    [7 * n] steps without a restart, and as long as an instance is
    neither [Up] nor [Down] it can take a step, whatever the others
    did. *)
Theorem fleet_terminates hs w ns f' :
  schedule (launch hs w) (Step <$> ns) f' →
  length ns ≤ 7 * length hs ∧
  ∀ n m, members f' !! n = Some m → rank (point m) ≠ 0 → ∃ f'', fleet_step f' (Step n) f''.
Proof.
  intros Hs%schedule_weight. rewrite weight_launch in Hs.
  split; [lia|]. intros n m. apply fleet_progress.
Qed.

(** [C16] Instances that start one after the other are all registered:
    when the file holds a settled document, the directory is shared
    and the file can be written, then after the instances [ns] ran in
    that order, each to its end, the file reads as the document with
    their addresses added to the target set, every one of them
    listens, and another order of starting would list the same
    addresses. *)
Theorem serial_registers_all hs ns w text tl0 :
  settled c0 i = true → targets_of c0 i = Some tl0 →
  files w !! path = Some text → load text = Ok c0 → path ∉ write_protected w →
  Forall (λ h, dirname h = d) hs → NoDup ns → (∀ n, n ∈ ns → n < length hs) →
  (∃ text', shared (serial ns (launch hs w)) !! path = Some text' ∧
     load text' = Ok (with_targets c0 i (all_listed (targets_in hs ns) tl0))) ∧
  (∀ n, n ∈ ns → up (serial ns (launch hs w)) n) ∧
  ∀ ns', ns' ≡ₚ ns →
    all_listed (targets_in hs ns') tl0 ≡ₚ all_listed (targets_in hs ns) tl0.
Proof.
  intros Hs Htl Hf Hl Hp Hdir Hnd Hns.
  destruct (serial_holds hs ns (launch hs w) tl0) as ((text' & c & Hf' & Hl' & Hc) & _ & Hup & _);
    [|done..| | |].
  - unfold launch. cbn [members]. rewrite <- list_fmap_compose. apply list_fmap_id.
  - intros n (h & Hh)%Hns%lookup_lt_is_Some. exists {| on := h; point := AtStart; view := w |}.
    split_and!; [|done..]. unfold launch. cbn [members]. by rewrite list_lookup_fmap, Hh.
  - exists text, c0. split_and!; [done..|by apply descends_refl].
  - split_and!; [|done|].
    + exists text'. split; [done|]. by rewrite Hl', (descends_rest _ _ _ _ Hc).
    + intros ns' Hns'. unfold targets_in. by rewrite Hns'.
Qed.

End shared_file.

Lemma fleet_terminates_witness :
  length three_steps ≤ 7 * length [app_host; second_host] ∧
  ∀ n m, members after_three_steps !! n = Some m → rank (point m) ≠ 0 →
    ∃ f'', fleet_step (H := RefCodec) after_three_steps (Step n) f''.
Proof.
  apply (fleet_terminates (H := RefCodec) [app_host; second_host] (disk (ref_print doc3))).
  apply fleet_run_schedule. vm_compute. reflexivity.
Defined.

Lemma serial_registers_all_witness :
  (∃ text', shared (serial (H := RefCodec) [1; 0] pair) !! "/app/prometheus.yml" = Some text' ∧
     load (Yaml := RefCodec) text' =
       Ok (with_targets doc3 1
             (all_listed (targets_in [app_host; second_host] [1; 0])
                [VString "10.0.0.1:8000"]))) ∧
  (∀ n, n ∈ [1; 0] → up (serial (H := RefCodec) [1; 0] pair) n) ∧
  ∀ ns', ns' ≡ₚ [1; 0] →
    all_listed (targets_in [app_host; second_host] ns') [VString "10.0.0.1:8000"] ≡ₚ
    all_listed (targets_in [app_host; second_host] [1; 0]) [VString "10.0.0.1:8000"].
Proof.
  apply (serial_registers_all (H := RefCodec) "/app" doc3 1 [app_host; second_host] [1; 0]
           (disk (ref_print doc3)) (ref_print doc3)).
  - reflexivity.
  - reflexivity.
  - reflexivity.
  - vm_compute. reflexivity.
  - vm_compute. set_solver.
  - repeat constructor.
  - apply NoDup_cons. split; [set_solver|]. apply NoDup_singleton.
  - intros n Hn. simpl. set_solver by lia.
Defined.
