(* ===== verification/FleetSafety.v ===== *)
(** * FleetSafety: what holds of the file under every schedule, and what
    does not

    The instances of a fleet read, empty and write one file without any
    lock.  This file shows what that does to the configuration.

    - Whatever the schedule and the restarts, the file is either empty
      (an instance is between the opening and the writing of line 148,
      or was ended there) or holds the document the fleet started from
      with addresses of the fleet added at the end of the target set:
      nothing that was there is lost or changed ([fleet_ok] is the
      invariant), and the target set gains one entry an instance at
      most, however often the instances are started.
    - The addresses of the fleet are not safe from each other: an
      instance that reads before another writes, and writes after it,
      removes the other's address again.
    - An instance that reads the file while it is empty gets
      [undefined] from the parser and ends with the [TypeError] of
      line 122, before [app.listen].
    - After a restart an instance brings its address into the file
      again, unless the file was left empty: then every instance that
      starts goes down, until the file is repaired by hand. *)

From stdpp Require Import base strings pretty numbers gmap option list.
From S2P Require Import Prelude JsValue AddressResolver ConfigMutator Settled.
From S2P Require Import World Registration Fleet.

Local Open Scope string_scope.
Local Open Scope nat_scope.
Local Open Scope list_scope.

(** ** The invariant *)

(** [c] is the document [c0] with addresses of the hosts [hs] added to
    its target set [tl0]. *)
Definition grown (hs : list host) (c0 : value) (i : nat) (tl0 : list value)
    (c : value) : Prop :=
  ∃ ts, ts ⊆ member_target <$> hs ∧ descends c0 i (all_listed ts tl0) c.

(** The target set of the job [i] of [c] has the address [t]. *)
Definition lists (i : nat) (t : string) (c : value) : Prop :=
  ∃ tl, targets_of c i = Some tl ∧ VString t ∈ tl.

(** What an instance of the host [h] holds at a place of the module
    body: what it is about to write has its address. *)
Definition pc_ok `{Yaml} (hs : list host) (c0 : value) (i : nat) (tl0 : list value)
    (h : host) (p : pc) : Prop :=
  match p with
  | AtEdit c => c = VUndefined ∨ grown hs c0 i tl0 c
  | AtWrite c => grown hs c0 i tl0 c ∧ lists i (member_target h) c
  | AtFill text => ∃ c, load text = Ok c ∧ grown hs c0 i tl0 c ∧ lists i (member_target h) c
  | _ => True
  end.

(** What the configuration file in the directory [d] holds. *)
Definition file_ok `{Yaml} (d : string) (hs : list host) (c0 : value) (i : nat)
    (tl0 : list value) (fs : gmap string string) : Prop :=
  ∃ text, fs !! prometheusConfigPath d = Some text ∧
    (text = "" ∨ ∃ c, load text = Ok c ∧ grown hs c0 i tl0 c).

Record fleet_ok `{Yaml} (d : string) (hs : list host) (wp : gset string)
    (c0 : value) (i : nat) (tl0 : list value) (f : fleet) : Prop := FleetOk {
  fleet_hosts : on <$> members f = hs;
  fleet_file : file_ok d hs c0 i tl0 (shared f);
  fleet_points : Forall (λ m, pc_ok hs c0 i tl0 (on m) (point m)) (members f);
  fleet_protected : Forall (λ m, write_protected (view m) = wp) (members f)
}.

(** The last line instance [n] printed on its standard output. *)
Definition said (f : fleet) (n : nat) (a : list log_arg) : Prop :=
  ∃ m, members f !! n = Some m ∧
    last (console (view m)) = Some {| to := Stdout; args := a |}.

(** An instance that holds no document: it has not read the file, or
    read it empty, or is done with it. *)
Definition blind (p : pc) : Prop :=
  match p with
  | AtEdit c => c = VUndefined
  | AtWrite _ | AtFill _ => False
  | _ => True
  end.

(** Two instances, each reading before the other has written: the
    first reads and edits, the second reads and edits, the first
    writes and goes on to its end, then the second. *)
Definition overlap `{Yaml} (f : fleet) : fleet :=
  drive 7 1 (drive 7 0 (drive 3 1 (drive 3 0 f))).

(** Two instances, the second reading while the first is between the
    opening and the writing of the file: the first runs up to there,
    the second runs to its end, then the first. *)
Definition torn `{Yaml} (f : fleet) : fleet :=
  drive 7 0 (drive 7 1 (drive 4 0 f)).

(** ** Examples *)

(** Steps of both instances of [pair] and a restart of the first. *)
Definition shaken : list move :=
  [Step 0; Step 0; Step 1; Step 0; Step 0; Restart 0; Step 1; Step 0].

Definition after_shaken : fleet :=
  default pair (fleet_run (H := RefCodec) shaken pair).

(** The schedule of [overlap], step by step. *)
Definition racing : list move :=
  Step <$> [0; 0; 0; 1; 1; 1; 0; 0; 0; 0; 1; 1; 1; 1].

Definition after_racing : fleet :=
  default pair (fleet_run (H := RefCodec) racing pair).

(** Both instances read, the first edits and opens the file. *)
Definition filling : list move := Step <$> [0; 0; 0; 1; 1; 0].

Definition after_filling : fleet :=
  default pair (fleet_run (H := RefCodec) filling pair).

(** One instance, ended between the opening and the writing of the
    file and started again. *)
Definition cut_short : fleet :=
  default pair
    (fleet_run (H := RefCodec) [Step 0; Step 0; Step 0; Step 0; Restart 0]
       (launch [app_host] (disk (ref_print doc3)))).

Definition after_cut_short : fleet :=
  default cut_short (fleet_run (H := RefCodec) [Step 0; Step 0] cut_short).

(** The path of an instance of the shared directory. *)
Local Ltac at_path :=
  unfold member_path;
  cbn [on view shared moved fst snd write_protected console_log print sync];
  repeat match goal with Hd : dirname _ = _ |- _ => rewrite !Hd; clear Hd end.

(** ** Lemmas: the invariant, one instance *)

Section invariant.
Context `{Yaml} (d : string) (hs : list host) (wp : gset string).
Context (c0 : value) (i : nat) (tl0 : list value).
Context (Hdir : Forall (λ h, dirname h = d) hs).

Local Abbreviation path := (prometheusConfigPath d).

Lemma grown_register h c :
  h ∈ hs → grown hs c0 i tl0 c →
  ∃ a c', registerTarget (member_target h) c = Ok (Mutated a c') ∧ grown hs c0 i tl0 c' ∧
    lists i (member_target h) c'.
Proof.
  intros Hh (ts & Hts & Hc).
  destruct (descends_register (member_target h) _ _ _ _ Hc) as [Hreg Hc'].
  eexists _, _. split_and!; [done| |].
  - exists (ts ++ [member_target h]). split.
    + intros t [?|Ht%list_elem_of_singleton]%elem_of_app; [by apply Hts|].
      subst t. by apply list_elem_of_fmap_2.
    + unfold all_listed. by rewrite foldl_app.
  - exists (listed (member_target h) (all_listed ts tl0)).
    split; [apply Hc'|]. apply elem_of_listed. by right.
Qed.

Lemma grown_printed c :
  grown hs c0 i tl0 c → ∃ text, dump c = Ok text ∧ load text = Ok c.
Proof. intros (ts & _ & Hc). eapply printed_loaded, descends_loaded, Hc. Qed.

Lemma member_path_shared h : h ∈ hs → member_path h = path.
Proof.
  intros Hh. unfold member_path. by rewrite (proj1 (Forall_forall _ _) Hdir h Hh).
Qed.

(** Line 116 on a file of the fleet. *)
Lemma read_ok h w :
  h ∈ hs → file_ok d hs c0 i tl0 (files w) →
  ∃ c, read_config (member_path h) w = Ok c ∧ (c = VUndefined ∨ grown hs c0 i tl0 c).
Proof.
  intros Hh (text & Hf & Ht). rewrite (member_path_shared h Hh).
  unfold read_config, readFileSync. rewrite Hf. cbn [result_bind].
  destruct Ht as [->|(c & Hl & Hc)]; [|by eauto].
  exists VUndefined. split; [apply load_empty|by left].
Qed.

(** Line 148 on a document of the fleet. *)
Lemma open_ok h c w :
  h ∈ hs → grown hs c0 i tl0 c →
  (∃ text w', (let* text := dump c in let* w' := openSync_w (member_path h) w in
               Ok (text, w')) = Ok (text, w') ∧
     load text = Ok c ∧ files w' = <[path := ""]> (files w)) ∨
  (∃ err, (let* text := dump c in let* w' := openSync_w (member_path h) w in
           Ok (text, w')) = Throw err).
Proof.
  intros Hh (text & -> & Hl)%grown_printed. cbn [result_bind].
  rewrite (member_path_shared h Hh). unfold openSync_w.
  case_decide; [right; by eauto|]. left. by eexists _, _.
Qed.

(** Every step of an instance keeps the file and the instance within
    the invariant. *)
Lemma advance_member_ok h p w r :
  h ∈ hs → file_ok d hs c0 i tl0 (files w) → pc_ok hs c0 i tl0 h p →
  advance_member h p w = Some r →
  file_ok d hs c0 i tl0 (files r.2) ∧ pc_ok hs c0 i tl0 h r.1.
Proof.
  intros Hh Hs Hp. destruct p as [| |c|c|text| | | |e]; cbn [advance_member]; try done;
    try (by intros [= <-]).
  - destruct (read_ok h w Hh Hs) as (c & -> & Hc). by intros [= <-].
  - destruct Hp as [->|Hc]; [by intros [= <-]|].
    destruct (grown_register h c Hh Hc) as (a & c' & -> & Hc'). by intros [= <-].
  - destruct Hp as [Hc Ht].
    destruct (open_ok h c w Hh Hc) as [(text & w' & -> & Hl & Hf)|[err ->]];
      intros [= <-]; [|done]. cbn [fst snd]. split; [|by exists c].
    exists "". rewrite Hf, lookup_insert_eq. by eauto.
  - intros [= <-]. split; [|done]. exists text. cbn [fst snd files console_log print writeSync].
    rewrite (member_path_shared h Hh), lookup_insert_eq. split; [done|].
    right. destruct Hp as (c & ? & ? & _). by exists c.
Qed.

Lemma advance_member_protected h p w r :
  advance_member h p w = Some r → write_protected r.2 = write_protected w.
Proof.
  destruct p as [| |c|c|text| | | |e]; cbn [advance_member]; try done;
    try (by intros [= <-]).
  - destruct (read_config _ _); by intros [= <-].
  - destruct (registerTarget _ _) as [[| |a c']|err]; by intros [= <-].
  - destruct (dump c) as [text|err]; cbn [result_bind]; [|by intros [= <-]].
    unfold openSync_w. case_decide; by intros [= <-].
Qed.

(** ** Lemmas: the invariant, the fleet *)

Lemma fleet_ok_member f n m :
  fleet_ok d hs wp c0 i tl0 f → members f !! n = Some m →
  on m ∈ hs ∧ pc_ok hs c0 i tl0 (on m) (point m) ∧ write_protected (view m) = wp.
Proof.
  intros [Hon _ Hp Hw] Hm. split_and!.
  - rewrite <- Hon. apply list_elem_of_fmap_2. by eapply list_elem_of_lookup_2.
  - exact (Forall_lookup_1 _ _ _ _ Hp Hm).
  - exact (Forall_lookup_1 _ _ _ _ Hw Hm).
Qed.

Lemma fleet_ok_insert f n m m' fs :
  fleet_ok d hs wp c0 i tl0 f → members f !! n = Some m → on m' = on m →
  file_ok d hs c0 i tl0 fs → pc_ok hs c0 i tl0 (on m') (point m') →
  write_protected (view m') = wp →
  fleet_ok d hs wp c0 i tl0 {| shared := fs; members := <[n := m']> (members f) |}.
Proof.
  intros [Hon _ Hp Hw] Hm Hon' Hs Hp' Hw'. split; cbn [shared members].
  - rewrite list_fmap_insert, Hon', <- Hon. apply list_insert_id.
    by rewrite list_lookup_fmap, Hm.
  - done.
  - by apply Forall_insert.
  - by apply Forall_insert.
Qed.

(** Every move of the fleet keeps the invariant. *)
Lemma fleet_step_ok f mv f' :
  fleet_ok d hs wp c0 i tl0 f → fleet_step f mv f' → fleet_ok d hs wp c0 i tl0 f'.
Proof.
  intros Hok [n m r Hm Hr|n m Hm];
    destruct (fleet_ok_member f n m Hok Hm) as (Hh & Hp & Hw).
  - destruct (advance_member_ok (on m) (point m) (sync (shared f) (view m)) r Hh
                (fleet_file _ _ _ _ _ _ _ Hok) Hp Hr) as [Hs' Hp'].
    apply (fleet_ok_insert f n m); [done|done|done|exact Hs'|exact Hp'|].
    cbn [moved view]. by rewrite (advance_member_protected _ _ _ _ Hr).
  - apply (fleet_ok_insert f n m); [done..|apply Hok|done|done].
Qed.

Lemma schedule_ok f ms f' :
  fleet_ok d hs wp c0 i tl0 f → schedule f ms f' → fleet_ok d hs wp c0 i tl0 f'.
Proof.
  intros Hok Hs. eapply (star_invariant _ (fleet_ok d hs wp c0 i tl0)); [|done..].
  intros f1 mv f2 Hf1 Hstep. by eapply fleet_step_ok.
Qed.

(** The instances just started on a settled document. *)
Lemma launch_ok w text :
  settled c0 i = true → targets_of c0 i = Some tl0 →
  files w !! path = Some text → load text = Ok c0 → write_protected w = wp →
  fleet_ok d hs wp c0 i tl0 (launch hs w).
Proof.
  intros Hs Htl Hf Hl Hw. split; cbn [launch shared members].
  - rewrite <- list_fmap_compose. apply list_fmap_id.
  - exists text. split; [done|]. right. exists c0. split; [done|].
    exists []. split; [set_solver|]. by apply descends_refl.
  - by apply Forall_fmap, Forall_true.
  - by apply Forall_fmap, Forall_true.
Qed.

(** What the invariant says of a document of the fleet. *)
Lemma grown_spec c :
  grown hs c0 i tl0 c →
  ∃ tl, c = with_targets c0 i tl ∧ tl0 `prefix_of` tl ∧ (NoDup tl0 → NoDup tl) ∧
    (∀ x, x ∈ tl → x ∈ tl0 ∨ ∃ h, h ∈ hs ∧ x = VString (member_target h)) ∧
    ∀ p, diverge p (targets_path i) → get_path c p = get_path c0 p.
Proof.
  intros (ts & Hts & Hc). exists (all_listed ts tl0).
  pose proof (descends_rest _ _ _ _ Hc) as ->.
  split_and!; [done|apply all_listed_prefix|apply all_listed_NoDup| |].
  - intros x [?|(t & (h & -> & Hh)%Hts%list_elem_of_fmap & ->)]%elem_of_all_listed; eauto.
  - intros p Hp. by apply with_targets_frame.
Qed.

(** The target set of a document of the fleet has one entry a host at
    most beside those it started with. *)
Lemma grown_bounded c :
  grown hs c0 i tl0 c → ∃ tl, targets_of c i = Some tl ∧ length tl ≤ length tl0 + length hs.
Proof.
  intros (ts & Hts & [_ Htl _]). eexists. split; [exact Htl|].
  rewrite <- (length_fmap member_target hs). by apply all_listed_length.
Qed.

End invariant.

(** ** Lemmas: an empty file *)

Section empty_file.
Context `{Yaml} (d : string).

Local Abbreviation path := (prometheusConfigPath d).

(** On an empty file an instance that holds no document comes to hold
    none, and leaves the file empty. *)
Lemma advance_member_blind h p w r :
  dirname h = d → files w !! path = Some "" → blind p →
  advance_member h p w = Some r → files r.2 = files w ∧ blind r.1.
Proof.
  intros Hd Hf Hp. destruct p as [| |c|c|text| | | |e]; cbn [advance_member]; try done;
    try (by intros [= <-]).
  - unfold read_config, readFileSync, member_path. rewrite Hd, Hf. cbn [result_bind].
    rewrite load_empty. by intros [= <-].
  - simpl in Hp. subst c. by intros [= <-].
Qed.

Lemma fleet_step_blind f mv f' :
  shared f !! path = Some "" →
  Forall (λ m, dirname (on m) = d ∧ blind (point m)) (members f) →
  fleet_step f mv f' →
  shared f' !! path = Some "" ∧
  Forall (λ m, dirname (on m) = d ∧ blind (point m)) (members f').
Proof.
  intros Hf Hall [n m r Hm Hr|n m Hm];
    destruct (Forall_lookup_1 _ _ _ _ Hall Hm) as [Hd Hp]; cbn [shared members].
  - destruct (advance_member_blind (on m) (point m) (sync (shared f) (view m)) r Hd Hf Hp Hr)
      as [Hfs Hb].
    rewrite Hfs. split; [done|]. by apply Forall_insert.
  - split; [done|]. by apply Forall_insert.
Qed.

End empty_file.

(** * Theorems *)

Section safety.
Context `{Yaml} (d : string) (c0 : value) (i : nat) (tl0 : list value).
Context (Hc0 : settled c0 i = true) (Htl0 : targets_of c0 i = Some tl0).

Local Abbreviation path := (prometheusConfigPath d).

(** Two instances that both read the file before either writes hold
    each the document with its own address, and not the other's. *)
Lemma both_read ha hb w text :
  files w !! path = Some text → load text = Ok c0 → dirname ha = d → dirname hb = d →
  drive 3 1 (drive 3 0 (launch [ha; hb] w)) =
  {| shared := files w;
     members :=
       [moved {| on := ha; point := AtStart; view := w |}
          (finish ha 3 AtStart (sync (files w) w));
        moved {| on := hb; point := AtStart; view := w |}
          (finish hb 3 AtStart (sync (files w) w))] |}.
Proof.
  intros Hf Hl Hda Hdb. pose proof (descends_refl c0 i tl0 Hc0 Htl0) as Hd0.
  unfold launch. cbn [fmap list_fmap].
  rewrite (drive_reads c0 i 0 _ {| on := ha; point := AtStart; view := w |} text tl0 c0);
    [|done|done|by at_path|done|done].
  cbn [shared members insert list_insert on view].
  rewrite (drive_reads c0 i 1 _ {| on := hb; point := AtStart; view := w |} text tl0 c0);
    [|done|done|by at_path|done|done].
  cbn [shared members insert list_insert on view].
  by rewrite !(finish_reads _ _ text c0 i tl0 c0) by (by at_path).
Qed.

(** [C6] Preservation under every schedule: when instances that share
    the directory start on a settled document, then after any
    sequence of their steps and restarts the file is empty or reads
    as that document with another target set; the target set still
    begins with the addresses that were listed, has no address twice
    if it had none, has gained addresses of the fleet only, and
    everything off the target set is as it was ([grown] names the
    instances whose addresses were added). *)
Theorem fleet_preserves hs w text ms f' :
  files w !! path = Some text → load text = Ok c0 → Forall (λ h, dirname h = d) hs →
  schedule (launch hs w) ms f' →
  ∃ text', shared f' !! path = Some text' ∧
    (text' = "" ∨
     ∃ tl, load text' = Ok (with_targets c0 i tl) ∧ grown hs c0 i tl0 (with_targets c0 i tl) ∧
       tl0 `prefix_of` tl ∧ (NoDup tl0 → NoDup tl) ∧
       (∀ x, x ∈ tl → x ∈ tl0 ∨ ∃ h, h ∈ hs ∧ x = VString (member_target h)) ∧
       ∀ p, diverge p (targets_path i) → get_path (with_targets c0 i tl) p = get_path c0 p).
Proof.
  intros Hf Hl Hdir Hs.
  assert (fleet_ok d hs (write_protected w) c0 i tl0 f') as Hok
    by (eapply schedule_ok, Hs; [done|by eapply launch_ok]).
  destruct (fleet_file _ _ _ _ _ _ _ Hok) as (text' & Hf' & [Ht|(c & Hl' & Hc)]);
    exists text'; (split; [done|]); [by left|].
  right. destruct (grown_spec hs c0 i tl0 c Hc) as (tl & -> & Hpre & Hnd & Hin & Hfr).
  by exists tl.
Qed.

(** [C21] The file does not grow without bound: under every schedule,
    with any number of restarts and of registrations that overlap, what
    the file holds when it is not empty has a target set of at most
    the addresses listed at the start and one for each instance. *)
Theorem fleet_bounded hs w text ms f' text' c :
  files w !! path = Some text → load text = Ok c0 → Forall (λ h, dirname h = d) hs →
  schedule (launch hs w) ms f' →
  shared f' !! path = Some text' → text' ≠ "" → load text' = Ok c →
  ∃ tl, targets_of c i = Some tl ∧ length tl ≤ length tl0 + length hs.
Proof.
  intros Hf Hl Hdir Hs Hf' Hne Hl'.
  assert (fleet_ok d hs (write_protected w) c0 i tl0 f') as Hok
    by (eapply schedule_ok, Hs; [done|by eapply launch_ok]).
  destruct (fleet_file _ _ _ _ _ _ _ Hok) as (text1 & Hf1 & Htext).
  assert (text1 = text') as -> by congruence.
  destruct Htext as [->|(c1 & Hl1 & Hc)]; [done|].
  assert (c1 = c) as -> by congruence. by eapply grown_bounded.
Qed.

(** [C19] The message of line 150 is true when it is printed: under
    every schedule, when an instance takes the step that writes the
    text into the file it opened, after which it prints that the
    configuration was updated, the file reads as the document with a
    target set that begins with the addresses listed at the start and
    has the address of this instance.  (Another instance that read
    earlier may remove it afterwards: [lost_update].) *)
Theorem writer_is_listed hs w text ms f n h text' :
  files w !! path = Some text → load text = Ok c0 → Forall (λ h, dirname h = d) hs →
  schedule (launch hs w) ms f →
  hs !! n = Some h → point <$> members f !! n = Some (AtFill text') →
  ∃ tl, shared (drive 1 n f) !! path = Some text' ∧
    load text' = Ok (with_targets c0 i tl) ∧
    lists i (member_target h) (with_targets c0 i tl) ∧ tl0 `prefix_of` tl ∧
    said (drive 1 n f) n [Str "Prometheus config updated."].
Proof.
  intros Hf Hl Hdir Hs Hn (m & Hm & Hp)%fmap_Some. symmetry in Hp.
  assert (fleet_ok d hs (write_protected w) c0 i tl0 f) as Hok
    by (eapply schedule_ok, Hs; [done|by eapply launch_ok]).
  destruct (fleet_ok_member _ _ _ _ _ _ _ _ _ Hok Hm) as (Hh & Hpc & _).
  assert (on m = h) as Hon.
  { pose proof (fleet_hosts _ _ _ _ _ _ _ Hok) as Hhs. rewrite <- Hhs, list_lookup_fmap, Hm in Hn.
    by injection Hn. }
  rewrite Hp, Hon in Hpc. destruct Hpc as (c & Hl' & Hc & Hin).
  destruct (grown_spec hs c0 i tl0 c Hc) as (tl & -> & Hpre & _).
  exists tl. cbn [drive]. rewrite (fleet_advance_Step _ _ _ Hm), Hp. cbn [advance_member].
  cbn [mbind option_bind shared members]. rewrite (member_path_shared d hs Hdir _ Hh).
  split_and!; [apply lookup_insert_eq|done|done|done|].
  eexists. split; [apply list_lookup_insert_eq; by eapply lookup_lt_Some|].
  cbn [moved view snd console_log print console]. apply last_snoc.
Qed.

(** [C20] A restart repairs a lost registration: in any state the fleet
    can reach in which the file is not empty, an instance that is
    started again and left to itself ends listening, the file then
    lists its address after all that were listed at the start, and
    the fleet is within the invariant [fleet_ok] as before. *)
Theorem restart_recovers hs w text ms f n h :
  files w !! path = Some text → load text = Ok c0 → Forall (λ h, dirname h = d) hs →
  path ∉ write_protected w → schedule (launch hs w) ms f →
  hs !! n = Some h → shared f !! path ≠ Some "" →
  ∃ f1, fleet_step f (Restart n) f1 ∧ up (drive 7 n f1) n ∧
    fleet_ok d hs (write_protected w) c0 i tl0 (drive 7 n f1) ∧
    ∃ text' tl, shared (drive 7 n f1) !! path = Some text' ∧
      load text' = Ok (with_targets c0 i tl) ∧
      tl0 `prefix_of` tl ∧ VString (member_target h) ∈ tl.
Proof.
  intros Hf Hl Hdir Hp Hs Hn Hne.
  assert (fleet_ok d hs (write_protected w) c0 i tl0 f) as Hok
    by (eapply schedule_ok, Hs; [done|by eapply launch_ok]).
  destruct (list_lookup_fmap_Some_1 on (members f) n h) as (m & -> & Hm);
    [by rewrite (fleet_hosts _ _ _ _ _ _ _ Hok)|].
  assert (write_protected (view m) = write_protected w) as Hw by (by eapply fleet_ok_member).
  assert (fleet_step f (Restart n) {| shared := shared f; members := <[n := restarted m]> (members f) |})
    as Hstep by (by constructor).
  eexists. split; [exact Hstep|].
  destruct (fleet_file _ _ _ _ _ _ _ Hok) as (text0 & Hf0 & [->|(c & Hl0 & ts & _ & Hc)]); [done|].
  destruct (drive_holds d c0 i n {| shared := shared f; members := <[n := restarted m]> (members f) |}
              (all_listed ts tl0) hs) as (h' & Hh' & Hholds & _ & Hup & _).
  - eapply fleet_hosts, fleet_step_ok, Hstep; done.
  - done.
  - exists (restarted m). split_and!; [|done|cbn [restarted view closed write_protected]; by rewrite Hw].
    apply list_lookup_insert_eq. by eapply lookup_lt_Some.
  - by exists text0, c.
  - split; [done|]. split.
    { destruct (drive_run 7 n {| shared := shared f; members := <[n := restarted m]> (members f) |})
        as (k & _ & Hrun%fleet_run_schedule).
      eapply schedule_ok, Hrun; [done|]. by eapply fleet_step_ok, Hstep. }
    destruct Hholds as (text' & c' & Hf' & Hl' & Hc'). simplify_eq.
    exists text', (listed (member_target (on m)) (all_listed ts tl0)).
    rewrite Hl', (descends_rest _ _ _ _ Hc').
    split_and!; [done..| |apply elem_of_listed; by right].
    etrans; [apply all_listed_prefix|apply listed_prefix].
Qed.

(** [C18] An empty file stops the fleet: when the file is empty and no
    instance holds a document to write, the file stays empty under
    every schedule, and every instance that is started again ends with
    the [TypeError] of line 122 and does not listen. *)
Theorem torn_file_stops_all f ms f' :
  shared f !! path = Some "" →
  Forall (λ m, dirname (on m) = d ∧ blind (point m)) (members f) →
  schedule f ms f' →
  shared f' !! path = Some "" ∧
  ∀ n f1, fleet_step f' (Restart n) f1 →
    ∃ m, members (drive 7 n f1) !! n = Some m ∧
      point m = Down (TypeError Reading VUndefined "scrape_configs") ∧
      listening (view m) = None.
Proof.
  intros Hf Hall Hs.
  assert (shared f' !! path = Some "" ∧
          Forall (λ m, dirname (on m) = d ∧ blind (point m)) (members f')) as [Hf' Hall'].
  { eapply (star_invariant _ (λ f, shared f !! path = Some "" ∧ Forall _ (members f)));
      [|exact Hs|done]. intros f1 mv f2 [? ?] ?. by eapply fleet_step_blind. }
  split; [done|]. intros n f1 Hstep. inversion Hstep as [|? m Hm]; subst.
  destruct (Forall_lookup_1 _ _ _ _ Hall' Hm) as [Hd _].
  rewrite (drive_blind n _ (restarted m));
    [|apply list_lookup_insert_eq; by eapply lookup_lt_Some|done|].
  - eexists. split.
    + cbn [members]. rewrite list_insert_insert_eq.
      apply list_lookup_insert_eq. by eapply lookup_lt_Some.
    + done.
  - cbn [shared restarted on]. unfold member_path. by rewrite Hd.
Qed.

(** [C7] A lost registration: two instances start on a settled document
    that lists neither; the first reads and edits, the second reads
    and edits, the first writes and goes on to listen, then the
    second.  Both end listening, the first has printed that its
    address was added and that the file was updated and has sent its
    reload request, and the file lists the address of the second and
    not that of the first. *)
Theorem lost_update ha hb w text :
  files w !! path = Some text → load text = Ok c0 → path ∉ write_protected w →
  dirname ha = d → dirname hb = d →
  VString (member_target ha) ∉ tl0 → member_target ha ≠ member_target hb →
  ∃ ma text' tl,
    up (overlap (launch [ha; hb] w)) 0 ∧ up (overlap (launch [ha; hb] w)) 1 ∧
    members (overlap (launch [ha; hb] w)) !! 0 = Some ma ∧
    console (view ma) = console w ++
      [{| to := Stdout; args := [Str "Detected target address:"; Str (member_target ha)] |};
       {| to := Stdout; args := added_message true (member_target ha) |};
       {| to := Stdout; args := [Str "Prometheus config updated."] |}] ∧
    outbox (view ma) = outbox w ++ [{| url := reloadUrl; method := "POST" |}] ∧
    shared (overlap (launch [ha; hb] w)) !! path = Some text' ∧
    load text' = Ok (with_targets c0 i tl) ∧
    (VString (member_target ha) ∉ tl) ∧ VString (member_target hb) ∈ tl.
Proof.
  intros Hf Hl Hp Hda Hdb Hta Hne. pose proof (descends_refl c0 i tl0 Hc0 Htl0) as Hd0.
  destruct (printed_loaded _ (descends_loaded _ _ _ _
    (proj2 (descends_register (member_target ha) _ _ _ _ Hd0)))) as (texta & Hpa & _).
  destruct (printed_loaded _ (descends_loaded _ _ _ _
    (proj2 (descends_register (member_target hb) _ _ _ _ Hd0)))) as (textb & Hpb & Hlb).
  unfold overlap. rewrite (both_read ha hb w text) by done.
  rewrite !(finish_reads _ _ text c0 i tl0 c0) by (by at_path).
  erewrite (drive_writes_end 0); [|reflexivity|reflexivity|exact Hpa|by at_path].
  cbn [shared members insert list_insert moved on view fst snd].
  erewrite (drive_writes_end 1); [|reflexivity|reflexivity|exact Hpb|by at_path].
  cbn [shared members insert list_insert moved on view fst snd]. unfold member_path.
  rewrite Hda, Hdb, bool_decide_eq_false_2 by done.
  eexists _, textb, (listed (member_target hb) tl0).
  split_and!; [by eexists|by eexists|done| |done|apply lookup_insert_eq|done| |].
  - simpl. by rewrite <- !(assoc_L (++)).
  - rewrite elem_of_listed. intros [?|[= ?]]; done.
  - apply elem_of_listed. by right.
Qed.

(** [C17] A read between the opening and the writing: the first
    instance has emptied the file and not yet written it when the
    second starts.  The second gets [undefined] from the parser and
    ends with the [TypeError] of line 122: it does not listen and
    sends no reload request.  The first goes on, and the file lists
    its address. *)
Theorem torn_read ha hb w text :
  files w !! path = Some text → load text = Ok c0 → path ∉ write_protected w →
  dirname ha = d → dirname hb = d → listening w = None →
  ∃ mb text',
    up (torn (launch [ha; hb] w)) 0 ∧
    members (torn (launch [ha; hb] w)) !! 1 = Some mb ∧
    point mb = Down (TypeError Reading VUndefined "scrape_configs") ∧
    listening (view mb) = None ∧ outbox (view mb) = outbox w ∧
    shared (torn (launch [ha; hb] w)) !! path = Some text' ∧
    load text' = Ok (with_targets c0 i (listed (member_target ha) tl0)).
Proof.
  intros Hf Hl Hp Hda Hdb Hlis. pose proof (descends_refl c0 i tl0 Hc0 Htl0) as Hd0.
  destruct (printed_loaded _ (descends_loaded _ _ _ _
    (proj2 (descends_register (member_target ha) _ _ _ _ Hd0)))) as (texta & Hpa & Hla).
  unfold torn, launch. cbn [fmap list_fmap]. change 4 with (3 + 1). rewrite drive_add.
  rewrite (drive_reads c0 i 0 _ {| on := ha; point := AtStart; view := w |} text tl0 c0);
    [|done|done|by at_path|done|done].
  cbn [shared members insert list_insert on view].
  erewrite (drive_opens 0); [|reflexivity|reflexivity|exact Hpa|by at_path].
  cbn [shared members insert list_insert moved on view fst snd].
  erewrite (drive_blind 1); [|reflexivity|reflexivity|at_path; apply lookup_insert_eq].
  cbn [shared members insert list_insert moved on view fst snd].
  erewrite (drive_fills_end 0); [|reflexivity|reflexivity].
  cbn [shared members insert list_insert moved on view fst snd]. unfold member_path.
  rewrite Hda, insert_insert_eq.
  eexists _, texta. split_and!; [by eexists|done|done|done|done|apply lookup_insert_eq|done].
Qed.

End safety.

Lemma fleet_preserves_witness :
  ∃ text', shared after_shaken !! "/app/prometheus.yml" = Some text' ∧
    (text' = "" ∨
     ∃ tl, load (Yaml := RefCodec) text' = Ok (with_targets doc3 1 tl) ∧
       grown [app_host; second_host] doc3 1 [VString "10.0.0.1:8000"] (with_targets doc3 1 tl) ∧
       [VString "10.0.0.1:8000"] `prefix_of` tl ∧
       (NoDup [VString "10.0.0.1:8000"] → NoDup tl) ∧
       (∀ x, x ∈ tl → x ∈ [VString "10.0.0.1:8000"] ∨
          ∃ h, h ∈ [app_host; second_host] ∧ x = VString (member_target h)) ∧
       ∀ p, diverge p (targets_path 1) → get_path (with_targets doc3 1 tl) p = get_path doc3 p).
Proof.
  apply (fleet_preserves (H := RefCodec) "/app" doc3 1 [VString "10.0.0.1:8000"]
           eq_refl eq_refl [app_host; second_host] (disk (ref_print doc3)) (ref_print doc3)
           shaken).
  - reflexivity.
  - vm_compute. reflexivity.
  - repeat constructor.
  - apply fleet_run_schedule. vm_compute. reflexivity.
Defined.

Lemma fleet_bounded_witness :
  ∃ tl, targets_of (default VUndefined
          (text ← shared after_racing !! "/app/prometheus.yml";
           match load (Yaml := RefCodec) text with Ok c => Some c | Throw _ => None end)) 1
        = Some tl ∧
    length tl ≤ length [VString "10.0.0.1:8000"] + length [app_host; second_host].
Proof.
  apply (fleet_bounded (H := RefCodec) "/app" doc3 1 [VString "10.0.0.1:8000"]
           eq_refl eq_refl [app_host; second_host] (disk (ref_print doc3)) (ref_print doc3)
           racing after_racing
           (default "" (shared after_racing !! "/app/prometheus.yml"))).
  - reflexivity.
  - vm_compute. reflexivity.
  - repeat constructor.
  - apply fleet_run_schedule. vm_compute. reflexivity.
  - vm_compute. reflexivity.
  - vm_compute. discriminate.
  - vm_compute. reflexivity.
Defined.

Lemma writer_is_listed_witness :
  ∃ text' tl, shared (drive (H := RefCodec) 1 0 after_filling) !! "/app/prometheus.yml" =
                Some text' ∧
    load (Yaml := RefCodec) text' = Ok (with_targets doc3 1 tl) ∧
    lists 1 (member_target app_host) (with_targets doc3 1 tl) ∧
    [VString "10.0.0.1:8000"] `prefix_of` tl ∧
    said (drive (H := RefCodec) 1 0 after_filling) 0 [Str "Prometheus config updated."].
Proof.
  eexists.
  eapply (writer_is_listed (H := RefCodec) "/app" doc3 1 [VString "10.0.0.1:8000"]
            eq_refl eq_refl [app_host; second_host] (disk (ref_print doc3)) (ref_print doc3)
            filling after_filling 0 app_host).
  - reflexivity.
  - vm_compute. reflexivity.
  - repeat constructor.
  - apply fleet_run_schedule. vm_compute. reflexivity.
  - reflexivity.
  - vm_compute. reflexivity.
Defined.

Lemma restart_recovers_witness :
  ∃ f1, fleet_step (H := RefCodec) after_racing (Restart 0) f1 ∧
    up (drive (H := RefCodec) 7 0 f1) 0 ∧
    fleet_ok (H := RefCodec) "/app" [app_host; second_host]
      (write_protected (disk (ref_print doc3))) doc3 1 [VString "10.0.0.1:8000"]
      (drive (H := RefCodec) 7 0 f1) ∧
    ∃ text' tl, shared (drive (H := RefCodec) 7 0 f1) !! "/app/prometheus.yml" = Some text' ∧
      load (Yaml := RefCodec) text' = Ok (with_targets doc3 1 tl) ∧
      [VString "10.0.0.1:8000"] `prefix_of` tl ∧ VString (member_target app_host) ∈ tl.
Proof.
  apply (restart_recovers (H := RefCodec) "/app" doc3 1 [VString "10.0.0.1:8000"]
           eq_refl eq_refl [app_host; second_host] (disk (ref_print doc3)) (ref_print doc3)
           racing).
  - reflexivity.
  - vm_compute. reflexivity.
  - repeat constructor.
  - vm_compute. set_solver.
  - apply fleet_run_schedule. vm_compute. reflexivity.
  - reflexivity.
  - vm_compute. discriminate.
Defined.

Lemma torn_file_stops_all_witness :
  shared after_cut_short !! "/app/prometheus.yml" = Some "" ∧
  ∀ n f1, fleet_step (H := RefCodec) after_cut_short (Restart n) f1 →
    ∃ m, members (drive (H := RefCodec) 7 n f1) !! n = Some m ∧
      point m = Down (TypeError Reading VUndefined "scrape_configs") ∧
      listening (view m) = None.
Proof.
  apply (torn_file_stops_all (H := RefCodec) "/app" cut_short [Step 0; Step 0]).
  - vm_compute. reflexivity.
  - vm_compute. repeat constructor.
  - apply fleet_run_schedule. vm_compute. reflexivity.
Defined.

Lemma lost_update_witness :
  ∃ ma text' tl,
    up (overlap (H := RefCodec) pair) 0 ∧ up (overlap (H := RefCodec) pair) 1 ∧
    members (overlap (H := RefCodec) pair) !! 0 = Some ma ∧
    console (view ma) = console (disk (ref_print doc3)) ++
      [{| to := Stdout;
          args := [Str "Detected target address:"; Str (member_target app_host)] |};
       {| to := Stdout; args := added_message true (member_target app_host) |};
       {| to := Stdout; args := [Str "Prometheus config updated."] |}] ∧
    outbox (view ma) =
      outbox (disk (ref_print doc3)) ++ [{| url := reloadUrl; method := "POST" |}] ∧
    shared (overlap (H := RefCodec) pair) !! "/app/prometheus.yml" = Some text' ∧
    load (Yaml := RefCodec) text' = Ok (with_targets doc3 1 tl) ∧
    (VString (member_target app_host) ∉ tl) ∧ VString (member_target second_host) ∈ tl.
Proof.
  apply (lost_update (H := RefCodec) "/app" doc3 1 [VString "10.0.0.1:8000"]
           eq_refl eq_refl app_host second_host (disk (ref_print doc3)) (ref_print doc3)).
  - reflexivity.
  - vm_compute. reflexivity.
  - vm_compute. set_solver.
  - reflexivity.
  - reflexivity.
  - vm_compute. set_solver.
  - vm_compute. discriminate.
Defined.

Lemma torn_read_witness :
  ∃ mb text',
    up (torn (H := RefCodec) pair) 0 ∧
    members (torn (H := RefCodec) pair) !! 1 = Some mb ∧
    point mb = Down (TypeError Reading VUndefined "scrape_configs") ∧
    listening (view mb) = None ∧ outbox (view mb) = outbox (disk (ref_print doc3)) ∧
    shared (torn (H := RefCodec) pair) !! "/app/prometheus.yml" = Some text' ∧
    load (Yaml := RefCodec) text' =
      Ok (with_targets doc3 1 (listed (member_target app_host) [VString "10.0.0.1:8000"])).
Proof.
  apply (torn_read (H := RefCodec) "/app" doc3 1 [VString "10.0.0.1:8000"]
           eq_refl eq_refl app_host second_host (disk (ref_print doc3)) (ref_print doc3)).
  - reflexivity.
  - vm_compute. reflexivity.
  - vm_compute. set_solver.
  - reflexivity.
  - reflexivity.
  - reflexivity.
Defined.
