(* ===== verification/FleetOrder.v ===== *)
(** * FleetOrder: which steps of different instances can be exchanged

    A step of an instance that does not touch the file (the address is
    resolved, the document is edited, the reload request is sent, the
    socket is opened) is not seen by the other instances: it can be
    taken before or after a step of another instance, with the same
    result.  So can two reads of the file (line 116).  The pairs that
    are left are a half of the write of line 148 and a read or a half
    of a write of another instance; of these nothing is shown here
    ([FleetSafety.lost_update] and [FleetSafety.torn_read] are
    schedules in which their order decides the outcome).  This is why
    the schedules of [FleetSafety] are told apart by the order of the
    accesses to the file only.

    The result is the same up to what an instance remembers of the
    files ([view] keeps the files as of the last step of the instance,
    which no step reads): [fleet_equiv] compares fleets up to that, and
    a move takes equivalent fleets to equivalent fleets. *)

From stdpp Require Import base strings pretty numbers gmap option list.
From S2P Require Import Prelude JsValue AddressResolver ConfigMutator Settled.
From S2P Require Import World Registration Fleet.

Local Open Scope string_scope.
Local Open Scope nat_scope.
Local Open Scope list_scope.

(** ** Definitions *)

(** The places from which the next step leaves the file alone and does
    not look at it. *)
Definition local (p : pc) : bool :=
  match p with
  | AtStart | AtEdit _ | AtReload | AtListen | Up | Down _ => true
  | AtRead | AtWrite _ | AtFill _ => false
  end.

(** The places from which the next step changes the file: the two
    halves of [fs.writeFileSync]. *)
Definition writes (p : pc) : bool :=
  match p with
  | AtWrite _ | AtFill _ => true
  | _ => false
  end.

(** Two steps that can be exchanged: one of them is local, or neither
    writes. *)
Definition independent (p q : pc) : bool :=
  local p || local q || (negb (writes p) && negb (writes q)).

(** What belongs to the instance in its [view]: everything but the
    files. *)
Definition own (w : world) : world := sync ∅ w.

(** Two instances that differ at most in the files they remember. *)
Definition member_equiv (m1 m2 : member) : Prop :=
  on m1 = on m2 ∧ point m1 = point m2 ∧ own (view m1) = own (view m2).

#[export] Instance fleet_equiv : Equiv fleet := λ f1 f2,
  shared f1 = shared f2 ∧ Forall2 member_equiv (members f1) (members f2).

(** Two steps of two instances, as far as the first allows. *)
Definition two_steps `{Yaml} (a b : member) (f : fleet) : option (pc * world * (pc * world)) :=
  ra ← advance_member (on a) (point a) (sync (shared f) (view a));
  rb ← advance_member (on b) (point b) (sync (files ra.2) (view b));
  Some (ra, rb).

(** ** Lemmas *)

#[export] Instance member_equiv_equivalence : Equivalence member_equiv.
Proof.
  split.
  - by intros m.
  - by intros m1 m2 (? & ? & ?).
  - intros m1 m2 m3 (? & ? & ?) (? & ? & ?). split_and!; congruence.
Qed.

#[export] Instance fleet_equiv_equivalence : Equivalence (≡@{fleet}).
Proof.
  split.
  - intros f. split; [done|]. by apply Forall_Forall2_diag, Forall_true.
  - intros f1 f2 [? ?]. by split.
  - intros f1 f2 f3 [? ?] [? ?]. split; [congruence|]. by etrans.
Qed.

Lemma sync_own fs w : sync fs (own w) = sync fs w.
Proof. done. Qed.

Lemma own_sync fs w : own (sync fs w) = own w.
Proof. done. Qed.

(** An instance sees of its [view] what is its own. *)
Lemma member_equiv_sync m1 m2 fs :
  member_equiv m1 m2 → sync fs (view m1) = sync fs (view m2).
Proof. intros (_ & _ & Ho). by rewrite <- (sync_own fs (view m1)), Ho. Qed.

Lemma member_equiv_moved m1 m2 r : member_equiv m1 m2 → member_equiv (moved m1 r) (moved m2 r).
Proof. by intros (? & _ & _). Qed.

Lemma member_equiv_restarted m1 m2 :
  member_equiv m1 m2 → member_equiv (restarted m1) (restarted m2).
Proof.
  intros (? & _ & Ho). split_and!; [done..|]. unfold own, restarted, closed, sync in *. simpl.
  by injection Ho as -> -> -> _.
Qed.

Section order.
Context `{Yaml}.

(** A move takes equivalent fleets to equivalent fleets. *)
#[export] Instance fleet_advance_proper mv : Proper ((≡) ==> (≡)) (fleet_advance mv).
Proof.
  intros f1 f2 [Hs Hm]. pose proof (proj1 (Forall2_lookup _ _ _) Hm) as Hl.
  destruct mv as [n|n]; simpl; destruct (Hl n) as [m1 m2 Hn|]; simpl; try done.
  - rewrite Hs, (member_equiv_sync _ _ _ Hn). pose proof Hn as (-> & -> & _).
    destruct (advance_member _ _ _) as [r|] eqn:Hr; simpl; [|done].
    constructor. split; [done|]. by apply Forall2_insert, member_equiv_moved.
  - constructor. split; [done|]. by apply Forall2_insert, member_equiv_restarted.
Qed.

#[export] Instance fleet_run_proper ms : Proper ((≡) ==> (≡)) (fleet_run ms).
Proof.
  induction ms as [|mv ms IH]; intros f1 f2 Hf; [by constructor|]. cbn [fleet_run exec].
  destruct (fleet_advance_proper mv _ _ Hf) as [f1' f2' Hf'|]; [by apply IH|done].
Qed.

Lemma local_quiet p : local p = true → writes p = false.
Proof. by destruct p. Qed.

(** A step that does not write leaves the file as it is. *)
Lemma advance_member_quiet h p w r :
  writes p = false → advance_member h p w = Some r → files r.2 = files w.
Proof.
  destruct p; try done; simpl; intros _.
  - by intros [= <-].
  - destruct (read_config _ _); by intros [= <-].
  - destruct (registerTarget _ _) as [[| |]|]; by intros [= <-].
  - by intros [= <-].
  - by intros [= <-].
Qed.

(** A local step does not look at the file. *)
Lemma advance_member_local h p fs fs' w r :
  local p = true → advance_member h p (sync fs w) = Some r →
  advance_member h p (sync fs' w) = Some (r.1, sync fs' r.2).
Proof.
  destruct p; try done; simpl; intros _.
  - by intros [= <-].
  - destruct (registerTarget _ _) as [[| |]|]; by intros [= <-].
  - by intros [= <-].
  - by intros [= <-].
Qed.

(** Two steps of two instances, one after the other. *)
Lemma fleet_run_two n n' f a b :
  n ≠ n' → members f !! n = Some a → members f !! n' = Some b →
  fleet_run [Step n; Step n'] f =
  (λ r, {| shared := files r.2.2;
           members := <[n' := moved b r.2]> (<[n := moved a r.1]> (members f)) |}) <$>
  two_steps a b f.
Proof.
  intros Hn Ha Hb. unfold two_steps. cbn [fleet_run exec]. rewrite (fleet_advance_Step _ _ _ Ha).
  destruct (advance_member _ _ _) as [ra|]; simpl; [|done].
  rewrite list_lookup_insert_ne, Hb by done. simpl.
  by destruct (advance_member _ _ _).
Qed.

(** When the step of [a] is local, it gives after a step of [b] what it
    gives before, up to the files. *)
Lemma two_steps_local a b f :
  local (point a) = true →
  two_steps b a f =
  (λ r, (r.2, (r.1.1, sync (files r.2.2) r.1.2))) <$> two_steps a b f.
Proof.
  intros Hl. unfold two_steps.
  destruct (advance_member (on a) _ (sync (shared f) _)) as [ra|] eqn:Ha; simpl.
  - rewrite (advance_member_quiet _ _ _ _ (local_quiet _ Hl) Ha). simpl.
    destruct (advance_member (on b) _ _) as [rb|]; simpl; [|done].
    by rewrite (advance_member_local _ _ _ (files rb.2) _ _ Hl Ha).
  - destruct (advance_member (on b) _ _) as [rb|]; simpl; [|done].
    destruct (advance_member (on a) _ (sync (files _) _)) as [ra'|] eqn:Ha'; [|done].
    by rewrite (advance_member_local _ _ _ (shared f) _ _ Hl Ha') in Ha.
Qed.

(** When neither step writes, each finds the file as the other found
    it. *)
Lemma two_steps_quiet a b f :
  writes (point a) = false → writes (point b) = false →
  two_steps b a f = (λ r, (r.2, r.1)) <$> two_steps a b f.
Proof.
  intros Ha Hb. unfold two_steps.
  destruct (advance_member (on a) _ (sync (shared f) _)) as [ra|] eqn:Hra; simpl;
    destruct (advance_member (on b) _ (sync (shared f) _)) as [rb|] eqn:Hrb; simpl;
    rewrite ?(advance_member_quiet _ _ _ _ Ha Hra), ?(advance_member_quiet _ _ _ _ Hb Hrb);
    simpl; by rewrite ?Hra, ?Hrb.
Qed.

Lemma two_steps_files a b f ra rb :
  writes (point a) = false → writes (point b) = false →
  two_steps a b f = Some (ra, rb) → files ra.2 = shared f ∧ files rb.2 = shared f.
Proof.
  intros Ha Hb. unfold two_steps.
  destruct (advance_member (on a) _ _) as [ra'|] eqn:Hra; simpl; [|done].
  destruct (advance_member (on b) _ _) as [rb'|] eqn:Hrb; simpl; [|done]. intros [= <- <-].
  by rewrite (advance_member_quiet _ _ _ _ Hb Hrb), (advance_member_quiet _ _ _ _ Ha Hra).
Qed.

(** The exchange, when the step of [a] is local. *)
Lemma local_step_commutes n n' f a b :
  n ≠ n' → members f !! n = Some a → members f !! n' = Some b →
  local (point a) = true →
  fleet_run [Step n; Step n'] f ≡ fleet_run [Step n'; Step n] f.
Proof.
  intros Hn Ha Hb Hl. rewrite (fleet_run_two n n' f a b), (fleet_run_two n' n f b a) by done.
  rewrite (two_steps_local a b f Hl). destruct (two_steps a b f) as [[ra rb]|]; [|done].
  constructor. split; [done|]. simpl. rewrite (list_insert_insert_ne _ n' n) by done.
  apply Forall2_insert; [|done]. by apply Forall2_insert; [apply Forall_Forall2_diag, Forall_true|].
Qed.

(** Two neighbours that are independent, at the start of a run. *)
Lemma neighbours_commute n n' f a b :
  n ≠ n' → members f !! n = Some a → members f !! n' = Some b →
  independent (point a) (point b) = true →
  fleet_run [Step n; Step n'] f ≡ fleet_run [Step n'; Step n] f.
Proof.
  intros Hn Ha Hb. unfold independent. rewrite !orb_true_iff, andb_true_iff, !negb_true_iff.
  intros [[Hl|Hl]|[Hqa Hqb]].
  - by apply (local_step_commutes n n' f a b).
  - symmetry. by apply (local_step_commutes n' n f b a).
  - rewrite (fleet_run_two n n' f a b), (fleet_run_two n' n f b a) by done.
    rewrite (two_steps_quiet a b f Hqa Hqb).
    destruct (two_steps a b f) as [[ra rb]|] eqn:Hr; [|done].
    destruct (two_steps_files a b f ra rb Hqa Hqb Hr) as [Hfa Hfb]. simpl.
    by rewrite Hfa, Hfb, (list_insert_insert_ne _ n' n).
Qed.

(** A run goes on from equivalent fleets to equivalent fleets. *)
Lemma fleet_run_bind ms (x y : option fleet) : x ≡ y → x ≫= fleet_run ms ≡ y ≫= fleet_run ms.
Proof. intros [f1 f2 Hf|]; [by apply fleet_run_proper|done]. Qed.

(** ** Theorems *)

(** [C30] Steps of two instances that follow each other in a schedule
    can be exchanged when one of them does not touch the file or when
    neither writes it: the two schedules can be run or not alike, and
    they lead to the same file and to the same instances, up to the
    files an instance remembers, which no step reads. *)
Theorem independent_steps_commute ms ms' n n' f f1 a b :
  fleet_run ms f = Some f1 →
  n ≠ n' → members f1 !! n = Some a → members f1 !! n' = Some b →
  independent (point a) (point b) = true →
  fleet_run (ms ++ Step n :: Step n' :: ms') f ≡ fleet_run (ms ++ Step n' :: Step n :: ms') f.
Proof.
  intros Hf Hn Ha Hb Hi. unfold fleet_run in *. rewrite !exec_app, Hf.
  change (Some f1 ≫= ?g) with (g f1).
  change (Step n :: Step n' :: ms') with ([Step n; Step n'] ++ ms').
  change (Step n' :: Step n :: ms') with ([Step n'; Step n] ++ ms').
  rewrite !exec_app. by apply fleet_run_bind, (neighbours_commute n n' f1 a b).
Qed.

End order.

Lemma independent_steps_commute_witness :
  fleet_run ([Step 0; Step 1; Step 0] ++ Step 0 :: Step 1 :: [Step 1]) pair ≡
  fleet_run ([Step 0; Step 1; Step 0] ++ Step 1 :: Step 0 :: [Step 1]) pair.
Proof.
  eapply (independent_steps_commute [Step 0; Step 1; Step 0] [Step 1] 0 1 pair);
    [vm_compute; reflexivity|done|vm_compute; reflexivity..].
Defined.
