(* ===== verification/FleetTurns.v ===== *)
(** * FleetTurns: instances that take turns at the file

    The specification takes the configuration file to have one writer
    at a time: nothing else contends for it while an instance
    registers.  The program does nothing to make that so, and
    [FleetSafety] shows what happens when it is not.  This file shows
    that the assumption is all the program needs.

    An instance is [busy] from the read of line 116 to the end of the
    write of line 148.  A schedule takes turns ([in_turns]) when, after
    every step, at most one instance is busy, and when no instance is
    ended while it has the file open.  Nothing else is asked of the
    schedule: the steps before the read and after the write are taken
    in any order, between the steps of the others.

    Along such a schedule no instance goes down, the address of every
    instance that is past its write is in the file, and when all
    instances have come to their end the file lists them all
    ([turns_ok] is the invariant).  When no instance is started again
    the schedule is serializable: the file ends as it does when the
    instances run one after the other, as [Fleet.serial] has it, in
    the order of their writes ([in_order] keeps that order). *)

From stdpp Require Import base strings pretty numbers gmap option list.
From S2P Require Import Prelude JsValue AddressResolver ConfigMutator Settled.
From S2P Require Import World Registration Fleet FleetSafety.

Local Open Scope string_scope.
Local Open Scope nat_scope.
Local Open Scope list_scope.

(** ** Definitions *)

(** The places between the read of line 116 and the end of the write
    of line 148: the instance holds a document it read and has not
    written back. *)
Definition busy (p : pc) : bool :=
  match p with
  | AtEdit _ | AtWrite _ | AtFill _ => true
  | _ => false
  end.

(** The places after the write of line 148. *)
Definition past (p : pc) : bool :=
  match p with
  | AtReload | AtListen | Up => true
  | _ => false
  end.

Definition busy_count (f : fleet) : nat :=
  sum_list ((λ m, if busy (point m) then 1 else 0) <$> members f).

(** At most one instance is between its read and its write. *)
Definition exclusive (f : fleet) : bool := bool_decide (busy_count f ≤ 1).

(** Instance [n] has opened the file and not yet written its text. *)
Definition has_open (f : fleet) (n : nat) : bool :=
  match point <$> members f !! n with
  | Some (AtFill _) => true
  | _ => false
  end.

(** A move of a fleet that takes turns: a step after which at most one
    instance is busy, or the restart of an instance that does not have
    the file open. *)
Definition turn_advance `{Yaml} (mv : move) (f : fleet) : option fleet :=
  match mv with
  | Step n =>
      f' ← fleet_advance (Step n) f;
      if exclusive f' then Some f' else None
  | Restart n => if has_open f n then None else fleet_advance (Restart n) f
  end.

(** The same as a relation. *)
Inductive in_turn `{Yaml} (f : fleet) : move → fleet → Prop :=
| TurnStep n f' :
    fleet_step f (Step n) f' → exclusive f' = true → in_turn f (Step n) f'
| TurnRestart n f' :
    has_open f n = false → fleet_step f (Restart n) f' → in_turn f (Restart n) f'.

Definition in_turns `{Yaml} : fleet → list move → fleet → Prop := star in_turn.

Definition turn_run `{Yaml} : list move → fleet → option fleet := exec turn_advance.

(** The configuration file in the directory [d] reads as [c]. *)
Definition file_reads `{Yaml} (d : string) (fs : gmap string string) (c : value) : Prop :=
  ∃ text, fs !! prometheusConfigPath d = Some text ∧ load text = Ok c.

(** What an instance of the host [h] holds at a place, when the
    target set of the file is, or was when it was emptied, [tl]. *)
Definition at_ok `{Yaml} (d : string) (c0 : value) (i : nat) (tl : list value)
    (fs : gmap string string) (h : host) (p : pc) : Prop :=
  match p with
  | AtStart | AtRead => True
  | AtEdit c => c = with_targets c0 i tl ∧ file_reads d fs c
  | AtWrite c =>
      c = with_targets c0 i (listed (member_target h) tl) ∧
      file_reads d fs (with_targets c0 i tl)
  | AtFill text =>
      load text = Ok (with_targets c0 i (listed (member_target h) tl)) ∧
      fs !! prometheusConfigPath d = Some ""
  | AtReload | AtListen | Up => VString (member_target h) ∈ tl
  | Down _ => False
  end.

(** The target set after a step from the place [p]: the write adds
    the address of the instance. *)
Definition targets_next (h : host) (p : pc) (tl : list value) : list value :=
  match p with
  | AtFill _ => listed (member_target h) tl
  | _ => tl
  end.

(** The addresses written after a step from the place [p]. *)
Definition written_next (h : host) (p : pc) (ts : list string) : list string :=
  match p with
  | AtFill _ => ts ++ [member_target h]
  | _ => ts
  end.

(** The invariant of a fleet that takes turns; [ts] are the addresses
    written so far, in the order of the writes. *)
Record turns_ok `{Yaml} (d : string) (hs : list host) (wp : gset string)
    (c0 : value) (i : nat) (tl0 : list value) (ts : list string) (f : fleet) : Prop := TurnsOk {
  turns_fleet : fleet_ok d hs wp c0 i tl0 f;
  turns_from : ts ⊆ member_target <$> hs;
  turns_doc :
    descends c0 i (all_listed ts tl0) (with_targets c0 i (all_listed ts tl0));
  turns_points :
    Forall (λ m, at_ok d c0 i (all_listed ts tl0) (shared f) (on m) (point m)) (members f);
  turns_free :
    busy_count f = 0 → file_reads d (shared f) (with_targets c0 i (all_listed ts tl0));
  turns_exclusive : busy_count f ≤ 1
}.

(** The instances that have written after a step of instance [n] from
    the place [p], in the order of the writes. *)
Definition order_next (n : nat) (p : pc) (ws : list nat) : list nat :=
  match p with
  | AtFill _ => ws ++ [n]
  | _ => ws
  end.

(** The invariant of a fleet that takes turns and in which no
    instance is started again: [ws] are the instances that are past
    their write, each once, in the order of the writes. *)
Record in_order `{Yaml} (d : string) (hs : list host) (wp : gset string)
    (c0 : value) (i : nat) (tl0 : list value) (ws : list nat) (f : fleet) : Prop := InOrder {
  order_turns : turns_ok d hs wp c0 i tl0 (targets_in hs ws) f;
  order_once : NoDup ws;
  order_past : ∀ n, n ∈ ws ↔ ∃ m, members f !! n = Some m ∧ past (point m) = true
}.

(** ** Examples *)

(** The two instances of [pair]: both start, the first registers while
    the second waits, then the second registers while the first sends
    its reload request and opens its socket. *)
Definition by_turns : list move :=
  Step <$> [0; 1; 0; 0; 0; 0; 1; 0; 1; 1; 0; 1; 1; 1].

Definition after_by_turns : fleet :=
  default pair (turn_run (H := RefCodec) by_turns pair).

(** ** Lemmas: counting the busy instances *)

Lemma busy_count_insert f n m m' fs :
  members f !! n = Some m →
  busy_count {| shared := fs; members := <[n := m']> (members f) |} +
    (if busy (point m) then 1 else 0) =
  busy_count f + (if busy (point m') then 1 else 0).
Proof. apply (sum_list_fmap_insert (λ m, if busy (point m) then 1 else 0)). Qed.

(** While an instance is busy, no other is. *)
Lemma exclusive_others f n m n' m' :
  busy_count f ≤ 1 → members f !! n = Some m → busy (point m) = true →
  n' ≠ n → members f !! n' = Some m' → busy (point m') = false.
Proof.
  intros Hc Hm Hb Hn Hm'.
  pose proof (sum_list_fmap_two (λ m, if busy (point m) then 1 else 0) _ _ _ _ _ Hn Hm' Hm) as Hs.
  fold (busy_count f) in Hs. simpl in Hs. rewrite Hb in Hs. destruct (busy (point m')); [lia|done].
Qed.

(** When no instance is counted, none is busy. *)
Lemma busy_count_zero f n m :
  busy_count f = 0 → members f !! n = Some m → busy (point m) = false.
Proof.
  intros Hc Hm.
  pose proof (sum_list_fmap_lookup (λ m, if busy (point m) then 1 else 0) _ _ _ Hm) as Hs.
  fold (busy_count f) in Hs. simpl in Hs. destruct (busy (point m)); [lia|done].
Qed.

Lemma busy_count_launch hs w : busy_count (launch hs w) = 0.
Proof.
  unfold busy_count, launch. cbn [members]. rewrite <- list_fmap_compose.
  induction hs as [|h hs IH]; csimpl in *; [done|]. by rewrite IH.
Qed.

Lemma past_rank p : rank p = 0 → (∀ e, p ≠ Down e) → past p = true.
Proof. destruct p; simpl; try done. intros _ He. by destruct (He e). Qed.

(** ** Lemmas: the two machines *)

Section machines.
Context `{Yaml}.

Lemma turn_advance_in_turn mv f f' : turn_advance mv f = Some f' ↔ in_turn f mv f'.
Proof.
  split.
  - destruct mv as [n|n]; cbn [turn_advance].
    + destruct (fleet_advance (Step n) f) as [f1|] eqn:Hf; cbn [mbind option_bind]; [|done].
      destruct (exclusive f1) eqn:He; [|done]. intros [= <-].
      by constructor; [apply fleet_advance_step|].
    + destruct (has_open f n) eqn:Ho; [done|]. intros Hf%fleet_advance_step. by constructor.
  - intros [n f1 Hs%fleet_advance_step He|n f1 Ho Hs%fleet_advance_step]; unfold turn_advance.
    + rewrite Hs. cbn [mbind option_bind]. by rewrite He.
    + by rewrite Ho.
Qed.

Lemma turn_run_in_turns ms f f' : turn_run ms f = Some f' ↔ in_turns f ms f'.
Proof. apply exec_star. intros. symmetry. apply turn_advance_in_turn. Qed.

(** A schedule that takes turns is a schedule. *)
Lemma in_turns_schedule f ms f' : in_turns f ms f' → schedule f ms f'.
Proof.
  induction 1 as [|f1 ms f2 mv f3 _ IH Hstep]; [constructor|].
  eapply star_snoc; [exact IH|]. by destruct Hstep.
Qed.

End machines.

(** ** Lemmas: the invariant, one instance *)

Section invariant.
Context `{Yaml} (d : string) (hs : list host) (wp : gset string).
Context (c0 : value) (i : nat) (tl0 : list value).
Context (Hdir : Forall (λ h, dirname h = d) hs) (Hwp : prometheusConfigPath d ∉ wp).

Local Abbreviation path := (prometheusConfigPath d).
Local Abbreviation doc := (with_targets c0 i).

Lemma targets_next_mono h p tl x : x ∈ tl → x ∈ targets_next h p tl.
Proof. destruct p; simpl; try done. intros Hx. apply elem_of_listed. by left. Qed.

(** An instance that is not busy is not concerned by the file, and
    stays listed when the target set grows. *)
Lemma at_ok_idle tl tl' fs fs' h p :
  busy p = false → (∀ x, x ∈ tl → x ∈ tl') →
  at_ok d c0 i tl fs h p → at_ok d c0 i tl' fs' h p.
Proof. destruct p; simpl; try done; intros _ Htl; apply Htl. Qed.

(** A busy instance that has not opened the file left it as it read
    it. *)
Lemma at_ok_reads tl fs h p :
  at_ok d c0 i tl fs h p → busy p = true → (if p is AtFill _ then False else True) →
  file_reads d fs (doc tl).
Proof. destruct p; simpl; try done; [by intros [<- ?]|by intros [_ ?]]. Qed.

Lemma read_config_reads h w c :
  h ∈ hs → file_reads d (files w) c → read_config (member_path h) w = Ok c.
Proof.
  intros Hh (text & Hf & Hl). rewrite (member_path_shared d hs Hdir h Hh).
  unfold read_config, readFileSync. by rewrite Hf.
Qed.

(** Line 148 on a document of the family, in a directory that can be
    written: the file is opened and emptied. *)
Lemma open_reads h w tl :
  h ∈ hs → write_protected w = wp → descends c0 i tl (doc tl) →
  ∃ text w',
    advance_member h (AtWrite (doc tl)) w = Some (AtFill text, w') ∧
    load text = Ok (doc tl) ∧ files w' = <[path := ""]> (files w).
Proof.
  intros Hh Hw Hc. destruct (printed_loaded _ (descends_loaded _ _ _ _ Hc)) as (text & Hd & Hl).
  exists text. eexists. cbn [advance_member]. rewrite Hd, (member_path_shared d hs Hdir h Hh).
  cbn [result_bind]. unfold openSync_w. rewrite decide_False by (by rewrite Hw).
  split_and!; [reflexivity|done|done].
Qed.

(** One step of an instance of a fleet that takes turns. *)
Lemma advance_member_turn h p w r tl :
  h ∈ hs → write_protected w = wp → descends c0 i tl (doc tl) →
  at_ok d c0 i tl (files w) h p → (p = AtRead → file_reads d (files w) (doc tl)) →
  advance_member h p w = Some r →
  at_ok d c0 i (targets_next h p tl) (files r.2) h r.1 ∧
  (busy p = true → busy r.1 = false →
   file_reads d (files r.2) (doc (targets_next h p tl))) ∧
  (busy p = false → files r.2 = files w) ∧
  S (rank r.1) = rank p.
Proof.
  intros Hh Hw Hc Hp Hr.
  pose proof (descends_register (member_target h) _ _ _ _ Hc) as [Hreg Hc'].
  destruct p as [| |c|c|text| | | |e]; cbn [targets_next busy]; try done.
  - by intros [= <-].
  - cbn [advance_member]. rewrite (read_config_reads h w _ Hh (Hr eq_refl)).
    intros [= <-]. split_and!; [|done..]. split; [done|]. by apply Hr.
  - destruct Hp as [-> Hf]. cbn [advance_member]. rewrite Hreg. by intros [= <-].
  - destruct Hp as [-> Hf]. destruct (open_reads h w _ Hh Hw Hc') as (text & w' & -> & Hl & Hfs).
    intros [= <-]. split_and!; [|done..]. split; [done|]. cbn [snd]. by rewrite Hfs, lookup_insert_eq.
  - destruct Hp as [Hl _]. intros [= <-].
    cbn [fst snd files console_log print writeSync at_ok busy].
    rewrite (member_path_shared d hs Hdir h Hh).
    split_and!; [apply elem_of_listed; by right| |done..].
    intros _ _. exists text. by rewrite lookup_insert_eq.
  - by intros [= <-].
  - by intros [= <-].
Qed.

(** ** Lemmas: the invariant, the fleet *)

Lemma all_listed_written_next h p ts :
  all_listed (written_next h p ts) tl0 = targets_next h p (all_listed ts tl0).
Proof. destruct p; try done. unfold all_listed. simpl. by rewrite foldl_app. Qed.

Lemma targets_next_idle h p tl : busy p = false → targets_next h p tl = tl.
Proof. by destruct p. Qed.

Lemma turns_ok_member ts f n m :
  turns_ok d hs wp c0 i tl0 ts f → members f !! n = Some m →
  on m ∈ hs ∧ write_protected (sync (shared f) (view m)) = wp ∧
  at_ok d c0 i (all_listed ts tl0) (shared f) (on m) (point m).
Proof.
  intros Hok Hm.
  destruct (fleet_ok_member d hs wp c0 i tl0 f n m (turns_fleet _ _ _ _ _ _ _ _ Hok) Hm)
    as (Hh & _ & Hw).
  split_and!; [done..|]. exact (Forall_lookup_1 _ _ _ _ (turns_points _ _ _ _ _ _ _ _ Hok) Hm).
Qed.

(** An instance can read only while no instance is busy. *)
Lemma reader_alone ts f n m r :
  turns_ok d hs wp c0 i tl0 ts f → members f !! n = Some m → point m = AtRead →
  advance_member (on m) (point m) (sync (shared f) (view m)) = Some r →
  busy_count {| shared := files r.2; members := <[n := moved m r]> (members f) |} ≤ 1 →
  busy_count f = 0.
Proof.
  intros Hok Hm Hp Hr Hex. destruct (turns_ok_member ts f n m Hok Hm) as (Hh & _ & _).
  pose proof (busy_count_insert f n m (moved m r) (files r.2) Hm) as Hc.
  rewrite Hp in Hr, Hc. cbn [advance_member] in Hr.
  destruct (read_ok d hs c0 i tl0 Hdir (on m) (sync (shared f) (view m)) Hh) as (c & Hrd & _);
    [apply (fleet_file _ _ _ _ _ _ _ (turns_fleet _ _ _ _ _ _ _ _ Hok))|].
  rewrite Hrd in Hr. injection Hr as <-. cbn [moved point fst busy] in Hc. lia.
Qed.

(** The instances that do not move, after a step of another. *)
Lemma others_turn ts f n m (r : pc * world) n' x :
  turns_ok d hs wp c0 i tl0 ts f → members f !! n = Some m →
  (busy (point m) = false → files r.2 = shared f) →
  n' ≠ n → members f !! n' = Some x →
  at_ok d c0 i (targets_next (on m) (point m) (all_listed ts tl0)) (files r.2)
    (on x) (point x).
Proof.
  intros Hok Hm Hquiet Hn Hx. destruct (turns_ok_member ts f n' x Hok Hx) as (_ & _ & Hat).
  destruct (busy (point m)) eqn:Hb.
  - eapply at_ok_idle; [|apply targets_next_mono|exact Hat].
    exact (exclusive_others f n m n' x (turns_exclusive _ _ _ _ _ _ _ _ Hok) Hm Hb Hn Hx).
  - by rewrite Hquiet, targets_next_idle.
Qed.

(** The file after a step, when no instance is busy any more. *)
Lemma free_after ts f n m (r : pc * world) :
  turns_ok d hs wp c0 i tl0 ts f → members f !! n = Some m →
  (busy (point m) = true → busy r.1 = false →
   file_reads d (files r.2) (doc (targets_next (on m) (point m) (all_listed ts tl0)))) →
  (busy (point m) = false → files r.2 = shared f) →
  busy_count {| shared := files r.2; members := <[n := moved m r]> (members f) |} = 0 →
  file_reads d (files r.2) (doc (targets_next (on m) (point m) (all_listed ts tl0))).
Proof.
  intros Hok Hm Hleave Hquiet Hc.
  pose proof (busy_count_insert f n m (moved m r) (files r.2) Hm) as Hi.
  assert (busy r.1 = false) as Hr.
  { apply (busy_count_zero _ n (moved m r) Hc), list_lookup_insert_eq.
    by eapply lookup_lt_Some. }
  cbn [moved point] in Hi. rewrite Hr in Hi. destruct (busy (point m)) eqn:Hb; [by apply Hleave|].
  rewrite Hquiet, targets_next_idle by done. apply (turns_free _ _ _ _ _ _ _ _ Hok). lia.
Qed.

(** A step after which at most one instance is busy keeps the
    invariant. *)
Lemma moved_turns_ok ts f n m r :
  turns_ok d hs wp c0 i tl0 ts f → members f !! n = Some m →
  advance_member (on m) (point m) (sync (shared f) (view m)) = Some r →
  busy_count {| shared := files r.2; members := <[n := moved m r]> (members f) |} ≤ 1 →
  turns_ok d hs wp c0 i tl0 (written_next (on m) (point m) ts)
    {| shared := files r.2; members := <[n := moved m r]> (members f) |} ∧
  S (rank r.1) = rank (point m).
Proof.
  intros Hok Hm Hr Hex. pose proof (fleet_step_ok d hs wp c0 i tl0 Hdir f _ _
    (turns_fleet _ _ _ _ _ _ _ _ Hok) (FleetStep f n m r Hm Hr)) as Hfl.
  destruct (turns_ok_member ts f n m Hok Hm) as (Hh & Hw & Hat).
  destruct (advance_member_turn (on m) (point m) _ r _ Hh Hw
              (turns_doc _ _ _ _ _ _ _ _ Hok) Hat) as (Hat' & Hleave & Hquiet & Hrank); [|done|].
  { intros Hp. apply (turns_free _ _ _ _ _ _ _ _ Hok). by eapply reader_alone. }
  split; [|done]. split; [done| | | | |done].
  - destruct (point m); try apply (turns_from _ _ _ _ _ _ _ _ Hok).
    intros t [?|Ht%list_elem_of_singleton]%elem_of_app;
      [by apply (turns_from _ _ _ _ _ _ _ _ Hok)|].
    subst t. by apply list_elem_of_fmap_2.
  - rewrite all_listed_written_next.
    destruct (point m); try apply (turns_doc _ _ _ _ _ _ _ _ Hok).
    apply (descends_register _ _ _ _ _ (turns_doc _ _ _ _ _ _ _ _ Hok)).
  - rewrite all_listed_written_next. cbn [shared members].
    eapply Forall_insert_others; [apply (turns_points _ _ _ _ _ _ _ _ Hok)| |exact Hat'].
    intros n' x Hn Hx _. by apply (others_turn ts f n m r n' x).
  - rewrite all_listed_written_next. by apply (free_after ts f n m r).
Qed.

Lemma step_turns_ok ts f n f' :
  turns_ok d hs wp c0 i tl0 ts f → fleet_step f (Step n) f' → busy_count f' ≤ 1 →
  ∃ ts', turns_ok d hs wp c0 i tl0 ts' f'.
Proof.
  intros Hok Hstep Hex. inversion Hstep as [? m r Hm Hr|]; subst.
  eexists. by apply (moved_turns_ok ts f n m r).
Qed.

(** So does the restart of an instance that has not the file open. *)
Lemma restart_turns_ok ts f n f' :
  turns_ok d hs wp c0 i tl0 ts f → has_open f n = false → fleet_step f (Restart n) f' →
  turns_ok d hs wp c0 i tl0 ts f'.
Proof.
  intros Hok Ho Hstep. pose proof (fleet_step_ok d hs wp c0 i tl0 Hdir f _ f'
    (turns_fleet _ _ _ _ _ _ _ _ Hok) Hstep) as Hfl.
  inversion Hstep as [|? m Hm]; subst.
  destruct (turns_ok_member ts f n m Hok Hm) as (_ & _ & Hat).
  pose proof (busy_count_insert f n m (restarted m) (shared f) Hm) as Hc. simpl in Hc.
  pose proof (turns_exclusive _ _ _ _ _ _ _ _ Hok) as Hex.
  unfold has_open in Ho. rewrite Hm in Ho. simpl in Ho.
  split; [done|apply Hok|apply Hok| | |].
  - apply Forall_insert; [apply Hok|done].
  - intros Hz. cbn [shared]. destruct (busy (point m)) eqn:Hb.
    + apply (at_ok_reads _ _ _ _ Hat Hb). by destruct (point m).
    + apply (turns_free _ _ _ _ _ _ _ _ Hok). lia.
  - destruct (busy (point m)); lia.
Qed.

Lemma in_turns_ok f ms f' :
  (∃ ts, turns_ok d hs wp c0 i tl0 ts f) → in_turns f ms f' →
  ∃ ts, turns_ok d hs wp c0 i tl0 ts f'.
Proof.
  intros Hok Hs. eapply (star_invariant _ (λ f, ∃ ts, turns_ok d hs wp c0 i tl0 ts f)); [|done..].
  intros f1 mv f2 [ts Hts] [n f3 Hstep He|n f3 Ho Hstep].
  - apply (step_turns_ok ts f1 n f3 Hts Hstep). by apply bool_decide_eq_true in He.
  - exists ts. by apply (restart_turns_ok ts f1 n f3).
Qed.

(** The instances just started on a settled document. *)
Lemma launch_turns_ok w text :
  settled c0 i = true → targets_of c0 i = Some tl0 →
  files w !! path = Some text → load text = Ok c0 → write_protected w = wp →
  turns_ok d hs wp c0 i tl0 [] (launch hs w).
Proof.
  intros Hs Htl Hf Hl Hw. pose proof (with_targets_id c0 i tl0 Hs Htl) as Hid.
  split; cbn [all_listed foldl].
  - by eapply launch_ok.
  - set_solver.
  - rewrite Hid. by apply descends_refl.
  - unfold launch. cbn [members]. by apply Forall_fmap, Forall_true.
  - intros _. rewrite Hid. by exists text.
  - rewrite busy_count_launch. lia.
Qed.

End invariant.

(** ** Lemmas: a turn can always be taken *)

Section progress.
Context `{Yaml}.

Lemma weight_zero f n m : weight f = 0 → members f !! n = Some m → rank (point m) = 0.
Proof.
  intros Hw Hm. pose proof (sum_list_fmap_lookup (λ m, rank (point m)) _ _ _ Hm) as Hs.
  fold (weight f) in Hs. simpl in Hs. lia.
Qed.

Lemma busy_rank p : busy p = true → rank p ≠ 0.
Proof. by destruct p. Qed.

(** When all instances are at their end, none is busy. *)
Lemma weight_zero_free f : weight f = 0 → busy_count f = 0.
Proof.
  intros Hw. destruct (decide (busy_count f = 0)) as [|Hc]; [done|].
  destruct (sum_list_fmap_pos (λ m, if busy (point m) then 1 else 0) (members f))
    as (n & m & Hm & Hb); [unfold busy_count in Hc; lia|].
  pose proof (weight_zero f n m Hw Hm) as Hr. simpl in Hb.
  destruct (busy (point m)) eqn:Hbusy; [by apply busy_rank in Hbusy|lia].
Qed.

(** The instance whose turn it is: the busy one, or any that is not at
    its end when none is busy. *)
Lemma next_in_turn f :
  busy_count f ≤ 1 → weight f ≠ 0 →
  ∃ n m, members f !! n = Some m ∧ rank (point m) ≠ 0 ∧
    (if busy (point m) then 1 else 0) = busy_count f.
Proof.
  intros Hex Hw. destruct (decide (busy_count f = 0)) as [Hc|Hc].
  - destruct (sum_list_fmap_pos (λ m, rank (point m)) (members f)) as (n & m & Hm & Hr);
      [unfold weight in Hw; lia|].
    exists n, m. split_and!; [done|simpl in Hr; lia|].
    by rewrite (busy_count_zero f n m Hc Hm).
  - destruct (sum_list_fmap_pos (λ m, if busy (point m) then 1 else 0) (members f))
      as (n & m & Hm & Hb); [unfold busy_count in Hc; lia|].
    exists n, m. simpl in Hb. destruct (busy (point m)) eqn:Hbusy; [|lia].
    split_and!; [done|by apply busy_rank|lia].
Qed.

(** Taking turns never blocks: as long as an instance is not at its
    end, some instance can take a step that leaves at most one busy. *)
Lemma turn_progress f :
  busy_count f ≤ 1 → weight f ≠ 0 → ∃ n f', in_turn f (Step n) f'.
Proof.
  intros Hex Hw. destruct (next_in_turn f Hex Hw) as (n & m & Hm & Hr & Hb).
  destruct (fleet_progress f n m Hm Hr) as [f' Hstep]. exists n, f'.
  constructor; [done|]. apply bool_decide_eq_true.
  inversion Hstep as [? m' r Hm' Hadv|]; subst. assert (m' = m) as -> by congruence.
  pose proof (busy_count_insert f n m (moved m r) (files r.2) Hm) as Hc.
  destruct (busy (point (moved m r))); lia.
Qed.

End progress.

(** ** Lemmas: the order of the writes *)

Section order.
Context `{Yaml} (d : string) (hs : list host) (wp : gset string).
Context (c0 : value) (i : nat) (tl0 : list value).
Context (Hdir : Forall (λ h, dirname h = d) hs) (Hwp : prometheusConfigPath d ∉ wp).

(** A step that takes no shortcut: the instance is past its write
    after it when it was before, or when the step is the write. *)
Lemma past_next p p' :
  S (rank p') = rank p → (∀ e, p' ≠ Down e) →
  past p' = past p || (if p is AtFill _ then true else false).
Proof. destruct p, p'; simpl; try done; try lia. intros _ He. by destruct (He e). Qed.

Lemma elem_of_order_next n' n p ws :
  n' ∈ order_next n p ws ↔ n' ∈ ws ∨ (n' = n ∧ if p is AtFill _ then True else False).
Proof.
  destruct p; simpl; try naive_solver.
  rewrite elem_of_app, list_elem_of_singleton. naive_solver.
Qed.

Lemma targets_in_order_next n h p ws :
  hs !! n = Some h →
  targets_in hs (order_next n p ws) = written_next h p (targets_in hs ws).
Proof.
  intros Hn. destruct p; try done. unfold targets_in. simpl.
  rewrite omap_app. csimpl. by rewrite Hn.
Qed.

Lemma turns_ok_host ts f n m :
  turns_ok d hs wp c0 i tl0 ts f → members f !! n = Some m → hs !! n = Some (on m).
Proof.
  intros Hok Hm.
  rewrite <- (fleet_hosts _ _ _ _ _ _ _ (turns_fleet _ _ _ _ _ _ _ _ Hok)).
  by rewrite list_lookup_fmap, Hm.
Qed.

Lemma turns_ok_not_down ts f n m e :
  turns_ok d hs wp c0 i tl0 ts f → members f !! n = Some m → point m ≠ Down e.
Proof.
  intros Hok Hm Hp.
  pose proof (Forall_lookup_1 _ _ _ _ (turns_points _ _ _ _ _ _ _ _ Hok) Hm) as Hat.
  simpl in Hat. by rewrite Hp in Hat.
Qed.

(** A step keeps the order of the writes. *)
Lemma moved_in_order ws f n m r :
  in_order d hs wp c0 i tl0 ws f → members f !! n = Some m →
  advance_member (on m) (point m) (sync (shared f) (view m)) = Some r →
  busy_count {| shared := files r.2; members := <[n := moved m r]> (members f) |} ≤ 1 →
  in_order d hs wp c0 i tl0 (order_next n (point m) ws)
    {| shared := files r.2; members := <[n := moved m r]> (members f) |}.
Proof.
  intros [Hok Hnd Hpast] Hm Hr Hex.
  destruct (moved_turns_ok d hs wp c0 i tl0 Hdir Hwp _ f n m r Hok Hm Hr Hex) as [Hok' Hrank].
  pose proof (lookup_lt_Some _ _ _ Hm) as Hlt.
  assert (past r.1 = past (point m) || (if point m is AtFill _ then true else false)) as Hp.
  { apply past_next; [done|]. intros e.
    apply (turns_ok_not_down _ _ n (moved m r) e Hok'), list_lookup_insert_eq, Hlt. }
  split.
  - by rewrite (targets_in_order_next n (on m) _ _ (turns_ok_host _ f n m Hok Hm)).
  - destruct (point m) eqn:Hpm; try done. apply NoDup_app. split_and!; [done| |apply NoDup_singleton].
    intros n' (m' & Hm' & Hp')%Hpast ->%list_elem_of_singleton.
    rewrite Hm in Hm'. injection Hm' as <-. by rewrite Hpm in Hp'.
  - intros n'. rewrite elem_of_order_next, Hpast. cbn [members].
    destruct (decide (n' = n)) as [->|Hn].
    + rewrite list_lookup_insert_eq by done. split.
      * intros Hn. exists (moved m r). split; [done|]. cbn [moved point]. rewrite Hp.
        destruct Hn as [(m' & Hm' & Hp')|[_ Hfill]]; [|by destruct (point m); rewrite ?orb_true_r].
        rewrite Hm in Hm'. injection Hm' as <-. by rewrite Hp'.
      * intros (m' & [= <-] & Hp'). cbn [moved point] in Hp'. rewrite Hp in Hp'.
        apply orb_true_iff in Hp' as [Hp'|Hp']; [left; by exists m|right].
        by destruct (point m).
    + rewrite list_lookup_insert_ne by done. naive_solver.
Qed.

Lemma steps_in_order f ns f' :
  (∃ ws, in_order d hs wp c0 i tl0 ws f) → in_turns f (Step <$> ns) f' →
  ∃ ws, in_order d hs wp c0 i tl0 ws f'.
Proof.
  revert f. induction ns as [|n ns IH]; intros f Hf; csimpl.
  - by intros <-%star_nil_inv.
  - intros (f1 & Hstep & Hs)%star_cons_inv. apply (IH f1); [|done]. destruct Hf as [ws Hws].
    inversion Hstep as [? ? Hfs He|]; subst. inversion Hfs as [? m r Hm Hr|]; subst.
    eexists. apply (moved_in_order ws f n m r Hws Hm Hr). by apply bool_decide_eq_true in He.
Qed.

Lemma launch_in_order w text :
  settled c0 i = true → targets_of c0 i = Some tl0 →
  files w !! prometheusConfigPath d = Some text → load text = Ok c0 →
  write_protected w = wp → in_order d hs wp c0 i tl0 [] (launch hs w).
Proof.
  intros Hs Htl Hf Hl Hw. split; [by eapply launch_turns_ok|constructor|].
  intros n. split; [by intros ?%elem_of_nil|]. intros (m & Hm & Hp).
  unfold launch in Hm. cbn [members] in Hm.
  apply list_lookup_fmap_Some_1 in Hm as (h & -> & _). done.
Qed.

(** When all instances are at their end, every one of them has
    written, once. *)
Lemma in_order_all ws f :
  in_order d hs wp c0 i tl0 ws f → weight f = 0 → ws ≡ₚ seq 0 (length hs).
Proof.
  intros [Hok Hnd Hpast] Hw. apply NoDup_Permutation; [done|apply NoDup_seq|].
  pose proof (fleet_hosts _ _ _ _ _ _ _ (turns_fleet _ _ _ _ _ _ _ _ Hok)) as Hon.
  intros n. rewrite elem_of_seq, Hpast, <- Hon, length_fmap. split.
  - intros (m & Hm%lookup_lt_Some & _). lia.
  - intros [_ Hn]. destruct (lookup_lt_is_Some_2 (members f) n) as [m Hm]; [lia|].
    exists m. split; [done|]. apply past_rank; [by apply (weight_zero f n)|].
    intros e. by apply (turns_ok_not_down _ f n m e Hok).
Qed.

End order.

(** * Theorems *)

Section turns.
Context `{Yaml} (d : string) (c0 : value) (i : nat) (tl0 : list value).
Context (Hc0 : settled c0 i = true) (Htl0 : targets_of c0 i = Some tl0).

Local Abbreviation path := (prometheusConfigPath d).

(** [C8] With one writer at a time every registration is kept: when
    instances that share the directory start on a settled document and
    take turns at the file, in any order and with any steps of the
    others in between, and none is started again while it has the file
    open, then no instance goes down, the target set
    begins with the addresses listed at the start, has no address
    twice if it had none, has gained addresses of the fleet only, and
    has the address of every instance that is past its write; and
    whenever no instance is busy the file reads as the document with
    that target set. *)
Theorem turns_register hs w text ms f :
  files w !! path = Some text → load text = Ok c0 → path ∉ write_protected w →
  Forall (λ h, dirname h = d) hs → in_turns (launch hs w) ms f →
  ∃ tl, tl0 `prefix_of` tl ∧ (NoDup tl0 → NoDup tl) ∧
    (∀ x, x ∈ tl → x ∈ tl0 ∨ ∃ h, h ∈ hs ∧ x = VString (member_target h)) ∧
    (∀ n m, members f !! n = Some m →
       (∀ e, point m ≠ Down e) ∧
       (past (point m) = true → VString (member_target (on m)) ∈ tl)) ∧
    (busy_count f = 0 → holds d c0 i tl f).
Proof.
  intros Hf Hl Hwp Hdir Hs.
  destruct (in_turns_ok d hs (write_protected w) c0 i tl0 Hdir Hwp (launch hs w) ms f) as [ts Hok];
    [exists []; by eapply launch_turns_ok|done|].
  exists (all_listed ts tl0). split_and!; [apply all_listed_prefix|apply all_listed_NoDup| | |].
  - intros x [?|(t & Ht & ->)]%elem_of_all_listed; [by left|right].
    apply (turns_from _ _ _ _ _ _ _ _ Hok), list_elem_of_fmap in Ht as (h & -> & Hh). by exists h.
  - intros n m Hm. pose proof (Forall_lookup_1 _ _ _ _ (turns_points _ _ _ _ _ _ _ _ Hok) Hm) as Hat.
    simpl in Hat. split; [intros e He; by rewrite He in Hat|]. by destruct (point m).
  - intros (text' & Hf' & Hl')%(turns_free _ _ _ _ _ _ _ _ Hok).
    exists text', (with_targets c0 i (all_listed ts tl0)).
    split_and!; [done..|]. apply (turns_doc _ _ _ _ _ _ _ _ Hok).
Qed.

(** [C22] Taking turns ends with every instance registered, when no
    instance is started again while it has the file open: as long as
    an instance is not at its end some instance can take its turn,
    and when all are at their end every instance is [Up] and the file
    reads as the document with a target set that has the address of
    every instance. *)
Theorem turns_complete hs w text ms f :
  files w !! path = Some text → load text = Ok c0 → path ∉ write_protected w →
  Forall (λ h, dirname h = d) hs → in_turns (launch hs w) ms f →
  (weight f ≠ 0 → ∃ n f', in_turn f (Step n) f') ∧
  (weight f = 0 →
   ∃ tl, holds d c0 i tl f ∧
     ∀ n h, hs !! n = Some h →
       VString (member_target h) ∈ tl ∧ point <$> members f !! n = Some Up).
Proof.
  intros Hf Hl Hwp Hdir Hs.
  destruct (in_turns_ok d hs (write_protected w) c0 i tl0 Hdir Hwp (launch hs w) ms f) as [ts Hok];
    [exists []; by eapply launch_turns_ok|done|].
  split; [apply turn_progress, Hok|]. intros Hw. exists (all_listed ts tl0). split.
  - destruct (turns_free _ _ _ _ _ _ _ _ Hok (weight_zero_free f Hw)) as (text' & Hf' & Hl').
    exists text', (with_targets c0 i (all_listed ts tl0)).
    split_and!; [done..|]. apply (turns_doc _ _ _ _ _ _ _ _ Hok).
  - intros n h Hn.
    rewrite <- (fleet_hosts _ _ _ _ _ _ _ (turns_fleet _ _ _ _ _ _ _ _ Hok)) in Hn.
    rewrite list_lookup_fmap in Hn. destruct (members f !! n) as [m|] eqn:Hm; [|done].
    injection Hn as <-. pose proof (weight_zero f n m Hw Hm) as Hr.
    pose proof (Forall_lookup_1 _ _ _ _ (turns_points _ _ _ _ _ _ _ _ Hok) Hm) as Hat.
    simpl in *. by destruct (point m).
Qed.

(** [C23] A schedule that takes turns is serializable: when no
    instance is started again and all instances have come to their
    end, the file reads as the same document as after the instances
    ran one after the other, each from its first line to its last, in
    the order in which they wrote; every instance wrote once. *)
Theorem turns_serializable hs w text ns f :
  files w !! path = Some text → load text = Ok c0 → path ∉ write_protected w →
  Forall (λ h, dirname h = d) hs → in_turns (launch hs w) (Step <$> ns) f → weight f = 0 →
  ∃ ws, ws ≡ₚ seq 0 (length hs) ∧
    ∃ tl, holds d c0 i tl f ∧ holds d c0 i tl (serial ws (launch hs w)).
Proof.
  intros Hf Hl Hwp Hdir Hs Hw.
  destruct (steps_in_order d hs (write_protected w) c0 i tl0 Hdir Hwp (launch hs w) ns f)
    as [ws Hws]; [exists []; by eapply launch_in_order|done|].
  pose proof (in_order_all d hs _ c0 i tl0 ws f Hws Hw) as Hperm.
  destruct Hws as [Hok Hnd _]. exists ws. split; [done|].
  exists (all_listed (targets_in hs ws) tl0). split.
  - destruct (turns_free _ _ _ _ _ _ _ _ Hok (weight_zero_free f Hw)) as (text' & Hf' & Hl').
    exists text', (with_targets c0 i (all_listed (targets_in hs ws) tl0)).
    split_and!; [done..|]. apply (turns_doc _ _ _ _ _ _ _ _ Hok).
  - apply (serial_holds d c0 i hs ws (launch hs w) tl0); [|done..| |].
    + unfold launch. cbn [members]. rewrite <- list_fmap_compose. apply list_fmap_id.
    + intros n Hn. rewrite Hperm in Hn. apply elem_of_seq in Hn as [_ Hn].
      destruct (lookup_lt_is_Some_2 hs n Hn) as [h Hh].
      exists {| on := h; point := AtStart; view := w |}. split_and!; [|done..].
      unfold launch. cbn [members]. by rewrite list_lookup_fmap, Hh.
    + exists text, c0. split_and!; [done..|by apply descends_refl].
Qed.

End turns.

(** The schedule of [FleetSafety.lost_update] does not take turns: the
    second instance reads while the first is busy. *)
Lemma racing_not_in_turns : ∀ f, ¬ in_turns (H := RefCodec) pair racing f.
Proof. intros f Hf%turn_run_in_turns. vm_compute in Hf. discriminate. Qed.

Lemma turns_register_witness :
  ∃ tl, [VString "10.0.0.1:8000"] `prefix_of` tl ∧
    (NoDup [VString "10.0.0.1:8000"] → NoDup tl) ∧
    (∀ x, x ∈ tl → x ∈ [VString "10.0.0.1:8000"] ∨
       ∃ h, h ∈ [app_host; second_host] ∧ x = VString (member_target h)) ∧
    (∀ n m, members after_by_turns !! n = Some m →
       (∀ e, point m ≠ Down e) ∧
       (past (point m) = true → VString (member_target (on m)) ∈ tl)) ∧
    (busy_count after_by_turns = 0 → holds (H := RefCodec) "/app" doc3 1 tl after_by_turns).
Proof.
  apply (turns_register (H := RefCodec) "/app" doc3 1 [VString "10.0.0.1:8000"]
           eq_refl eq_refl [app_host; second_host] (disk (ref_print doc3)) (ref_print doc3)
           by_turns).
  - reflexivity.
  - vm_compute. reflexivity.
  - vm_compute. set_solver.
  - repeat constructor.
  - apply turn_run_in_turns. vm_compute. reflexivity.
Defined.

Lemma turns_complete_witness :
  (weight after_by_turns ≠ 0 → ∃ n f', in_turn (H := RefCodec) after_by_turns (Step n) f') ∧
  (weight after_by_turns = 0 →
   ∃ tl, holds (H := RefCodec) "/app" doc3 1 tl after_by_turns ∧
     ∀ n h, [app_host; second_host] !! n = Some h →
       VString (member_target h) ∈ tl ∧ point <$> members after_by_turns !! n = Some Up).
Proof.
  apply (turns_complete (H := RefCodec) "/app" doc3 1 [VString "10.0.0.1:8000"]
           eq_refl eq_refl [app_host; second_host] (disk (ref_print doc3)) (ref_print doc3)
           by_turns).
  - reflexivity.
  - vm_compute. reflexivity.
  - vm_compute. set_solver.
  - repeat constructor.
  - apply turn_run_in_turns. vm_compute. reflexivity.
Defined.

Lemma turns_serializable_witness :
  ∃ ws, ws ≡ₚ seq 0 (length [app_host; second_host]) ∧
    ∃ tl, holds (H := RefCodec) "/app" doc3 1 tl after_by_turns ∧
      holds (H := RefCodec) "/app" doc3 1 tl (serial (H := RefCodec) ws pair).
Proof.
  apply (turns_serializable (H := RefCodec) "/app" doc3 1 [VString "10.0.0.1:8000"]
           eq_refl eq_refl [app_host; second_host] (disk (ref_print doc3)) (ref_print doc3)
           [0; 1; 0; 0; 0; 0; 1; 0; 1; 1; 0; 1; 1; 1]).
  - reflexivity.
  - vm_compute. reflexivity.
  - vm_compute. set_solver.
  - repeat constructor.
  - apply turn_run_in_turns. vm_compute. reflexivity.
  - vm_compute. reflexivity.
Defined.
